(** * canvas2d: scene-graph sprites and the action engine

    A shallow embedding of [Sprite] (layout setters, [addChild], the texture
    setter) and of the action engine ([Callback], [Delay], [Transition],
    [Animation], [Listener], [Action]) together with the properties the
    specification states about them.

    Conventions of the embedding.
    - A JavaScript number is an exact rational ([Qc]); [===] on numbers is
      equality of rationals.  Rounding, [NaN], the infinities and hence
      division by zero are outside the model.
    - Objects live in stores indexed by identifiers: a sprite reference is a
      key of a [gmap nat Sprite], so two references to one sprite alias.
    - [null]/[undefined] of an optional field is [None].
    - A function returns [None] when the JavaScript call has no normal
      result: a property read through a [null] reference, or a recursion
      that exhausts its fuel (the setters recurse along [children]).
    - User callbacks are opaque: invoking callback [f] appends [f] to the
      [fired] log of the engine state. *)

From Stdlib Require Import QArith Qcanon.
From stdpp Require Import base option list numbers strings gmap fin_maps relations.

Local Open Scope Qc_scope.

(** ** Numbers *)

Definition num_eqb (a b : Qc) : bool := bool_decide (a = b).
Definition num_geb (a b : Qc) : bool := bool_decide (b ≤ a).
Definition half : Qc := Q2Qc (1 # 2).

(** ** Textures

    [Texture] is an external collaborator; the sprite reads [width], [height]
    and [ready] and registers with [onReady].  Object identity is [tex_id]. *)

Record Texture : Type := mkTexture {
  tex_id : nat;
  tex_width : Qc;
  tex_height : Qc;
  tex_ready : bool
}.

Inductive texref : Type :=
  | TexUndefined
  | TexNull
  | TexObj (t : Texture).

(** [a === b] on texture references. *)
Definition texref_same (a b : texref) : bool :=
  match a, b with
  | TexUndefined, TexUndefined => true
  | TexNull, TexNull => true
  | TexObj t1, TexObj t2 => bool_decide (tex_id t1 = tex_id t2)
  | _, _ => false
  end.

(** The value assigned to [sprite.texture]: [Texture | string]. *)
Inductive texvalue : Type :=
  | ValString (s : string)
  | ValRef (r : texref).

(** ** Sprites *)

Inductive AlignType : Type := TOP | RIGHT | BOTTOM | LEFT | CENTER.

#[global] Instance AlignType_eq_dec : EqDecision AlignType.
Proof. solve_decision. Defined.

Record Sprite : Type := mkSprite {
  _width : Qc;
  _height : Qc;
  _originX : Qc;
  _originY : Qc;
  _originPixelX : Qc;
  _originPixelY : Qc;
  x : Qc;
  y : Qc;
  scaleX : Qc;
  scaleY : Qc;
  opacity : Qc;
  _top : option Qc;
  _right : option Qc;
  _bottom : option Qc;
  _left : option Qc;
  _percentWidth : option Qc;
  _percentHeight : option Qc;
  _alignX : option AlignType;
  _alignY : option AlignType;
  autoResize : bool;
  _texture : texref;
  _grid : option (list Qc);
  _parent : option nat;
  _stage : option nat;
  children : option (list nat)
}.

Definition with_width (v : Qc) (s : Sprite) : Sprite :=
  mkSprite v (_height s) (_originX s) (_originY s) (_originPixelX s)
    (_originPixelY s) (x s) (y s) (scaleX s) (scaleY s) (opacity s) (_top s)
    (_right s) (_bottom s) (_left s) (_percentWidth s) (_percentHeight s)
    (_alignX s) (_alignY s) (autoResize s) (_texture s) (_grid s)
    (_parent s) (_stage s) (children s).

Definition with_height (v : Qc) (s : Sprite) : Sprite :=
  mkSprite (_width s) v (_originX s) (_originY s) (_originPixelX s)
    (_originPixelY s) (x s) (y s) (scaleX s) (scaleY s) (opacity s) (_top s)
    (_right s) (_bottom s) (_left s) (_percentWidth s) (_percentHeight s)
    (_alignX s) (_alignY s) (autoResize s) (_texture s) (_grid s)
    (_parent s) (_stage s) (children s).

Definition with_originX (v : Qc) (s : Sprite) : Sprite :=
  mkSprite (_width s) (_height s) v (_originY s) (_originPixelX s)
    (_originPixelY s) (x s) (y s) (scaleX s) (scaleY s) (opacity s) (_top s)
    (_right s) (_bottom s) (_left s) (_percentWidth s) (_percentHeight s)
    (_alignX s) (_alignY s) (autoResize s) (_texture s) (_grid s)
    (_parent s) (_stage s) (children s).

Definition with_originY (v : Qc) (s : Sprite) : Sprite :=
  mkSprite (_width s) (_height s) (_originX s) v (_originPixelX s)
    (_originPixelY s) (x s) (y s) (scaleX s) (scaleY s) (opacity s) (_top s)
    (_right s) (_bottom s) (_left s) (_percentWidth s) (_percentHeight s)
    (_alignX s) (_alignY s) (autoResize s) (_texture s) (_grid s)
    (_parent s) (_stage s) (children s).

Definition with_originPixelX (v : Qc) (s : Sprite) : Sprite :=
  mkSprite (_width s) (_height s) (_originX s) (_originY s) v
    (_originPixelY s) (x s) (y s) (scaleX s) (scaleY s) (opacity s) (_top s)
    (_right s) (_bottom s) (_left s) (_percentWidth s) (_percentHeight s)
    (_alignX s) (_alignY s) (autoResize s) (_texture s) (_grid s)
    (_parent s) (_stage s) (children s).

Definition with_originPixelY (v : Qc) (s : Sprite) : Sprite :=
  mkSprite (_width s) (_height s) (_originX s) (_originY s)
    (_originPixelX s) v (x s) (y s) (scaleX s) (scaleY s) (opacity s)
    (_top s) (_right s) (_bottom s) (_left s) (_percentWidth s)
    (_percentHeight s) (_alignX s) (_alignY s) (autoResize s) (_texture s)
    (_grid s) (_parent s) (_stage s) (children s).

Definition with_x (v : Qc) (s : Sprite) : Sprite :=
  mkSprite (_width s) (_height s) (_originX s) (_originY s)
    (_originPixelX s) (_originPixelY s) v (y s) (scaleX s) (scaleY s)
    (opacity s) (_top s) (_right s) (_bottom s) (_left s) (_percentWidth s)
    (_percentHeight s) (_alignX s) (_alignY s) (autoResize s) (_texture s)
    (_grid s) (_parent s) (_stage s) (children s).

Definition with_y (v : Qc) (s : Sprite) : Sprite :=
  mkSprite (_width s) (_height s) (_originX s) (_originY s)
    (_originPixelX s) (_originPixelY s) (x s) v (scaleX s) (scaleY s)
    (opacity s) (_top s) (_right s) (_bottom s) (_left s) (_percentWidth s)
    (_percentHeight s) (_alignX s) (_alignY s) (autoResize s) (_texture s)
    (_grid s) (_parent s) (_stage s) (children s).

Definition with_scaleX (v : Qc) (s : Sprite) : Sprite :=
  mkSprite (_width s) (_height s) (_originX s) (_originY s)
    (_originPixelX s) (_originPixelY s) (x s) (y s) v (scaleY s) (opacity s)
    (_top s) (_right s) (_bottom s) (_left s) (_percentWidth s)
    (_percentHeight s) (_alignX s) (_alignY s) (autoResize s) (_texture s)
    (_grid s) (_parent s) (_stage s) (children s).

Definition with_scaleY (v : Qc) (s : Sprite) : Sprite :=
  mkSprite (_width s) (_height s) (_originX s) (_originY s)
    (_originPixelX s) (_originPixelY s) (x s) (y s) (scaleX s) v (opacity s)
    (_top s) (_right s) (_bottom s) (_left s) (_percentWidth s)
    (_percentHeight s) (_alignX s) (_alignY s) (autoResize s) (_texture s)
    (_grid s) (_parent s) (_stage s) (children s).

Definition with_opacity (v : Qc) (s : Sprite) : Sprite :=
  mkSprite (_width s) (_height s) (_originX s) (_originY s)
    (_originPixelX s) (_originPixelY s) (x s) (y s) (scaleX s) (scaleY s) v
    (_top s) (_right s) (_bottom s) (_left s) (_percentWidth s)
    (_percentHeight s) (_alignX s) (_alignY s) (autoResize s) (_texture s)
    (_grid s) (_parent s) (_stage s) (children s).

Definition with_top (v : option Qc) (s : Sprite) : Sprite :=
  mkSprite (_width s) (_height s) (_originX s) (_originY s)
    (_originPixelX s) (_originPixelY s) (x s) (y s) (scaleX s) (scaleY s)
    (opacity s) v (_right s) (_bottom s) (_left s) (_percentWidth s)
    (_percentHeight s) (_alignX s) (_alignY s) (autoResize s) (_texture s)
    (_grid s) (_parent s) (_stage s) (children s).

Definition with_right (v : option Qc) (s : Sprite) : Sprite :=
  mkSprite (_width s) (_height s) (_originX s) (_originY s)
    (_originPixelX s) (_originPixelY s) (x s) (y s) (scaleX s) (scaleY s)
    (opacity s) (_top s) v (_bottom s) (_left s) (_percentWidth s)
    (_percentHeight s) (_alignX s) (_alignY s) (autoResize s) (_texture s)
    (_grid s) (_parent s) (_stage s) (children s).

Definition with_bottom (v : option Qc) (s : Sprite) : Sprite :=
  mkSprite (_width s) (_height s) (_originX s) (_originY s)
    (_originPixelX s) (_originPixelY s) (x s) (y s) (scaleX s) (scaleY s)
    (opacity s) (_top s) (_right s) v (_left s) (_percentWidth s)
    (_percentHeight s) (_alignX s) (_alignY s) (autoResize s) (_texture s)
    (_grid s) (_parent s) (_stage s) (children s).

Definition with_left (v : option Qc) (s : Sprite) : Sprite :=
  mkSprite (_width s) (_height s) (_originX s) (_originY s)
    (_originPixelX s) (_originPixelY s) (x s) (y s) (scaleX s) (scaleY s)
    (opacity s) (_top s) (_right s) (_bottom s) v (_percentWidth s)
    (_percentHeight s) (_alignX s) (_alignY s) (autoResize s) (_texture s)
    (_grid s) (_parent s) (_stage s) (children s).

Definition with_percentWidth (v : option Qc) (s : Sprite) : Sprite :=
  mkSprite (_width s) (_height s) (_originX s) (_originY s)
    (_originPixelX s) (_originPixelY s) (x s) (y s) (scaleX s) (scaleY s)
    (opacity s) (_top s) (_right s) (_bottom s) (_left s) v
    (_percentHeight s) (_alignX s) (_alignY s) (autoResize s) (_texture s)
    (_grid s) (_parent s) (_stage s) (children s).

Definition with_percentHeight (v : option Qc) (s : Sprite) : Sprite :=
  mkSprite (_width s) (_height s) (_originX s) (_originY s)
    (_originPixelX s) (_originPixelY s) (x s) (y s) (scaleX s) (scaleY s)
    (opacity s) (_top s) (_right s) (_bottom s) (_left s) (_percentWidth s)
    v (_alignX s) (_alignY s) (autoResize s) (_texture s) (_grid s)
    (_parent s) (_stage s) (children s).

Definition with_alignX (v : option AlignType) (s : Sprite) : Sprite :=
  mkSprite (_width s) (_height s) (_originX s) (_originY s)
    (_originPixelX s) (_originPixelY s) (x s) (y s) (scaleX s) (scaleY s)
    (opacity s) (_top s) (_right s) (_bottom s) (_left s) (_percentWidth s)
    (_percentHeight s) v (_alignY s) (autoResize s) (_texture s) (_grid s)
    (_parent s) (_stage s) (children s).

Definition with_alignY (v : option AlignType) (s : Sprite) : Sprite :=
  mkSprite (_width s) (_height s) (_originX s) (_originY s)
    (_originPixelX s) (_originPixelY s) (x s) (y s) (scaleX s) (scaleY s)
    (opacity s) (_top s) (_right s) (_bottom s) (_left s) (_percentWidth s)
    (_percentHeight s) (_alignX s) v (autoResize s) (_texture s) (_grid s)
    (_parent s) (_stage s) (children s).

Definition with_autoResize (v : bool) (s : Sprite) : Sprite :=
  mkSprite (_width s) (_height s) (_originX s) (_originY s)
    (_originPixelX s) (_originPixelY s) (x s) (y s) (scaleX s) (scaleY s)
    (opacity s) (_top s) (_right s) (_bottom s) (_left s) (_percentWidth s)
    (_percentHeight s) (_alignX s) (_alignY s) v (_texture s) (_grid s)
    (_parent s) (_stage s) (children s).

Definition with_texture (v : texref) (s : Sprite) : Sprite :=
  mkSprite (_width s) (_height s) (_originX s) (_originY s)
    (_originPixelX s) (_originPixelY s) (x s) (y s) (scaleX s) (scaleY s)
    (opacity s) (_top s) (_right s) (_bottom s) (_left s) (_percentWidth s)
    (_percentHeight s) (_alignX s) (_alignY s) (autoResize s) v (_grid s)
    (_parent s) (_stage s) (children s).

Definition with_grid (v : option (list Qc)) (s : Sprite) : Sprite :=
  mkSprite (_width s) (_height s) (_originX s) (_originY s)
    (_originPixelX s) (_originPixelY s) (x s) (y s) (scaleX s) (scaleY s)
    (opacity s) (_top s) (_right s) (_bottom s) (_left s) (_percentWidth s)
    (_percentHeight s) (_alignX s) (_alignY s) (autoResize s) (_texture s) v
    (_parent s) (_stage s) (children s).

Definition with_parent (v : option nat) (s : Sprite) : Sprite :=
  mkSprite (_width s) (_height s) (_originX s) (_originY s)
    (_originPixelX s) (_originPixelY s) (x s) (y s) (scaleX s) (scaleY s)
    (opacity s) (_top s) (_right s) (_bottom s) (_left s) (_percentWidth s)
    (_percentHeight s) (_alignX s) (_alignY s) (autoResize s) (_texture s)
    (_grid s) v (_stage s) (children s).

Definition with_stage (v : option nat) (s : Sprite) : Sprite :=
  mkSprite (_width s) (_height s) (_originX s) (_originY s)
    (_originPixelX s) (_originPixelY s) (x s) (y s) (scaleX s) (scaleY s)
    (opacity s) (_top s) (_right s) (_bottom s) (_left s) (_percentWidth s)
    (_percentHeight s) (_alignX s) (_alignY s) (autoResize s) (_texture s)
    (_grid s) (_parent s) v (children s).

Definition with_children (v : option (list nat)) (s : Sprite) : Sprite :=
  mkSprite (_width s) (_height s) (_originX s) (_originY s)
    (_originPixelX s) (_originPixelY s) (x s) (y s) (scaleX s) (scaleY s)
    (opacity s) (_top s) (_right s) (_bottom s) (_left s) (_percentWidth s)
    (_percentHeight s) (_alignX s) (_alignY s) (autoResize s) (_texture s)
    (_grid s) (_parent s) (_stage s) v.

(** [new Sprite()] before any attribute is applied: the field initialisers. *)
Definition new_Sprite : Sprite :=
  mkSprite 0 0 half half 0 0 0 0 1 1 1 None None None None None None
    None None true TexUndefined None None None None.

(** The sprite heap. *)
Abbreviation Store := (gmap nat Sprite).

(** ** Layout: alignment *)

(** [_adjustAlignX]. *)
Definition _adjustAlignX (id : nat) (st : Store) : option Store :=
  s ← st !! id;
  match _parent s, _alignX s with
  | Some p, Some a =>
      ps ← st !! p;
      let ox := _originPixelX s in
      match a with
      | LEFT => Some (<[id := with_x ox s]> st)
      | RIGHT => Some (<[id := with_x (_width ps - (_width s - ox)) s]> st)
      | CENTER =>
          Some (<[id := with_x (_width ps * half + ox - _width s * half) s]> st)
      | _ => Some st
      end
  | _, _ => Some st
  end.

(** [_adjustAlignY]. *)
Definition _adjustAlignY (id : nat) (st : Store) : option Store :=
  s ← st !! id;
  match _parent s, _alignY s with
  | Some p, Some a =>
      ps ← st !! p;
      let oy := _originPixelY s in
      match a with
      | TOP => Some (<[id := with_y oy s]> st)
      | BOTTOM => Some (<[id := with_y (_height ps - (_height s - oy)) s]> st)
      | CENTER =>
          Some (<[id := with_y (_height ps * half + oy - _height s * half) s]> st)
      | _ => Some st
      end
  | _, _ => Some st
  end.

(** ** Layout: size setters and child re-layout

    [set width] calls [_reLayoutChildrenOnWidthChanged], which calls
    [_resizeWidth] on every child, which assigns the child's [width] again.
    The recursion is tied through the setter passed as [setw]/[seth]. *)

(** [children.forEach(f)] threaded through the store. *)
Fixpoint forEach (f : nat → Store → option Store) (cs : list nat) (st : Store)
    : option Store :=
  match cs with
  | [] => Some st
  | c :: cs' => st' ← f c st; forEach f cs' st'
  end.

(** [_resizeWidth]. *)
Definition _resizeWidth_with (setw : nat → Qc → Store → option Store)
    (id : nat) (st : Store) : option Store :=
  s ← st !! id;
  match _parent s with
  | None => Some st
  | Some p =>
      ps ← st !! p;
      match _left s, _right s with
      | Some left', Some right' =>
          st1 ← setw id (_width ps - left' - right') st;
          s1 ← st1 !! id;
          Some (<[id := with_x (left' + _originPixelX s1) s1]> st1)
      | _, _ =>
          match _percentWidth s with
          | Some percentWidth => setw id (_width ps * percentWidth) st
          | None => Some st
          end
      end
  end.

(** [_resizeHeight]. *)
Definition _resizeHeight_with (seth : nat → Qc → Store → option Store)
    (id : nat) (st : Store) : option Store :=
  s ← st !! id;
  match _parent s with
  | None => Some st
  | Some p =>
      ps ← st !! p;
      match _top s, _bottom s with
      | Some top, Some bottom =>
          st1 ← seth id (_height ps - top - bottom) st;
          s1 ← st1 !! id;
          Some (<[id := with_y (top + _originPixelY s1) s1]> st1)
      | _, _ =>
          match _percentHeight s with
          | Some percentHeight => seth id (_height ps * percentHeight) st
          | None => Some st
          end
      end
  end.

(** [_reLayoutChildrenOnWidthChanged]. *)
Definition _reLayoutChildrenOnWidthChanged_with
    (setw : nat → Qc → Store → option Store) (id : nat) (st : Store)
    : option Store :=
  s ← st !! id;
  match children s with
  | None | Some [] => Some st
  | Some cs =>
      forEach (λ child st0,
                 st1 ← _resizeWidth_with setw child st0;
                 _adjustAlignX child st1) cs st
  end.

(** [_reLayoutChildrenOnHeightChanged]. *)
Definition _reLayoutChildrenOnHeightChanged_with
    (seth : nat → Qc → Store → option Store) (id : nat) (st : Store)
    : option Store :=
  s ← st !! id;
  match children s with
  | None | Some [] => Some st
  | Some cs =>
      forEach (λ child st0,
                 st1 ← _resizeHeight_with seth child st0;
                 _adjustAlignY child st1) cs st
  end.

(** [set width(value)]. *)
Fixpoint set_width (fuel : nat) (id : nat) (value : Qc) (st : Store)
    : option Store :=
  match fuel with
  | O => None
  | S fuel' =>
      s ← st !! id;
      if num_eqb (_width s) value then Some st
      else
        let s1 := with_width value s in
        let s2 := with_originPixelX (_width s1 * _originX s1) s1 in
        st2 ← _adjustAlignX id (<[id := s2]> st);
        _reLayoutChildrenOnWidthChanged_with (set_width fuel') id st2
  end.

(** [set height(value)]. *)
Fixpoint set_height (fuel : nat) (id : nat) (value : Qc) (st : Store)
    : option Store :=
  match fuel with
  | O => None
  | S fuel' =>
      s ← st !! id;
      if num_eqb (_height s) value then Some st
      else
        let s1 := with_height value s in
        let s2 := with_originPixelY (_height s1 * _originY s1) s1 in
        st2 ← _adjustAlignY id (<[id := s2]> st);
        _reLayoutChildrenOnHeightChanged_with (set_height fuel') id st2
  end.

Definition _resizeWidth (fuel : nat) : nat → Store → option Store :=
  _resizeWidth_with (set_width fuel).
Definition _resizeHeight (fuel : nat) : nat → Store → option Store :=
  _resizeHeight_with (set_height fuel).
Definition _reLayoutChildrenOnWidthChanged (fuel : nat)
    : nat → Store → option Store :=
  _reLayoutChildrenOnWidthChanged_with (set_width fuel).
Definition _reLayoutChildrenOnHeightChanged (fuel : nat)
    : nat → Store → option Store :=
  _reLayoutChildrenOnHeightChanged_with (set_height fuel).

(** [set originX(value)]. *)
Definition set_originX (id : nat) (value : Qc) (st : Store) : option Store :=
  s ← st !! id;
  if num_eqb (_originX s) value then Some st
  else
    let s1 := with_originX value s in
    let s2 := with_originPixelX (_originX s1 * _width s1) s1 in
    _adjustAlignX id (<[id := s2]> st).

(** [set originY(value)]. *)
Definition set_originY (id : nat) (value : Qc) (st : Store) : option Store :=
  s ← st !! id;
  if num_eqb (_originY s) value then Some st
  else
    let s1 := with_originY value s in
    let s2 := with_originPixelY (_originY s1 * _height s1) s1 in
    _adjustAlignY id (<[id := s2]> st).

(** [set alignX(value)]: values of the other axis are ignored. *)
Definition set_alignX (id : nat) (value : AlignType) (st : Store)
    : option Store :=
  s ← st !! id;
  if bool_decide (_alignX s = Some value)
     || bool_decide (value = BOTTOM) || bool_decide (value = TOP)
  then Some st
  else _adjustAlignX id (<[id := with_alignX (Some value) s]> st).

(** [set alignY(value)]. *)
Definition set_alignY (id : nat) (value : AlignType) (st : Store)
    : option Store :=
  s ← st !! id;
  if bool_decide (_alignY s = Some value)
     || bool_decide (value = LEFT) || bool_decide (value = RIGHT)
  then Some st
  else _adjustAlignY id (<[id := with_alignY (Some value) s]> st).

(** ** Layout: edge pins, percent sizes and the grid

    Each setter stores [false] in [autoResize] and its own field, then
    resolves the size of the dimension it belongs to. *)

Definition set_top (fuel id : nat) (value : option Qc) (st : Store)
    : option Store :=
  s ← st !! id;
  _resizeHeight fuel id (<[id := with_top value (with_autoResize false s)]> st).

Definition set_right (fuel id : nat) (value : option Qc) (st : Store)
    : option Store :=
  s ← st !! id;
  _resizeWidth fuel id (<[id := with_right value (with_autoResize false s)]> st).

Definition set_bottom (fuel id : nat) (value : option Qc) (st : Store)
    : option Store :=
  s ← st !! id;
  _resizeHeight fuel id
    (<[id := with_bottom value (with_autoResize false s)]> st).

Definition set_left (fuel id : nat) (value : option Qc) (st : Store)
    : option Store :=
  s ← st !! id;
  _resizeWidth fuel id (<[id := with_left value (with_autoResize false s)]> st).

Definition set_percentWidth (fuel id : nat) (value : option Qc)
    (st : Store) : option Store :=
  s ← st !! id;
  _resizeWidth fuel id
    (<[id := with_percentWidth value (with_autoResize false s)]> st).

Definition set_percentHeight (fuel id : nat) (value : option Qc)
    (st : Store) : option Store :=
  s ← st !! id;
  _resizeHeight fuel id
    (<[id := with_percentHeight value (with_autoResize false s)]> st).

Definition set_grid (id : nat) (value : option (list Qc)) (st : Store)
    : option Store :=
  s ← st !! id;
  Some (<[id := with_autoResize false (with_grid value s)]> st).

(** ** The scene: sprites, emitted events, texture subscriptions *)

Inductive UIEvent : Type := ADD_TO_STAGE | REMOVED_FROM_STAGE.

Record Scene : Type := mkScene {
  sprites : Store;
  (** [emit] calls, oldest first: the emitting sprite and the event *)
  emitted : list (nat * UIEvent);
  (** [texture.onReady(cb)] registrations: texture and resizing sprite *)
  onReady : list (nat * nat)
}.

Definition with_sprites (st : Store) (sc : Scene) : Scene :=
  mkScene st (emitted sc) (onReady sc).

(** Run a store operation on the sprites of a scene. *)
Definition on_sprites (f : Store → option Store) (sc : Scene) : option Scene :=
  st ← f (sprites sc); Some (with_sprites st sc).

(** [children.forEach(f)] threaded through the scene. *)
Fixpoint forEachScene (f : nat → Scene → option Scene) (cs : list nat)
    (sc : Scene) : option Scene :=
  match cs with
  | [] => Some sc
  | c :: cs' => sc' ← f c sc; forEachScene f cs' sc'
  end.

(** [set parent(sprite)]. *)
Definition set_parent (id : nat) (sprite : option nat) (st : Store)
    : option Store :=
  s ← st !! id;
  if bool_decide (sprite = _parent s) then Some st
  else
    let st1 := <[id := with_parent sprite s]> st in
    match sprite with
    | Some _ => st2 ← _adjustAlignX id st1; _adjustAlignY id st2
    | None => Some st1
    end.

(** [set stage(stage)]: stores the stage, emits, and recurses into the
    children. *)
Fixpoint set_stage (fuel : nat) (id : nat) (stage : option nat) (sc : Scene)
    : option Scene :=
  match fuel with
  | O => None
  | S fuel' =>
      s ← sprites sc !! id;
      let ev := match stage with
                | None => REMOVED_FROM_STAGE
                | Some _ => ADD_TO_STAGE
                end in
      let sc1 := mkScene (<[id := with_stage stage s]> (sprites sc))
                   (emitted sc ++ [(id, ev)]) (onReady sc) in
      match children s with
      | None => Some sc1
      | Some cs => forEachScene (λ child, set_stage fuel' child stage) cs sc1
      end
  end.

(** The body of [set texture(value)] once [value] is resolved to a texture
    reference. *)
Definition assign_texture (fuel id : nat) (texture : texref) (sc : Scene)
    : option Scene :=
  s ← sprites sc !! id;
  if texref_same texture (_texture s) then Some sc
  else
    let sc1 := with_sprites (<[id := with_texture texture s]> (sprites sc)) sc in
    if negb (autoResize s) then Some sc1
    else
      match texture with
      | TexObj t =>
          if tex_ready t then
            sc2 ← on_sprites (set_width fuel id (tex_width t)) sc1;
            on_sprites (set_height fuel id (tex_height t)) sc2
          else
            Some (mkScene (sprites sc1) (emitted sc1)
                    (onReady sc1 ++ [(tex_id t, id)]))
      | _ =>
          sc2 ← on_sprites (set_width fuel id 0) sc1;
          on_sprites (set_height fuel id 0) sc2
      end.

(** The first statement of [set texture(value)]: a string is turned into a
    texture by [Texture.create], here [create]. *)
Definition resolve_texture (create : string → texref) (value : texvalue)
    : texref :=
  match value with
  | ValString str => create str
  | ValRef r => r
  end.


(** [set texture(value)]. *)
Definition set_texture (create : string → texref) (fuel id : nat)
    (value : texvalue) (sc : Scene) : option Scene :=
  assign_texture fuel id (resolve_texture create value) sc.

(** ** Tree membership *)

(** How a call that may throw ends. *)
Inductive outcome : Type :=
  | Returned (sc : Scene)
  (** an [Error] was thrown; [sc] is the scene at that moment *)
  | Threw (msg : string) (sc : Scene)
  | NoResult.

Definition returned (o : option Scene) : outcome :=
  match o with
  | Some sc => Returned sc
  | None => NoResult
  end.

(** [children.splice(position, 0, target)]. *)
Definition splice_in (position : nat) (target : nat) (cs : list nat)
    : list nat :=
  take position cs ++ target :: drop position cs.

(** [addChild(target, position?)]. *)
Definition addChild (fuel this target : nat) (position : option Z)
    (sc : Scene) : outcome :=
  match sprites sc !! target with
  | None => NoResult
  | Some t =>
      match _parent t with
      | Some _ =>
          Threw "canvas2d.Sprite.addChild(): Child has been added." sc
      | None =>
          match sprites sc !! this with
          | None => NoResult
          | Some p =>
              let cs := default [] (children p) in
              let sc1 :=
                with_sprites (<[this := with_children (Some cs) p]> (sprites sc))
                  sc in
              if bool_decide (target ∈ cs) then Returned sc1
              else
                let cs' :=
                  match position with
                  | Some pos =>
                      if bool_decide (-1 < pos ∧ pos < Z.of_nat (length cs))%Z
                      then splice_in (Z.to_nat pos) target cs
                      else cs ++ [target]
                  | None => cs ++ [target]
                  end in
                let sc2 :=
                  with_sprites
                    (<[this := with_children (Some cs') p]> (sprites sc)) sc in
                returned (
                  sc3 ← on_sprites (set_parent target (Some this)) sc2;
                  p3 ← sprites sc3 !! this;
                  sc4 ← match _stage p3 with
                        | Some g => set_stage fuel target (Some g) sc3
                        | None => Some sc3
                        end;
                  sc5 ← on_sprites (_resizeWidth fuel target) sc4;
                  on_sprites (_resizeHeight fuel target) sc5)
          end
      end
  end.

(** ** Property access by name

    [Transition] reads and writes [sprite[name]].  The names covered are the
    numeric properties of [ISprite] that the sprite model carries; an
    assignment to any of them runs its setter.  Any other name has no result
    in the model. *)

Definition get_prop (name : string) (s : Sprite) : option Qc :=
  if String.eqb name "x" then Some (x s)
  else if String.eqb name "y" then Some (y s)
  else if String.eqb name "scaleX" then Some (scaleX s)
  else if String.eqb name "scaleY" then Some (scaleY s)
  else if String.eqb name "opacity" then Some (opacity s)
  else if String.eqb name "width" then Some (_width s)
  else if String.eqb name "height" then Some (_height s)
  else if String.eqb name "originX" then Some (_originX s)
  else if String.eqb name "originY" then Some (_originY s)
  else if String.eqb name "top" then _top s
  else if String.eqb name "right" then _right s
  else if String.eqb name "bottom" then _bottom s
  else if String.eqb name "left" then _left s
  else if String.eqb name "percentWidth" then _percentWidth s
  else if String.eqb name "percentHeight" then _percentHeight s
  else None.

Definition modelled_prop (name : string) : bool :=
  bool_decide (name ∈ ["x"; "y"; "scaleX"; "scaleY"; "opacity"; "width";
                       "height"; "originX"; "originY"; "top"; "right";
                       "bottom"; "left"; "percentWidth"; "percentHeight"]).

(** The properties that are plain data fields (no accessor). *)
Definition plain_prop (name : string) : bool :=
  bool_decide (name ∈ ["x"; "y"; "scaleX"; "scaleY"; "opacity"]).

Definition set_prop (fuel : nat) (name : string) (v : Qc) (id : nat)
    (st : Store) : option Store :=
  if String.eqb name "x" then s ← st !! id; Some (<[id := with_x v s]> st)
  else if String.eqb name "y" then s ← st !! id; Some (<[id := with_y v s]> st)
  else if String.eqb name "scaleX" then
    s ← st !! id; Some (<[id := with_scaleX v s]> st)
  else if String.eqb name "scaleY" then
    s ← st !! id; Some (<[id := with_scaleY v s]> st)
  else if String.eqb name "opacity" then
    s ← st !! id; Some (<[id := with_opacity v s]> st)
  else if String.eqb name "width" then set_width fuel id v st
  else if String.eqb name "height" then set_height fuel id v st
  else if String.eqb name "originX" then set_originX id v st
  else if String.eqb name "originY" then set_originY id v st
  else if String.eqb name "top" then set_top fuel id (Some v) st
  else if String.eqb name "right" then set_right fuel id (Some v) st
  else if String.eqb name "bottom" then set_bottom fuel id (Some v) st
  else if String.eqb name "left" then set_left fuel id (Some v) st
  else if String.eqb name "percentWidth" then
    set_percentWidth fuel id (Some v) st
  else if String.eqb name "percentHeight" then
    set_percentHeight fuel id (Some v) st
  else None.

(** ** Action definitions *)

Record IActionAttr : Type := mkAttr {
  name : string;
  dest : Qc;
  easing : Qc → Qc
}.

Record Callback : Type := mkCallback {
  cb_done : bool;
  func : nat
}.

Record Delay : Type := mkDelay {
  dl_done : bool;
  dl_elapsed : Qc;
  dl_duration : Qc
}.

Record Transition : Type := mkTransition {
  tr_done : bool;
  tr_elapsed : Qc;
  attrs : list IActionAttr;
  starts : gmap string Qc;
  deltas : gmap string Qc;
  tr_duration : Qc
}.

Record Animation : Type := mkAnimation {
  an_done : bool;
  an_elapsed : Qc;
  count : Z;
  frameIndex : nat;
  interval : Qc;
  frameList : list Texture;
  repetitions : option Z
}.

Inductive IActionDefinition : Type :=
  | ACallback (c : Callback)
  | ADelay (d : Delay)
  | ATransition (t : Transition)
  | AAnimation (a : Animation).

Definition done (d : IActionDefinition) : bool :=
  match d with
  | ACallback c => cb_done c
  | ADelay d => dl_done d
  | ATransition t => tr_done t
  | AAnimation a => an_done a
  end.

(** The [immediate] field initialiser of each class. *)
Definition immediate (d : IActionDefinition) : bool :=
  match d with
  | ACallback _ => true
  | ADelay _ => true
  | ATransition _ => false
  | AAnimation _ => false
  end.

Record Action : Type := mkAction {
  _queue : list IActionDefinition;
  _done : bool;
  running : bool;
  sprite : option nat
}.

Record Listener : Type := mkListener {
  _resolved : bool;
  _callback_any : option (list nat);
  _callback_all : option (list nat);
  _actions : list nat
}.

(** The engine state: the scene, the log of invoked callbacks, the [Action]
    and [Listener] objects, and the two static lists of [Action]. *)
Record World : Type := mkWorld {
  scene : Scene;
  fired : list nat;
  actions : gmap nat Action;
  _actionList : list nat;
  listeners : gmap nat Listener;
  _listenerList : list nat
}.

Definition with_scene (sc : Scene) (w : World) : World :=
  mkWorld sc (fired w) (actions w) (_actionList w) (listeners w)
    (_listenerList w).
Definition with_fired (l : list nat) (w : World) : World :=
  mkWorld (scene w) l (actions w) (_actionList w) (listeners w)
    (_listenerList w).
Definition with_actions (m : gmap nat Action) (w : World) : World :=
  mkWorld (scene w) (fired w) m (_actionList w) (listeners w)
    (_listenerList w).
Definition with_actionList (l : list nat) (w : World) : World :=
  mkWorld (scene w) (fired w) (actions w) l (listeners w) (_listenerList w).
Definition with_listeners (m : gmap nat Listener) (w : World) : World :=
  mkWorld (scene w) (fired w) (actions w) (_actionList w) m
    (_listenerList w).
Definition with_listenerList (l : list nat) (w : World) : World :=
  mkWorld (scene w) (fired w) (actions w) (_actionList w) (listeners w) l.

(** [addArrayItem], [removeArrayItem], [publish]. *)
Definition addArrayItem (array : list nat) (item : nat) : list nat :=
  if bool_decide (item ∈ array) then array else array ++ [item].

Fixpoint removeArrayItem (array : list nat) (item : nat) : list nat :=
  match array with
  | [] => []
  | h :: t => if bool_decide (h = item) then t else h :: removeArrayItem t item
  end.

Definition publish (callbackList : list nat) (w : World) : World :=
  with_fired (fired w ++ callbackList) w.

(** ** Callback *)

Module Callback.
Definition new (f : nat) : Callback := mkCallback false f.

Definition step (c : Callback) (w : World) : Callback * World :=
  if cb_done c then (c, w)
  else (mkCallback true (func c), with_fired (fired w ++ [func c]) w).

Definition end_ (c : Callback) (w : World) : Callback * World := step c w.
End Callback.

(** ** Delay *)

Module Delay.
Definition new (duration : Qc) : Delay := mkDelay false 0 duration.

Definition step (deltaTime : Qc) (d : Delay) : Delay :=
  let elapsed := dl_elapsed d + deltaTime in
  if num_geb elapsed (dl_duration d)
  then mkDelay true elapsed (dl_duration d)
  else mkDelay (dl_done d) elapsed (dl_duration d).

Definition end_ (d : Delay) : Delay := d.
End Delay.

(** ** Transition *)

(** The easing of an attribute as [new Transition] receives it; the [tween]
    table is a parameter of the constructor. *)
Inductive easingArg : Type :=
  | EasingFunction (f : Qc → Qc)
  | EasingName (n : string)
  | EasingMissing.

Inductive attrInfo : Type :=
  | InfoNumber (d : Qc)
  | InfoObject (d : Qc) (e : easingArg).

Module Transition.
Definition new (tween : string → Qc → Qc) (attrs : list (string * attrInfo))
    (duration : Qc) : Transition :=
  let mk (kv : string * attrInfo) :=
    match kv.2 with
    | InfoNumber d => mkAttr kv.1 d (tween "easeInOutQuad")
    | InfoObject d (EasingFunction f) => mkAttr kv.1 d f
    | InfoObject d (EasingName n) =>
        mkAttr kv.1 d
          (tween (if String.eqb n "" then "easeInOutQuad" else n))
    | InfoObject d EasingMissing => mkAttr kv.1 d (tween "easeInOutQuad")
    end in
  mkTransition false 0 (map mk attrs) ∅ ∅ duration.

(** [this.attrs.forEach(attr => sprite[attr.name] = attr.dest)]. *)
Fixpoint snap (fuel : nat) (l : list IActionAttr) (sp : option nat)
    (st : Store) : option Store :=
  match l with
  | [] => Some st
  | attr :: l' =>
      id ← sp;
      st' ← set_prop fuel (name attr) (dest attr) id st;
      snap fuel l' sp st'
  end.

Definition end_ (fuel : nat) (t : Transition) (sp : option nat) (st : Store)
    : option (Transition * Store) :=
  st' ← snap fuel (attrs t) sp st;
  Some (mkTransition true (tr_elapsed t) (attrs t) (starts t) (deltas t)
          (tr_duration t), st').

(** The interpolating [forEach] of [step]; [sts] and [dls] are the
    [starts] and [deltas] tables. *)
Fixpoint interpolate (fuel : nat) (percent : Qc) (l : list IActionAttr)
    (sp : option nat) (sts dls : gmap string Qc) (st : Store)
    : option (gmap string Qc * gmap string Qc * Store) :=
  match l with
  | [] => Some (sts, dls, st)
  | attr :: l' =>
      let delta := easing attr percent in
      id ← sp;
      '(start, sts1, dls1) ←
        match sts !! name attr with
        | Some start => Some (start, sts, dls)
        | None =>
            s ← st !! id;
            start ← get_prop (name attr) s;
            Some (start, <[name attr := start]> sts,
                  <[name attr := dest attr - start]> dls)
        end;
      dl ← dls1 !! name attr;
      st' ← set_prop fuel (name attr) (start + delta * dl) id st;
      interpolate fuel percent l' sp sts1 dls1 st'
  end.

Definition step (fuel : nat) (deltaTime : Qc) (t : Transition)
    (sp : option nat) (st : Store) : option (Transition * Store) :=
  let elapsed := tr_elapsed t + deltaTime in
  let t1 := mkTransition (tr_done t) elapsed (attrs t) (starts t) (deltas t)
              (tr_duration t) in
  if num_geb elapsed (tr_duration t) then end_ fuel t1 sp st
  else
    let percent := elapsed / tr_duration t in
    '(sts, dls, st') ←
      interpolate fuel percent (attrs t) sp (starts t) (deltas t) st;
    Some (mkTransition (tr_done t) elapsed (attrs t) sts dls (tr_duration t),
          st').
End Transition.

(** ** Animation *)

Module Animation.
Definition new (frameList : list Texture) (frameRate : Qc)
    (repetitions : option Z) : Animation :=
  mkAnimation false 0 0 0 (1 / frameRate) frameList repetitions.

Definition step (fuel : nat) (deltaTime : Qc) (a : Animation)
    (sp : option nat) (sc : Scene) : option (Animation * Scene) :=
  let elapsed := an_elapsed a + deltaTime in
  if num_geb elapsed (interval a) then
    id ← sp;
    let frame := match frameList a !! frameIndex a with
                 | Some t => TexObj t
                 | None => TexUndefined
                 end in
    sc' ← assign_texture fuel id frame sc;
    let frameIndex1 := S (frameIndex a) in
    if bool_decide (frameIndex1 = length (frameList a)) then
      match repetitions a with
      | None =>
          Some (mkAnimation (an_done a) 0 (count a) 0 (interval a)
                  (frameList a) (repetitions a), sc')
      | Some reps =>
          let count1 := (count a + 1)%Z in
          if bool_decide (count1 < reps)%Z then
            Some (mkAnimation (an_done a) 0 count1 0 (interval a)
                    (frameList a) (repetitions a), sc')
          else
            Some (mkAnimation true 0 count1 frameIndex1 (interval a)
                    (frameList a) (repetitions a), sc')
      end
    else
      Some (mkAnimation (an_done a) 0 (count a) frameIndex1 (interval a)
              (frameList a) (repetitions a), sc')
  else
    Some (mkAnimation (an_done a) elapsed (count a) (frameIndex a)
            (interval a) (frameList a) (repetitions a), sc).

Definition end_ (a : Animation) : Animation := a.
End Animation.

(** [action.step(deltaTime, sprite)] by dynamic dispatch. *)
Definition step_definition (fuel : nat) (deltaTime : Qc)
    (d : IActionDefinition) (sp : option nat) (w : World)
    : option (IActionDefinition * World) :=
  match d with
  | ACallback c =>
      let '(c', w') := Callback.step c w in Some (ACallback c', w')
  | ADelay d => Some (ADelay (Delay.step deltaTime d), w)
  | ATransition t =>
      '(t', st') ← Transition.step fuel deltaTime t sp (sprites (scene w));
      Some (ATransition t', with_scene (with_sprites st' (scene w)) w)
  | AAnimation a =>
      '(a', sc') ← Animation.step fuel deltaTime a sp (scene w);
      Some (AAnimation a', with_scene sc' w)
  end.

(** ** Listener *)

Module Listener.
Definition new (actions : list nat) : Listener :=
  mkListener false None None actions.

Definition allDone (lid : nat) (callback : nat) (w : World) : option World :=
  l ← listeners w !! lid;
  if _resolved l then Some (with_fired (fired w ++ [callback]) w)
  else
    let all := default [] (_callback_all l) in
    Some (with_listeners
            (<[lid := mkListener (_resolved l) (_callback_any l)
                        (Some (addArrayItem all callback)) (_actions l)]>
               (listeners w)) w).

Definition anyDone (lid : nat) (callback : nat) (w : World) : option World :=
  l ← listeners w !! lid;
  if _resolved l then Some (with_fired (fired w ++ [callback]) w)
  else
    let any := default [] (_callback_any l) in
    Some (with_listeners
            (<[lid := mkListener (_resolved l)
                        (Some (addArrayItem any callback)) (_callback_all l)
                        (_actions l)]>
               (listeners w)) w).

(** The [forEach] of [_step]: the pair [(allDone, anyDone)]. *)
Fixpoint scan (acts : list nat) (w : World) (flags : bool * bool)
    : option (bool * bool) :=
  match acts with
  | [] => Some flags
  | a :: acts' =>
      action ← actions w !! a;
      scan acts' w
        (if _done action then (flags.1, true) else (false, flags.2))
  end.

Definition _step (lid : nat) (w : World) : option World :=
  l ← listeners w !! lid;
  '(all_done, any_done) ← scan (_actions l) w (true, false);
  w1 ←
    match _callback_any l with
    | Some any =>
        if (any_done : bool) then
          Some (with_listeners
                  (<[lid := mkListener (_resolved l) None (_callback_all l)
                              (_actions l)]> (listeners w))
                  (publish any w))
        else Some w
    | None => Some w
    end;
  l1 ← listeners w1 !! lid;
  match _callback_all l1 with
  | Some all =>
      if (all_done : bool) then
        let w2 := publish all w1 in
        let w3 := with_listenerList (removeArrayItem (_listenerList w2) lid)
                    w2 in
        Some (with_listeners
                (<[lid := mkListener true (_callback_any l1)
                            (_callback_all l1) (_actions l1)]>
                   (listeners w3)) w3)
      else Some w1
  | None => Some w1
  end.
End Listener.

(** ** Action *)

(** [listenerList.slice().forEach(listener => listener._step())]. *)
Fixpoint forEachListener (ls : list nat) (w : World) : option World :=
  match ls with
  | [] => Some w
  | l :: ls' => w' ← Listener._step l w; forEachListener ls' w'
  end.

Module Action.
Definition new (sp : option nat) : Action := mkAction [] false false sp.

Definition with_queue (q : list IActionDefinition) (a : Action) : Action :=
  mkAction q (_done a) (running a) (sprite a).

(** [stop()]. *)
Definition stop (a : nat) (w : World) : option World :=
  this ← actions w !! a;
  Some (with_actionList (removeArrayItem (_actionList w) a)
          (with_actions
             (<[a := mkAction [] true false (sprite this)]> (actions w)) w)).

(** [static stop(sprite)], over a copy of the active list. *)
Fixpoint stop_each (l : list nat) (sp : nat) (w : World) : option World :=
  match l with
  | [] => Some w
  | a :: l' =>
      action ← actions w !! a;
      w' ← (if bool_decide (sprite action = Some sp) then stop a w
            else Some w);
      stop_each l' sp w'
  end.

Definition stop_sprite (sp : nat) (w : World) : option World :=
  stop_each (_actionList w) sp w.

(** [static listen(actions)]; [lid] is the new listener object. *)
Definition listen (lid : nat) (acts : list nat) (w : World) : World :=
  with_listenerList (_listenerList w ++ [lid])
    (with_listeners (<[lid := Listener.new acts]> (listeners w)) w).

(** [_step(deltaTime)], with [q] the [_queue] of action [a] in [w]: the
    recursive call re-enters with the queue that is left after the shift. *)
Fixpoint _step_queue (fuel : nat) (deltaTime : Qc) (a : nat)
    (q : list IActionDefinition) (w : World) : option World :=
  match q with
  | [] => Some w
  | action :: rest =>
      this ← actions w !! a;
      '(action', w1) ← step_definition fuel deltaTime action (sprite this) w;
      this1 ← actions w1 !! a;
      if done action' then
        match rest with
        | [] =>
            Some (with_actions
                    (<[a := mkAction [] true false None]> (actions w1)) w1)
        | _ :: _ =>
            let w2 := with_actions
                        (<[a := with_queue rest this1]> (actions w1)) w1 in
            if immediate action' then _step_queue fuel deltaTime a rest w2
            else Some w2
        end
      else
        Some (with_actions
                (<[a := with_queue (action' :: rest) this1]> (actions w1))
                w1)
  end.

Definition _step (fuel : nat) (deltaTime : Qc) (a : nat) (w : World)
    : option World :=
  this ← actions w !! a;
  _step_queue fuel deltaTime a (_queue this) w.

(** The [for (; action = actionList[i]; i++)] loop of [static step]; [n]
    bounds the number of iterations. *)
Fixpoint step_loop (n : nat) (fuel : nat) (deltaTime : Qc) (i : nat)
    (w : World) : option World :=
  match _actionList w !! i with
  | None => Some w
  | Some a =>
      match n with
      | O => None
      | S n' =>
          w1 ← _step fuel deltaTime a w;
          action ← actions w1 !! a;
          let w2 := if _done action
                    then with_actionList
                           (removeArrayItem (_actionList w1) a) w1
                    else w1 in
          step_loop n' fuel deltaTime (S i) w2
      end
  end.

(** [static step(deltaTime)]. *)
Definition step (fuel : nat) (deltaTime : Qc) (w : World) : option World :=
  w1 ← step_loop (length (_actionList w)) fuel deltaTime 0 w;
  forEachListener (_listenerList w1) w1.

(** [then(func)]; [then] is a keyword. *)
Definition then_ (a : nat) (f : nat) (w : World) : option World :=
  this ← actions w !! a;
  Some (with_actions
          (<[a := with_queue (_queue this ++ [ACallback (Callback.new f)])
                    this]> (actions w)) w).

(** [wait(time)]. *)
Definition wait (a : nat) (time : Qc) (w : World) : option World :=
  this ← actions w !! a;
  Some (with_actions
          (<[a := with_queue (_queue this ++ [ADelay (Delay.new time)]) this]>
             (actions w)) w).


(** [to(attrs, duration)]. *)
Definition to (tween : string → Qc → Qc) (a : nat)
    (attrs : list (string * attrInfo)) (duration : Qc) (w : World)
    : option World :=
  this ← actions w !! a;
  Some (with_actions
          (<[a := with_queue
                    (_queue this
                       ++ [ATransition (Transition.new tween attrs duration)])
                    this]> (actions w)) w).

(** [start()]. *)
Definition start (a : nat) (w : World) : option World :=
  this ← actions w !! a;
  if running this then Some w
  else
    Some (with_actionList (addArrayItem (_actionList w) a)
            (with_actions
               (<[a := mkAction (_queue this) (_done this) true (sprite this)]>
                  (actions w)) w)).
End Action.

(** ** Predicates on sprite stores *)

Definition kids (s : Sprite) : list nat := default [] (children s).

(** The cached pixel offsets agree with origin and size. *)
Definition origin_ok (s : Sprite) : Prop :=
  _originPixelX s = _originX s * _width s ∧
  _originPixelY s = _originY s * _height s.

(** The writes a sprite receives from the horizontal layout code: the [x]
    field, the pair [_width]/[_originPixelX] of [set width], and the pair
    [_originX]/[_originPixelX] of [set originX]. *)
Inductive Xwrite (s : Sprite) : Sprite → Prop :=
  | Xwrite_x v : Xwrite s (with_x v s)
  | Xwrite_width v :
      Xwrite s (with_originPixelX (v * _originX s) (with_width v s))
  | Xwrite_origin v :
      Xwrite s (with_originPixelX (v * _width s) (with_originX v s)).

(** The same for the vertical layout code. *)
Inductive Ywrite (s : Sprite) : Sprite → Prop :=
  | Ywrite_y v : Ywrite s (with_y v s)
  | Ywrite_height v :
      Ywrite s (with_originPixelY (v * _originY s) (with_height v s))
  | Ywrite_origin v :
      Ywrite s (with_originPixelY (v * _height s) (with_originY v s)).

(** A sprite with its horizontal (vertical) geometry erased: what the
    horizontal (vertical) layout code never changes. *)
Definition dropX (s : Sprite) : Sprite :=
  with_width 0 (with_originX 0 (with_originPixelX 0 (with_x 0 s))).
Definition dropY (s : Sprite) : Sprite :=
  with_height 0 (with_originY 0 (with_originPixelY 0 (with_y 0 s))).

Section Writes.
Variable Wr : Sprite → Sprite → Prop.
Variable rank : nat → nat.

(** One write, to a sprite of rank below [n]. *)
Inductive wstep (n : nat) (st : Store) : Store → Prop :=
  | wstep_intro id s s' :
      (rank id < n)%nat → st !! id = Some s → Wr s s' →
      wstep n st (<[id := s']> st).

(** [st'] is reached from [st] by such writes. *)
Definition writes (n : nat) : Store → Store → Prop := rtc (wstep n).
End Writes.

(** Children never outrank their parent. *)
Definition wranked (rank : nat → nat) (st : Store) : Prop :=
  ∀ id s c, st !! id = Some s → c ∈ kids s → (rank c ≤ rank id)%nat.

(** [st] is a forest: every child is a sprite of the store of strictly smaller
    rank than its parent, and every parent reference is a sprite of the
    store. *)
Definition well_formed (rank : nat → nat) (st : Store) : Prop :=
  map_Forall
    (λ id s,
       Forall (λ c, is_Some (st !! c) ∧ (rank c < rank id)%nat) (kids s) ∧
       match _parent s with
       | Some p => is_Some (st !! p)
       | None => True
       end) st.

#[global] Instance well_formed_dec rank st : Decision (well_formed rank st).
Proof.
  unfold well_formed. apply map_Forall_dec. intros id s.
  apply and_dec; [apply _|]. destruct (_parent s); apply _.
Defined.

(** ** Sequences of setter calls *)

(** Assignments to [width], [height], [originX] and [originY]. *)
Inductive mutation : Type :=
  | SetWidth (id : nat) (v : Qc)
  | SetHeight (id : nat) (v : Qc)
  | SetOriginX (id : nat) (v : Qc)
  | SetOriginY (id : nat) (v : Qc).

Definition mutation_target (m : mutation) : nat :=
  match m with
  | SetWidth id _ | SetHeight id _ | SetOriginX id _ | SetOriginY id _ => id
  end.

Definition mutate (fuel : nat) (m : mutation) (st : Store) : option Store :=
  match m with
  | SetWidth id v => set_width fuel id v st
  | SetHeight id v => set_height fuel id v st
  | SetOriginX id v => set_originX id v st
  | SetOriginY id v => set_originY id v st
  end.

Fixpoint mutate_all (fuel : nat) (ms : list mutation) (st : Store)
    : option Store :=
  match ms with
  | [] => Some st
  | m :: ms' => st' ← mutate fuel m st; mutate_all fuel ms' st'
  end.

(** Either kind of layout write. *)
Definition XYwrite (s s' : Sprite) : Prop := Xwrite s s' ∨ Ywrite s s'.

#[global] Instance origin_ok_dec s : Decision (origin_ok s).
Proof. unfold origin_ok. apply _. Defined.

(** ** Example scenes *)

(** Sprite [0] with the single child [1], which is centred horizontally. *)
Definition parent_child : Store :=
  <[0%nat := with_children (Some [1%nat]) new_Sprite]>
    (<[1%nat := with_parent (Some 0%nat) (with_alignX (Some CENTER) new_Sprite)]>
       ∅).

(** A rank for stores whose only parent is sprite [0]. *)
Definition root_rank (id : nat) : nat :=
  match id with
  | O => 1%nat
  | S _ => 0%nat
  end.

(** Two fresh sprites, [0] and [1], in an otherwise empty scene. *)
Definition two_sprites : Scene :=
  mkScene (<[0%nat := new_Sprite]> (<[1%nat := new_Sprite]> ∅)) [] [].

Definition returned_scene (o : outcome) : option Scene :=
  match o with
  | Returned sc => Some sc
  | _ => None
  end.

(** [p.width = 200; p.addChild(c); c.left = 10; c.right = 20], then
    [p.width = 300]: the child after the pins are set, and after the parent
    is resized. *)
Definition pinned_child_scenario : option (Sprite * Sprite) :=
  st1 ← set_width 2 0 (Qc_of_Z 200) (sprites two_sprites);
  sc2 ← returned_scene (addChild 2 0 1 None (with_sprites st1 two_sprites));
  st3 ← set_left 2 1 (Some (Qc_of_Z 10)) (sprites sc2);
  st4 ← set_right 2 1 (Some (Qc_of_Z 20)) st3;
  c4 ← st4 !! 1%nat;
  st5 ← set_width 2 0 (Qc_of_Z 300) st4;
  c5 ← st5 !! 1%nat;
  Some (c4, c5).

(** A parent of width 200 and its child pinned at [left = 10], [right = 20],
    before the child's width is resolved. *)
Definition wide_parent : Sprite :=
  with_width (Qc_of_Z 200) (with_children (Some [1%nat]) new_Sprite).
Definition pinned_child : Sprite :=
  with_left (Some (Qc_of_Z 10))
    (with_right (Some (Qc_of_Z 20)) (with_parent (Some 0%nat) new_Sprite)).
Definition pinned_store : Store :=
  <[1%nat := pinned_child]> (<[0%nat := wide_parent]> ∅).

(** ** Sequences of edge-pin and percent-size assignments *)

Inductive pin_op : Type :=
  | SetTop (v : option Qc)
  | SetRight (v : option Qc)
  | SetBottom (v : option Qc)
  | SetLeft (v : option Qc)
  | SetPercentWidth (v : option Qc)
  | SetPercentHeight (v : option Qc).

(** The dimension an assignment belongs to. *)
Definition horizontal (o : pin_op) : bool :=
  match o with
  | SetRight _ | SetLeft _ | SetPercentWidth _ => true
  | _ => false
  end.
Definition vertical (o : pin_op) : bool := negb (horizontal o).

Definition run_pin (fuel id : nat) (o : pin_op) (st : Store) : option Store :=
  match o with
  | SetTop v => set_top fuel id v st
  | SetRight v => set_right fuel id v st
  | SetBottom v => set_bottom fuel id v st
  | SetLeft v => set_left fuel id v st
  | SetPercentWidth v => set_percentWidth fuel id v st
  | SetPercentHeight v => set_percentHeight fuel id v st
  end.

Fixpoint run_pins (fuel id : nat) (ops : list pin_op) (st : Store)
    : option Store :=
  match ops with
  | [] => Some st
  | o :: ops' => st' ← run_pin fuel id o st; run_pins fuel id ops' st'
  end.

(** The two fields an assignment stores before it resolves the size. *)
Definition store_pin (o : pin_op) (s : Sprite) : Sprite :=
  match o with
  | SetTop v => with_top v (with_autoResize false s)
  | SetRight v => with_right v (with_autoResize false s)
  | SetBottom v => with_bottom v (with_autoResize false s)
  | SetLeft v => with_left v (with_autoResize false s)
  | SetPercentWidth v => with_percentWidth v (with_autoResize false s)
  | SetPercentHeight v => with_percentHeight v (with_autoResize false s)
  end.

(** A sprite with all its geometry erased. *)
Definition erase_geometry (s : Sprite) : Sprite := dropX (dropY s).

(** A write that keeps the tree. *)
Definition tree_keeping (s s' : Sprite) : Prop :=
  kids s' = kids s ∧ _parent s' = _parent s.

(** With both pins of a dimension set, the size is the parent's size less
    the pins. *)
Definition width_by_pins (ps s : Sprite) : Prop :=
  ∀ l r, _left s = Some l → _right s = Some r → _width s = _width ps - l - r.
Definition height_by_pins (ps s : Sprite) : Prop :=
  ∀ t b, _top s = Some t → _bottom s = Some b → _height s = _height ps - t - b.

(** A parent of width 200 and height 100 with an unconstrained child. *)
Definition sized_parent : Sprite :=
  with_height (Qc_of_Z 100) wide_parent.
Definition plain_child : Sprite := with_parent (Some 0%nat) new_Sprite.
Definition plain_store : Store :=
  <[1%nat := plain_child]> (<[0%nat := sized_parent]> ∅).

(** A loaded 64 by 32 texture, and a scene with one sprite showing it. *)
Definition icon : Texture := mkTexture 0 (Qc_of_Z 64) (Qc_of_Z 32) true.
Definition icon_sprite : Sprite :=
  with_texture (TexObj icon)
    (with_originPixelY (Qc_of_Z 16)
       (with_height (Qc_of_Z 32)
          (with_originPixelX (Qc_of_Z 32) (with_width (Qc_of_Z 64) new_Sprite)))).
Definition icon_scene : Scene := mkScene {[0%nat := icon_sprite]} [] [].

(** ** Example engine states *)

Definition three_halves : Qc := Q2Qc (3 # 2).

Definition empty_scene : Scene := mkScene ∅ [] [].

(** One idle action with the queue [[Callback 7; Delay 1.0; Callback 8]]. *)
Definition chain_world : World :=
  mkWorld empty_scene []
    {[0%nat := mkAction [ACallback (Callback.new 7); ADelay (Delay.new 1);
                         ACallback (Callback.new 8)] false false None]}
    [] ∅ [].

(** [start(); step(1.5)] on [chain_world]. *)
Definition chain_tick : option World :=
  w1 ← Action.start 0 chain_world; Action.step 1 three_halves w1.

(** Two running actions, each waiting for one second. *)
Definition two_delays : World :=
  mkWorld empty_scene []
    (<[0%nat := mkAction [ADelay (Delay.new 1)] false true None]>
       {[1%nat := mkAction [ADelay (Delay.new 1)] false true None]})
    [0%nat; 1%nat] ∅ [].

(** ** Driving one action definition *)





Definition linear (tween_name : string) (q : Qc) : Qc := q.






Definition tenth : Qc := 1 / Qc_of_Z 10.


(** ** Listeners *)

(** [action._done], read through the engine state. *)
Definition is_done (w : World) (a : nat) : bool :=
  match actions w !! a with
  | Some action => _done action
  | None => false
  end.

Definition tracked_exist (w : World) (l : Listener) : Prop :=
  Forall (λ a, is_Some (actions w !! a)) (_actions l).

(** Two running actions [0] and [1] tracked by listener [0], which has the
    ANY callback [5] and the ALL callback [6]. *)
Definition listening_world : option World :=
  let w0 := mkWorld empty_scene []
              (<[0%nat := mkAction [ADelay (Delay.new 1)] false true None]>
                 {[1%nat := mkAction [ADelay (Delay.new 1)] false true None]})
              [0%nat; 1%nat] ∅ [] in
  w1 ← Listener.anyDone 0 5 (Action.listen 0 [0%nat; 1%nat] w0);
  Listener.allDone 0 6 w1.

(** What is observed of listener [lid]: the callbacks invoked so far, whether
    it is still registered, and whether it is resolved. *)
Definition observe (lid : nat) (w : World) : option (list nat * bool * bool) :=
  l ← listeners w !! lid;
  Some (fired w, bool_decide (lid ∈ _listenerList w), _resolved l).

(** Stop action [0], tick twice, stop action [1], tick twice, then register
    another ALL callback [7]; the observations after each call. *)
Definition listening_scenario : option (list (list nat * bool * bool)) :=
  w ← listening_world;
  w1 ← Action.stop 0 w; o1 ← observe 0 w1;
  w2 ← Action.step 1 tenth w1; o2 ← observe 0 w2;
  w3 ← Action.step 1 tenth w2; o3 ← observe 0 w3;
  w4 ← Action.stop 1 w3; o4 ← observe 0 w4;
  w5 ← Action.step 1 tenth w4; o5 ← observe 0 w5;
  w6 ← Action.step 1 tenth w5; o6 ← observe 0 w6;
  w7 ← Listener.allDone 0 7 w6; o7 ← observe 0 w7;
  Some [o1; o2; o3; o4; o5; o6; o7].

(** A listener with an ANY callback only, over one action that is stopped
    before the tick. *)
Definition any_only_scenario : option World :=
  let w0 := mkWorld empty_scene []
              {[0%nat := mkAction [ADelay (Delay.new 1)] false true None]}
              [0%nat] ∅ [] in
  w1 ← Listener.anyDone 0 5 (Action.listen 0 [0%nat] w0);
  w2 ← Action.stop 0 w1;
  Action.step 1 tenth w2.

(** Listener [0] over the actions [0] and [1], with the ANY callback [5] and
    the ALL callback [6]: when action [0] has been stopped, when both have
    been, and after the listener is resolved. *)
Definition tracking (d0 d1 : bool) (l : Listener) (ll : list nat)
    (f : list nat) : World :=
  mkWorld empty_scene f
    (<[0%nat := mkAction [] d0 false None]>
       {[1%nat := mkAction [] d1 false None]})
    [] {[0%nat := l]} ll.
Definition one_stopped : World :=
  tracking true false
    (mkListener false (Some [5%nat]) (Some [6%nat]) [0%nat; 1%nat])
    [0%nat] [].
Definition both_stopped : World :=
  tracking true true
    (mkListener false (Some [5%nat]) (Some [6%nat]) [0%nat; 1%nat])
    [0%nat] [].
Definition resolved_world : World :=
  tracking true true
    (mkListener true None (Some [6%nat]) [0%nat; 1%nat]) [] [5%nat; 6%nat].

(** * Further operations *)

(** ** Tree membership, continued *)

(** [removeChild(target)]: [splice] takes out the first occurrence. *)
Definition removeChild (fuel this target : nat) (sc : Scene) : option Scene :=
  p ← sprites sc !! this;
  match children p with
  | None | Some [] => Some sc
  | Some cs =>
      if bool_decide (target ∈ cs) then
        let sc1 :=
          with_sprites
            (<[this := with_children (Some (removeArrayItem cs target)) p]>
               (sprites sc)) sc in
        sc2 ← on_sprites (set_parent target None) sc1;
        set_stage fuel target None sc2
      else Some sc
  end.

(** [contains(target)]: [some] stops at the first child that contains the
    target. *)
Fixpoint contains (fuel this target : nat) (st : Store) : option bool :=
  match fuel with
  | O => None
  | S fuel' =>
      s ← st !! this;
      match children s with
      | None | Some [] => Some false
      | Some cs =>
          if bool_decide (target ∈ cs) then Some true
          else
            (fix some (l : list nat) : option bool :=
               match l with
               | [] => Some false
               | c :: l' =>
                   b ← contains fuel' c target st;
                   if (b : bool) then Some true else some l'
               end) cs
      end
  end.

(** [p] has [c] among its children, and the closure of that. *)
Definition child_of (st : Store) (p c : nat) : Prop :=
  ∃ s, st !! p = Some s ∧ c ∈ kids s.
Definition descends (st : Store) : nat → nat → Prop := tc (child_of st).

(** A write of the [_stage] field. *)
Definition Swrite (g : option nat) (s s' : Sprite) : Prop :=
  s' = with_stage g s.

(** The event [set stage] emits. *)
Definition stage_event (g : option nat) : UIEvent :=
  match g with
  | None => REMOVED_FROM_STAGE
  | Some _ => ADD_TO_STAGE
  end.


(** ** Queues of callbacks, and ticks of one action *)

(** The queue built by [then(f1).then(f2)...]. *)
Definition callbacks (fs : list nat) : list IActionDefinition :=
  map (λ f, ACallback (Callback.new f)) fs.


(** A running action that holds the callbacks 7, 8 and 9 and nothing else. *)
Definition callbacks_world : World :=
  mkWorld empty_scene []
    {[0%nat := mkAction (callbacks [7%nat; 8%nat; 9%nat]) false true None]}
    [0%nat] ∅ [].


(** A listener of no action at all, with the ANY callback 5 and the ALL
    callback 6. *)
Definition idle_listening : World :=
  mkWorld empty_scene [] ∅ []
    {[0%nat := mkListener false (Some [5%nat]) (Some [6%nat]) []]} [0%nat].

(** ** Trees *)

(** The shape [addChild] and [removeChild] maintain: no sprite occurs twice
    among the children of a sprite, and every child points back to the sprite
    that lists it. *)
Definition tree_shaped (st : Store) : Prop :=
  map_Forall
    (λ p s,
       NoDup (kids s) ∧
       Forall (λ c, _parent <$> st !! c = Some (Some p)) (kids s)) st.

#[global] Instance tree_shaped_dec st : Decision (tree_shaped st).
Proof. unfold tree_shaped. apply _. Defined.

(** Sprite [0] with the children [1] and [2]; [1] has the child [3].
    Sprite [0] is 200 by 100; [1] is pinned at 10 from the left and 20 from
    the right, [2] is half as high as its parent and aligned to the right,
    [3] is centred. *)
Definition family : Store :=
  <[0%nat := with_children (Some [1%nat; 2%nat]) sized_parent]>
    (<[1%nat := with_children (Some [3%nat]) pinned_child]>
       (<[2%nat := with_percentHeight (Some half)
                     (with_alignX (Some RIGHT) plain_child)]>
          {[3%nat := with_parent (Some 1%nat)
                       (with_alignX (Some CENTER) new_Sprite)]})).

Definition family_rank (id : nat) : nat := (3 - id)%nat.

(** ** Layout of a child in its parent

    What [_resizeWidth] followed by [_adjustAlignX] leaves of a child [s]
    under a parent of width [pw]: the width resolved from the pins or the
    percentage, and the position from the alignment or the left pin. *)
Definition laid_outX (pw : Qc) (s s' : Sprite) : Prop :=
  (∀ l r, _left s = Some l → _right s = Some r → _width s' = pw - l - r) ∧
  (∀ pc, _left s = None ∨ _right s = None → _percentWidth s = Some pc →
         _width s' = pw * pc) ∧
  (_left s = None ∨ _right s = None → _percentWidth s = None →
   _width s' = _width s) ∧
  (_alignX s = Some LEFT → x s' - _originPixelX s' = 0) ∧
  (_alignX s = Some RIGHT → x s' - _originPixelX s' + _width s' = pw) ∧
  (_alignX s = Some CENTER →
   x s' - _originPixelX s' + _width s' * half = pw * half) ∧
  (_alignX s = None →
   ∀ l r, _left s = Some l → _right s = Some r →
          x s' = l + _originPixelX s') ∧
  (_alignX s = None → _left s = None ∨ _right s = None → x s' = x s).

Definition laid_outY (ph : Qc) (s s' : Sprite) : Prop :=
  (∀ t b, _top s = Some t → _bottom s = Some b → _height s' = ph - t - b) ∧
  (∀ pc, _top s = None ∨ _bottom s = None → _percentHeight s = Some pc →
         _height s' = ph * pc) ∧
  (_top s = None ∨ _bottom s = None → _percentHeight s = None →
   _height s' = _height s) ∧
  (_alignY s = Some TOP → y s' - _originPixelY s' = 0) ∧
  (_alignY s = Some BOTTOM → y s' - _originPixelY s' + _height s' = ph) ∧
  (_alignY s = Some CENTER →
   y s' - _originPixelY s' + _height s' * half = ph * half) ∧
  (_alignY s = None →
   ∀ t b, _top s = Some t → _bottom s = Some b →
          y s' = t + _originPixelY s') ∧
  (_alignY s = None → _top s = None ∨ _bottom s = None → y s' = y s).

(** ** Textures that are not loaded yet *)

(** A 64 by 32 texture that has not finished loading, and one that has;
    neither is the texture of [icon_sprite]. *)
Definition pending_icon : Texture := mkTexture 1 (Qc_of_Z 64) (Qc_of_Z 32) false.
Definition banner : Texture := mkTexture 2 (Qc_of_Z 300) (Qc_of_Z 50) true.

(** ** Stage membership *)

(** [st'] is [st] with the stage of some sprites set to [g]. *)
Definition restaged (g : option nat) (st st' : Store) : Prop :=
  ∀ j, st' !! j = st !! j ∨ st' !! j = with_stage g <$> st !! j.

(** Sprite [id] or a sprite below it. *)
Definition within (st : Store) (id j : nat) : Prop :=
  j = id ∨ descends st id j.

(** The tree links of a sprite: its children and its parent. *)
Definition links (s : Sprite) : list nat * option nat := (kids s, _parent s).

(** Two stores with the same sprites, linked the same way. *)
Definition same_links (st st' : Store) : Prop :=
  ∀ j, links <$> st' !! j = links <$> st !! j.

(** A scene of three loose sprites; sprite [0] is on stage [9] and 200 wide,
    sprite [1] is pinned at 10 from the left and 20 from the right. *)
Definition loose_scene : Scene :=
  mkScene
    (<[0%nat := with_stage (Some 9%nat) (with_width (Qc_of_Z 200) new_Sprite)]>
       (<[1%nat := with_left (Some (Qc_of_Z 10))
                     (with_right (Some (Qc_of_Z 20)) new_Sprite)]>
          {[2%nat := new_Sprite]}))
    [] [].

(** * The stage

    [Stage] is a namespace with module-level variables.  The state below
    holds the ones [adjustStageSize] reads and writes; the window is
    represented by the two numbers the function reads from it, and the style
    of the canvas by the numbers of pixels assigned to it. *)

Module Stage.
Record Rect : Type := mkRect {
rect_left : Qc;
rect_right : Qc;
rect_top : Qc;
rect_bottom : Qc
}.

(** The [style] of the canvas: [width], [height], [top] and [left] in
  pixels, and whether [position] is ['absolute']. *)
Record Style : Type := mkStyle {
style_width : Qc;
style_height : Qc;
style_top : Qc;
style_left : Qc;
style_absolute : bool
}.

Record State : Type := mkState {
width : Qc;
height : Qc;
(** [ScaleMode] is a numeric enum: [SHOW_ALL] is 0, [NO_BORDER] 1,
    [FIX_WIDTH] 2 and [FIX_HEIGHT] 3 *)
stageScaleMode : Z;
visibleRect : Rect;
_scale : option Qc;
style : option Style
}.

Definition SHOW_ALL : Z := 0.
Definition NO_BORDER : Z := 1.
Definition FIX_WIDTH : Z := 2.
Definition FIX_HEIGHT : Z := 3.

(** How [adjustStageSize] ends: normally, or with the [Error] of the
  [default] branch, which names the scale mode. *)
Inductive result : Type :=
| Adjusted (s : State)
| UnknownScaleMode (mode : Z).

(** [v | 0]: the number is truncated towards zero and wrapped into 32 bits,
  signed. *)
Definition ToInt32 (v : Qc) : Z :=
let t := Z.quot (Qnum v) (Zpos (Qden v)) in
let m := (t mod 2 ^ 32)%Z in
if (2 ^ 31 <=? m)%Z then (m - 2 ^ 32)%Z else m.

(** The [switch] of [adjustStageSize]: [scale], [width], [height],
  [deltaWidth] and [deltaHeight]. *)
Definition fit (device_width device_height : Qc) (s : State)
  : option (Qc * Qc * Qc * Z * Z) :=
let scaleX := device_width / width s in
let scaleY := device_height / height s in
if bool_decide (stageScaleMode s = SHOW_ALL) then
  if bool_decide (scaleX < scaleY)
  then Some (scaleX, device_width, scaleX * height s, 0%Z, 0%Z)
  else Some (scaleY, scaleY * width s, device_height, 0%Z, 0%Z)
else if bool_decide (stageScaleMode s = NO_BORDER) then
  let scale := if bool_decide (scaleY < scaleX) then scaleX else scaleY in
  Some (scale, width s * scale, height s * scale,
        ToInt32 ((width s - device_width / scale) * half),
        ToInt32 ((height s - device_height / scale) * half))
else if bool_decide (stageScaleMode s = FIX_WIDTH) then
  Some (scaleX, device_width, device_height * scaleX, 0%Z,
        ToInt32 ((height s - device_height / scaleX) * half))
else if bool_decide (stageScaleMode s = FIX_HEIGHT) then
  Some (scaleY, scaleY * device_width, device_height,
        ToInt32 ((width s - device_width / scaleY) * half), 0%Z)
else None.

(** [adjustStageSize()], with [window.innerWidth] and [window.innerHeight]
  as arguments. *)
Definition adjustStageSize (device_width device_height : Qc) (s : State)
  : result :=
match fit device_width device_height s with
| None => UnknownScaleMode (stageScaleMode s)
| Some (scale, w, h, deltaWidth, deltaHeight) =>
    let r := visibleRect s in
    Adjusted
      (mkState (width s) (height s) (stageScaleMode s)
         (mkRect (rect_left r + Qc_of_Z deltaWidth)
                 (rect_right r - Qc_of_Z deltaWidth)
                 (rect_top r + Qc_of_Z deltaHeight)
                 (rect_bottom r - Qc_of_Z deltaHeight))
         (Some scale)
         (Some (mkStyle w h ((device_height - h) * half)
                  ((device_width - w) * half) true)))
end.

(** The state [init] hands to [adjustStageSize]. *)
Definition initial (w h : Qc) (scaleMode : Z) : State :=
mkState w h scaleMode (mkRect 0 w 0 h) None None.

(** [adjustStageSize] run [n] times as the handler of [resize] events
  that report the same window. *)
Fixpoint resized (n : nat) (device_width device_height : Qc) (s : State)
  : result :=
match n with
| O => Adjusted s
| S n' =>
    match resized n' device_width device_height s with
    | Adjusted s' => adjustStageSize device_width device_height s'
    | e => e
    end
end.
End Stage.

(** A 640 by 480 design in mode [NO_BORDER], as [init] leaves it before its
    call of [adjustStageSize]; the window is 1280 by 720. *)
Definition design : Stage.State :=
  Stage.initial (Qc_of_Z 640) (Qc_of_Z 480) Stage.NO_BORDER.

(** ** Stopping by sprite *)

(** Action [a] of [w] belongs to sprite [sp]. *)
Definition acts_on (sp : nat) (w : World) (a : nat) : Prop :=
  sprite <$> actions w !! a = Some (Some sp).

#[global] Instance acts_on_dec sp w a : Decision (acts_on sp w a).
Proof. unfold acts_on. apply _. Defined.

(** Three actions: [0] and [2] run on sprite [5], [1] runs on sprite [6],
    and the idle action [3] on sprite [5] has not been started. *)
Definition busy_world : World :=
  mkWorld empty_scene []
    (<[0%nat := mkAction [ADelay (Delay.new 1)] false true (Some 5%nat)]>
       (<[1%nat := mkAction [ADelay (Delay.new 1)] false true (Some 6%nat)]>
          (<[2%nat := mkAction (callbacks [7%nat]) false true (Some 5%nat)]>
             {[3%nat := mkAction (callbacks [8%nat]) false false
                          (Some 5%nat)]})))
    [0%nat; 1%nat; 2%nat] ∅ [].

(** ** Transitions under way *)

(** The tables of a transition hold, for every attribute whose start value
    has been captured, the distance from it to the destination. *)
Definition captured (l : list IActionAttr) (sts dls : gmap string Qc) : Prop :=
  ∀ attr start,
    attr ∈ l → sts !! name attr = Some start →
    dls !! name attr = Some (dest attr - start).

(** The value an attribute starts from: the one captured at an earlier
    step, or else the one the sprite has now. *)
Definition start_value (sts : gmap string Qc) (s : Sprite) (n : string)
    : option Qc :=
  match sts !! n with
  | Some start => Some start
  | None => get_prop n s
  end.

(** A sprite at [x = 10], and a transition of [x] to 110 and of [opacity]
    to 0 over two seconds, with the easing [linear]. *)
Definition slider : Store := {[0%nat := with_x (Qc_of_Z 10) new_Sprite]}.
Definition slide : Transition :=
  Transition.new linear
    [("x"%string, InfoNumber (Qc_of_Z 110));
     ("opacity"%string, InfoNumber 0)] (Qc_of_Z 2).

(** ** A tick in which nothing finishes *)

(** [_step] on each action of [l] in turn. *)
Fixpoint advance (fuel : nat) (dt : Qc) (l : list nat) (w : World)
    : option World :=
  match l with
  | [] => Some w
  | a :: l' => w' ← Action._step fuel dt a w; advance fuel dt l' w'
  end.

(** ** Removing all children, releasing a sprite *)

(** The [while (this.children.length)] loop of [removeAllChildren]; [before]
    is what the recursive variant does with a child before it removes it,
    and [n] bounds the number of rounds. *)
Fixpoint removeAllChildren_loop (before : nat → World → option World)
    (fuel this : nat) (n : nat) (w : World) : option World :=
  p ← sprites (scene w) !! this;
  match children p with
  | None => None
  | Some [] => Some w
  | Some (sprite :: _) =>
      match n with
      | O => None
      | S n' =>
          w1 ← before sprite w;
          sc2 ← removeChild fuel this sprite (scene w1);
          removeAllChildren_loop before fuel this n' (with_scene sc2 w1)
      end
  end.

(** [removeAllChildren(recusive?)]: every round of the loop removes the
    first child, so the number of children bounds the rounds. *)
Fixpoint removeAllChildren (fuel : nat) (recusive : bool) (this : nat)
    (w : World) : option World :=
  match fuel with
  | O => None
  | S fuel' =>
      p ← sprites (scene w) !! this;
      match children p with
      | None | Some [] => Some w
      | Some cs =>
          w' ← removeAllChildren_loop
                 (λ sprite w0,
                    if recusive then
                      w1 ← removeAllChildren fuel' true sprite w0;
                      Action.stop_sprite sprite w1
                    else Some w0)
                 fuel' this (length cs) w;
          p' ← sprites (scene w') !! this;
          Some (with_scene
                  (with_sprites
                     (<[this := with_children None p']> (sprites (scene w')))
                     (scene w')) w')
      end
  end.

(** The loop of the recursive [release]: [while (this.children.length)
    this.children[0].release(recusive)], with [rel] for the call on the
    child.  It ends when releasing the first child has taken it out of
    [this.children]; [n] bounds the rounds. *)
Fixpoint release_loop
    (rel : nat → World * list nat → option (World * list nat))
    (this n : nat) (wp0 : World * list nat) : option (World * list nat) :=
  p0 ← sprites (scene wp0.1) !! this;
  match children p0 with
  | None => None
  | Some [] => Some wp0
  | Some (c :: _) =>
      match n with
      | O => None
      | S n' => wp1 ← rel c wp0; release_loop rel this n' wp1
      end
  end.

(** [release(recusive?)]; the second component is [ReleasePool.instance],
    as the list of the sprites added to it.  The loop of the recursive
    variant is run on the fuel. *)
Fixpoint release (fuel : nat) (recusive : bool) (this : nat)
    (wp : World * list nat) : option (World * list nat) :=
  match fuel with
  | O => None
  | S fuel' =>
      w1 ← Action.stop_sprite this wp.1;
      p ← sprites (scene w1) !! this;
      wp2 ← (if recusive && bool_decide (is_Some (children p)) then
               release_loop (release fuel' recusive) this fuel' (w1, wp.2)
             else
               w2 ← removeAllChildren fuel' false this w1; Some (w2, wp.2));
      p2 ← sprites (scene wp2.1) !! this;
      wp3 ← match _parent p2 with
             | Some q =>
                 sc ← removeChild fuel' q this (scene wp2.1);
                 Some (with_scene sc wp2.1, wp2.2)
             | None => Some wp2
             end;
      Some (wp3.1, wp3.2 ++ [this])
  end.

(** The family of sprites with an action running on sprite [1] and one on
    sprite [2]. *)
Definition family_world : World :=
  mkWorld (mkScene family [] []) []
    (<[0%nat := mkAction [ADelay (Delay.new 1)] false true (Some 1%nat)]>
       {[1%nat := mkAction [ADelay (Delay.new 1)] false true (Some 2%nat)]})
    [0%nat; 1%nat] ∅ [].

(** ** Clearing a subtree *)

(** What [removeAllChildren] leaves of a sprite that had children: its
    [children] are [null]; a sprite without children is not changed. *)
Definition unchilded (s : Sprite) : Sprite :=
  match children s with
  | Some (_ :: _) => with_children None s
  | _ => s
  end.

(** A sprite taken out of the tree, with its children removed. *)
Definition cleared (s : Sprite) : Sprite :=
  with_stage None (with_parent None (unchilded s)).

(** What the recursive [release] leaves of a sprite: the children array
    emptied, and neither parent nor stage if it had a parent. *)
Definition emptied (s : Sprite) : Sprite :=
  match children s with
  | Some _ => with_children (Some []) s
  | None => s
  end.

Definition discarded (s : Sprite) : Sprite :=
  match _parent s with
  | Some _ => with_stage None (with_parent None (emptied s))
  | None => emptied s
  end.

(** An action after [stop()]. *)
Definition stopped (a : Action) : Action :=
  mkAction [] true false (sprite a).

(** Action [a] belongs to a sprite [j] that satisfies [R]. *)
Definition acts_in (R : nat → Prop) (w : World) (a : nat) : Prop :=
  ∃ j, R j ∧ acts_on j w a.

(** [w'] is [w] with the actions of the active list that satisfy [T]
    stopped: they have left the list, which keeps its order, and nothing
    else of the engine has changed (the scene apart). *)
Definition stops (T : nat → Prop) (w w' : World) : Prop :=
  NoDup (_actionList w') ∧
  sublist (_actionList w') (_actionList w) ∧
  (∀ a, a ∈ _actionList w' ↔ a ∈ _actionList w ∧ ¬ T a) ∧
  (∀ a, a ∈ _actionList w → T a →
        actions w' !! a = stopped <$> actions w !! a) ∧
  (∀ a, ¬ (a ∈ _actionList w ∧ T a) → actions w' !! a = actions w !! a) ∧
  (∀ a, sprite <$> actions w' !! a = sprite <$> actions w !! a) ∧
  fired w' = fired w ∧ listeners w' = listeners w ∧
  _listenerList w' = _listenerList w.
(** * Properties *)

(** ** Write traces *)

Section WritesFacts.
Variable Wr : Sprite → Sprite → Prop.
Variable rank : nat → nat.
Implicit Types st : Store.

Lemma writes_refl n st : writes Wr rank n st st.
Proof. apply rtc_refl. Qed.

Lemma writes_trans n st1 st2 st3 :
  writes Wr rank n st1 st2 → writes Wr rank n st2 st3 →
  writes Wr rank n st1 st3.
Proof. apply rtc_trans. Qed.

Lemma writes_one n st id s s' :
  (rank id < n)%nat → st !! id = Some s → Wr s s' →
  writes Wr rank n st (<[id := s']> st).
Proof. intros. apply rtc_once. by econstructor. Qed.

Lemma writes_mono n m st st' :
  (n ≤ m)%nat → writes Wr rank n st st' → writes Wr rank m st st'.
Proof.
  intros Hnm. induction 1 as [|st1 st2 st3 Hs _ IH]; [apply rtc_refl|].
  eapply rtc_l; [|exact IH]. destruct Hs. econstructor; eauto; lia.
Qed.

(** Sprites of rank [n] or more are out of reach. *)
Lemma writes_frame n st st' j :
  writes Wr rank n st st' → (n ≤ rank j)%nat → st' !! j = st !! j.
Proof.
  induction 1 as [|st1 st2 st3 Hs _ IH]; [done|]. intros Hj.
  rewrite IH by done. destruct Hs as [id s s' Hid _ _].
  apply lookup_insert_ne. intros ->. lia.
Qed.

(** A property of single sprites kept by every write holds store-wide. *)
Lemma writes_Forall (P : Sprite → Prop) n st st' :
  (∀ s s', Wr s s' → P s → P s') →
  writes Wr rank n st st' →
  map_Forall (λ _, P) st → map_Forall (λ _, P) st'.
Proof.
  intros HP. induction 1 as [|st1 st2 st3 Hs _ IH]; [done|]. intros H1.
  apply IH. destruct Hs as [id s s' _ Hs Hw].
  apply map_Forall_insert_2; [|done]. eapply HP; [done|].
  by eapply (map_Forall_lookup_1 _ _ _ _ H1).
Qed.

(** A projection that no write changes reads the same in both stores. *)
Lemma writes_proj {A} (f : Sprite → A) n st st' j :
  (∀ s s', Wr s s' → f s' = f s) →
  writes Wr rank n st st' → f <$> st' !! j = f <$> st !! j.
Proof.
  intros Hf. induction 1 as [|st1 st2 st3 Hs _ IH]; [done|].
  rewrite IH. destruct Hs as [id s s' _ Hs Hw].
  destruct (decide (id = j)) as [->|Hne].
  - rewrite lookup_insert_eq, Hs. simpl. f_equal. eauto.
  - by rewrite lookup_insert_ne.
Qed.

Lemma writes_proj_Some {A} (f : Sprite → A) n st st' j s' :
  (∀ s s', Wr s s' → f s' = f s) →
  writes Wr rank n st st' → st' !! j = Some s' →
  ∃ s, st !! j = Some s ∧ f s' = f s.
Proof.
  intros Hf Hw Hs'. pose proof (writes_proj f n st st' j Hf Hw) as H.
  rewrite Hs' in H. destruct (st !! j) as [s|]; [|done].
  injection H as H. eauto.
Qed.

Lemma writes_proj_Some_1 {A} (f : Sprite → A) n st st' j s :
  (∀ s s', Wr s s' → f s' = f s) →
  writes Wr rank n st st' → st !! j = Some s →
  ∃ s', st' !! j = Some s' ∧ f s' = f s.
Proof.
  intros Hf Hw Hs. pose proof (writes_proj f n st st' j Hf Hw) as H.
  rewrite Hs in H. destruct (st' !! j) as [s'|]; [|done].
  injection H as H. eauto.
Qed.

Lemma writes_is_Some n st st' j :
  writes Wr rank n st st' → is_Some (st' !! j) ↔ is_Some (st !! j).
Proof.
  intros Hw. pose proof (writes_proj (λ _, ()) n st st' j (λ _ _ _, eq_refl) Hw) as H.
  rewrite <- !fmap_is_Some with (f := λ _ : Sprite, ()). by rewrite H.
Qed.
End WritesFacts.

(** ** Well-formed stores *)

Lemma well_formed_lookup rank (st : Store) id s :
  well_formed rank st → st !! id = Some s →
  (∀ c, c ∈ kids s → is_Some (st !! c) ∧ (rank c < rank id)%nat) ∧
  (∀ p, _parent s = Some p → is_Some (st !! p)).
Proof.
  intros Hwf Hs. destruct (map_Forall_lookup_1 _ _ _ _ Hwf Hs) as [Hk Hp].
  split.
  - intros c Hc. by apply (proj1 (Forall_forall _ _) Hk).
  - intros p Hpar. by rewrite Hpar in Hp.
Qed.

Lemma well_formed_intro rank (st : Store) :
  (∀ id s, st !! id = Some s →
     (∀ c, c ∈ kids s → is_Some (st !! c) ∧ (rank c < rank id)%nat) ∧
     (∀ p, _parent s = Some p → is_Some (st !! p))) →
  well_formed rank st.
Proof.
  intros H id s Hs. destruct (H id s Hs) as [Hk Hp]. split.
  - by apply Forall_forall.
  - destruct (_parent s); [by apply Hp|done].
Qed.

Lemma well_formed_wranked rank (st : Store) :
  well_formed rank st → wranked rank st.
Proof.
  intros Hwf id s c Hs Hc.
  destruct (well_formed_lookup _ _ _ _ Hwf Hs) as [Hk _].
  destruct (Hk c Hc). lia.
Qed.

Lemma wranked_const (st : Store) : wranked (λ _, O) st.
Proof. by intros id s c _ _. Qed.

Lemma writes_wranked Wr rank0 rank n (st st' : Store) :
  (∀ s s', Wr s s' → kids s' = kids s) →
  writes Wr rank0 n st st' → wranked rank st → wranked rank st'.
Proof.
  intros HWr Hw Hr id s' c Hs' Hc.
  destruct (writes_proj_Some Wr rank0 kids n st st' id s' HWr Hw Hs')
    as (s & Hs & Hk).
  apply (Hr id s c Hs). by rewrite <- Hk.
Qed.

Lemma writes_well_formed Wr rank0 rank n (st st' : Store) :
  (∀ s s', Wr s s' → kids s' = kids s) →
  (∀ s s', Wr s s' → _parent s' = _parent s) →
  writes Wr rank0 n st st' → well_formed rank st → well_formed rank st'.
Proof.
  intros Hkids Hpar Hw Hwf. apply well_formed_intro. intros id s' Hs'.
  destruct (writes_proj_Some Wr rank0 kids n st st' id s' Hkids Hw Hs')
    as (s & Hs & Hk).
  destruct (writes_proj_Some Wr rank0 _parent n st st' id s' Hpar Hw Hs')
    as (s0 & Hs0 & Hp).
  assert (s0 = s) as -> by congruence.
  destruct (well_formed_lookup _ _ _ _ Hwf Hs) as [H1 H2]. split.
  - intros c Hc. rewrite Hk in Hc. destruct (H1 c Hc) as [? ?].
    split; [|done]. by eapply writes_is_Some.
  - intros p Hp'. rewrite Hp in Hp'. eapply writes_is_Some; [done|]. eauto.
Qed.

(** ** Iteration over children *)

Lemma forEach_rel (R : relation Store) `{!PreOrder R} (I : Store → Prop)
    (f : nat → Store → option Store) cs st st' :
  (∀ c st0 st1, c ∈ cs → I st0 → f c st0 = Some st1 → R st0 st1 ∧ I st1) →
  I st → forEach f cs st = Some st' → R st st' ∧ I st'.
Proof.
  revert st. induction cs as [|c cs IH]; intros st Hf HI Hrun; simpl in Hrun.
  - injection Hrun as <-. done.
  - apply bind_Some in Hrun as (st1 & H1 & Hrun).
    destruct (Hf c st st1) as [HR1 HI1]; [left|done|done|].
    destruct (IH st1) as [HR2 HI2]; [|done|done|].
    + intros c' ? ? Hc'. apply Hf. by right.
    + split; [|done]. by trans st1.
Qed.

Lemma forEach_total (I : Store → Prop)
    (f : nat → Store → option Store) cs st :
  (∀ c st0, c ∈ cs → I st0 → ∃ st1, f c st0 = Some st1 ∧ I st1) →
  I st → ∃ st', forEach f cs st = Some st' ∧ I st'.
Proof.
  revert st. induction cs as [|c cs IH]; intros st Hf HI; simpl.
  - eauto.
  - destruct (Hf c st) as (st1 & H1 & HI1); [left|done|].
    rewrite H1. simpl. apply IH; [|done].
    intros c' ? Hc'. apply Hf. by right.
Qed.

Lemma forEach_app (f : nat → Store → option Store) cs1 cs2 (st : Store) :
  forEach f (cs1 ++ cs2) st = st1 ← forEach f cs1 st; forEach f cs2 st1.
Proof.
  revert st. induction cs1 as [|c cs1 IH]; intros st; simpl; [done|].
  destruct (f c st) as [st1|]; simpl; [apply IH|done].
Qed.

(** ** Width: what the layout code writes *)

Lemma Xwrite_kids s s' : Xwrite s s' → kids s' = kids s.
Proof. by destruct 1. Qed.

Lemma Xwrite_parent s s' : Xwrite s s' → _parent s' = _parent s.
Proof. by destruct 1. Qed.

Lemma Xwrite_dropX s s' : Xwrite s s' → dropX s' = dropX s.
Proof. by destruct 1. Qed.

Lemma Xwrite_origin_ok s s' : Xwrite s s' → origin_ok s → origin_ok s'.
Proof.
  destruct 1; intros [HX HY]; split; simpl; try done. apply Qcmult_comm.
Qed.

Section WidthWrites.
Variable rank : nat → nat.
Implicit Types st : Store.

Lemma _adjustAlignX_writes id st st' :
  _adjustAlignX id st = Some st' →
  writes Xwrite rank (S (rank id)) st st'.
Proof.
  unfold _adjustAlignX. intros H.
  apply bind_Some in H as (s & Hs & H).
  destruct (_parent s) as [p|]; [|injection H as <-; apply writes_refl].
  destruct (_alignX s) as [a|]; [|injection H as <-; apply writes_refl].
  apply bind_Some in H as (ps & Hps & H).
  destruct a; injection H as <-;
    first [apply writes_refl | by eapply writes_one; [lia|done|constructor]].
Qed.

(** [_adjustAlignX] changes at most the [x] of its sprite. *)
Lemma _adjustAlignX_at id st st' s :
  st !! id = Some s → _adjustAlignX id st = Some st' →
  ∃ v, st' = <[id := with_x v s]> st.
Proof.
  unfold _adjustAlignX. intros Hs H. rewrite Hs in H. simpl in H.
  assert (st = <[id := with_x (x s) s]> st) as Hid.
  { symmetry. apply insert_id. rewrite Hs. f_equal. by destruct s. }
  destruct (_parent s) as [p|]; [|injection H as <-; eauto].
  destruct (_alignX s) as [a|]; [|injection H as <-; eauto].
  apply bind_Some in H as (ps & Hps & H).
  destruct a; injection H as <-; eauto.
Qed.

Lemma _adjustAlignX_total id st :
  well_formed rank st → is_Some (st !! id) →
  is_Some (_adjustAlignX id st).
Proof.
  intros Hwf [s Hs]. unfold _adjustAlignX. rewrite Hs. simpl.
  destruct (_parent s) as [p|] eqn:Hp; [|done].
  destruct (_alignX s) as [a|]; [|done].
  destruct (well_formed_lookup _ _ _ _ Hwf Hs) as [_ Hpar].
  destruct (Hpar p Hp) as [ps Hps]. rewrite Hps. simpl. by destruct a.
Qed.

Lemma _resizeWidth_with_writes setwidth id st st' :
  (∀ v st0 st1, wranked rank st0 → setwidth id v st0 = Some st1 →
                writes Xwrite rank (S (rank id)) st0 st1) →
  wranked rank st →
  _resizeWidth_with setwidth id st = Some st' →
  writes Xwrite rank (S (rank id)) st st'.
Proof.
  intros Hset Hr. unfold _resizeWidth_with. intros H.
  apply bind_Some in H as (s & Hs & H).
  destruct (_parent s) as [p|]; [|injection H as <-; apply writes_refl].
  apply bind_Some in H as (ps & Hps & H).
  destruct (_left s) as [l|], (_right s) as [r|];
    try (destruct (_percentWidth s) as [pw|];
         [by eapply Hset|injection H as <-; apply writes_refl]).
  apply bind_Some in H as (st1 & H1 & H).
  apply bind_Some in H as (s1 & Hs1 & H). injection H as <-.
  eapply writes_trans; [by eapply Hset|].
  eapply writes_one; [lia|done|constructor].
Qed.

(** Re-laying out the children [cs], all of rank below [n], writes only to
    sprites of rank below [n]. *)
Lemma relayoutWidth_each_writes setwidth cs n st st' :
  (∀ c v st0 st1, wranked rank st0 → setwidth c v st0 = Some st1 →
                  writes Xwrite rank (S (rank c)) st0 st1) →
  wranked rank st →
  Forall (λ c, (rank c < n)%nat) cs →
  forEach (λ child st0,
             st1 ← _resizeWidth_with setwidth child st0;
             _adjustAlignX child st1) cs st = Some st' →
  writes Xwrite rank n st st'.
Proof.
  intros Hset Hr Hn H.
  eapply (forEach_rel (writes Xwrite rank n) (wranked rank));
    [|exact Hr|exact H].
  intros c st0 st1 Hc Hr0 Hstep.
  assert (rank c < n)%nat as Hrank
    by (by apply (proj1 (Forall_forall _ _) Hn)).
  apply bind_Some in Hstep as (st0' & Hres & Hadj).
  assert (writes Xwrite rank n st0 st1) as Hw.
  { eapply writes_mono; [exact Hrank|].
    eapply writes_trans; [|by eapply _adjustAlignX_writes].
    eapply _resizeWidth_with_writes; [|done|done]. intros; by eapply Hset. }
  split; [done|]. eapply writes_wranked; [apply Xwrite_kids|done..].
Qed.

(** The child re-layout writes only to sprites of rank below [n], when the
    children of [id] have rank below [n]. *)
Lemma _reLayoutChildrenOnWidthChanged_with_writes setwidth id n st st' :
  (∀ c v st0 st1, wranked rank st0 → setwidth c v st0 = Some st1 →
                  writes Xwrite rank (S (rank c)) st0 st1) →
  wranked rank st →
  (∀ s c, st !! id = Some s → c ∈ kids s → (rank c < n)%nat) →
  _reLayoutChildrenOnWidthChanged_with setwidth id st = Some st' →
  writes Xwrite rank n st st'.
Proof.
  intros Hset Hr Hn. unfold _reLayoutChildrenOnWidthChanged_with. intros H.
  apply bind_Some in H as (s & Hs & H).
  destruct (children s) as [cs|] eqn:Hcs;
    [|injection H as <-; apply writes_refl].
  destruct cs as [|c0 cs0]; [injection H as <-; apply writes_refl|].
  eapply (forEach_rel (writes Xwrite rank n) (wranked rank));
    [|exact Hr|exact H].
  intros c st0 st1 Hc Hr0 Hstep.
  assert (rank c < n)%nat as Hrank.
  { apply (Hn s c Hs). unfold kids. by rewrite Hcs. }
  apply bind_Some in Hstep as (st0' & Hres & Hadj).
  assert (writes Xwrite rank n st0 st1) as Hw.
  { eapply writes_mono; [exact Hrank|].
    eapply writes_trans; [|by eapply _adjustAlignX_writes].
    eapply _resizeWidth_with_writes; [|done|done]. intros; by eapply Hset. }
  split; [done|]. eapply writes_wranked; [apply Xwrite_kids|done..].
Qed.

Lemma set_width_writes fuel id value st st' :
  wranked rank st →
  set_width fuel id value st = Some st' →
  writes Xwrite rank (S (rank id)) st st'.
Proof.
  revert id value st st'.
  induction fuel as [|fuel IH]; intros id value st st' Hr H; [done|].
  simpl in H. apply bind_Some in H as (s & Hs & H).
  destruct (num_eqb (_width s) value);
    [injection H as <-; apply writes_refl|].
  apply bind_Some in H as (st2 & H2 & H).
  assert (writes Xwrite rank (S (rank id)) st st2) as Hw2.
  { eapply writes_trans; [|by eapply _adjustAlignX_writes].
    eapply writes_one; [lia|done|apply (Xwrite_width s value)]. }
  eapply writes_trans; [exact Hw2|].
  assert (wranked rank st2) as Hr2
    by (eapply writes_wranked; [apply Xwrite_kids|done..]).
  eapply _reLayoutChildrenOnWidthChanged_with_writes; [|done| |exact H].
  - intros; by eapply IH.
  - intros s2 c Hs2 Hc. specialize (Hr2 id s2 c Hs2 Hc). lia.
Qed.

Lemma _resizeWidth_writes fuel id st st' :
  wranked rank st →
  _resizeWidth fuel id st = Some st' →
  writes Xwrite rank (S (rank id)) st st'.
Proof.
  intros Hr H. eapply _resizeWidth_with_writes; [|done|exact H].
  intros; by eapply set_width_writes.
Qed.

Lemma set_originX_writes id value st st' :
  set_originX id value st = Some st' →
  writes Xwrite rank (S (rank id)) st st'.
Proof.
  unfold set_originX. intros H. apply bind_Some in H as (s & Hs & H).
  destruct (num_eqb (_originX s) value);
    [injection H as <-; apply writes_refl|].
  eapply writes_trans; [|by eapply _adjustAlignX_writes].
  eapply writes_one; [lia|done|apply (Xwrite_origin s value)].
Qed.

(** *** Enough fuel gives a result *)

Lemma _resizeWidth_with_total setwidth id st :
  (∀ v st0, well_formed rank st0 → is_Some (st0 !! id) →
     ∃ st1, setwidth id v st0 = Some st1 ∧
            writes Xwrite rank (S (rank id)) st0 st1) →
  well_formed rank st → is_Some (st !! id) →
  is_Some (_resizeWidth_with setwidth id st).
Proof.
  intros Hset Hwf [s Hs]. unfold _resizeWidth_with. rewrite Hs. simpl.
  destruct (_parent s) as [p|] eqn:Hp; [|done].
  destruct (well_formed_lookup _ _ _ _ Hwf Hs) as [_ Hpar].
  destruct (Hpar p Hp) as [ps Hps]. rewrite Hps. simpl.
  destruct (_left s) as [l|], (_right s) as [r|];
    try (destruct (_percentWidth s) as [pw|]; [|done];
         by destruct (Hset (_width ps * pw) st Hwf) as (st1 & -> & _)).
  destruct (Hset (_width ps - l - r) st Hwf) as (st1 & -> & Hw); [done|].
  simpl. assert (is_Some (st1 !! id)) as [s1 ->]; [|done].
  eapply writes_is_Some; [done|]. by rewrite Hs.
Qed.

Lemma set_width_total fuel id value st :
  well_formed rank st → is_Some (st !! id) → (rank id < fuel)%nat →
  is_Some (set_width fuel id value st).
Proof.
  revert id value st.
  induction fuel as [|fuel IH]; intros id value st Hwf [s Hs] Hfuel; [lia|].
  simpl. rewrite Hs. simpl.
  destruct (num_eqb (_width s) value); [done|].
  set (s2 := with_originPixelX _ _).
  assert (writes Xwrite rank (S (rank id)) st (<[id := s2]> st)) as Hw1.
  { eapply writes_one; [lia|done|apply (Xwrite_width s value)]. }
  assert (well_formed rank (<[id := s2]> st)) as Hwf1.
  { eapply writes_well_formed;
      [apply Xwrite_kids|apply Xwrite_parent|done..]. }
  destruct (_adjustAlignX_total id (<[id := s2]> st) Hwf1) as [st2 H2].
  { by rewrite lookup_insert_eq. }
  rewrite H2. simpl.
  assert (well_formed rank st2) as Hwf2.
  { eapply writes_well_formed;
      [apply Xwrite_kids|apply Xwrite_parent| |done].
    by eapply _adjustAlignX_writes. }
  assert (is_Some (st2 !! id)) as [s3 Hs3].
  { eapply writes_is_Some; [by eapply _adjustAlignX_writes|].
    by rewrite lookup_insert_eq. }
  unfold _reLayoutChildrenOnWidthChanged_with. rewrite Hs3. simpl.
  destruct (children s3) as [cs|] eqn:Hcs; [|done].
  destruct cs as [|c0 cs0]; [done|].
  destruct (well_formed_lookup _ _ _ _ Hwf2 Hs3) as [Hk _].
  destruct (forEach_total
    (λ st0, well_formed rank st0 ∧ ∀ c, c ∈ kids s3 → is_Some (st0 !! c))
    (λ child st0,
       st1 ← _resizeWidth_with (set_width fuel) child st0;
       _adjustAlignX child st1) (c0 :: cs0) st2) as (st' & -> & _);
    [| |done].
  - intros c st0 Hc [Hwf0 Hdom].
    assert (c ∈ kids s3) as Hc3 by (unfold kids; by rewrite Hcs).
    destruct (Hk c Hc3) as [_ Hrank].
    assert (∀ v st3, well_formed rank st3 → is_Some (st3 !! c) →
              ∃ st4, set_width fuel c v st3 = Some st4 ∧
                     writes Xwrite rank (S (rank c)) st3 st4) as Hset.
    { intros v st3 Hwf3 Hc'.
      destruct (IH c v st3 Hwf3 Hc') as [st4 H4]; [lia|].
      exists st4. split; [done|].
      eapply set_width_writes; [by apply well_formed_wranked|done]. }
    destruct (_resizeWidth_with_total _ c st0 Hset Hwf0 (Hdom c Hc3))
      as [st1 H1].
    assert (writes Xwrite rank (S (rank c)) st0 st1) as Hw01.
    { eapply _resizeWidth_with_writes;
        [|by apply well_formed_wranked|exact H1].
      intros v st3 st4 Hr3 H34. by eapply set_width_writes. }
    assert (well_formed rank st1) as Hwf1'.
    { eapply writes_well_formed;
        [apply Xwrite_kids|apply Xwrite_parent|done..]. }
    destruct (_adjustAlignX_total c st1 Hwf1') as [st1' H1'].
    { eapply writes_is_Some; [done|]. by apply Hdom. }
    assert (writes Xwrite rank (S (rank c)) st1 st1') as Hw11
      by (by eapply _adjustAlignX_writes).
    exists st1'. rewrite H1. simpl. split; [done|]. split.
    + eapply writes_well_formed;
        [apply Xwrite_kids|apply Xwrite_parent|done..].
    + intros c' Hc'. eapply writes_is_Some; [done|].
      eapply writes_is_Some; [done|]. by apply Hdom.
  - split; [done|]. intros c Hc. by destruct (Hk c Hc).
Qed.

(** *** The sprite itself after the call *)

(** In a well-formed store the re-layout of the children does not reach
    back to the sprite: after [set width] the sprite is its old self with
    [_width], [_originPixelX] and [x] rewritten. *)
Lemma set_width_at fuel id value st st' s :
  well_formed rank st → st !! id = Some s →
  set_width fuel id value st = Some st' →
  ∃ s', st' !! id = Some s' ∧ _width s' = value ∧
        s' = with_x (x s')
               (with_originPixelX (_originPixelX s') (with_width value s)).
Proof.
  intros Hwf Hs H. destruct fuel as [|fuel]; [done|].
  simpl in H. rewrite Hs in H. simpl in H.
  destruct (num_eqb (_width s) value) eqn:E.
  { injection H as <-. apply bool_decide_eq_true in E.
    exists s. split; [done|]. split; [done|].
    rewrite <- E. by destruct s. }
  apply bind_Some in H as (st2 & H2 & H).
  set (s2 := with_originPixelX _ _) in H2.
  assert (writes Xwrite rank (S (rank id)) st (<[id := s2]> st)) as Hw1.
  { eapply writes_one; [lia|done|apply (Xwrite_width s value)]. }
  destruct (_adjustAlignX_at id _ _ s2 (lookup_insert_eq _ _ _) H2)
    as [v Hst2].
  rewrite insert_insert_eq in Hst2.
  assert (well_formed rank st2) as Hwf2.
  { eapply writes_well_formed;
      [apply Xwrite_kids|apply Xwrite_parent| |exact Hwf].
    eapply writes_trans; [exact Hw1|]. by eapply _adjustAlignX_writes. }
  assert (writes Xwrite rank (rank id) st2 st') as Hw.
  { eapply _reLayoutChildrenOnWidthChanged_with_writes;
      [|by apply well_formed_wranked| |exact H].
    - intros; by eapply set_width_writes.
    - intros s3 c Hs3 Hc.
      destruct (well_formed_lookup _ _ _ _ Hwf2 Hs3) as [Hk _].
      by destruct (Hk c Hc). }
  exists (with_x v s2). split; [|done].
  rewrite (writes_frame _ _ _ _ _ id Hw) by lia.
  rewrite Hst2. apply lookup_insert_eq.
Qed.

(** [_resizeWidth]: a result exists, the store stays well formed, sprites
    of higher rank are untouched, the sprite keeps everything but its
    width geometry, and with both pins set the size is the parent's size
    less the pins. *)
Lemma _resizeWidth_spec fuel id st s :
  well_formed rank st → st !! id = Some s → (rank id < fuel)%nat →
  ∃ st' s',
    _resizeWidth fuel id st = Some st' ∧ well_formed rank st' ∧
    writes Xwrite rank (S (rank id)) st st' ∧
    st' !! id = Some s' ∧
    (∀ p ps l r,
       _parent s = Some p → st !! p = Some ps →
       _left s = Some l → _right s = Some r →
       _width s' = _width ps - l - r ∧ x s' = l + _originPixelX s').
Proof.
  intros Hwf Hs Hfuel.
  assert (is_Some (_resizeWidth fuel id st)) as [st' H].
  { apply _resizeWidth_with_total; [|done|by rewrite Hs].
    intros v st0 Hwf0 Hid0.
    destruct (set_width_total fuel id v st0 Hwf0 Hid0 Hfuel) as [st1 H1].
    exists st1. split; [done|].
    eapply set_width_writes; [by apply well_formed_wranked|done]. }
  assert (writes Xwrite rank (S (rank id)) st st') as Hw
    by (eapply _resizeWidth_writes; [by apply well_formed_wranked|done]).
  assert (is_Some (st' !! id)) as [s' Hs']
    by (eapply writes_is_Some; [done|by rewrite Hs]).
  exists st', s'. split; [done|]. split.
  { eapply writes_well_formed;
      [apply Xwrite_kids|apply Xwrite_parent|done..]. }
  split; [done|]. split; [done|].
  intros p ps l r Hp Hps Hl Hr.
  unfold _resizeWidth, _resizeWidth_with in H.
  rewrite Hs in H. simpl in H. rewrite Hp, Hps in H. simpl in H.
  rewrite Hl, Hr in H.
  apply bind_Some in H as (st1 & H1 & H).
  apply bind_Some in H as (s1 & Hs1 & H). injection H as <-.
  destruct (set_width_at fuel id _ st st1 s Hwf Hs H1) as (s1' & Hs1' & Hv & _).
  assert (s1' = s1) as -> by congruence.
  rewrite lookup_insert_eq in Hs'. injection Hs' as <-. by split.
Qed.
End WidthWrites.
(** ** Height: what the layout code writes *)

Lemma Ywrite_kids s s' : Ywrite s s' → kids s' = kids s.
Proof. by destruct 1. Qed.

Lemma Ywrite_parent s s' : Ywrite s s' → _parent s' = _parent s.
Proof. by destruct 1. Qed.

Lemma Ywrite_dropY s s' : Ywrite s s' → dropY s' = dropY s.
Proof. by destruct 1. Qed.

Lemma Ywrite_origin_ok s s' : Ywrite s s' → origin_ok s → origin_ok s'.
Proof.
  destruct 1; intros [HX HY]; split; simpl; try done. apply Qcmult_comm.
Qed.

Section HeightWrites.
Variable rank : nat → nat.
Implicit Types st : Store.

Lemma _adjustAlignY_writes id st st' :
  _adjustAlignY id st = Some st' →
  writes Ywrite rank (S (rank id)) st st'.
Proof.
  unfold _adjustAlignY. intros H.
  apply bind_Some in H as (s & Hs & H).
  destruct (_parent s) as [p|]; [|injection H as <-; apply writes_refl].
  destruct (_alignY s) as [a|]; [|injection H as <-; apply writes_refl].
  apply bind_Some in H as (ps & Hps & H).
  destruct a; injection H as <-;
    first [apply writes_refl | by eapply writes_one; [lia|done|constructor]].
Qed.

(** [_adjustAlignY] changes at most the [y] of its sprite. *)
Lemma _adjustAlignY_at id st st' s :
  st !! id = Some s → _adjustAlignY id st = Some st' →
  ∃ v, st' = <[id := with_y v s]> st.
Proof.
  unfold _adjustAlignY. intros Hs H. rewrite Hs in H. simpl in H.
  assert (st = <[id := with_y (y s) s]> st) as Hid.
  { symmetry. apply insert_id. rewrite Hs. f_equal. by destruct s. }
  destruct (_parent s) as [p|]; [|injection H as <-; eauto].
  destruct (_alignY s) as [a|]; [|injection H as <-; eauto].
  apply bind_Some in H as (ps & Hps & H).
  destruct a; injection H as <-; eauto.
Qed.

Lemma _adjustAlignY_total id st :
  well_formed rank st → is_Some (st !! id) →
  is_Some (_adjustAlignY id st).
Proof.
  intros Hwf [s Hs]. unfold _adjustAlignY. rewrite Hs. simpl.
  destruct (_parent s) as [p|] eqn:Hp; [|done].
  destruct (_alignY s) as [a|]; [|done].
  destruct (well_formed_lookup _ _ _ _ Hwf Hs) as [_ Hpar].
  destruct (Hpar p Hp) as [ps Hps]. rewrite Hps. simpl. by destruct a.
Qed.

Lemma _resizeHeight_with_writes setheight id st st' :
  (∀ v st0 st1, wranked rank st0 → setheight id v st0 = Some st1 →
                writes Ywrite rank (S (rank id)) st0 st1) →
  wranked rank st →
  _resizeHeight_with setheight id st = Some st' →
  writes Ywrite rank (S (rank id)) st st'.
Proof.
  intros Hset Hr. unfold _resizeHeight_with. intros H.
  apply bind_Some in H as (s & Hs & H).
  destruct (_parent s) as [p|]; [|injection H as <-; apply writes_refl].
  apply bind_Some in H as (ps & Hps & H).
  destruct (_top s) as [l|], (_bottom s) as [r|];
    try (destruct (_percentHeight s) as [pw|];
         [by eapply Hset|injection H as <-; apply writes_refl]).
  apply bind_Some in H as (st1 & H1 & H).
  apply bind_Some in H as (s1 & Hs1 & H). injection H as <-.
  eapply writes_trans; [by eapply Hset|].
  eapply writes_one; [lia|done|constructor].
Qed.

(** Re-laying out the children [cs], all of rank below [n], writes only to
    sprites of rank below [n]. *)
Lemma relayoutHeight_each_writes setheight cs n st st' :
  (∀ c v st0 st1, wranked rank st0 → setheight c v st0 = Some st1 →
                  writes Ywrite rank (S (rank c)) st0 st1) →
  wranked rank st →
  Forall (λ c, (rank c < n)%nat) cs →
  forEach (λ child st0,
             st1 ← _resizeHeight_with setheight child st0;
             _adjustAlignY child st1) cs st = Some st' →
  writes Ywrite rank n st st'.
Proof.
  intros Hset Hr Hn H.
  eapply (forEach_rel (writes Ywrite rank n) (wranked rank));
    [|exact Hr|exact H].
  intros c st0 st1 Hc Hr0 Hstep.
  assert (rank c < n)%nat as Hrank
    by (by apply (proj1 (Forall_forall _ _) Hn)).
  apply bind_Some in Hstep as (st0' & Hres & Hadj).
  assert (writes Ywrite rank n st0 st1) as Hw.
  { eapply writes_mono; [exact Hrank|].
    eapply writes_trans; [|by eapply _adjustAlignY_writes].
    eapply _resizeHeight_with_writes; [|done|done]. intros; by eapply Hset. }
  split; [done|]. eapply writes_wranked; [apply Ywrite_kids|done..].
Qed.

(** The child re-layout writes only to sprites of rank below [n], when the
    children of [id] have rank below [n]. *)
Lemma _reLayoutChildrenOnHeightChanged_with_writes setheight id n st st' :
  (∀ c v st0 st1, wranked rank st0 → setheight c v st0 = Some st1 →
                  writes Ywrite rank (S (rank c)) st0 st1) →
  wranked rank st →
  (∀ s c, st !! id = Some s → c ∈ kids s → (rank c < n)%nat) →
  _reLayoutChildrenOnHeightChanged_with setheight id st = Some st' →
  writes Ywrite rank n st st'.
Proof.
  intros Hset Hr Hn. unfold _reLayoutChildrenOnHeightChanged_with. intros H.
  apply bind_Some in H as (s & Hs & H).
  destruct (children s) as [cs|] eqn:Hcs;
    [|injection H as <-; apply writes_refl].
  destruct cs as [|c0 cs0]; [injection H as <-; apply writes_refl|].
  eapply (forEach_rel (writes Ywrite rank n) (wranked rank));
    [|exact Hr|exact H].
  intros c st0 st1 Hc Hr0 Hstep.
  assert (rank c < n)%nat as Hrank.
  { apply (Hn s c Hs). unfold kids. by rewrite Hcs. }
  apply bind_Some in Hstep as (st0' & Hres & Hadj).
  assert (writes Ywrite rank n st0 st1) as Hw.
  { eapply writes_mono; [exact Hrank|].
    eapply writes_trans; [|by eapply _adjustAlignY_writes].
    eapply _resizeHeight_with_writes; [|done|done]. intros; by eapply Hset. }
  split; [done|]. eapply writes_wranked; [apply Ywrite_kids|done..].
Qed.

Lemma set_height_writes fuel id value st st' :
  wranked rank st →
  set_height fuel id value st = Some st' →
  writes Ywrite rank (S (rank id)) st st'.
Proof.
  revert id value st st'.
  induction fuel as [|fuel IH]; intros id value st st' Hr H; [done|].
  simpl in H. apply bind_Some in H as (s & Hs & H).
  destruct (num_eqb (_height s) value);
    [injection H as <-; apply writes_refl|].
  apply bind_Some in H as (st2 & H2 & H).
  assert (writes Ywrite rank (S (rank id)) st st2) as Hw2.
  { eapply writes_trans; [|by eapply _adjustAlignY_writes].
    eapply writes_one; [lia|done|apply (Ywrite_height s value)]. }
  eapply writes_trans; [exact Hw2|].
  assert (wranked rank st2) as Hr2
    by (eapply writes_wranked; [apply Ywrite_kids|done..]).
  eapply _reLayoutChildrenOnHeightChanged_with_writes; [|done| |exact H].
  - intros; by eapply IH.
  - intros s2 c Hs2 Hc. specialize (Hr2 id s2 c Hs2 Hc). lia.
Qed.

Lemma _resizeHeight_writes fuel id st st' :
  wranked rank st →
  _resizeHeight fuel id st = Some st' →
  writes Ywrite rank (S (rank id)) st st'.
Proof.
  intros Hr H. eapply _resizeHeight_with_writes; [|done|exact H].
  intros; by eapply set_height_writes.
Qed.

Lemma set_originY_writes id value st st' :
  set_originY id value st = Some st' →
  writes Ywrite rank (S (rank id)) st st'.
Proof.
  unfold set_originY. intros H. apply bind_Some in H as (s & Hs & H).
  destruct (num_eqb (_originY s) value);
    [injection H as <-; apply writes_refl|].
  eapply writes_trans; [|by eapply _adjustAlignY_writes].
  eapply writes_one; [lia|done|apply (Ywrite_origin s value)].
Qed.

(** *** Enough fuel gives a result *)

Lemma _resizeHeight_with_total setheight id st :
  (∀ v st0, well_formed rank st0 → is_Some (st0 !! id) →
     ∃ st1, setheight id v st0 = Some st1 ∧
            writes Ywrite rank (S (rank id)) st0 st1) →
  well_formed rank st → is_Some (st !! id) →
  is_Some (_resizeHeight_with setheight id st).
Proof.
  intros Hset Hwf [s Hs]. unfold _resizeHeight_with. rewrite Hs. simpl.
  destruct (_parent s) as [p|] eqn:Hp; [|done].
  destruct (well_formed_lookup _ _ _ _ Hwf Hs) as [_ Hpar].
  destruct (Hpar p Hp) as [ps Hps]. rewrite Hps. simpl.
  destruct (_top s) as [l|], (_bottom s) as [r|];
    try (destruct (_percentHeight s) as [pw|]; [|done];
         by destruct (Hset (_height ps * pw) st Hwf) as (st1 & -> & _)).
  destruct (Hset (_height ps - l - r) st Hwf) as (st1 & -> & Hw); [done|].
  simpl. assert (is_Some (st1 !! id)) as [s1 ->]; [|done].
  eapply writes_is_Some; [done|]. by rewrite Hs.
Qed.

Lemma set_height_total fuel id value st :
  well_formed rank st → is_Some (st !! id) → (rank id < fuel)%nat →
  is_Some (set_height fuel id value st).
Proof.
  revert id value st.
  induction fuel as [|fuel IH]; intros id value st Hwf [s Hs] Hfuel; [lia|].
  simpl. rewrite Hs. simpl.
  destruct (num_eqb (_height s) value); [done|].
  set (s2 := with_originPixelY _ _).
  assert (writes Ywrite rank (S (rank id)) st (<[id := s2]> st)) as Hw1.
  { eapply writes_one; [lia|done|apply (Ywrite_height s value)]. }
  assert (well_formed rank (<[id := s2]> st)) as Hwf1.
  { eapply writes_well_formed;
      [apply Ywrite_kids|apply Ywrite_parent|done..]. }
  destruct (_adjustAlignY_total id (<[id := s2]> st) Hwf1) as [st2 H2].
  { by rewrite lookup_insert_eq. }
  rewrite H2. simpl.
  assert (well_formed rank st2) as Hwf2.
  { eapply writes_well_formed;
      [apply Ywrite_kids|apply Ywrite_parent| |done].
    by eapply _adjustAlignY_writes. }
  assert (is_Some (st2 !! id)) as [s3 Hs3].
  { eapply writes_is_Some; [by eapply _adjustAlignY_writes|].
    by rewrite lookup_insert_eq. }
  unfold _reLayoutChildrenOnHeightChanged_with. rewrite Hs3. simpl.
  destruct (children s3) as [cs|] eqn:Hcs; [|done].
  destruct cs as [|c0 cs0]; [done|].
  destruct (well_formed_lookup _ _ _ _ Hwf2 Hs3) as [Hk _].
  destruct (forEach_total
    (λ st0, well_formed rank st0 ∧ ∀ c, c ∈ kids s3 → is_Some (st0 !! c))
    (λ child st0,
       st1 ← _resizeHeight_with (set_height fuel) child st0;
       _adjustAlignY child st1) (c0 :: cs0) st2) as (st' & -> & _);
    [| |done].
  - intros c st0 Hc [Hwf0 Hdom].
    assert (c ∈ kids s3) as Hc3 by (unfold kids; by rewrite Hcs).
    destruct (Hk c Hc3) as [_ Hrank].
    assert (∀ v st3, well_formed rank st3 → is_Some (st3 !! c) →
              ∃ st4, set_height fuel c v st3 = Some st4 ∧
                     writes Ywrite rank (S (rank c)) st3 st4) as Hset.
    { intros v st3 Hwf3 Hc'.
      destruct (IH c v st3 Hwf3 Hc') as [st4 H4]; [lia|].
      exists st4. split; [done|].
      eapply set_height_writes; [by apply well_formed_wranked|done]. }
    destruct (_resizeHeight_with_total _ c st0 Hset Hwf0 (Hdom c Hc3))
      as [st1 H1].
    assert (writes Ywrite rank (S (rank c)) st0 st1) as Hw01.
    { eapply _resizeHeight_with_writes;
        [|by apply well_formed_wranked|exact H1].
      intros v st3 st4 Hr3 H34. by eapply set_height_writes. }
    assert (well_formed rank st1) as Hwf1'.
    { eapply writes_well_formed;
        [apply Ywrite_kids|apply Ywrite_parent|done..]. }
    destruct (_adjustAlignY_total c st1 Hwf1') as [st1' H1'].
    { eapply writes_is_Some; [done|]. by apply Hdom. }
    assert (writes Ywrite rank (S (rank c)) st1 st1') as Hw11
      by (by eapply _adjustAlignY_writes).
    exists st1'. rewrite H1. simpl. split; [done|]. split.
    + eapply writes_well_formed;
        [apply Ywrite_kids|apply Ywrite_parent|done..].
    + intros c' Hc'. eapply writes_is_Some; [done|].
      eapply writes_is_Some; [done|]. by apply Hdom.
  - split; [done|]. intros c Hc. by destruct (Hk c Hc).
Qed.

(** *** The sprite itself after the call *)

(** In a well-formed store the re-layout of the children does not reach
    back to the sprite: after [set height] the sprite is its old self with
    [_height], [_originPixelY] and [y] rewritten. *)
Lemma set_height_at fuel id value st st' s :
  well_formed rank st → st !! id = Some s →
  set_height fuel id value st = Some st' →
  ∃ s', st' !! id = Some s' ∧ _height s' = value ∧
        s' = with_y (y s')
               (with_originPixelY (_originPixelY s') (with_height value s)).
Proof.
  intros Hwf Hs H. destruct fuel as [|fuel]; [done|].
  simpl in H. rewrite Hs in H. simpl in H.
  destruct (num_eqb (_height s) value) eqn:E.
  { injection H as <-. apply bool_decide_eq_true in E.
    exists s. split; [done|]. split; [done|].
    rewrite <- E. by destruct s. }
  apply bind_Some in H as (st2 & H2 & H).
  set (s2 := with_originPixelY _ _) in H2.
  assert (writes Ywrite rank (S (rank id)) st (<[id := s2]> st)) as Hw1.
  { eapply writes_one; [lia|done|apply (Ywrite_height s value)]. }
  destruct (_adjustAlignY_at id _ _ s2 (lookup_insert_eq _ _ _) H2)
    as [v Hst2].
  rewrite insert_insert_eq in Hst2.
  assert (well_formed rank st2) as Hwf2.
  { eapply writes_well_formed;
      [apply Ywrite_kids|apply Ywrite_parent| |exact Hwf].
    eapply writes_trans; [exact Hw1|]. by eapply _adjustAlignY_writes. }
  assert (writes Ywrite rank (rank id) st2 st') as Hw.
  { eapply _reLayoutChildrenOnHeightChanged_with_writes;
      [|by apply well_formed_wranked| |exact H].
    - intros; by eapply set_height_writes.
    - intros s3 c Hs3 Hc.
      destruct (well_formed_lookup _ _ _ _ Hwf2 Hs3) as [Hk _].
      by destruct (Hk c Hc). }
  exists (with_y v s2). split; [|done].
  rewrite (writes_frame _ _ _ _ _ id Hw) by lia.
  rewrite Hst2. apply lookup_insert_eq.
Qed.

(** [_resizeHeight]: a result exists, the store stays well formed, sprites
    of higher rank are untouched, the sprite keeps everything but its
    height geometry, and with both pins set the size is the parent's size
    less the pins. *)
Lemma _resizeHeight_spec fuel id st s :
  well_formed rank st → st !! id = Some s → (rank id < fuel)%nat →
  ∃ st' s',
    _resizeHeight fuel id st = Some st' ∧ well_formed rank st' ∧
    writes Ywrite rank (S (rank id)) st st' ∧
    st' !! id = Some s' ∧
    (∀ p ps l r,
       _parent s = Some p → st !! p = Some ps →
       _top s = Some l → _bottom s = Some r →
       _height s' = _height ps - l - r ∧ y s' = l + _originPixelY s').
Proof.
  intros Hwf Hs Hfuel.
  assert (is_Some (_resizeHeight fuel id st)) as [st' H].
  { apply _resizeHeight_with_total; [|done|by rewrite Hs].
    intros v st0 Hwf0 Hid0.
    destruct (set_height_total fuel id v st0 Hwf0 Hid0 Hfuel) as [st1 H1].
    exists st1. split; [done|].
    eapply set_height_writes; [by apply well_formed_wranked|done]. }
  assert (writes Ywrite rank (S (rank id)) st st') as Hw
    by (eapply _resizeHeight_writes; [by apply well_formed_wranked|done]).
  assert (is_Some (st' !! id)) as [s' Hs']
    by (eapply writes_is_Some; [done|by rewrite Hs]).
  exists st', s'. split; [done|]. split.
  { eapply writes_well_formed;
      [apply Ywrite_kids|apply Ywrite_parent|done..]. }
  split; [done|]. split; [done|].
  intros p ps l r Hp Hps Hl Hr.
  unfold _resizeHeight, _resizeHeight_with in H.
  rewrite Hs in H. simpl in H. rewrite Hp, Hps in H. simpl in H.
  rewrite Hl, Hr in H.
  apply bind_Some in H as (st1 & H1 & H).
  apply bind_Some in H as (s1 & Hs1 & H). injection H as <-.
  destruct (set_height_at fuel id _ st st1 s Hwf Hs H1) as (s1' & Hs1' & Hv & _).
  assert (s1' = s1) as -> by congruence.
  rewrite lookup_insert_eq in Hs'. injection Hs' as <-. by split.
Qed.
End HeightWrites.
(** ** Origin pixel offsets *)

Lemma writes_impl (Wr Wr' : Sprite → Sprite → Prop) rank n (st st' : Store) :
  (∀ s s', Wr s s' → Wr' s s') →
  writes Wr rank n st st' → writes Wr' rank n st st'.
Proof.
  intros HW. induction 1 as [|st1 st2 st3 Hs _ IH]; [apply rtc_refl|].
  eapply rtc_l; [|exact IH]. destruct Hs. econstructor; eauto.
Qed.

Lemma XYwrite_kids s s' : XYwrite s s' → kids s' = kids s.
Proof. intros [H|H]; [by apply Xwrite_kids|by apply Ywrite_kids]. Qed.

Lemma XYwrite_parent s s' : XYwrite s s' → _parent s' = _parent s.
Proof. intros [H|H]; [by apply Xwrite_parent|by apply Ywrite_parent]. Qed.

Lemma XYwrite_origin_ok s s' : XYwrite s s' → origin_ok s → origin_ok s'.
Proof.
  intros [H|H]; [by apply Xwrite_origin_ok|by apply Ywrite_origin_ok].
Qed.

Lemma mutate_writes rank fuel m st st' :
  wranked rank st → mutate fuel m st = Some st' →
  writes XYwrite rank (S (rank (mutation_target m))) st st'.
Proof.
  intros Hr H. destruct m as [id v|id v|id v|id v]; simpl in *.
  - eapply writes_impl; [|by eapply set_width_writes]. by left.
  - eapply writes_impl; [|by eapply set_height_writes]. by right.
  - eapply writes_impl; [|by eapply set_originX_writes]. by left.
  - eapply writes_impl; [|by eapply set_originY_writes]. by right.
Qed.

Lemma set_originX_total rank id value st :
  well_formed rank st → is_Some (st !! id) →
  is_Some (set_originX id value st).
Proof.
  intros Hwf [s Hs]. unfold set_originX. rewrite Hs. simpl.
  destruct (num_eqb (_originX s) value); [done|].
  apply (_adjustAlignX_total rank); [|by rewrite lookup_insert_eq].
  eapply writes_well_formed; [apply Xwrite_kids|apply Xwrite_parent| |done].
  eapply (writes_one Xwrite rank (S (rank id)));
    [lia|done|apply (Xwrite_origin s value)].
Qed.

Lemma set_originY_total rank id value st :
  well_formed rank st → is_Some (st !! id) →
  is_Some (set_originY id value st).
Proof.
  intros Hwf [s Hs]. unfold set_originY. rewrite Hs. simpl.
  destruct (num_eqb (_originY s) value); [done|].
  apply (_adjustAlignY_total rank); [|by rewrite lookup_insert_eq].
  eapply writes_well_formed; [apply Ywrite_kids|apply Ywrite_parent| |done].
  eapply (writes_one Ywrite rank (S (rank id)));
    [lia|done|apply (Ywrite_origin s value)].
Qed.

Lemma mutate_total rank fuel m st :
  well_formed rank st → is_Some (st !! mutation_target m) →
  (rank (mutation_target m) < fuel)%nat →
  is_Some (mutate fuel m st).
Proof.
  intros Hwf Hin Hfuel. destruct m as [id v|id v|id v|id v]; simpl in *.
  - by eapply set_width_total.
  - by eapply set_height_total.
  - by eapply set_originX_total.
  - by eapply set_originY_total.
Qed.

Lemma mutate_all_origin_ok fuel ms st st' :
  map_Forall (λ _, origin_ok) st → mutate_all fuel ms st = Some st' →
  map_Forall (λ _, origin_ok) st'.
Proof.
  revert st. induction ms as [|m ms IH]; intros st Hok H; simpl in H.
  - by injection H as <-.
  - apply bind_Some in H as (st1 & H1 & H). apply (IH st1); [|done].
    eapply writes_Forall; [apply XYwrite_origin_ok| |done].
    eapply (mutate_writes (λ _, O)); [apply wranked_const|done].
Qed.

Lemma mutate_all_total rank fuel ms st :
  well_formed rank st →
  Forall (λ m, is_Some (st !! mutation_target m) ∧
               (rank (mutation_target m) < fuel)%nat) ms →
  is_Some (mutate_all fuel ms st).
Proof.
  revert st. induction ms as [|m ms IH]; intros st Hwf Hms; simpl; [done|].
  apply Forall_cons in Hms as [[Hin Hfuel] Hms].
  destruct (mutate_total rank fuel m st Hwf Hin Hfuel) as [st1 H1].
  rewrite H1. simpl.
  assert (writes XYwrite rank (S (rank (mutation_target m))) st st1) as Hw
    by (eapply mutate_writes; [by apply well_formed_wranked|done]).
  apply IH.
  - eapply writes_well_formed; [apply XYwrite_kids|apply XYwrite_parent|done..].
  - eapply Forall_impl; [exact Hms|]. intros m' [Hin' Hfuel']. split; [|done].
    by eapply writes_is_Some.
Qed.

(** C3. A new sprite has consistent pixel offsets; any sequence of
    assignments to [width], [height], [originX] and [originY], on any sprites
    of a store in which [originPixelX = originX * width] and
    [originPixelY = originY * height] hold, leaves them holding for every
    sprite; and on a well-formed store the sequence does run to the end once
    the fuel exceeds the rank of the sprites assigned to. *)
Theorem C3_origin_pixel_invariant :
  origin_ok new_Sprite ∧
  (∀ fuel ms (st st' : Store),
     map_Forall (λ _, origin_ok) st → mutate_all fuel ms st = Some st' →
     map_Forall (λ _, origin_ok) st') ∧
  (∀ rank fuel ms (st : Store),
     well_formed rank st →
     Forall (λ m, is_Some (st !! mutation_target m) ∧
                  (rank (mutation_target m) < fuel)%nat) ms →
     is_Some (mutate_all fuel ms st)).
Proof.
  split; [|split].
  - split; simpl; unfold half; apply Qc_is_canon; reflexivity.
  - apply mutate_all_origin_ok.
  - apply mutate_all_total.
Qed.

Lemma C3_origin_pixel_invariant_witness :
  (∃ st',
     mutate_all 2
       [SetWidth 0 (Qc_of_Z 200); SetOriginX 1 (Q2Qc (1 # 4));
        SetHeight 1 (Qc_of_Z 50); SetWidth 1 (Qc_of_Z 50); SetOriginY 0 0]
       parent_child = Some st' ∧
     map_Forall (λ _, origin_ok) st') ∧
  is_Some
    (mutate_all 2
       [SetWidth 0 (Qc_of_Z 200); SetOriginX 1 (Q2Qc (1 # 4));
        SetHeight 1 (Qc_of_Z 50); SetWidth 1 (Qc_of_Z 50); SetOriginY 0 0]
       parent_child).
Proof.
  split.
  - destruct (mutate_all 2
        [SetWidth 0 (Qc_of_Z 200); SetOriginX 1 (Q2Qc (1 # 4));
         SetHeight 1 (Qc_of_Z 50); SetWidth 1 (Qc_of_Z 50); SetOriginY 0 0]
        parent_child) as [st'|] eqn:E; [|by vm_compute in E].
    exists st'. split; [done|].
    eapply (proj1 (proj2 C3_origin_pixel_invariant)); [|exact E].
    apply (bool_decide_unpack (map_Forall (λ _, origin_ok) parent_child)).
    vm_compute. reflexivity.
  - apply (proj2 (proj2 C3_origin_pixel_invariant) root_rank).
    + apply (bool_decide_unpack (well_formed root_rank parent_child)).
      vm_compute. reflexivity.
    + repeat constructor; simpl; try lia; by eexists.
Defined.

(** ** addChild *)

(** C7. [addChild] on a target that already has a parent throws, and the
    scene at the throw is the scene of the call: no sprite, hence no children
    list and no parent or stage reference, has changed, and nothing was
    emitted. *)
Theorem C7_addChild_parented_throws :
  ∀ fuel this target position sc t q,
    sprites sc !! target = Some t → _parent t = Some q →
    ∃ msg sc', addChild fuel this target position sc = Threw msg sc' ∧
               sc' = sc.
Proof.
  intros fuel this target position sc t q Ht Hq.
  unfold addChild. rewrite Ht, Hq. by eexists _, _.
Qed.

Lemma C7_addChild_parented_throws_witness :
  ∃ msg sc',
    addChild 2 0 1 (Some 0%Z) (mkScene pinned_store [] []) = Threw msg sc' ∧
    sc' = mkScene pinned_store [] [].
Proof.
  apply (C7_addChild_parented_throws 2%nat 0%nat 1%nat (Some 0%Z)
           (mkScene pinned_store [] []) pinned_child 0%nat);
    reflexivity.
Defined.

(** ** Edge pins *)

(** Resizing a parent re-resolves the width of a pinned child.  The children
    re-laid out after [c] are asked to have smaller rank than [c], which a
    numbering of a tree can always arrange. *)
Lemma set_width_resolves_child rank fuel (st : Store) p ps c s l r v pre post :
  well_formed rank st → st !! p = Some ps →
  children ps = Some (pre ++ c :: post) →
  Forall (λ c', (rank c' < rank c)%nat) post →
  st !! c = Some s → _parent s = Some p →
  _left s = Some l → _right s = Some r →
  _width ps ≠ v → (rank p < fuel)%nat →
  ∃ st' s', set_width fuel p v st = Some st' ∧ st' !! c = Some s' ∧
            _width s' = v - l - r.
Proof.
  intros Hwf Hp Hcs Hpost Hc Hpar Hl Hr Hne Hfuel.
  destruct (set_width_total rank fuel p v st Hwf) as [st' H];
    [by rewrite Hp|done|].
  exists st'. destruct fuel as [|f]; [lia|].
  pose proof H as Hrun. simpl in H. rewrite Hp in H. simpl in H.
  assert (num_eqb (_width ps) v = false) as E
    by (by apply bool_decide_eq_false).
  rewrite E in H. apply bind_Some in H as (st2 & H2 & H).
  set (s2 := with_originPixelX _ _) in H2.
  assert (writes Xwrite rank (S (rank p)) st (<[p := s2]> st)) as Hw1.
  { eapply writes_one; [lia|done|apply (Xwrite_width ps v)]. }
  destruct (_adjustAlignX_at p _ _ s2 (lookup_insert_eq _ _ _) H2) as [vx Hst2].
  rewrite insert_insert_eq in Hst2.
  assert (well_formed rank st2) as Hwf2.
  { eapply writes_well_formed;
      [apply Xwrite_kids|apply Xwrite_parent| |exact Hwf].
    eapply writes_trans; [exact Hw1|]. by eapply _adjustAlignX_writes. }
  destruct (well_formed_lookup _ _ _ _ Hwf Hp) as [Hkids _].
  assert (∀ c', c' ∈ pre ++ c :: post → (rank c' < rank p)%nat) as Hranks.
  { intros c' Hc'. apply Hkids. unfold kids. by rewrite Hcs. }
  assert (rank c < rank p)%nat as Hcp.
  { apply Hranks. apply elem_of_app. right. left. }
  assert (c ≠ p) as Hneq by (intros ->; lia).
  assert (st2 !! p = Some (with_x vx s2)) as Hp2
    by (rewrite Hst2; apply lookup_insert_eq).
  assert (st2 !! c = Some s) as Hc2
    by (rewrite Hst2; by rewrite lookup_insert_ne).
  unfold _reLayoutChildrenOnWidthChanged_with in H.
  rewrite Hp2 in H. simpl in H. rewrite Hcs in H.
  set (f0 := λ child st0,
               st1 ← _resizeWidth_with (set_width f) child st0;
               _adjustAlignX child st1) in H.
  assert (forEach f0 (pre ++ c :: post) st2 = Some st') as Hfe
    by (destruct pre; exact H).
  rewrite forEach_app in Hfe. apply bind_Some in Hfe as (sta & Hpre & Hfe).
  simpl in Hfe. apply bind_Some in Hfe as (stb & Hmid & Hpost_run).
  assert (∀ c0 v0 st0 st1, wranked rank st0 → set_width f c0 v0 st0 = Some st1 →
            writes Xwrite rank (S (rank c0)) st0 st1) as Hset
    by (intros; by eapply set_width_writes).
  assert (writes Xwrite rank (rank p) st2 sta) as Hwa.
  { eapply (relayoutWidth_each_writes rank (set_width f) pre);
      [exact Hset|by apply well_formed_wranked| |exact Hpre].
    apply Forall_forall. intros c' Hc'. apply Hranks.
    apply elem_of_app. by left. }
  assert (well_formed rank sta) as Hwfa.
  { eapply writes_well_formed;
      [apply Xwrite_kids|apply Xwrite_parent|exact Hwa|exact Hwf2]. }
  assert (sta !! p = Some (with_x vx s2)) as Hpa.
  { rewrite (writes_frame _ _ _ _ _ p Hwa) by lia. done. }
  destruct (writes_proj_Some_1 Xwrite rank dropX _ _ _ c s Xwrite_dropX
              Hwa Hc2) as (sa & Hsa & Hda).
  unfold f0 in Hmid. apply bind_Some in Hmid as (str & Hres & Hadj).
  destruct (_resizeWidth_spec rank f c sta sa Hwfa Hsa)
    as (str' & sr & Hres' & Hwfr & Hwr & Hsr & Hpin); [lia|].
  unfold _resizeWidth in Hres'. rewrite Hres in Hres'. injection Hres' as <-.
  destruct (Hpin p (with_x vx s2) l r) as [Hwidth _].
  { rewrite <- Hpar. apply (f_equal _parent) in Hda. exact Hda. }
  { exact Hpa. }
  { rewrite <- Hl. apply (f_equal _left) in Hda. exact Hda. }
  { rewrite <- Hr. apply (f_equal _right) in Hda. exact Hda. }
  destruct (_adjustAlignX_at c _ _ sr Hsr Hadj) as [vc Hstb].
  assert (well_formed rank stb) as Hwfb.
  { eapply (writes_well_formed Xwrite rank rank);
      [apply Xwrite_kids|apply Xwrite_parent| |exact Hwfr].
    by eapply _adjustAlignX_writes. }
  assert (writes Xwrite rank (rank c) stb st') as Hwb.
  { eapply (relayoutWidth_each_writes rank (set_width f) post);
      [exact Hset|by apply well_formed_wranked|exact Hpost|exact Hpost_run]. }
  exists (with_x vc sr). split; [done|]. split.
  - rewrite (writes_frame _ _ _ _ _ c Hwb) by lia.
    rewrite Hstb. apply lookup_insert_eq.
  - exact Hwidth.
Qed.

(** C8. (1) [_resizeWidth] on a child with [left] and [right] set under a
    parent returns, and leaves the child with
    [width = parent.width - left - right] and [x = left + originPixelX].
    (2) Assigning a new width to the parent re-lays out its children and
    leaves such a child with [width = value - left - right]; the store is
    ranked so that the children laid out after it rank below it.
    (3) With [left = 10], [right = 20] under a parent of width 200 the child
    has width 170, and after the parent is resized to 300 it has width 270;
    both times [x = left + originPixelX]. *)
Theorem C8_edge_pins_resolve_width :
  (∀ rank fuel (st : Store) c s p ps l r,
     well_formed rank st → st !! c = Some s →
     _parent s = Some p → st !! p = Some ps →
     _left s = Some l → _right s = Some r → (rank c < fuel)%nat →
     ∃ st' s', _resizeWidth fuel c st = Some st' ∧ st' !! c = Some s' ∧
               _width s' = _width ps - l - r ∧
               x s' = l + _originPixelX s') ∧
  (∀ rank fuel (st : Store) p ps c s l r v pre post,
     well_formed rank st → st !! p = Some ps →
     children ps = Some (pre ++ c :: post) →
     Forall (λ c', (rank c' < rank c)%nat) post →
     st !! c = Some s → _parent s = Some p →
     _left s = Some l → _right s = Some r →
     _width ps ≠ v → (rank p < fuel)%nat →
     ∃ st' s', set_width fuel p v st = Some st' ∧ st' !! c = Some s' ∧
               _width s' = v - l - r) ∧
  (∃ c1 c2, pinned_child_scenario = Some (c1, c2) ∧
            _width c1 = Qc_of_Z 170 ∧
            x c1 = Qc_of_Z 10 + _originPixelX c1 ∧
            _width c2 = Qc_of_Z 270 ∧
            x c2 = Qc_of_Z 10 + _originPixelX c2).
Proof.
  split; [|split].
  - intros rank fuel st c s p ps l r Hwf Hs Hp Hps Hl Hr Hfuel.
    destruct (_resizeWidth_spec rank fuel c st s Hwf Hs Hfuel)
      as (st' & s' & Hrun & _ & _ & Hs' & Hpin).
    exists st', s'. split; [done|]. split; [done|]. by eapply Hpin.
  - apply set_width_resolves_child.
  - destruct pinned_child_scenario as [[c1 c2]|] eqn:E; [|by vm_compute in E].
    exists c1, c2. split; [done|].
    vm_compute in E. injection E as <- <-.
    repeat split; apply Qc_is_canon; reflexivity.
Qed.

Lemma C8_edge_pins_resolve_width_witness :
  (∃ st' s',
     _resizeWidth 2 1 pinned_store = Some st' ∧
     st' !! 1%nat = Some s' ∧
     _width s' = _width wide_parent - Qc_of_Z 10 - Qc_of_Z 20 ∧
     x s' = Qc_of_Z 10 + _originPixelX s') ∧
  (∃ st' s',
     set_width 2 0 (Qc_of_Z 300) pinned_store = Some st' ∧
     st' !! 1%nat = Some s' ∧
     _width s' = Qc_of_Z 300 - Qc_of_Z 10 - Qc_of_Z 20).
Proof.
  assert (well_formed root_rank pinned_store) as Hwf.
  { apply (bool_decide_unpack (well_formed root_rank pinned_store)).
    vm_compute. reflexivity. }
  split.
  - apply (proj1 C8_edge_pins_resolve_width root_rank 2%nat pinned_store
             1%nat pinned_child 0%nat wide_parent (Qc_of_Z 10) (Qc_of_Z 20));
      [exact Hwf|reflexivity|reflexivity|reflexivity|reflexivity|reflexivity
      |simpl; lia].
  - apply (proj1 (proj2 C8_edge_pins_resolve_width) root_rank 2%nat
             pinned_store 0%nat wide_parent 1%nat pinned_child (Qc_of_Z 10)
             (Qc_of_Z 20) (Qc_of_Z 300) [] []);
      [exact Hwf|reflexivity|reflexivity|constructor|reflexivity|reflexivity
      |reflexivity|reflexivity| |simpl; lia].
    simpl. intros H. apply (f_equal this) in H. vm_compute in H. discriminate.
Defined.

(** ** Edge pins against percent sizes *)

Lemma run_pin_unfold fuel id o (st : Store) :
  run_pin fuel id o st =
    s ← st !! id;
    (if horizontal o then _resizeWidth fuel id else _resizeHeight fuel id)
      (<[id := store_pin o s]> st).
Proof. by destruct o. Qed.

Lemma store_pin_tree o s : tree_keeping s (store_pin o s).
Proof. by destruct o. Qed.

Lemma store_pin_erase o s :
  erase_geometry (store_pin o s) = store_pin o (erase_geometry s).
Proof. by destruct o. Qed.

Lemma store_pins_erase ops s1 s2 :
  erase_geometry s1 = erase_geometry s2 →
  erase_geometry (foldl (flip store_pin) s1 ops) =
  erase_geometry (foldl (flip store_pin) s2 ops).
Proof.
  revert s1 s2. induction ops as [|o ops IH]; intros s1 s2 H; simpl; [done|].
  apply IH. unfold flip. by rewrite !store_pin_erase, H.
Qed.

Lemma dropX_erase s1 s2 :
  dropX s1 = dropX s2 → erase_geometry s1 = erase_geometry s2.
Proof.
  intros H. change (dropY (dropX s1) = dropY (dropX s2)). by rewrite H.
Qed.

Lemma dropY_erase s1 s2 :
  dropY s1 = dropY s2 → erase_geometry s1 = erase_geometry s2.
Proof. intros H. unfold erase_geometry. by rewrite H. Qed.

Lemma XYwrite_autoResize s s' : XYwrite s s' → autoResize s' = autoResize s.
Proof. by intros [[]|[]]. Qed.

(** Every pin or percent assignment leaves [autoResize] false. *)
Lemma run_pin_autoResize fuel id o (st st' : Store) :
  run_pin fuel id o st = Some st' →
  ∃ s', st' !! id = Some s' ∧ autoResize s' = false.
Proof.
  rewrite run_pin_unfold. intros H. apply bind_Some in H as (s & Hs & H).
  assert (writes XYwrite (λ _, O) 1 (<[id := store_pin o s]> st) st') as Hw.
  { destruct (horizontal o).
    - pose proof (_resizeWidth_writes (λ _, O) fuel id _ _
                    (wranked_const _) H) as Hw.
      eapply writes_impl; [|exact Hw]. by left.
    - pose proof (_resizeHeight_writes (λ _, O) fuel id _ _
                    (wranked_const _) H) as Hw.
      eapply writes_impl; [|exact Hw]. by right. }
  destruct (writes_proj_Some_1 XYwrite _ autoResize _ _ _ id (store_pin o s)
              XYwrite_autoResize Hw (lookup_insert_eq _ _ _))
    as (s' & Hs' & Ha).
  exists s'. split; [done|]. rewrite Ha. by destruct o.
Qed.

Lemma insert_tree_keeping rank (st : Store) id s s' :
  well_formed rank st → st !! id = Some s → tree_keeping s s' →
  well_formed rank (<[id := s']> st).
Proof.
  intros Hwf Hs Hk.
  eapply (writes_well_formed tree_keeping rank rank (S (rank id)));
    [by intros ?? []|by intros ?? []| |done].
  eapply writes_one; [lia|done|done].
Qed.

(** One assignment on a child [c] of [p]. *)
Lemma run_pin_spec rank fuel p ps c o (st : Store) s :
  well_formed rank st → st !! p = Some ps → st !! c = Some s →
  _parent s = Some p → (rank c < fuel)%nat → (rank c < rank p)%nat →
  ∃ st' s',
    run_pin fuel c o st = Some st' ∧ well_formed rank st' ∧
    st' !! p = Some ps ∧ st' !! c = Some s' ∧
    if horizontal o
    then dropX s' = dropX (store_pin o s) ∧ width_by_pins ps s'
    else dropY s' = dropY (store_pin o s) ∧ height_by_pins ps s'.
Proof.
  intros Hwf Hp Hc Hpar Hfuel Hrank. rewrite run_pin_unfold, Hc. simpl.
  set (s1 := store_pin o s). set (st1 := <[c := s1]> st).
  assert (c ≠ p) as Hne by (intros ->; lia).
  assert (well_formed rank st1) as Hwf1
    by (eapply insert_tree_keeping; [done..|apply store_pin_tree]).
  assert (st1 !! p = Some ps) as Hp1
    by (unfold st1; by rewrite lookup_insert_ne).
  assert (st1 !! c = Some s1) as Hc1 by apply lookup_insert_eq.
  assert (_parent s1 = Some p) as Hpar1 by (rewrite <- Hpar; by destruct o).
  destruct (horizontal o) eqn:Eo.
  - destruct (_resizeWidth_spec rank fuel c st1 s1 Hwf1 Hc1 Hfuel)
      as (st' & s' & Hrun & Hwf' & Hw & Hs' & Hpin).
    exists st', s'. split; [done|]. split; [done|]. split.
    { rewrite (writes_frame _ _ _ _ _ p Hw) by lia. done. }
    split; [done|].
    destruct (writes_proj_Some Xwrite rank dropX _ _ _ c s' Xwrite_dropX
                Hw Hs') as (s1' & Hs1' & Hd).
    assert (s1' = s1) as -> by congruence.
    split; [done|]. intros l r Hl Hr.
    destruct (Hpin p ps l r) as [Hwd _]; [done|done| | |done].
    + rewrite <- Hl. symmetry. exact (f_equal _left Hd).
    + rewrite <- Hr. symmetry. exact (f_equal _right Hd).
  - destruct (_resizeHeight_spec rank fuel c st1 s1 Hwf1 Hc1 Hfuel)
      as (st' & s' & Hrun & Hwf' & Hw & Hs' & Hpin).
    exists st', s'. split; [done|]. split; [done|]. split.
    { rewrite (writes_frame _ _ _ _ _ p Hw) by lia. done. }
    split; [done|].
    destruct (writes_proj_Some Ywrite rank dropY _ _ _ c s' Ywrite_dropY
                Hw Hs') as (s1' & Hs1' & Hd).
    assert (s1' = s1) as -> by congruence.
    split; [done|]. intros t b Ht Hb.
    destruct (Hpin p ps t b) as [Hwd _]; [done|done| | |done].
    + rewrite <- Ht. symmetry. exact (f_equal _top Hd).
    + rewrite <- Hb. symmetry. exact (f_equal _bottom Hd).
Qed.

(** A sequence of assignments on a child [c] of [p].  [hx] ([hy]) records
    that the width (height) is already resolved by the pins. *)
Lemma run_pins_spec rank fuel p ps c ops :
  (rank c < fuel)%nat → (rank c < rank p)%nat →
  ∀ (st : Store) s (hx hy : bool),
    well_formed rank st → st !! p = Some ps → st !! c = Some s →
    _parent s = Some p →
    (hx = true → width_by_pins ps s) → (hy = true → height_by_pins ps s) →
    ∃ st' s',
      run_pins fuel c ops st = Some st' ∧ st' !! c = Some s' ∧
      erase_geometry s' = erase_geometry (foldl (flip store_pin) s ops) ∧
      (hx || existsb horizontal ops = true → width_by_pins ps s') ∧
      (hy || existsb vertical ops = true → height_by_pins ps s').
Proof.
  intros Hfuel Hrank.
  induction ops as [|o ops IH]; intros st s hx hy Hwf Hp Hc Hpar HX HY.
  - exists st, s. simpl. rewrite !orb_false_r. done.
  - destruct (run_pin_spec rank fuel p ps c o st s Hwf Hp Hc Hpar Hfuel Hrank)
      as (st1 & s1 & Hrun & Hwf1 & Hp1 & Hc1 & Hres).
    simpl. rewrite Hrun. simpl.
    assert (erase_geometry s1 = erase_geometry (store_pin o s)) as He.
    { destruct (horizontal o); destruct Hres as [Hd _];
        [by apply dropX_erase|by apply dropY_erase]. }
    assert (_parent s1 = Some p) as Hpar1.
    { rewrite <- Hpar. transitivity (_parent (store_pin o s));
        [exact (f_equal _parent He)|by destruct o]. }
    destruct (IH st1 s1 (hx || horizontal o) (hy || vertical o)
                Hwf1 Hp1 Hc1 Hpar1) as (st' & s' & Hrun' & Hs' & He' & HX' & HY').
    + intros Hh. unfold vertical in *.
      destruct (horizontal o) eqn:Eo; [by destruct Hres|].
      destruct Hres as [Hd _]. rewrite orb_false_r in Hh.
      intros l r Hl Hr.
      assert (_left s1 = _left s) as El
        by (transitivity (_left (store_pin o s));
            [exact (f_equal _left Hd)|by destruct o]).
      assert (_right s1 = _right s) as Er
        by (transitivity (_right (store_pin o s));
            [exact (f_equal _right Hd)|by destruct o]).
      assert (_width s1 = _width s) as Ew
        by (transitivity (_width (store_pin o s));
            [exact (f_equal _width Hd)|by destruct o]).
      rewrite Ew. apply (HX Hh); congruence.
    + intros Hh. unfold vertical in *.
      destruct (horizontal o) eqn:Eo; [|by destruct Hres].
      destruct Hres as [Hd _]. simpl in Hh. rewrite orb_false_r in Hh.
      intros t b Ht Hb.
      assert (_top s1 = _top s) as El
        by (transitivity (_top (store_pin o s));
            [exact (f_equal _top Hd)|by destruct o]).
      assert (_bottom s1 = _bottom s) as Er
        by (transitivity (_bottom (store_pin o s));
            [exact (f_equal _bottom Hd)|by destruct o]).
      assert (_height s1 = _height s) as Ew
        by (transitivity (_height (store_pin o s));
            [exact (f_equal _height Hd)|by destruct o]).
      rewrite Ew. apply (HY Hh); congruence.
    + exists st', s'. split; [done|]. split; [done|]. split; [|split].
      * rewrite He'. by apply store_pins_erase.
      * intros Hh. apply HX'. by rewrite <- orb_assoc.
      * intros Hh. apply HY'. by rewrite <- orb_assoc.
Qed.

Lemma run_pins_child rank fuel (st : Store) p ps c s ops :
  well_formed rank st → st !! p = Some ps → c ∈ kids ps →
  st !! c = Some s → _parent s = Some p → (rank c < fuel)%nat →
  ∃ st' s',
    run_pins fuel c ops st = Some st' ∧ st' !! c = Some s' ∧
    erase_geometry s' = erase_geometry (foldl (flip store_pin) s ops) ∧
    (existsb horizontal ops = true → width_by_pins ps s') ∧
    (existsb vertical ops = true → height_by_pins ps s').
Proof.
  intros Hwf Hp Hkid Hc Hpar Hfuel.
  destruct (well_formed_lookup _ _ _ _ Hwf Hp) as [Hk _].
  destruct (Hk c Hkid) as [_ Hrank].
  by apply (run_pins_spec rank fuel p ps c ops Hfuel Hrank st s false false).
Qed.

(** C9. (1) Every edge-pin or percent-size setter leaves [autoResize] false,
    and so does the [grid] setter.
    (2) After any sequence of such assignments on a child, the fields are
    the ones assigned, and each dimension that was assigned to and has both
    pins set is resolved by the pins alone, whatever the percent size.
    (3) In particular when [left], [right] and [percentWidth] are assigned in
    any order the width is [parent.width - left - right], and (4) likewise
    for [top], [bottom] and [percentHeight]. *)
Theorem C9_pins_override_percent :
  ((∀ fuel id o (st st' : Store),
      run_pin fuel id o st = Some st' →
      ∃ s', st' !! id = Some s' ∧ autoResize s' = false) ∧
   (∀ id grid (st st' : Store),
      set_grid id grid st = Some st' →
      ∃ s', st' !! id = Some s' ∧ autoResize s' = false)) ∧
  (∀ rank fuel (st : Store) p ps c s ops,
     well_formed rank st → st !! p = Some ps → c ∈ kids ps →
     st !! c = Some s → _parent s = Some p → (rank c < fuel)%nat →
     ∃ st' s',
       run_pins fuel c ops st = Some st' ∧ st' !! c = Some s' ∧
       erase_geometry s' = erase_geometry (foldl (flip store_pin) s ops) ∧
       (existsb horizontal ops = true → width_by_pins ps s') ∧
       (existsb vertical ops = true → height_by_pins ps s')) ∧
  (∀ rank fuel (st : Store) p ps c s l r q ops,
     well_formed rank st → st !! p = Some ps → c ∈ kids ps →
     st !! c = Some s → _parent s = Some p → (rank c < fuel)%nat →
     ops ≡ₚ [SetLeft (Some l); SetRight (Some r); SetPercentWidth (Some q)] →
     ∃ st' s',
       run_pins fuel c ops st = Some st' ∧ st' !! c = Some s' ∧
       _left s' = Some l ∧ _right s' = Some r ∧ _percentWidth s' = Some q ∧
       _width s' = _width ps - l - r ∧ autoResize s' = false) ∧
  (∀ rank fuel (st : Store) p ps c s t b q ops,
     well_formed rank st → st !! p = Some ps → c ∈ kids ps →
     st !! c = Some s → _parent s = Some p → (rank c < fuel)%nat →
     ops ≡ₚ [SetTop (Some t); SetBottom (Some b); SetPercentHeight (Some q)] →
     ∃ st' s',
       run_pins fuel c ops st = Some st' ∧ st' !! c = Some s' ∧
       _top s' = Some t ∧ _bottom s' = Some b ∧ _percentHeight s' = Some q ∧
       _height s' = _height ps - t - b ∧ autoResize s' = false).
Proof.
  split.
  { split; [apply run_pin_autoResize|].
    intros id grid st st' H. unfold set_grid in H.
    apply bind_Some in H as (s & Hs & H). injection H as <-.
    eexists. by rewrite lookup_insert_eq. }
  split; [apply run_pins_child|]. split.
  - intros rank fuel st p ps c s l r q ops Hwf Hp Hkid Hc Hpar Hfuel Hperm.
    destruct (run_pins_child rank fuel st p ps c s ops Hwf Hp Hkid Hc Hpar
                Hfuel) as (st' & s' & Hrun & Hs' & He & HX & _).
    exists st', s'. split; [done|]. split; [done|].
    symmetry in Hperm. apply permutations_Permutation in Hperm.
    simpl in Hperm.
    assert (_left s' = Some l ∧ _right s' = Some r ∧
            _percentWidth s' = Some q ∧ autoResize s' = false ∧
            existsb horizontal ops = true) as (Hl & Hr & Hq & Ha & Hex).
    { pose proof (f_equal _left He) as E1.
      pose proof (f_equal _right He) as E2.
      pose proof (f_equal _percentWidth He) as E3.
      pose proof (f_equal autoResize He) as E4.
      repeat (apply elem_of_cons in Hperm as [->|Hperm]);
        [..|by apply elem_of_nil in Hperm]; done. }
    repeat (split; [done|]). split; [|done]. by apply HX.
  - intros rank fuel st p ps c s t b q ops Hwf Hp Hkid Hc Hpar Hfuel Hperm.
    destruct (run_pins_child rank fuel st p ps c s ops Hwf Hp Hkid Hc Hpar
                Hfuel) as (st' & s' & Hrun & Hs' & He & _ & HY).
    exists st', s'. split; [done|]. split; [done|].
    symmetry in Hperm. apply permutations_Permutation in Hperm.
    simpl in Hperm.
    assert (_top s' = Some t ∧ _bottom s' = Some b ∧
            _percentHeight s' = Some q ∧ autoResize s' = false ∧
            existsb vertical ops = true) as (Hl & Hr & Hq & Ha & Hex).
    { pose proof (f_equal _top He) as E1.
      pose proof (f_equal _bottom He) as E2.
      pose proof (f_equal _percentHeight He) as E3.
      pose proof (f_equal autoResize He) as E4.
      repeat (apply elem_of_cons in Hperm as [->|Hperm]);
        [..|by apply elem_of_nil in Hperm]; done. }
    repeat (split; [done|]). split; [|done]. by apply HY.
Qed.

Lemma C9_pins_override_percent_witness :
  (∃ st' s',
     run_pin 2 1 (SetPercentWidth (Some half)) plain_store = Some st' ∧
     st' !! 1%nat = Some s' ∧ autoResize s' = false) ∧
  (∃ st' s',
     run_pins 2 1
       [SetTop (Some 0); SetLeft (Some (Qc_of_Z 10)); SetPercentHeight None;
        SetRight (Some (Qc_of_Z 20)); SetBottom (Some 1)]
       plain_store = Some st' ∧
     st' !! 1%nat = Some s' ∧
     erase_geometry s' =
       erase_geometry
         (foldl (flip store_pin) plain_child
            [SetTop (Some 0); SetLeft (Some (Qc_of_Z 10));
             SetPercentHeight None; SetRight (Some (Qc_of_Z 20));
             SetBottom (Some 1)]) ∧
     width_by_pins sized_parent s' ∧ height_by_pins sized_parent s') ∧
  (∃ st' s',
     run_pins 2 1
       [SetPercentWidth (Some half); SetLeft (Some (Qc_of_Z 10));
        SetRight (Some (Qc_of_Z 20))] plain_store = Some st' ∧
     st' !! 1%nat = Some s' ∧
     _left s' = Some (Qc_of_Z 10) ∧ _right s' = Some (Qc_of_Z 20) ∧
     _percentWidth s' = Some half ∧
     _width s' = _width sized_parent - Qc_of_Z 10 - Qc_of_Z 20 ∧
     autoResize s' = false) ∧
  (∃ st' s',
     run_pins 2 1
       [SetBottom (Some (Qc_of_Z 5)); SetTop (Some (Qc_of_Z 10));
        SetPercentHeight (Some half)] plain_store = Some st' ∧
     st' !! 1%nat = Some s' ∧
     _top s' = Some (Qc_of_Z 10) ∧ _bottom s' = Some (Qc_of_Z 5) ∧
     _percentHeight s' = Some half ∧
     _height s' = _height sized_parent - Qc_of_Z 10 - Qc_of_Z 5 ∧
     autoResize s' = false).
Proof.
  assert (well_formed root_rank plain_store) as Hwf.
  { apply (bool_decide_unpack (well_formed root_rank plain_store)).
    vm_compute. reflexivity. }
  assert (1%nat ∈ kids sized_parent) as Hkid by (vm_compute; left).
  split; [|split; [|split]].
  - destruct (run_pin 2 1 (SetPercentWidth (Some half)) plain_store)
      as [st'|] eqn:E; [|by vm_compute in E].
    destruct (proj1 (proj1 C9_pins_override_percent) _ _ _ _ _ E)
      as (s' & Hs' & Ha).
    by exists st', s'.
  - destruct (proj1 (proj2 C9_pins_override_percent) root_rank 2%nat
                plain_store 0%nat sized_parent 1%nat plain_child
                [SetTop (Some 0); SetLeft (Some (Qc_of_Z 10));
                 SetPercentHeight None; SetRight (Some (Qc_of_Z 20));
                 SetBottom (Some 1)])
      as (st' & s' & Hrun & Hs' & He & HX & HY);
      [exact Hwf|reflexivity|exact Hkid|reflexivity|reflexivity|simpl; lia|].
    exists st', s'. repeat (split; [done|]). split; [by apply HX|by apply HY].
  - apply (proj1 (proj2 (proj2 C9_pins_override_percent)) root_rank 2%nat
             plain_store 0%nat sized_parent 1%nat plain_child);
      [exact Hwf|reflexivity|exact Hkid|reflexivity|reflexivity|simpl; lia|].
    apply (Permutation_cons_append
             [SetLeft (Some (Qc_of_Z 10)); SetRight (Some (Qc_of_Z 20))]).
  - apply (proj2 (proj2 (proj2 C9_pins_override_percent)) root_rank 2%nat
             plain_store 0%nat sized_parent 1%nat plain_child);
      [exact Hwf|reflexivity|exact Hkid|reflexivity|reflexivity|simpl; lia|].
    apply Permutation_swap.
Defined.

(** ** The texture setter *)






(** ** Action queues *)

(** C1, as the code behaves. [Delay] is created with [immediate = true],
    so a tick of 1.5 on the started queue [[Callback f; Delay 1.0; Callback g]]
    runs through all three: both callbacks have been invoked, the queue is
    empty, the action is marked done, no longer running, has dropped its
    sprite and has left the active list. *)
Theorem C1_delay_chains_in_same_tick :
  ∀ fuel w a f g sp,
    actions w !! a =
      Some (mkAction [ACallback (Callback.new f); ADelay (Delay.new 1);
                      ACallback (Callback.new g)] false false sp) →
    _actionList w = [] → _listenerList w = [] →
    ∃ w',
      (w1 ← Action.start a w; Action.step fuel three_halves w1) = Some w' ∧
      actions w' !! a = Some (mkAction [] true false None) ∧
      fired w' = fired w ++ [f; g] ∧
      _actionList w' = [].
Proof.
  intros fuel w a f g sp Ha Hl Hls.
  unfold Action.start. rewrite Ha. simpl. rewrite Hl.
  unfold Action.step. simpl.
  unfold Action._step. simpl.
  repeat (rewrite lookup_insert_eq; simpl).
  rewrite bool_decide_eq_true_2 by done. simpl. rewrite Hls. simpl.
  eexists. split; [reflexivity|]. simpl.
  rewrite lookup_insert_eq. rewrite <- app_assoc. done.
Qed.

Lemma C1_delay_chains_in_same_tick_witness :
  ∃ w',
    (w1 ← Action.start 0 chain_world; Action.step 1 three_halves w1)
      = Some w' ∧
    actions w' !! 0%nat = Some (mkAction [] true false None) ∧
    fired w' = fired chain_world ++ [7%nat; 8%nat] ∧
    _actionList w' = [].
Proof.
  apply (C1_delay_chains_in_same_tick 1%nat chain_world 0%nat 7%nat 8%nat
           None); reflexivity.
Defined.

(** The tick does not stop after the [Delay]: no run of [chain_tick] leaves
    one element in the queue with the action not done. *)
Lemma C1_queue_is_not_left_with_one_step :
  ¬ ∃ w' act,
      chain_tick = Some w' ∧ actions w' !! 0%nat = Some act ∧
      length (_queue act) = 1%nat ∧ _done act = false.
Proof.
  intros (w' & act & Hrun & Hact & Hlen & Hdone).
  vm_compute in Hrun. injection Hrun as <-.
  vm_compute in Hact. injection Hact as <-. discriminate.
Qed.

(** C2, at an input where it fails. Actions [0] and [1] are both active and
    both wait one second. [step(1)] completes action [0] and removes it from
    the active list, which moves action [1] to index 0; the loop goes on at
    index 1 and ends. Action [1] has not been advanced: its [Delay] still has
    [elapsed = 0]. *)
Theorem C2_step_skips_action_after_a_removed_one :
  ∃ w',
    Action.step 1 1 two_delays = Some w' ∧
    actions w' !! 0%nat = Some (mkAction [] true false None) ∧
    _actionList w' = [1%nat] ∧
    actions w' !! 1%nat = actions two_delays !! 1%nat ∧
    actions two_delays !! 1%nat
      = Some (mkAction [ADelay (mkDelay false 0 1)] false true None).
Proof.
  destruct (Action.step 1 1 two_delays) as [w'|] eqn:E; [|by vm_compute in E].
  exists w'. split; [done|].
  vm_compute in E. injection E as <-.
  repeat split; vm_compute; reflexivity.
Qed.

(** ** Transition *)

Lemma get_prop_plain n s : plain_prop n = true → is_Some (get_prop n s).
Proof.
  unfold plain_prop. intros H. apply bool_decide_eq_true in H.
  repeat (apply elem_of_cons in H as [->|H]); [..|by apply elem_of_nil in H];
    by eexists.
Qed.

(** Assigning a plain field stores the value and leaves the other plain
    fields alone. *)
Lemma set_prop_plain fuel n v id (st : Store) s :
  plain_prop n = true → st !! id = Some s →
  ∃ s', set_prop fuel n v id st = Some (<[id := s']> st) ∧
        get_prop n s' = Some v ∧
        (∀ n', plain_prop n' = true → n' ≠ n → get_prop n' s' = get_prop n' s).
Proof.
  unfold plain_prop. intros H Hs. apply bool_decide_eq_true in H.
  repeat (apply elem_of_cons in H as [->|H]); [..|by apply elem_of_nil in H];
    unfold set_prop; simpl; rewrite Hs; simpl;
    (eexists; split; [reflexivity|]; split; [reflexivity|]);
    intros n' Hn' Hne; apply bool_decide_eq_true in Hn';
    repeat (apply elem_of_cons in Hn' as [->|Hn']);
    try (by apply elem_of_nil in Hn'); done.
Qed.

Section PlainTransition.
Variables (fuel id : nat).



End PlainTransition.






(** ** Animation *)















(** ** Listener *)

Lemma scan_spec acts w b1 b2 :
  Forall (λ a, is_Some (actions w !! a)) acts →
  Listener.scan acts w (b1, b2)
    = Some (b1 && forallb (is_done w) acts, b2 || existsb (is_done w) acts).
Proof.
  revert b1 b2. induction acts as [|a acts IH]; intros b1 b2 Hex; simpl.
  - by rewrite andb_true_r, orb_false_r.
  - apply Forall_cons in Hex as [[action Ha] Hex]. rewrite Ha. simpl.
    unfold is_done at 1 3. rewrite Ha.
    destruct (_done action); rewrite (IH _ _ Hex); simpl.
    + by rewrite orb_true_r.
    + by rewrite andb_false_r.
Qed.

Lemma removeArrayItem_NoDup l (i : nat) :
  NoDup l → i ∉ removeArrayItem l i.
Proof.
  induction l as [|h l IH]; intros Hnd; simpl.
  - apply not_elem_of_nil.
  - apply NoDup_cons in Hnd as [Hh Hnd]. case_bool_decide as E.
    + by subst.
    + apply not_elem_of_cons. split; [done|]. by apply IH.
Qed.

(** The whole of [Listener._step], from the two flags it computes. *)
Lemma Listener_step_spec lid w l :
  listeners w !! lid = Some l → tracked_exist w l →
  Listener._step lid w =
    let any_done := existsb (is_done w) (_actions l) in
    let all_done := forallb (is_done w) (_actions l) in
    let resolves := all_done && bool_decide (is_Some (_callback_all l)) in
    Some (mkWorld (scene w)
            (fired w
               ++ (if any_done then default [] (_callback_any l) else [])
               ++ (if all_done then default [] (_callback_all l) else []))
            (actions w) (_actionList w)
            (<[lid := mkListener (if resolves then true else _resolved l)
                        (if any_done then None else _callback_any l)
                        (_callback_all l) (_actions l)]> (listeners w))
            (if resolves then removeArrayItem (_listenerList w) lid
             else _listenerList w)).
Proof.
  intros Hl Hex. unfold Listener._step. rewrite Hl. simpl.
  rewrite (scan_spec _ _ _ _ Hex). simpl.
  destruct w as [sc fd acts al ls ll]. simpl in *.
  destruct l as [res any all tracked]. simpl in *.
  destruct (existsb _ tracked), (forallb _ tracked), any as [any|],
    all as [all|]; simpl; rewrite ?Hl; simpl;
    rewrite ?lookup_insert_eq; simpl;
    unfold with_listeners, with_listenerList, publish, with_fired; simpl;
    rewrite ?app_nil_r, ?insert_insert_eq, ?(insert_id ls lid _ Hl),
      <- ?app_assoc; reflexivity.
Qed.

(** C6, as the code behaves. At a check of a listener whose tracked actions
    exist:
    (1) if some tracked action is done, the ANY callbacks registered are
    invoked once and the ANY list is cleared, so a later check does not
    invoke them again; if not all are done nothing else happens: the
    listener keeps its place in the list and its resolved flag;
    (2) if all tracked actions are done and an ALL list has been registered,
    the ALL callbacks are invoked once, after the ANY callbacks, the listener
    is marked resolved and is taken out of the listener list, where it does
    not occur any more when it occurred once;
    (3) if no ALL list has been registered the listener is neither resolved
    nor removed, even when all tracked actions are done;
    (4) on a resolved listener [allDone] and [anyDone] invoke the callback at
    once and store nothing;
    (5) with two tracked actions: stopping one invokes the ANY callback at
    the next tick and not again at the one after; stopping the other
    invokes the ALL callback at the next tick, once, and resolves and
    unregisters the listener; an [allDone] registered after that is invoked
    immediately. *)
Theorem C6_listener_any_all :
  (∀ lid w l any,
     listeners w !! lid = Some l → tracked_exist w l →
     _callback_any l = Some any →
     existsb (is_done w) (_actions l) = true →
     ∃ w' l' rest,
       Listener._step lid w = Some w' ∧ listeners w' !! lid = Some l' ∧
       fired w' = fired w ++ any ++ rest ∧ _callback_any l' = None ∧
       (forallb (is_done w) (_actions l) = false →
        rest = [] ∧ _resolved l' = _resolved l ∧
        _listenerList w' = _listenerList w)) ∧
  (∀ lid w l all,
     listeners w !! lid = Some l → tracked_exist w l →
     _callback_all l = Some all →
     forallb (is_done w) (_actions l) = true →
     ∃ w' l',
       Listener._step lid w = Some w' ∧ listeners w' !! lid = Some l' ∧
       fired w' =
         fired w
           ++ (if existsb (is_done w) (_actions l)
               then default [] (_callback_any l) else [])
           ++ all ∧
       _resolved l' = true ∧
       _listenerList w' = removeArrayItem (_listenerList w) lid ∧
       (NoDup (_listenerList w) → lid ∉ _listenerList w')) ∧
  (∀ lid w l,
     listeners w !! lid = Some l → tracked_exist w l →
     _callback_all l = None →
     ∃ w' l',
       Listener._step lid w = Some w' ∧ listeners w' !! lid = Some l' ∧
       _resolved l' = _resolved l ∧ _listenerList w' = _listenerList w) ∧
  (∀ lid w l callback,
     listeners w !! lid = Some l → _resolved l = true →
     Listener.allDone lid callback w
       = Some (with_fired (fired w ++ [callback]) w) ∧
     Listener.anyDone lid callback w
       = Some (with_fired (fired w ++ [callback]) w)) ∧
  listening_scenario =
    Some [([], true, false);
          ([5%nat], true, false); ([5%nat], true, false);
          ([5%nat], true, false);
          ([5%nat; 6%nat], false, true); ([5%nat; 6%nat], false, true);
          ([5%nat; 6%nat; 7%nat], false, true)].
Proof.
  split; [|split; [|split; [|split]]].
  - intros lid w l any Hl Hex Hany Hsome.
    rewrite (Listener_step_spec lid w l Hl Hex). simpl.
    rewrite Hsome, Hany. eexists _, _, _. split; [reflexivity|]. simpl.
    rewrite lookup_insert_eq. split; [reflexivity|]. split; [reflexivity|].
    split; [reflexivity|]. intros Hall. rewrite Hall. done.
  - intros lid w l all Hl Hex Hall Hdone.
    rewrite (Listener_step_spec lid w l Hl Hex). simpl.
    rewrite Hdone, Hall. simpl.
    eexists _, _. split; [reflexivity|]. simpl.
    rewrite lookup_insert_eq. repeat (split; [reflexivity|]).
    apply removeArrayItem_NoDup.
  - intros lid w l Hl Hex Hall.
    rewrite (Listener_step_spec lid w l Hl Hex). simpl.
    rewrite Hall. simpl. rewrite andb_false_r. eexists _, _. split; [reflexivity|]. simpl.
    rewrite lookup_insert_eq. done.
  - intros lid w l callback Hl Hres.
    unfold Listener.allDone, Listener.anyDone. rewrite Hl. simpl.
    by rewrite Hres.
  - vm_compute. reflexivity.
Qed.

Lemma C6_listener_any_all_witness :
  (∃ w' l' rest,
     Listener._step 0 one_stopped = Some w' ∧
     listeners w' !! 0%nat = Some l' ∧
     fired w' = fired one_stopped ++ [5%nat] ++ rest ∧
     _callback_any l' = None ∧
     (forallb (is_done one_stopped) [0%nat; 1%nat] = false →
      rest = [] ∧ _resolved l' = false ∧
      _listenerList w' = _listenerList one_stopped)) ∧
  (∃ w' l',
     Listener._step 0 both_stopped = Some w' ∧
     listeners w' !! 0%nat = Some l' ∧
     fired w' =
       fired both_stopped
         ++ (if existsb (is_done both_stopped) [0%nat; 1%nat]
             then default [] (Some [5%nat]) else [])
         ++ [6%nat] ∧
     _resolved l' = true ∧
     _listenerList w' = removeArrayItem (_listenerList both_stopped) 0 ∧
     (NoDup (_listenerList both_stopped) → 0%nat ∉ _listenerList w')) ∧
  (∃ w,
     any_only_scenario = Some w ∧
     ∃ w' l',
       Listener._step 0 w = Some w' ∧ listeners w' !! 0%nat = Some l' ∧
       _resolved l' = false ∧ _listenerList w' = _listenerList w) ∧
  (Listener.allDone 0 7 resolved_world
     = Some (with_fired (fired resolved_world ++ [7%nat]) resolved_world) ∧
   Listener.anyDone 0 7 resolved_world
     = Some (with_fired (fired resolved_world ++ [7%nat]) resolved_world)).
Proof.
  split; [|split; [|split]].
  - apply (proj1 C6_listener_any_all 0%nat one_stopped
             (mkListener false (Some [5%nat]) (Some [6%nat]) [0%nat; 1%nat])
             [5%nat]); [reflexivity| |reflexivity|reflexivity].
    repeat constructor; by eexists.
  - apply (proj1 (proj2 C6_listener_any_all) 0%nat both_stopped
             (mkListener false (Some [5%nat]) (Some [6%nat]) [0%nat; 1%nat])
             [6%nat]); [reflexivity| |reflexivity|reflexivity].
    repeat constructor; by eexists.
  - destruct any_only_scenario as [w|] eqn:E; [|by vm_compute in E].
    exists w. split; [done|]. vm_compute in E. injection E as <-.
    apply (proj1 (proj2 (proj2 C6_listener_any_all)) 0%nat _
             (mkListener false None None [0%nat]));
      [reflexivity| |reflexivity].
    repeat constructor. by eexists.
  - apply (proj1 (proj2 (proj2 (proj2 C6_listener_any_all))) 0%nat
             resolved_world
             (mkListener true None (Some [6%nat]) [0%nat; 1%nat]));
      reflexivity.
Defined.

(** A listener without ALL callbacks is not resolved: after the tick of
    [any_only_scenario] its only tracked action is done and its ANY callback
    has been invoked, yet it is still in the listener list and not
    resolved. *)
Lemma C6_all_done_without_all_callbacks_stays :
  ∃ w l,
    any_only_scenario = Some w ∧ listeners w !! 0%nat = Some l ∧
    forallb (is_done w) (_actions l) = true ∧
    fired w = [5%nat] ∧
    0%nat ∈ _listenerList w ∧ _resolved l = false.
Proof.
  destruct any_only_scenario as [w|] eqn:E; [|by vm_compute in E].
  vm_compute in E. injection E as <-.
  eexists _, _. split; [reflexivity|]. split; [reflexivity|].
  repeat split; try reflexivity. left.
Qed.

(** ** Array helpers *)

Lemma addArrayItem_elem l (x y : nat) :
  y ∈ addArrayItem l x ↔ y ∈ l ∨ y = x.
Proof.
  unfold addArrayItem. case_bool_decide as E.
  - split; [by left|]. intros [?| ->]; done.
  - rewrite elem_of_app, list_elem_of_singleton. done.
Qed.

Lemma addArrayItem_NoDup l (x : nat) : NoDup l → NoDup (addArrayItem l x).
Proof.
  intros Hnd. unfold addArrayItem. case_bool_decide as E; [done|].
  apply NoDup_app. split; [done|]. split; [|apply NoDup_singleton].
  intros y Hy ->%list_elem_of_singleton. done.
Qed.

Lemma addArrayItem_member l (x : nat) : x ∈ l → addArrayItem l x = l.
Proof. intros Hx. unfold addArrayItem. by rewrite bool_decide_eq_true_2. Qed.

Lemma removeArrayItem_absent l (x : nat) : x ∉ l → removeArrayItem l x = l.
Proof.
  induction l as [|h l IH]; intros Hx; simpl; [done|].
  apply not_elem_of_cons in Hx as [Hne Hx].
  rewrite bool_decide_eq_false_2 by done. by rewrite IH.
Qed.

Lemma removeArrayItem_first l1 l2 (x : nat) :
  x ∉ l1 → removeArrayItem (l1 ++ x :: l2) x = l1 ++ l2.
Proof.
  induction l1 as [|h l1 IH]; intros Hx; simpl.
  - by rewrite bool_decide_eq_true_2.
  - apply not_elem_of_cons in Hx as [Hne Hx].
    rewrite bool_decide_eq_false_2 by done. by rewrite IH.
Qed.

Lemma removeArrayItem_subseteq l (x y : nat) :
  y ∈ removeArrayItem l x → y ∈ l.
Proof.
  induction l as [|h l IH]; simpl; [done|]. case_bool_decide as E.
  - by right.
  - intros [->|Hy]%elem_of_cons; [left|right; by apply IH].
Qed.

Lemma removeArrayItem_other l (x y : nat) :
  y ≠ x → y ∈ l → y ∈ removeArrayItem l x.
Proof.
  intros Hne. induction l as [|h l IH]; simpl; [done|].
  intros [->|Hy]%elem_of_cons.
  - rewrite bool_decide_eq_false_2 by done. left.
  - case_bool_decide as E; [done|]. right. by apply IH.
Qed.

Lemma removeArrayItem_NoDup_keep l (x : nat) :
  NoDup l → NoDup (removeArrayItem l x).
Proof.
  induction 1 as [|h l Hh Hnd IH]; simpl; [constructor|].
  case_bool_decide as E; [done|]. constructor; [|done].
  intros Hin. by apply removeArrayItem_subseteq in Hin.
Qed.

(** X1. [addArrayItem] treats the array as a set: the item is a member
    afterwards, a duplicate-free array stays duplicate-free, adding twice is
    adding once, adding a member changes nothing, and removing an item that
    was just added to an array without it gives the array back. *)
Theorem X1_addArrayItem_set_like :
  ∀ l (x : nat),
    x ∈ addArrayItem l x ∧
    (NoDup l → NoDup (addArrayItem l x)) ∧
    addArrayItem (addArrayItem l x) x = addArrayItem l x ∧
    (x ∈ l → addArrayItem l x = l) ∧
    (x ∉ l → removeArrayItem (addArrayItem l x) x = l).
Proof.
  intros l x. split; [|split; [|split; [|split]]].
  - apply addArrayItem_elem. by right.
  - apply addArrayItem_NoDup.
  - apply addArrayItem_member, addArrayItem_elem. by right.
  - apply addArrayItem_member.
  - intros Hx. unfold addArrayItem. rewrite bool_decide_eq_false_2 by done.
    rewrite removeArrayItem_first by done. by rewrite app_nil_r.
Qed.

(** X2. [removeArrayItem] takes out the first occurrence and nothing else:
    an array without the item is unchanged; otherwise the part before the
    first occurrence and the part after it are kept in order and the length
    drops by one; the other items stay members; and the item is gone when
    the array had no duplicates. *)
Theorem X2_removeArrayItem_first_only :
  ∀ l (x : nat),
    (x ∉ l → removeArrayItem l x = l) ∧
    (∀ l1 l2, l = l1 ++ x :: l2 → x ∉ l1 → removeArrayItem l x = l1 ++ l2) ∧
    (x ∈ l → length (removeArrayItem l x) = pred (length l)) ∧
    (NoDup l → x ∉ removeArrayItem l x) ∧
    (∀ y, y ≠ x → (y ∈ removeArrayItem l x ↔ y ∈ l)).
Proof.
  intros l x. split; [apply removeArrayItem_absent|].
  split; [intros l1 l2 ->; apply removeArrayItem_first|].
  split; [|split; [apply removeArrayItem_NoDup|]].
  - intros Hx. apply list_elem_of_split_l in Hx as (l1 & l2 & -> & Hx).
    rewrite removeArrayItem_first by done. rewrite !length_app. simpl. lia.
  - intros y Hne. split; [apply removeArrayItem_subseteq|].
    by apply removeArrayItem_other.
Qed.

Lemma X1_addArrayItem_set_like_witness :
  NoDup (addArrayItem [3%nat; 1%nat] 2%nat) ∧
  addArrayItem [3%nat; 1%nat; 2%nat] 1%nat = [3%nat; 1%nat; 2%nat] ∧
  removeArrayItem (addArrayItem [3%nat; 1%nat] 2%nat) 2%nat = [3%nat; 1%nat].
Proof.
  split; [|split].
  - apply (proj1 (proj2 (X1_addArrayItem_set_like [3%nat; 1%nat] 2%nat))).
    apply (bool_decide_unpack (NoDup [3%nat; 1%nat])). reflexivity.
  - apply (proj1 (proj2 (proj2 (proj2
             (X1_addArrayItem_set_like [3%nat; 1%nat; 2%nat] 1%nat))))).
    apply (bool_decide_unpack (1%nat ∈ [3%nat; 1%nat; 2%nat])). reflexivity.
  - apply (proj2 (proj2 (proj2 (proj2
             (X1_addArrayItem_set_like [3%nat; 1%nat] 2%nat))))).
    apply (bool_decide_unpack (2%nat ∉ [3%nat; 1%nat])). reflexivity.
Defined.

Lemma X2_removeArrayItem_first_only_witness :
  removeArrayItem [4%nat; 5%nat] 7%nat = [4%nat; 5%nat] ∧
  removeArrayItem [4%nat; 7%nat; 5%nat; 7%nat] 7%nat
    = ([4%nat] ++ [5%nat; 7%nat]) ∧
  length (removeArrayItem [4%nat; 7%nat; 5%nat; 7%nat] 7%nat)
    = pred (length [4%nat; 7%nat; 5%nat; 7%nat]) ∧
  (7%nat ∉ removeArrayItem [4%nat; 7%nat; 5%nat] 7%nat) ∧
  (5%nat ∈ removeArrayItem [4%nat; 7%nat; 5%nat] 7%nat
   ↔ 5%nat ∈ [4%nat; 7%nat; 5%nat]).
Proof.
  split; [|split; [|split; [|split]]].
  - apply (proj1 (X2_removeArrayItem_first_only [4%nat; 5%nat] 7%nat)).
    apply (bool_decide_unpack (7%nat ∉ [4%nat; 5%nat])). reflexivity.
  - apply (proj1 (proj2 (X2_removeArrayItem_first_only [4%nat; 7%nat; 5%nat; 7%nat] 7%nat))
             [4%nat] [5%nat; 7%nat]); [reflexivity|].
    apply (bool_decide_unpack (7%nat ∉ [4%nat])). reflexivity.
  - apply (proj1 (proj2 (proj2
             (X2_removeArrayItem_first_only [4%nat; 7%nat; 5%nat; 7%nat] 7%nat)))).
    apply (bool_decide_unpack (7%nat ∈ [4%nat; 7%nat; 5%nat; 7%nat])). reflexivity.
  - apply (proj1 (proj2 (proj2 (proj2
             (X2_removeArrayItem_first_only [4%nat; 7%nat; 5%nat] 7%nat))))).
    apply (bool_decide_unpack (NoDup [4%nat; 7%nat; 5%nat])). reflexivity.
  - apply (proj2 (proj2 (proj2 (proj2
             (X2_removeArrayItem_first_only [4%nat; 7%nat; 5%nat] 7%nat)))) 5%nat).
    lia.
Defined.

(** ** Action lifecycle *)

(** X3. [start()] on a running action does nothing.  On an action that is
    not running it sets [running] and puts the action into the active list
    unless it is there already: the list keeps its members and stays
    duplicate-free, queue and [_done] are kept, nothing is invoked, and a
    second [start()] changes nothing. *)
Theorem X3_start_registers_once :
  ∀ a w this,
    actions w !! a = Some this →
    (running this = true → Action.start a w = Some w) ∧
    (running this = false →
     ∃ w1,
       Action.start a w = Some w1 ∧
       actions w1 !! a
         = Some (mkAction (_queue this) (_done this) true (sprite this)) ∧
       a ∈ _actionList w1 ∧
       (NoDup (_actionList w) → NoDup (_actionList w1)) ∧
       (∀ b, b ∈ _actionList w → b ∈ _actionList w1) ∧
       fired w1 = fired w ∧ scene w1 = scene w ∧
       Action.start a w1 = Some w1).
Proof.
  intros a w this Ha. unfold Action.start. rewrite Ha. simpl.
  assert (a ∈ addArrayItem (_actionList w) a) as Hin
    by (apply addArrayItem_elem; by right).
  pose proof (addArrayItem_NoDup (_actionList w) a) as Hnd.
  pose proof (addArrayItem_member (addArrayItem (_actionList w) a) a Hin)
    as Hsame.
  split; intros Hrun; rewrite Hrun; [done|].
  eexists. split; [reflexivity|]. simpl. rewrite lookup_insert_eq. simpl.
  split; [done|]. split; [done|]. split; [done|]. split.
  { intros b Hb. apply addArrayItem_elem. by left. }
  done.
Qed.

(** X4. [stop()] marks the action done and not running, empties its queue
    and keeps its sprite; it takes the action out of the active list, where
    it no longer occurs if it occurred once; no callback is invoked, other
    actions and the scene are untouched; stopping again changes nothing. *)
Theorem X4_stop_forces_done :
  ∀ a w this,
    actions w !! a = Some this →
    ∃ w1,
      Action.stop a w = Some w1 ∧
      actions w1 !! a = Some (mkAction [] true false (sprite this)) ∧
      _actionList w1 = removeArrayItem (_actionList w) a ∧
      (NoDup (_actionList w) → a ∉ _actionList w1) ∧
      (∀ b, b ≠ a → actions w1 !! b = actions w !! b) ∧
      fired w1 = fired w ∧ scene w1 = scene w ∧
      listeners w1 = listeners w ∧ _listenerList w1 = _listenerList w ∧
      (NoDup (_actionList w) → Action.stop a w1 = Some w1).
Proof.
  intros a w this Ha. unfold Action.stop. rewrite Ha. simpl.
  eexists. split; [reflexivity|]. simpl. rewrite lookup_insert_eq.
  split; [done|]. split; [done|].
  split; [apply removeArrayItem_NoDup|]. split.
  { intros b Hb. by rewrite lookup_insert_ne. }
  repeat (split; [done|]). intros Hnd. simpl.
  rewrite insert_insert_eq.
  rewrite (removeArrayItem_absent (removeArrayItem _ _) a)
    by (by apply removeArrayItem_NoDup).
  done.
Qed.

Lemma X3_start_registers_once_witness :
  ∃ w1,
    Action.start 0 chain_world = Some w1 ∧
    0%nat ∈ _actionList w1 ∧ NoDup (_actionList w1) ∧
    Action.start 0 w1 = Some w1.
Proof.
  destruct (proj2 (X3_start_registers_once 0%nat chain_world _ eq_refl)
              eq_refl) as (w1 & H1 & _ & Hin & Hnd & _ & _ & _ & Hagain).
  exists w1. split; [done|]. split; [done|]. split; [|done].
  apply Hnd. constructor.
Defined.

Lemma X4_stop_forces_done_witness :
  ∃ w1,
    Action.stop 0 two_delays = Some w1 ∧
    actions w1 !! 0%nat = Some (mkAction [] true false None) ∧
    (0%nat ∉ _actionList w1) ∧
    Action.stop 0 w1 = Some w1.
Proof.
  assert (NoDup (_actionList two_delays)) as Hnd.
  { apply (bool_decide_unpack (NoDup (_actionList two_delays))).
    reflexivity. }
  destruct (X4_stop_forces_done 0%nat two_delays _ eq_refl)
    as (w1 & H1 & Ha & _ & Hout & _ & _ & _ & _ & _ & Hagain).
  exists w1. split; [done|]. split; [done|]. split; [by apply Hout|].
  by apply Hagain.
Defined.

(** ** What a tick leaves alone *)

(** The parts of the engine state other than scene and callback log. *)
Lemma step_definition_registry fuel dt d sp w d' w' :
  step_definition fuel dt d sp w = Some (d', w') →
  actions w' = actions w ∧ _actionList w' = _actionList w ∧
  listeners w' = listeners w ∧ _listenerList w' = _listenerList w.
Proof.
  destruct d as [c|dl|t|an]; simpl; intros H.
  - unfold Callback.step in H. destruct (cb_done c); by injection H as <- <-.
  - by injection H as <- <-.
  - apply bind_Some in H as ([t' st'] & _ & H). by injection H as <- <-.
  - apply bind_Some in H as ([a' sc'] & _ & H). by injection H as <- <-.
Qed.

Lemma _step_queue_registry fuel dt a q :
  ∀ w w',
    Action._step_queue fuel dt a q w = Some w' →
    _actionList w' = _actionList w ∧ listeners w' = listeners w ∧
    _listenerList w' = _listenerList w ∧
    (∀ b, b ≠ a → actions w' !! b = actions w !! b).
Proof.
  induction q as [|d rest IH]; intros w w' H; simpl in H.
  - by injection H as <-.
  - apply bind_Some in H as (this & Hthis & H).
    apply bind_Some in H as ([d' w1] & Hstep & H).
    apply bind_Some in H as (this1 & Hthis1 & H).
    destruct (step_definition_registry _ _ _ _ _ _ _ Hstep)
      as (Ha & Hal & Hl & Hll).
    destruct (done d').
    + destruct rest as [|d2 rest].
      * injection H as <-. simpl. repeat (split; [done|]).
        intros b Hb. by rewrite lookup_insert_ne, Ha.
      * destruct (immediate d').
        -- apply IH in H as (H1 & H2 & H3 & H4). simpl in *.
           repeat (split; [congruence|]). intros b Hb.
           rewrite (H4 b Hb). by rewrite lookup_insert_ne, Ha.
        -- injection H as <-. simpl. repeat (split; [done|]).
           intros b Hb. by rewrite lookup_insert_ne, Ha.
    + injection H as <-. simpl. repeat (split; [done|]).
      intros b Hb. by rewrite lookup_insert_ne, Ha.
Qed.

Lemma step_loop_registry n fuel dt :
  ∀ i w w',
    Action.step_loop n fuel dt i w = Some w' →
    (∀ x, x ∈ _actionList w' → x ∈ _actionList w) ∧
    (∀ b, b ∉ _actionList w → actions w' !! b = actions w !! b) ∧
    listeners w' = listeners w ∧ _listenerList w' = _listenerList w.
Proof.
  induction n as [|n IH]; intros i w w' H; simpl in H.
  - destruct (_actionList w !! i); [done|]. by injection H as <-.
  - destruct (_actionList w !! i) as [a|] eqn:Hi; [|by injection H as <-].
    apply bind_Some in H as (w1 & Hstep & H).
    apply bind_Some in H as (action & Haction & H).
    unfold Action._step in Hstep.
    apply bind_Some in Hstep as (this & Hthis & Hstep).
    apply _step_queue_registry in Hstep as (Hal & Hl & Hll & Hother).
    apply IH in H as (Hsub & Hkeep & Hl' & Hll').
    assert (∀ x, x ∈ _actionList
                   (if _done action
                    then with_actionList
                           (removeArrayItem (_actionList w1) a) w1
                    else w1) → x ∈ _actionList w) as Hsub1.
    { intros x Hx. rewrite <- Hal. destruct (_done action); [|done].
      simpl in Hx. by apply removeArrayItem_subseteq in Hx. }
    split; [intros x Hx; by apply Hsub1, Hsub|]. split.
    + intros b Hb. rewrite Hkeep by (intros Hx; by apply Hb, Hsub1).
      transitivity (actions w1 !! b); [by destruct (_done action)|].
      apply Hother. intros ->. apply Hb.
      apply list_elem_of_lookup. eauto.
    + destruct (_done action); simpl in *; split; congruence.
Qed.

Lemma Listener_step_registry lid w w' :
  Listener._step lid w = Some w' →
  actions w' = actions w ∧ _actionList w' = _actionList w ∧
  scene w' = scene w.
Proof.
  unfold Listener._step. intros H.
  apply bind_Some in H as (l & Hl & H).
  apply bind_Some in H as ([all_done any_done] & _ & H).
  apply bind_Some in H as (w1 & H1 & H).
  apply bind_Some in H as (l1 & Hl1 & H).
  assert (actions w1 = actions w ∧ _actionList w1 = _actionList w ∧
          scene w1 = scene w) as (E1 & E2 & E3).
  { destruct (_callback_any l); [|by injection H1 as <-].
    destruct any_done; by injection H1 as <-. }
  destruct (_callback_all l1); [|injection H as <-; done].
  destruct all_done; injection H as <-; done.
Qed.

Lemma forEachListener_registry ls :
  ∀ w w',
    forEachListener ls w = Some w' →
    actions w' = actions w ∧ _actionList w' = _actionList w ∧
    scene w' = scene w.
Proof.
  induction ls as [|l ls IH]; intros w w' H; simpl in H.
  - by injection H as <-.
  - apply bind_Some in H as (w1 & H1 & H).
    apply Listener_step_registry in H1 as (E1 & E2 & E3).
    apply IH in H as (E1' & E2' & E3'). split; [|split]; congruence.
Qed.

(** X5. A tick only shrinks the active list, and an action that is not in
    the list is not touched: so an action that was stopped is never advanced
    by a later tick. *)
Theorem X5_step_leaves_unlisted_actions :
  ∀ fuel dt w w',
    Action.step fuel dt w = Some w' →
    (∀ x, x ∈ _actionList w' → x ∈ _actionList w) ∧
    (∀ b, b ∉ _actionList w →
          actions w' !! b = actions w !! b ∧ b ∉ _actionList w').
Proof.
  intros fuel dt w w' H. unfold Action.step in H.
  apply bind_Some in H as (w1 & Hloop & H).
  apply step_loop_registry in Hloop as (Hsub & Hkeep & _ & _).
  apply forEachListener_registry in H as (Ea & Eal & _).
  rewrite Ea, Eal. split; [done|]. intros b Hb. split; [by apply Hkeep|].
  intros Hx. by apply Hb, Hsub.
Qed.

Lemma X5_step_leaves_unlisted_actions_witness :
  ∃ w1 w',
    Action.stop 0 two_delays = Some w1 ∧
    Action.step 1 1 w1 = Some w' ∧
    actions w' !! 0%nat = actions w1 !! 0%nat ∧
    0%nat ∉ _actionList w'.
Proof.
  destruct (Action.stop 0 two_delays) as [w1|] eqn:E1;
    [|by vm_compute in E1].
  destruct (Action.step 1 1 w1) as [w'|] eqn:E;
    [|vm_compute in E1; injection E1 as <-; by vm_compute in E].
  exists w1, w'. split; [done|]. split; [done|].
  apply (proj2 (X5_step_leaves_unlisted_actions 1%nat 1 w1 w' E) 0%nat).
  vm_compute in E1. injection E1 as <-. simpl.
  apply (bool_decide_unpack (0%nat ∉ [1%nat])). reflexivity.
Defined.

(** ** Chaining *)

Lemma World_eq w1 w2 :
  scene w1 = scene w2 → fired w1 = fired w2 → actions w1 = actions w2 →
  _actionList w1 = _actionList w2 → listeners w1 = listeners w2 →
  _listenerList w1 = _listenerList w2 → w1 = w2.
Proof. destruct w1, w2; simpl; intros; by subst. Qed.

Lemma _step_queue_callback_more fuel dt a f r rest w this :
  actions w !! a = Some this →
  Action._step_queue fuel dt a (ACallback (Callback.new f) :: r :: rest) w =
  Action._step_queue fuel dt a (r :: rest)
    (with_actions (<[a := Action.with_queue (r :: rest) this]> (actions w))
       (with_fired (fired w ++ [f]) w)).
Proof.
  intros Ha.
  cbn [Action._step_queue]. rewrite Ha. cbn [mbind option_bind].
  cbn [step_definition Callback.step Callback.new cb_done func].
  cbn [mbind option_bind with_fired actions]. rewrite Ha.
  cbn [mbind option_bind done cb_done immediate]. done.
Qed.

Lemma _step_queue_callback_last fuel dt a f w this :
  actions w !! a = Some this →
  Action._step_queue fuel dt a [ACallback (Callback.new f)] w =
  Some (with_actions (<[a := mkAction [] true false None]> (actions w))
          (with_fired (fired w ++ [f]) w)).
Proof.
  intros Ha.
  cbn [Action._step_queue]. rewrite Ha. cbn [mbind option_bind].
  cbn [step_definition Callback.step Callback.new cb_done func].
  cbn [mbind option_bind with_fired actions]. rewrite Ha.
  cbn [mbind option_bind done cb_done immediate]. done.
Qed.

(** Callbacks at the head of a queue with more behind them. *)
Lemma _step_queue_callbacks fuel dt a fs d rest :
  ∀ w this,
    actions w !! a = Some this →
    fs ≠ [] →
    Action._step_queue fuel dt a (callbacks fs ++ d :: rest) w =
    Action._step_queue fuel dt a (d :: rest)
      (with_actions (<[a := Action.with_queue (d :: rest) this]> (actions w))
         (with_fired (fired w ++ fs) w)).
Proof.
  induction fs as [|f fs IH]; intros w this Ha Hne; [done|].
  destruct fs as [|f2 fs].
  - apply _step_queue_callback_more. done.
  - change (callbacks (f :: f2 :: fs) ++ d :: rest) with
      (ACallback (Callback.new f) :: ACallback (Callback.new f2)
         :: (callbacks fs ++ d :: rest)).
    erewrite _step_queue_callback_more; [|done].
    change (ACallback (Callback.new f2) :: (callbacks fs ++ d :: rest)) with
      (callbacks (f2 :: fs) ++ d :: rest).
    erewrite IH; [|simpl; apply lookup_insert_eq|done].
    f_equal. apply World_eq; simpl; try done.
    + by rewrite <- app_assoc.
    + by rewrite insert_insert_eq.
Qed.

(** A queue of callbacks only. *)
Lemma _step_queue_only_callbacks fuel dt a fs w this :
  actions w !! a = Some this → fs ≠ [] →
  Action._step_queue fuel dt a (callbacks fs) w =
  Some (with_actions (<[a := mkAction [] true false None]> (actions w))
          (with_fired (fired w ++ fs) w)).
Proof.
  intros Ha Hne. destruct (exists_last Hne) as (fs0 & f & ->).
  unfold callbacks. rewrite map_app.
  change (map _ ?l) with (callbacks l).
  destruct fs0 as [|f0 fs0].
  - by eapply _step_queue_callback_last.
  - change (callbacks [f]) with [ACallback (Callback.new f)].
    erewrite _step_queue_callbacks; [|done|done].
    erewrite _step_queue_callback_last; [|simpl; apply lookup_insert_eq].
    f_equal. apply World_eq; simpl; try done.
    + by rewrite <- app_assoc.
    + by rewrite insert_insert_eq.
Qed.

(** A delay at the head of the queue that the tick does not complete. *)
Lemma _step_queue_delay_pending fuel dt a e duration rest w this :
  actions w !! a = Some this → e + dt < duration →
  Action._step_queue fuel dt a (ADelay (mkDelay false e duration) :: rest) w =
  Some (with_actions
          (<[a := Action.with_queue
                    (ADelay (mkDelay false (e + dt) duration) :: rest) this]>
             (actions w)) w).
Proof.
  intros Ha Hlt. cbn [Action._step_queue]. rewrite Ha.
  cbn [mbind option_bind step_definition]. rewrite Ha.
  cbn [mbind option_bind].
  unfold Delay.step, num_geb. cbn [dl_elapsed dl_duration dl_done].
  rewrite bool_decide_eq_false_2; [done|]. by apply Qclt_not_le.
Qed.




(** X6. A queue that holds only callbacks is run to its end by one
    [_step], whatever the elapsed time: every callback is invoked once, in
    queue order, and the action is done, not running, with an empty queue
    and no sprite. *)
Theorem X6_callbacks_run_in_one_tick :
  ∀ fuel dt a fs w this,
    actions w !! a = Some this → _queue this = callbacks fs → fs ≠ [] →
    Action._step fuel dt a w =
      Some (with_actions (<[a := mkAction [] true false None]> (actions w))
              (with_fired (fired w ++ fs) w)).
Proof.
  intros fuel dt a fs w this Ha Hq Hne. unfold Action._step.
  rewrite Ha. cbn [mbind option_bind]. rewrite Hq.
  by eapply _step_queue_only_callbacks.
Qed.

(** X7. Callbacks queued in front of a delay that the tick does not
    complete are all invoked, in order, by that one [_step]; the delay moves
    to the head of the queue and has absorbed the tick, and what is queued
    behind it is untouched. *)
Theorem X7_callbacks_then_pending_delay :
  ∀ fuel dt a fs duration rest w this,
    actions w !! a = Some this →
    _queue this = callbacks fs ++ ADelay (Delay.new duration) :: rest →
    dt < duration →
    Action._step fuel dt a w =
      Some (with_actions
              (<[a := Action.with_queue
                        (ADelay (mkDelay false dt duration) :: rest) this]>
                 (actions w))
              (with_fired (fired w ++ fs) w)).
Proof.
  intros fuel dt a fs duration rest w this Ha Hq Hlt. unfold Action._step.
  rewrite Ha. cbn [mbind option_bind]. rewrite Hq. unfold Delay.new.
  assert (0 + dt < duration) as Hlt' by by rewrite Qcplus_0_l.
  destruct fs as [|f fs].
  - simpl callbacks. simpl app.
    erewrite _step_queue_delay_pending; [|done|done].
    f_equal. apply World_eq; simpl; try done; [by rewrite app_nil_r|].
    by rewrite Qcplus_0_l.
  - erewrite _step_queue_callbacks; [|done|done].
    erewrite _step_queue_delay_pending; [|simpl; apply lookup_insert_eq|done].
    f_equal. apply World_eq; simpl; try done.
    rewrite insert_insert_eq. by rewrite Qcplus_0_l.
Qed.


Lemma X6_callbacks_run_in_one_tick_witness :
  Action._step 0 three_halves 0 callbacks_world
  = Some (with_actions
            (<[0%nat := mkAction [] true false None]> (actions callbacks_world))
            (with_fired (fired callbacks_world ++ [7%nat; 8%nat; 9%nat])
               callbacks_world)).
Proof.
  apply (X6_callbacks_run_in_one_tick 0%nat three_halves 0%nat
           [7%nat; 8%nat; 9%nat] callbacks_world
           (mkAction (callbacks [7%nat; 8%nat; 9%nat]) false true None));
    [reflexivity|reflexivity|discriminate].
Defined.

Lemma X7_callbacks_then_pending_delay_witness :
  Action._step 0 (Q2Qc (1 # 2)) 0 chain_world
  = Some (with_actions
            (<[0%nat := Action.with_queue
                          [ADelay (mkDelay false (Q2Qc (1 # 2)) 1);
                           ACallback (Callback.new 8)]
                          (mkAction
                             [ACallback (Callback.new 7); ADelay (Delay.new 1);
                              ACallback (Callback.new 8)] false false None)]>
               (actions chain_world))
            (with_fired (fired chain_world ++ [7%nat]) chain_world)).
Proof.
  apply (X7_callbacks_then_pending_delay 0%nat (Q2Qc (1 # 2)) 0%nat [7%nat] 1
           [ACallback (Callback.new 8)] chain_world
           (mkAction [ACallback (Callback.new 7); ADelay (Delay.new 1);
                      ACallback (Callback.new 8)] false false None));
    [reflexivity|reflexivity|reflexivity].
Defined.

(** ** Listeners, continued *)

(** X9. A listener that tracks no action resolves at its first check when an
    ALL list has been registered: the ALL callbacks are invoked, the
    listener is marked resolved and leaves the listener list; its ANY
    callbacks are not invoked and stay registered. *)
Theorem X9_listener_of_no_actions :
  ∀ lid w l all,
    listeners w !! lid = Some l → _actions l = [] →
    _callback_all l = Some all →
    Listener._step lid w =
      Some (with_listeners
              (<[lid := mkListener true (_callback_any l) (Some all) []]>
                 (listeners w))
              (with_listenerList (removeArrayItem (_listenerList w) lid)
                 (with_fired (fired w ++ all) w))).
Proof.
  intros lid w l all Hl Hnone Hall.
  rewrite (Listener_step_spec lid w l Hl).
  - rewrite Hnone, Hall. reflexivity.
  - unfold tracked_exist. rewrite Hnone. constructor.
Qed.

(** X10. Registration on a listener that is not resolved invokes nothing and
    only stores the callback: [allDone] puts it into the ALL list and
    [anyDone] into the ANY list, each created on first use and left
    unchanged when the callback is already in it, so that registering the
    same callback a second time changes nothing. *)
Theorem X10_registration_is_silent_and_idempotent :
  ∀ lid w l callback,
    listeners w !! lid = Some l → _resolved l = false →
    (∃ w1,
       Listener.allDone lid callback w = Some w1 ∧
       w1 = with_listeners
              (<[lid := mkListener false (_callback_any l)
                          (Some (addArrayItem (default [] (_callback_all l))
                                   callback)) (_actions l)]> (listeners w))
              w ∧
       Listener.allDone lid callback w1 = Some w1) ∧
    (∃ w1,
       Listener.anyDone lid callback w = Some w1 ∧
       w1 = with_listeners
              (<[lid := mkListener false
                          (Some (addArrayItem (default [] (_callback_any l))
                                   callback)) (_callback_all l) (_actions l)]>
                 (listeners w)) w ∧
       Listener.anyDone lid callback w1 = Some w1).
Proof.
  intros lid w l callback Hl Hres.
  assert (callback ∈ addArrayItem (default [] (_callback_all l)) callback)
    as Hall by (apply addArrayItem_elem; by right).
  assert (callback ∈ addArrayItem (default [] (_callback_any l)) callback)
    as Hany by (apply addArrayItem_elem; by right).
  split; eexists; (split; [|split; [reflexivity|]]).
  - unfold Listener.allDone. rewrite Hl. simpl. by rewrite Hres.
  - unfold Listener.allDone. simpl. rewrite lookup_insert_eq. simpl.
    rewrite insert_insert_eq. by rewrite (addArrayItem_member _ _ Hall).
  - unfold Listener.anyDone. rewrite Hl. simpl. by rewrite Hres.
  - unfold Listener.anyDone. simpl. rewrite lookup_insert_eq. simpl.
    rewrite insert_insert_eq. by rewrite (addArrayItem_member _ _ Hany).
Qed.

Lemma X9_listener_of_no_actions_witness :
  Listener._step 0 idle_listening =
    Some (with_listeners
            (<[0%nat := mkListener true (Some [5%nat]) (Some [6%nat]) []]>
               (listeners idle_listening))
            (with_listenerList (removeArrayItem (_listenerList idle_listening) 0)
               (with_fired (fired idle_listening ++ [6%nat]) idle_listening))).
Proof.
  apply (X9_listener_of_no_actions 0%nat idle_listening
           (mkListener false (Some [5%nat]) (Some [6%nat]) []) [6%nat]);
    reflexivity.
Defined.

Lemma X10_registration_is_silent_and_idempotent_witness :
  ∃ w1,
    Listener.allDone 0 6 idle_listening = Some w1 ∧
    Listener.allDone 0 6 w1 = Some w1.
Proof.
  destruct (proj1 (X10_registration_is_silent_and_idempotent 0%nat
                     idle_listening
                     (mkListener false (Some [5%nat]) (Some [6%nat]) [])
                     6%nat eq_refl eq_refl))
    as (w1 & H1 & _ & H2).
  exists w1. split; [exact H1|exact H2].
Defined.
(** ** The tree below a sprite *)

Lemma descends_inv (st : Store) this target :
  descends st this target →
  ∃ s, st !! this = Some s ∧
       (target ∈ kids s ∨ ∃ c, c ∈ kids s ∧ descends st c target).
Proof.
  intros H. inversion H as [? ? (s & Hs & Hc)|? c ? (s & Hs & Hc) Htc]; subst.
  - exists s. split; [done|]. by left.
  - exists s. split; [done|]. right. by exists c.
Qed.

Lemma descends_rank rank (st : Store) this target :
  well_formed rank st → descends st this target →
  (rank target < rank this)%nat.
Proof.
  intros Hwf. induction 1 as [a b (s & Hs & Hc)|a b c (s & Hs & Hc) _ IH].
  - by apply (well_formed_lookup _ _ _ _ Hwf Hs).
  - destruct (proj1 (well_formed_lookup _ _ _ _ Hwf Hs) b Hc). lia.
Qed.

Lemma contains_spec rank (st : Store) target :
  well_formed rank st →
  ∀ fuel this,
    is_Some (st !! this) → (rank this < fuel)%nat →
    ∃ b, contains fuel this target st = Some b ∧
         (b = true ↔ descends st this target).
Proof.
  intros Hwf. induction fuel as [|fuel IH]; intros this [s Hs] Hfuel; [lia|].
  simpl. rewrite Hs. simpl.
  destruct (well_formed_lookup _ _ _ _ Hwf Hs) as [Hkids _].
  assert (∀ cs, children s = Some cs → kids s = cs) as Hk
    by (intros cs E; unfold kids; by rewrite E).
  assert (kids s = [] → ¬ descends st this target) as Hleaf.
  { intros E (s0 & Hs0 & [Hin|(c & Hin & _)])%descends_inv;
      rewrite Hs in Hs0; injection Hs0 as <-; rewrite E in Hin;
      by apply elem_of_nil in Hin. }
  destruct (children s) as [[|c0 cs0]|] eqn:Hcs.
  - exists false. split; [done|]. split; [done|].
    intros H. by apply Hleaf in H; [|apply Hk].
  - set (cs := c0 :: cs0) in *.
    case_bool_decide as Hin.
    + exists true. split; [done|]. split; [|done]. intros _.
      apply tc_once. exists s. split; [done|]. by rewrite (Hk cs).
    + assert (∀ l, l ⊆ cs →
                ∃ b, (fix some (l : list nat) : option bool :=
                        match l with
                        | [] => Some false
                        | c :: l' =>
                            b ← contains fuel c target st;
                            if (b : bool) then Some true else some l'
                        end) l = Some b ∧
                     (b = true ↔ ∃ c, c ∈ l ∧ descends st c target)) as Hsome.
      { induction l as [|c l IHl]; intros Hsub.
        - exists false. split; [done|]. split; [done|].
          intros (c & Hc & _). by apply elem_of_nil in Hc.
        - assert (c ∈ kids s) as Hc
            by (rewrite (Hk cs eq_refl); apply Hsub; left).
          destruct (Hkids c Hc) as [Hex Hrk].
          destruct (IH c Hex) as (b & Hb & Hspec); [lia|].
          rewrite Hb. simpl. destruct b.
          + exists true. split; [done|]. split; [|done]. intros _.
            exists c. split; [left|]. by apply Hspec.
          + destruct IHl as (b' & Hb' & Hspec').
            { intros y Hy. apply Hsub. by right. }
            exists b'. split; [done|]. rewrite Hspec'. split.
            * intros (c' & Hc' & Hd). exists c'. split; [by right|done].
            * intros (c' & [->|Hc']%elem_of_cons & Hd); [|by exists c'].
              apply Hspec in Hd. done. }
      destruct (Hsome cs) as (b & Hb & Hspec); [done|].
      exists b. split; [exact Hb|]. rewrite Hspec. rewrite <- (Hk cs eq_refl).
      split.
      * intros (c & Hc & Hd). eapply tc_l; [|exact Hd]. by exists s.
      * intros (s0 & Hs0 & [Hin'|H])%descends_inv;
          rewrite Hs in Hs0; injection Hs0 as <-; [|done].
        rewrite (Hk cs eq_refl) in Hin'. done.
  - exists false. split; [done|]. split; [done|].
    intros H. apply Hleaf in H; [done|]. unfold kids. by rewrite Hcs.
Qed.

(** A rank that is [0] on the sprites of [roots] and below them, and [1]
    elsewhere. *)
Lemma forest_rank rank (st : Store) roots :
  well_formed rank st → Forall (λ r, is_Some (st !! r)) roots →
  ∃ rank', wranked rank' st ∧ (∀ r, r ∈ roots → rank' r = 0%nat) ∧
           ∀ j, j ∉ roots → (∀ r, r ∈ roots → ¬ descends st r j) →
                rank' j = 1%nat.
Proof.
  intros Hwf Hroots.
  set (below := λ j,
         existsb (λ r, match contains (S (rank r)) r j st with
                       | Some true => true
                       | _ => false
                       end) roots).
  assert (∀ j, below j = true ↔ ∃ r, r ∈ roots ∧ descends st r j) as Hbelow.
  { intros j. unfold below. rewrite existsb_exists. split.
    - intros (r & Hr%list_elem_of_In & H). exists r. split; [done|].
      destruct (contains_spec rank st j Hwf (S (rank r)) r) as (b & Hb & Hd);
        [by apply (proj1 (Forall_forall _ _) Hroots)|lia|].
      rewrite Hb in H. destruct b; [by apply Hd|done].
    - intros (r & Hr & H). exists r. split; [by apply list_elem_of_In|].
      destruct (contains_spec rank st j Hwf (S (rank r)) r) as (b & Hb & Hd);
        [by apply (proj1 (Forall_forall _ _) Hroots)|lia|].
      rewrite Hb. apply Hd in H. by rewrite H. }
  exists (λ j, if bool_decide (j ∈ roots) then 0%nat
               else if below j then 0%nat else 1%nat).
  split; [|split].
  - intros p s c Hs Hc. simpl.
    assert (child_of st p c) as Hpc by (by exists s).
    destruct (bool_decide (p ∈ roots)) eqn:Ep.
    + apply bool_decide_eq_true in Ep.
      assert (below c = true) as ->
        by (apply Hbelow; exists p; split; [done|by apply tc_once]).
      destruct (bool_decide (c ∈ roots)); lia.
    + destruct (below p) eqn:Eb; [|repeat case_match; lia].
      apply Hbelow in Eb as (r & Hr & Hd).
      assert (below c = true) as ->.
      { apply Hbelow. exists r. split; [done|]. by eapply tc_r. }
      destruct (bool_decide (c ∈ roots)); lia.
  - intros r Hr. simpl. by rewrite bool_decide_eq_true_2.
  - intros j Hne Hnd. simpl. rewrite bool_decide_eq_false_2 by done.
    destruct (below j) eqn:Eb; [|done].
    apply Hbelow in Eb as (r & Hr & Hd). by apply Hnd in Hd.
Qed.

(** Layout code that writes at ranks up to that of [id], whatever the
    ranking, writes to [id] and below it only. *)
Lemma writes_subtree Wr rank (st st' : Store) id j :
  well_formed rank st → is_Some (st !! id) →
  (∀ rank', wranked rank' st → writes Wr rank' (S (rank' id)) st st') →
  j ≠ id → ¬ descends st id j → st' !! j = st !! j.
Proof.
  intros Hwf Hid Hw Hne Hnd.
  destruct (forest_rank rank st [id] Hwf) as (rank' & Hr & H0 & H1);
    [by constructor|].
  specialize (Hw rank' Hr). rewrite H0 in Hw by left.
  eapply writes_frame; [exact Hw|]. rewrite H1; [done| |].
  - by intros ->%list_elem_of_singleton.
  - by intros r ->%list_elem_of_singleton.
Qed.

Lemma descends_last (st : Store) a b :
  descends st a b → ∃ q, rtc (child_of st) a q ∧ child_of st q b.
Proof.
  induction 1 as [a b H|a c b H _ (q & Hq & Hb)].
  - by exists a.
  - exists q. split; [|done]. by eapply rtc_l.
Qed.

Lemma reaches_rank rank (st : Store) a b :
  well_formed rank st → rtc (child_of st) a b → (rank b ≤ rank a)%nat.
Proof.
  intros Hwf. induction 1 as [|a c b (s & Hs & Hc) _ IH]; [done|].
  destruct (proj1 (well_formed_lookup _ _ _ _ Hwf Hs) c Hc). lia.
Qed.

(** In a tree no child of a sprite is below another child of it. *)
Lemma siblings_apart rank (st : Store) p ps c c' :
  well_formed rank st → tree_shaped st →
  st !! p = Some ps → c ∈ kids ps → c' ∈ kids ps → ¬ descends st c' c.
Proof.
  intros Hwf Htree Hp Hc Hc' Hd.
  destruct (descends_last _ _ _ Hd) as (q & Hq & (sq & Hsq & Hcq)).
  destruct (map_Forall_lookup_1 _ _ _ _ Htree Hp) as [_ Hpar].
  destruct (map_Forall_lookup_1 _ _ _ _ Htree Hsq) as [_ Hparq].
  pose proof (proj1 (Forall_forall _ _) Hpar c Hc) as E1.
  pose proof (proj1 (Forall_forall _ _) Hparq c Hcq) as E2.
  assert (q = p) as -> by congruence.
  pose proof (reaches_rank rank st c' p Hwf Hq).
  destruct (proj1 (well_formed_lookup _ _ _ _ Hwf Hp) c' Hc'). lia.
Qed.

(** Stores with the same children lists have the same descendants. *)
Lemma descends_mono (st st' : Store) a b :
  (∀ j, kids <$> st' !! j = kids <$> st !! j) →
  descends st' a b → descends st a b.
Proof.
  intros Hk. apply (tc_congruence (λ j, j)). intros p c (s' & Hs' & Hc).
  specialize (Hk p). rewrite Hs' in Hk.
  destruct (st !! p) as [s|] eqn:Hs; simpl in Hk; [|done]. injection Hk as Hk.
  exists s. split; [done|]. by rewrite <- Hk.
Qed.

(** X11. On a well-formed store [contains] returns, and it returns [true]
    exactly for the sprites below the receiver: its children, their
    children, and so on.  A sprite does not contain itself, and a sprite
    without children contains nothing. *)
Theorem X11_contains_is_descendant :
  ∀ rank fuel (st : Store) this target,
    well_formed rank st → is_Some (st !! this) → (rank this < fuel)%nat →
    (∃ b, contains fuel this target st = Some b ∧
          (b = true ↔ descends st this target)) ∧
    contains fuel this this st = Some false ∧
    (∀ s, st !! this = Some s → kids s = [] →
          contains fuel this target st = Some false).
Proof.
  intros rank fuel st this target Hwf Hex Hfuel.
  split; [by eapply contains_spec|]. split.
  - destruct (contains_spec rank st this Hwf fuel this Hex Hfuel)
      as (b & Hb & Hspec).
    rewrite Hb. f_equal. destruct b; [|done].
    pose proof (descends_rank rank st this this Hwf (proj1 Hspec eq_refl)).
    lia.
  - intros s Hs Hk. destruct fuel as [|fuel]; [lia|]. simpl. rewrite Hs.
    simpl. unfold kids in Hk. destruct (children s) as [[|c cs]|]; done.
Qed.

Lemma X11_contains_is_descendant_witness :
  ∃ b, contains 4 0 3 family = Some b ∧ (b = true ↔ descends family 0 3).
Proof.
  refine (proj1 (X11_contains_is_descendant family_rank 4%nat family 0%nat
                   3%nat _ _ _)).
  - apply (bool_decide_unpack (well_formed family_rank family)).
    vm_compute. reflexivity.
  - vm_compute. eauto.
  - vm_compute. lia.
Defined.
(** ** Layout of the width axis: what a call reaches, and where it leaves a
    child *)

Lemma Xwrite_fields s s' :
  Xwrite s s' →
  _parent s' = _parent s ∧ _alignX s' = _alignX s ∧
  _left s' = _left s ∧ _right s' = _right s ∧
  _percentWidth s' = _percentWidth s.
Proof. by destruct 1. Qed.

Lemma dropX_fields s s' :
  dropX s' = dropX s →
  _parent s' = _parent s ∧ _alignX s' = _alignX s ∧
  _left s' = _left s ∧ _right s' = _right s ∧
  _percentWidth s' = _percentWidth s ∧ kids s' = kids s.
Proof.
  intros H.
  pose proof (f_equal _parent H). pose proof (f_equal _alignX H).
  pose proof (f_equal _left H). pose proof (f_equal _right H).
  pose proof (f_equal _percentWidth H). pose proof (f_equal kids H).
  done.
Qed.

Section WidthLayout.
Variable rank : nat → nat.
Implicit Types st : Store.

(** [_adjustAlignX] on a sprite under a parent. *)
Lemma _adjustAlignX_result id st s p ps :
  st !! id = Some s → _parent s = Some p → st !! p = Some ps →
  ∃ v, _adjustAlignX id st = Some (<[id := with_x v s]> st) ∧
       (_alignX s = Some LEFT → v = _originPixelX s) ∧
       (_alignX s = Some RIGHT →
        v = _width ps - (_width s - _originPixelX s)) ∧
       (_alignX s = Some CENTER →
        v = _width ps * half + _originPixelX s - _width s * half) ∧
       (_alignX s = None → v = x s).
Proof.
  intros Hs Hp Hps. unfold _adjustAlignX. rewrite Hs. simpl. rewrite Hp.
  assert (<[id := with_x (x s) s]> st = st) as Hid.
  { apply insert_id. rewrite Hs. f_equal. by destruct s. }
  destruct (_alignX s) as [a|] eqn:Ea.
  - rewrite Hps. simpl.
    destruct a;
      first [ eexists; split; [reflexivity|];
              repeat split; intros E; first [discriminate E|reflexivity]
            | exists (x s); split; [by rewrite Hid|];
              repeat split; intros E; first [discriminate E|reflexivity] ].
  - exists (x s). split; [by rewrite Hid|].
    repeat split; intros E; first [discriminate E|reflexivity].
Qed.

Lemma _adjustAlignX_unaligned id st s :
  st !! id = Some s → _alignX s = None → _adjustAlignX id st = Some st.
Proof.
  intros Hs Ha. unfold _adjustAlignX. rewrite Hs. simpl. rewrite Ha.
  by destruct (_parent s).
Qed.

(** [set alignX]. *)
Lemma set_alignX_result id value st s :
  st !! id = Some s →
  (value = TOP ∨ value = BOTTOM ∨ _alignX s = Some value →
   set_alignX id value st = Some st) ∧
  (value = LEFT ∨ value = RIGHT ∨ value = CENTER →
   _alignX s ≠ Some value →
   (_parent s = None →
    set_alignX id value st
      = Some (<[id := with_alignX (Some value) s]> st)) ∧
   (∀ p ps, _parent s = Some p → st !! p = Some ps →
      ∃ v, set_alignX id value st
             = Some (<[id := with_x v (with_alignX (Some value) s)]> st) ∧
           (value = LEFT → v - _originPixelX s = 0) ∧
           (value = RIGHT → v - _originPixelX s + _width s = _width ps) ∧
           (value = CENTER →
            v - _originPixelX s + _width s * half = _width ps * half))).
Proof.
  intros Hs. unfold set_alignX. rewrite Hs. simpl. split.
  { intros [-> | [-> | E]].
    - by rewrite orb_true_r.
    - by rewrite orb_true_r.
    - by rewrite (bool_decide_eq_true_2 _ E). }
  intros Hv Hne.
  assert (bool_decide (_alignX s = Some value)
          || bool_decide (value = BOTTOM) || bool_decide (value = TOP)
          = false) as ->.
  { rewrite (bool_decide_eq_false_2 _ Hne).
    by destruct Hv as [-> | [-> | ->]]. }
  set (s1 := with_alignX (Some value) s).
  split.
  { intros Hp. unfold _adjustAlignX. rewrite lookup_insert_eq. simpl.
    by rewrite Hp. }
  intros p ps Hp Hps.
  assert (∃ ps1, <[id := s1]> st !! p = Some ps1 ∧ _width ps1 = _width ps)
    as (ps1 & Hps1 & Hw).
  { destruct (decide (p = id)) as [-> | Hpid].
    - exists s1. rewrite lookup_insert_eq. split; [done|].
      rewrite Hs in Hps. by injection Hps as <-.
    - exists ps. by rewrite lookup_insert_ne. }
  destruct (_adjustAlignX_result id (<[id := s1]> st) s1 p ps1)
    as (v & H & HL & HR & HC & _);
    [apply lookup_insert_eq|exact Hp|exact Hps1|].
  exists v. rewrite H, insert_insert_eq. split; [done|].
  rewrite Hw in HR, HC. simpl in HL, HR, HC.
  split; [intros ->; rewrite (HL eq_refl); ring|].
  split; [intros ->; rewrite (HR eq_refl); ring|].
  intros ->. rewrite (HC eq_refl). ring.
Qed.

(** [set width]: the sprite afterwards. *)
Lemma set_width_result fuel id value st st' s :
  well_formed rank st → st !! id = Some s →
  set_width fuel id value st = Some st' →
  ∃ s', st' !! id = Some s' ∧ _width s' = value ∧
        dropX s' = dropX s ∧
        (_alignX s = None → x s' = x s).
Proof.
  intros Hwf Hs H. destruct fuel as [|fuel]; [done|].
  simpl in H. rewrite Hs in H. simpl in H.
  destruct (num_eqb (_width s) value) eqn:E.
  { injection H as <-. apply bool_decide_eq_true in E. by exists s. }
  apply bind_Some in H as (st2 & H2 & H).
  set (s2 := with_originPixelX _ _) in H2.
  assert (writes Xwrite rank (S (rank id)) st (<[id := s2]> st)) as Hw1.
  { eapply writes_one; [lia|done|apply (Xwrite_width s value)]. }
  destruct (_adjustAlignX_at id _ _ s2 (lookup_insert_eq _ _ _) H2)
    as [v Hst2].
  rewrite insert_insert_eq in Hst2.
  assert (well_formed rank st2) as Hwf2.
  { eapply writes_well_formed;
      [apply Xwrite_kids|apply Xwrite_parent| |exact Hwf].
    eapply writes_trans; [exact Hw1|]. by eapply _adjustAlignX_writes. }
  assert (writes Xwrite rank (rank id) st2 st') as Hw.
  { eapply _reLayoutChildrenOnWidthChanged_with_writes;
      [|by apply well_formed_wranked| |exact H].
    - intros; by eapply set_width_writes.
    - intros s3 c Hs3 Hc.
      destruct (well_formed_lookup _ _ _ _ Hwf2 Hs3) as [Hk _].
      by destruct (Hk c Hc). }
  exists (with_x v s2). split.
  { rewrite (writes_frame _ _ _ _ _ id Hw) by lia.
    rewrite Hst2. apply lookup_insert_eq. }
  split; [done|]. split; [by destruct s|].
  intros Ha.
  rewrite (_adjustAlignX_unaligned id _ s2) in H2;
    [|apply lookup_insert_eq|exact Ha].
  injection H2 as <-.
  apply (f_equal (λ m, x <$> m !! id)) in Hst2.
  rewrite !lookup_insert_eq in Hst2. simpl in Hst2.
  by injection Hst2 as <-.
Qed.

(** [set width] reaches the sprite and what is below it, and there the width
    geometry only. *)
Lemma set_width_reach fuel id value st s :
  well_formed rank st → st !! id = Some s → (rank id < fuel)%nat →
  ∃ st' s',
    set_width fuel id value st = Some st' ∧ well_formed rank st' ∧
    st' !! id = Some s' ∧ _width s' = value ∧
    (∀ j, dropX <$> st' !! j = dropX <$> st !! j) ∧
    (∀ j, j ≠ id → ¬ descends st id j → st' !! j = st !! j) ∧
    (_width s = value → st' = st).
Proof.
  intros Hwf Hs Hfuel.
  destruct (set_width_total rank fuel id value st Hwf) as [st' H];
    [by rewrite Hs|done|].
  assert (writes Xwrite rank (S (rank id)) st st') as Hw
    by (eapply set_width_writes; [by apply well_formed_wranked|done]).
  destruct (set_width_result fuel id value st st' s Hwf Hs H)
    as (s' & Hs' & Hv & _).
  exists st', s'. split; [done|]. split.
  { eapply writes_well_formed;
      [apply Xwrite_kids|apply Xwrite_parent|done..]. }
  split; [done|]. split; [done|]. split.
  { intros j. eapply writes_proj; [apply Xwrite_dropX|done]. }
  split.
  { intros j Hne Hnd.
    eapply (writes_subtree Xwrite rank st st' id j Hwf);
      [by rewrite Hs| |done|done].
    intros rank' Hr. by eapply set_width_writes. }
  intros E. destruct fuel as [|fuel]; [lia|]. simpl in H.
  rewrite Hs in H. simpl in H. unfold num_eqb in H.
  rewrite bool_decide_eq_true_2 in H by done. by injection H.
Qed.

(** [_resizeWidth] on a sprite under a parent. *)
Lemma _resizeWidth_result fuel id st s p ps :
  well_formed rank st → st !! id = Some s → (rank id < fuel)%nat →
  _parent s = Some p → st !! p = Some ps →
  ∃ st' s',
    _resizeWidth fuel id st = Some st' ∧ st' !! id = Some s' ∧
    dropX s' = dropX s ∧ well_formed rank st' ∧
    writes Xwrite rank (S (rank id)) st st' ∧
    (∀ l r, _left s = Some l → _right s = Some r →
            _width s' = _width ps - l - r ∧
            x s' = l + _originPixelX s') ∧
    (∀ pc, _left s = None ∨ _right s = None →
           _percentWidth s = Some pc →
           _width s' = _width ps * pc ∧
           (_alignX s = None → x s' = x s)) ∧
    (_left s = None ∨ _right s = None → _percentWidth s = None → s' = s).
Proof.
  intros Hwf Hs Hfuel Hp Hps.
  destruct (_resizeWidth_spec rank fuel id st s Hwf Hs Hfuel)
    as (st' & s' & H & Hwf' & Hw & Hs' & Hpin).
  exists st', s'. split; [done|]. split; [done|].
  destruct (writes_proj_Some_1 Xwrite rank dropX _ _ _ id s
              Xwrite_dropX Hw Hs) as (s0 & Hs0 & Hd).
  assert (s0 = s') as -> by congruence.
  split; [done|]. split; [done|]. split; [done|].
  split; [intros l r Hl Hr; by apply (Hpin p ps l r)|].
  unfold _resizeWidth, _resizeWidth_with in H.
  rewrite Hs in H. simpl in H. rewrite Hp, Hps in H. simpl in H.
  split.
  - intros pc Hno Hpc. rewrite Hpc in H.
    assert (set_width fuel id (_width ps * pc) st = Some st') as Hset
      by (destruct Hno as [E | E]; rewrite E in H;
          [|destruct (_left s)]; exact H).
    destruct (set_width_result fuel id _ st st' s Hwf Hs Hset)
      as (s1 & Hs1 & Hv & _ & Hx).
    assert (s1 = s') as -> by congruence. done.
  - intros Hno Hpc. rewrite Hpc in H.
    assert (Some st = Some st') as [= <-]
      by (destruct Hno as [E | E]; rewrite E in H;
          [|destruct (_left s)]; exact H).
    congruence.
Qed.

(** One step of the re-layout of the children of [p]. *)
Lemma relayoutWidth_child fuel c st s p ps :
  well_formed rank st → st !! c = Some s → _parent s = Some p →
  st !! p = Some ps → (rank c < rank p)%nat → (rank c < fuel)%nat →
  ∃ st' s',
    (st1 ← _resizeWidth_with (set_width fuel) c st; _adjustAlignX c st1)
      = Some st' ∧
    st' !! c = Some s' ∧ laid_outX (_width ps) s s'.
Proof.
  intros Hwf Hs Hp Hps Hrk Hfuel.
  destruct (_resizeWidth_result fuel c st s p ps Hwf Hs Hfuel Hp Hps)
    as (st1 & s1 & H1 & Hs1 & Hd & Hwf1 & Hw1 & Hpin & Hpct & Hnone).
  unfold _resizeWidth in H1. rewrite H1. simpl.
  assert (st1 !! p = Some ps) as Hps1
    by (rewrite (writes_frame _ _ _ _ _ p Hw1) by lia; done).
  destruct (dropX_fields _ _ Hd) as (Ep & Ea & Elo & Ehi & Epc & _).
  destruct (_adjustAlignX_result c st1 s1 p ps Hs1) as
    (v & H2 & HL & HR & HC & HN); [congruence|done|].
  rewrite H2. eexists _, _. split; [done|].
  split; [apply lookup_insert_eq|].
  rewrite Ea in HL, HR, HC, HN.
  unfold laid_outX. simpl.
  split; [intros l r Hl Hr; by apply (Hpin l r)|].
  split; [intros pc Hno Hpc; by apply (Hpct pc)|].
  split; [intros Hno Hpc; by rewrite (Hnone Hno Hpc)|].
  split; [intros E; rewrite (HL E); ring|].
  split; [intros E; rewrite (HR E); ring|].
  split; [intros E; rewrite (HC E); ring|].
  split; [intros E l r Hl Hr; rewrite (HN E); by apply (Hpin l r)|].
  intros E Hno. rewrite (HN E).
  destruct (_percentWidth s) as [pc|] eqn:Hpc.
  - by apply (Hpct pc).
  - by rewrite (Hnone Hno eq_refl).
Qed.

(** The re-layout of a list of children reaches them and what is below
    them only. *)
Lemma relayoutWidth_each_frame fuel cs st0 st st' j :
  well_formed rank st0 →
  (∀ rank', wranked rank' st0 → wranked rank' st) →
  Forall (λ c, is_Some (st0 !! c)) cs →
  forEach (λ child st1,
             st2 ← _resizeWidth_with (set_width fuel) child st1;
             _adjustAlignX child st2) cs st = Some st' →
  j ∉ cs → (∀ c, c ∈ cs → ¬ descends st0 c j) →
  st' !! j = st !! j.
Proof.
  intros Hwf Hr Hcs H Hj Hnd.
  destruct (forest_rank rank st0 cs Hwf Hcs) as (rank' & Hr' & H0 & H1).
  eapply (writes_frame Xwrite rank' 1%nat).
  - eapply (relayoutWidth_each_writes rank' (set_width fuel) cs);
      [|by apply Hr| |exact H].
    + intros; by eapply set_width_writes.
    + apply Forall_forall. intros c Hc. rewrite (H0 c Hc). lia.
  - by rewrite H1.
Qed.

(** Resizing a sprite lays out each of its children again. *)
Lemma set_width_relayout fuel st p ps c sc value :
  well_formed rank st → tree_shaped st →
  st !! p = Some ps → c ∈ kids ps → st !! c = Some sc →
  _width ps ≠ value → (rank p < fuel)%nat →
  ∃ st' sc', set_width fuel p value st = Some st' ∧ st' !! c = Some sc' ∧
             laid_outX value sc sc'.
Proof.
  intros Hwf Htree Hp Hc Hsc Hne Hfuel.
  destruct (set_width_total rank fuel p value st Hwf) as [st' H];
    [by rewrite Hp|done|].
  exists st'. destruct fuel as [|f]; [lia|].
  pose proof H as Hrun. simpl in H. rewrite Hp in H. simpl in H.
  assert (num_eqb (_width ps) value = false) as E
    by (by apply bool_decide_eq_false).
  rewrite E in H. apply bind_Some in H as (st2 & H2 & H).
  set (s2 := with_originPixelX _ _) in H2.
  assert (writes Xwrite rank (S (rank p)) st (<[p := s2]> st)) as Hw1.
  { eapply writes_one; [lia|done|apply (Xwrite_width ps value)]. }
  destruct (_adjustAlignX_at p _ _ s2 (lookup_insert_eq _ _ _) H2)
    as [vx Hst2].
  rewrite insert_insert_eq in Hst2.
  assert (writes Xwrite rank (S (rank p)) st st2) as Hw2.
  { eapply writes_trans; [exact Hw1|]. by eapply _adjustAlignX_writes. }
  assert (well_formed rank st2) as Hwf2.
  { eapply writes_well_formed;
      [apply Xwrite_kids|apply Xwrite_parent|exact Hw2|exact Hwf]. }
  destruct (well_formed_lookup _ _ _ _ Hwf Hp) as [Hkids _].
  destruct (map_Forall_lookup_1 _ _ _ _ Htree Hp) as [Hnd Hpar].
  assert (_parent sc = Some p) as Hcp.
  { pose proof (proj1 (Forall_forall _ _) Hpar c Hc) as Ec.
    simpl in Ec. rewrite Hsc in Ec. by injection Ec. }
  assert (rank c < rank p)%nat as Hrk by (by apply Hkids).
  assert (c ≠ p) as Hneq by (intros ->; lia).
  assert (st2 !! p = Some (with_x vx s2)) as Hp2
    by (rewrite Hst2; apply lookup_insert_eq).
  assert (st2 !! c = Some sc) as Hc2
    by (rewrite Hst2; by rewrite lookup_insert_ne).
  apply list_elem_of_split in Hc as (pre & post & Hcs).
  rewrite Hcs in Hnd. apply NoDup_app in Hnd as (_ & Hpre & Hnd).
  apply NoDup_cons in Hnd as [Hpost _].
  assert (c ∉ pre) as Hpre' by (intros Hin; apply (Hpre c Hin); left).
  assert (∀ c', c' ∈ pre ++ c :: post →
            is_Some (st !! c') ∧ (rank c' < rank p)%nat ∧
            ¬ descends st c' c) as Hsib.
  { intros c' Hc'. rewrite <- Hcs in Hc'.
    destruct (Hkids c' Hc'). split; [done|]. split; [done|].
    eapply (siblings_apart rank st p ps); try done.
    rewrite Hcs. apply elem_of_app. right. left. }
  unfold _reLayoutChildrenOnWidthChanged_with in H.
  rewrite Hp2 in H. simpl in H.
  assert (children ps = Some (pre ++ c :: post)) as Hch.
  { unfold kids in Hcs. destruct (children ps) as [cs|]; simpl in Hcs;
      [by rewrite Hcs|by destruct pre]. }
  rewrite Hch in H.
  set (f0 := λ child st0,
               st1 ← _resizeWidth_with (set_width f) child st0;
               _adjustAlignX child st1) in H.
  assert (forEach f0 (pre ++ c :: post) st2 = Some st') as Hfe
    by (destruct pre; exact H).
  rewrite forEach_app in Hfe. apply bind_Some in Hfe as (sta & Hpre_run & Hfe).
  simpl in Hfe. apply bind_Some in Hfe as (stb & Hmid & Hpost_run).
  assert (∀ c0 v0 st0 st1, wranked rank st0 →
            set_width f c0 v0 st0 = Some st1 →
            writes Xwrite rank (S (rank c0)) st0 st1) as Hset
    by (intros; by eapply set_width_writes).
  assert (writes Xwrite rank (rank p) st2 sta) as Hwa.
  { eapply (relayoutWidth_each_writes rank (set_width f) pre);
      [exact Hset|by apply well_formed_wranked| |exact Hpre_run].
    apply Forall_forall. intros c' Hc'. apply Hsib.
    apply elem_of_app. by left. }
  assert (well_formed rank sta) as Hwfa.
  { eapply writes_well_formed;
      [apply Xwrite_kids|apply Xwrite_parent|exact Hwa|exact Hwf2]. }
  assert (sta !! p = Some (with_x vx s2)) as Hpa
    by (rewrite (writes_frame _ _ _ _ _ p Hwa) by lia; done).
  assert (sta !! c = Some sc) as Hca.
  { rewrite <- Hc2.
    eapply (relayoutWidth_each_frame f pre st st2 sta c Hwf);
      [| |exact Hpre_run|exact Hpre'|].
    - intros rank' Hr'. eapply writes_wranked; [apply Xwrite_kids|exact Hw2|done].
    - apply Forall_forall. intros c' Hc'. apply Hsib.
      apply elem_of_app. by left.
    - intros c' Hc'. apply Hsib. apply elem_of_app. by left. }
  destruct (relayoutWidth_child f c sta sc p (with_x vx s2) Hwfa Hca Hcp Hpa)
    as (stb' & sb & Hmid' & Hsb & Hlaid); [done|lia|].
  unfold f0 in Hmid. rewrite Hmid in Hmid'. injection Hmid' as <-.
  exists sb. split; [done|]. split; [|exact Hlaid].
  rewrite <- Hsb.
  assert (writes Xwrite rank (S (rank c)) sta stb) as Hwb.
  { eapply (relayoutWidth_each_writes rank (set_width f) [c]);
      [exact Hset|by apply well_formed_wranked|by repeat constructor; lia|].
    simpl. by rewrite Hmid. }
  eapply (relayoutWidth_each_frame f post st stb st' c Hwf);
    [| |exact Hpost_run|exact Hpost|].
  - intros rank' Hr'.
    eapply writes_wranked; [apply Xwrite_kids|exact Hwb|].
    eapply writes_wranked; [apply Xwrite_kids|exact Hwa|].
    eapply writes_wranked; [apply Xwrite_kids|exact Hw2|done].
  - apply Forall_forall. intros c' Hc'. apply Hsib.
    apply elem_of_app. right. by right.
  - intros c' Hc'. apply Hsib. apply elem_of_app. right. by right.
Qed.
End WidthLayout.
(** ** Layout of the height axis: what a call reaches, and where it leaves a
    child *)

Lemma Ywrite_fields s s' :
  Ywrite s s' →
  _parent s' = _parent s ∧ _alignY s' = _alignY s ∧
  _top s' = _top s ∧ _bottom s' = _bottom s ∧
  _percentHeight s' = _percentHeight s.
Proof. by destruct 1. Qed.

Lemma dropY_fields s s' :
  dropY s' = dropY s →
  _parent s' = _parent s ∧ _alignY s' = _alignY s ∧
  _top s' = _top s ∧ _bottom s' = _bottom s ∧
  _percentHeight s' = _percentHeight s ∧ kids s' = kids s.
Proof.
  intros H.
  pose proof (f_equal _parent H). pose proof (f_equal _alignY H).
  pose proof (f_equal _top H). pose proof (f_equal _bottom H).
  pose proof (f_equal _percentHeight H). pose proof (f_equal kids H).
  done.
Qed.

Section HeightLayout.
Variable rank : nat → nat.
Implicit Types st : Store.

(** [_adjustAlignY] on a sprite under a parent. *)
Lemma _adjustAlignY_result id st s p ps :
  st !! id = Some s → _parent s = Some p → st !! p = Some ps →
  ∃ v, _adjustAlignY id st = Some (<[id := with_y v s]> st) ∧
       (_alignY s = Some TOP → v = _originPixelY s) ∧
       (_alignY s = Some BOTTOM →
        v = _height ps - (_height s - _originPixelY s)) ∧
       (_alignY s = Some CENTER →
        v = _height ps * half + _originPixelY s - _height s * half) ∧
       (_alignY s = None → v = y s).
Proof.
  intros Hs Hp Hps. unfold _adjustAlignY. rewrite Hs. simpl. rewrite Hp.
  assert (<[id := with_y (y s) s]> st = st) as Hid.
  { apply insert_id. rewrite Hs. f_equal. by destruct s. }
  destruct (_alignY s) as [a|] eqn:Ea.
  - rewrite Hps. simpl.
    destruct a;
      first [ eexists; split; [reflexivity|];
              repeat split; intros E; first [discriminate E|reflexivity]
            | exists (y s); split; [by rewrite Hid|];
              repeat split; intros E; first [discriminate E|reflexivity] ].
  - exists (y s). split; [by rewrite Hid|].
    repeat split; intros E; first [discriminate E|reflexivity].
Qed.

Lemma _adjustAlignY_unaligned id st s :
  st !! id = Some s → _alignY s = None → _adjustAlignY id st = Some st.
Proof.
  intros Hs Ha. unfold _adjustAlignY. rewrite Hs. simpl. rewrite Ha.
  by destruct (_parent s).
Qed.

(** [set alignY]. *)
Lemma set_alignY_result id value st s :
  st !! id = Some s →
  (value = RIGHT ∨ value = LEFT ∨ _alignY s = Some value →
   set_alignY id value st = Some st) ∧
  (value = TOP ∨ value = BOTTOM ∨ value = CENTER →
   _alignY s ≠ Some value →
   (_parent s = None →
    set_alignY id value st
      = Some (<[id := with_alignY (Some value) s]> st)) ∧
   (∀ p ps, _parent s = Some p → st !! p = Some ps →
      ∃ v, set_alignY id value st
             = Some (<[id := with_y v (with_alignY (Some value) s)]> st) ∧
           (value = TOP → v - _originPixelY s = 0) ∧
           (value = BOTTOM → v - _originPixelY s + _height s = _height ps) ∧
           (value = CENTER →
            v - _originPixelY s + _height s * half = _height ps * half))).
Proof.
  intros Hs. unfold set_alignY. rewrite Hs. simpl. split.
  { intros [-> | [-> | E]].
    - by rewrite orb_true_r.
    - by rewrite orb_true_r.
    - by rewrite (bool_decide_eq_true_2 _ E). }
  intros Hv Hne.
  assert (bool_decide (_alignY s = Some value)
          || bool_decide (value = LEFT) || bool_decide (value = RIGHT)
          = false) as ->.
  { rewrite (bool_decide_eq_false_2 _ Hne).
    by destruct Hv as [-> | [-> | ->]]. }
  set (s1 := with_alignY (Some value) s).
  split.
  { intros Hp. unfold _adjustAlignY. rewrite lookup_insert_eq. simpl.
    by rewrite Hp. }
  intros p ps Hp Hps.
  assert (∃ ps1, <[id := s1]> st !! p = Some ps1 ∧ _height ps1 = _height ps)
    as (ps1 & Hps1 & Hw).
  { destruct (decide (p = id)) as [-> | Hpid].
    - exists s1. rewrite lookup_insert_eq. split; [done|].
      rewrite Hs in Hps. by injection Hps as <-.
    - exists ps. by rewrite lookup_insert_ne. }
  destruct (_adjustAlignY_result id (<[id := s1]> st) s1 p ps1)
    as (v & H & HL & HR & HC & _);
    [apply lookup_insert_eq|exact Hp|exact Hps1|].
  exists v. rewrite H, insert_insert_eq. split; [done|].
  rewrite Hw in HR, HC. simpl in HL, HR, HC.
  split; [intros ->; rewrite (HL eq_refl); ring|].
  split; [intros ->; rewrite (HR eq_refl); ring|].
  intros ->. rewrite (HC eq_refl). ring.
Qed.

(** [set height]: the sprite afterwards. *)
Lemma set_height_result fuel id value st st' s :
  well_formed rank st → st !! id = Some s →
  set_height fuel id value st = Some st' →
  ∃ s', st' !! id = Some s' ∧ _height s' = value ∧
        dropY s' = dropY s ∧
        (_alignY s = None → y s' = y s).
Proof.
  intros Hwf Hs H. destruct fuel as [|fuel]; [done|].
  simpl in H. rewrite Hs in H. simpl in H.
  destruct (num_eqb (_height s) value) eqn:E.
  { injection H as <-. apply bool_decide_eq_true in E. by exists s. }
  apply bind_Some in H as (st2 & H2 & H).
  set (s2 := with_originPixelY _ _) in H2.
  assert (writes Ywrite rank (S (rank id)) st (<[id := s2]> st)) as Hw1.
  { eapply writes_one; [lia|done|apply (Ywrite_height s value)]. }
  destruct (_adjustAlignY_at id _ _ s2 (lookup_insert_eq _ _ _) H2)
    as [v Hst2].
  rewrite insert_insert_eq in Hst2.
  assert (well_formed rank st2) as Hwf2.
  { eapply writes_well_formed;
      [apply Ywrite_kids|apply Ywrite_parent| |exact Hwf].
    eapply writes_trans; [exact Hw1|]. by eapply _adjustAlignY_writes. }
  assert (writes Ywrite rank (rank id) st2 st') as Hw.
  { eapply _reLayoutChildrenOnHeightChanged_with_writes;
      [|by apply well_formed_wranked| |exact H].
    - intros; by eapply set_height_writes.
    - intros s3 c Hs3 Hc.
      destruct (well_formed_lookup _ _ _ _ Hwf2 Hs3) as [Hk _].
      by destruct (Hk c Hc). }
  exists (with_y v s2). split.
  { rewrite (writes_frame _ _ _ _ _ id Hw) by lia.
    rewrite Hst2. apply lookup_insert_eq. }
  split; [done|]. split; [by destruct s|].
  intros Ha.
  rewrite (_adjustAlignY_unaligned id _ s2) in H2;
    [|apply lookup_insert_eq|exact Ha].
  injection H2 as <-.
  apply (f_equal (λ m, y <$> m !! id)) in Hst2.
  rewrite !lookup_insert_eq in Hst2. simpl in Hst2.
  by injection Hst2 as <-.
Qed.

(** [set height] reaches the sprite and what is below it, and there the height
    geometry only. *)
Lemma set_height_reach fuel id value st s :
  well_formed rank st → st !! id = Some s → (rank id < fuel)%nat →
  ∃ st' s',
    set_height fuel id value st = Some st' ∧ well_formed rank st' ∧
    st' !! id = Some s' ∧ _height s' = value ∧
    (∀ j, dropY <$> st' !! j = dropY <$> st !! j) ∧
    (∀ j, j ≠ id → ¬ descends st id j → st' !! j = st !! j) ∧
    (_height s = value → st' = st).
Proof.
  intros Hwf Hs Hfuel.
  destruct (set_height_total rank fuel id value st Hwf) as [st' H];
    [by rewrite Hs|done|].
  assert (writes Ywrite rank (S (rank id)) st st') as Hw
    by (eapply set_height_writes; [by apply well_formed_wranked|done]).
  destruct (set_height_result fuel id value st st' s Hwf Hs H)
    as (s' & Hs' & Hv & _).
  exists st', s'. split; [done|]. split.
  { eapply writes_well_formed;
      [apply Ywrite_kids|apply Ywrite_parent|done..]. }
  split; [done|]. split; [done|]. split.
  { intros j. eapply writes_proj; [apply Ywrite_dropY|done]. }
  split.
  { intros j Hne Hnd.
    eapply (writes_subtree Ywrite rank st st' id j Hwf);
      [by rewrite Hs| |done|done].
    intros rank' Hr. by eapply set_height_writes. }
  intros E. destruct fuel as [|fuel]; [lia|]. simpl in H.
  rewrite Hs in H. simpl in H. unfold num_eqb in H.
  rewrite bool_decide_eq_true_2 in H by done. by injection H.
Qed.

(** [_resizeHeight] on a sprite under a parent. *)
Lemma _resizeHeight_result fuel id st s p ps :
  well_formed rank st → st !! id = Some s → (rank id < fuel)%nat →
  _parent s = Some p → st !! p = Some ps →
  ∃ st' s',
    _resizeHeight fuel id st = Some st' ∧ st' !! id = Some s' ∧
    dropY s' = dropY s ∧ well_formed rank st' ∧
    writes Ywrite rank (S (rank id)) st st' ∧
    (∀ l r, _top s = Some l → _bottom s = Some r →
            _height s' = _height ps - l - r ∧
            y s' = l + _originPixelY s') ∧
    (∀ pc, _top s = None ∨ _bottom s = None →
           _percentHeight s = Some pc →
           _height s' = _height ps * pc ∧
           (_alignY s = None → y s' = y s)) ∧
    (_top s = None ∨ _bottom s = None → _percentHeight s = None → s' = s).
Proof.
  intros Hwf Hs Hfuel Hp Hps.
  destruct (_resizeHeight_spec rank fuel id st s Hwf Hs Hfuel)
    as (st' & s' & H & Hwf' & Hw & Hs' & Hpin).
  exists st', s'. split; [done|]. split; [done|].
  destruct (writes_proj_Some_1 Ywrite rank dropY _ _ _ id s
              Ywrite_dropY Hw Hs) as (s0 & Hs0 & Hd).
  assert (s0 = s') as -> by congruence.
  split; [done|]. split; [done|]. split; [done|].
  split; [intros l r Hl Hr; by apply (Hpin p ps l r)|].
  unfold _resizeHeight, _resizeHeight_with in H.
  rewrite Hs in H. simpl in H. rewrite Hp, Hps in H. simpl in H.
  split.
  - intros pc Hno Hpc. rewrite Hpc in H.
    assert (set_height fuel id (_height ps * pc) st = Some st') as Hset
      by (destruct Hno as [E | E]; rewrite E in H;
          [|destruct (_top s)]; exact H).
    destruct (set_height_result fuel id _ st st' s Hwf Hs Hset)
      as (s1 & Hs1 & Hv & _ & Hx).
    assert (s1 = s') as -> by congruence. done.
  - intros Hno Hpc. rewrite Hpc in H.
    assert (Some st = Some st') as [= <-]
      by (destruct Hno as [E | E]; rewrite E in H;
          [|destruct (_top s)]; exact H).
    congruence.
Qed.

(** One step of the re-layout of the children of [p]. *)
Lemma relayoutHeight_child fuel c st s p ps :
  well_formed rank st → st !! c = Some s → _parent s = Some p →
  st !! p = Some ps → (rank c < rank p)%nat → (rank c < fuel)%nat →
  ∃ st' s',
    (st1 ← _resizeHeight_with (set_height fuel) c st; _adjustAlignY c st1)
      = Some st' ∧
    st' !! c = Some s' ∧ laid_outY (_height ps) s s'.
Proof.
  intros Hwf Hs Hp Hps Hrk Hfuel.
  destruct (_resizeHeight_result fuel c st s p ps Hwf Hs Hfuel Hp Hps)
    as (st1 & s1 & H1 & Hs1 & Hd & Hwf1 & Hw1 & Hpin & Hpct & Hnone).
  unfold _resizeHeight in H1. rewrite H1. simpl.
  assert (st1 !! p = Some ps) as Hps1
    by (rewrite (writes_frame _ _ _ _ _ p Hw1) by lia; done).
  destruct (dropY_fields _ _ Hd) as (Ep & Ea & Elo & Ehi & Epc & _).
  destruct (_adjustAlignY_result c st1 s1 p ps Hs1) as
    (v & H2 & HL & HR & HC & HN); [congruence|done|].
  rewrite H2. eexists _, _. split; [done|].
  split; [apply lookup_insert_eq|].
  rewrite Ea in HL, HR, HC, HN.
  unfold laid_outY. simpl.
  split; [intros l r Hl Hr; by apply (Hpin l r)|].
  split; [intros pc Hno Hpc; by apply (Hpct pc)|].
  split; [intros Hno Hpc; by rewrite (Hnone Hno Hpc)|].
  split; [intros E; rewrite (HL E); ring|].
  split; [intros E; rewrite (HR E); ring|].
  split; [intros E; rewrite (HC E); ring|].
  split; [intros E l r Hl Hr; rewrite (HN E); by apply (Hpin l r)|].
  intros E Hno. rewrite (HN E).
  destruct (_percentHeight s) as [pc|] eqn:Hpc.
  - by apply (Hpct pc).
  - by rewrite (Hnone Hno eq_refl).
Qed.

(** The re-layout of a list of children reaches them and what is below
    them only. *)
Lemma relayoutHeight_each_frame fuel cs st0 st st' j :
  well_formed rank st0 →
  (∀ rank', wranked rank' st0 → wranked rank' st) →
  Forall (λ c, is_Some (st0 !! c)) cs →
  forEach (λ child st1,
             st2 ← _resizeHeight_with (set_height fuel) child st1;
             _adjustAlignY child st2) cs st = Some st' →
  j ∉ cs → (∀ c, c ∈ cs → ¬ descends st0 c j) →
  st' !! j = st !! j.
Proof.
  intros Hwf Hr Hcs H Hj Hnd.
  destruct (forest_rank rank st0 cs Hwf Hcs) as (rank' & Hr' & H0 & H1).
  eapply (writes_frame Ywrite rank' 1%nat).
  - eapply (relayoutHeight_each_writes rank' (set_height fuel) cs);
      [|by apply Hr| |exact H].
    + intros; by eapply set_height_writes.
    + apply Forall_forall. intros c Hc. rewrite (H0 c Hc). lia.
  - by rewrite H1.
Qed.

(** Resizing a sprite lays out each of its children again. *)
Lemma set_height_relayout fuel st p ps c sc value :
  well_formed rank st → tree_shaped st →
  st !! p = Some ps → c ∈ kids ps → st !! c = Some sc →
  _height ps ≠ value → (rank p < fuel)%nat →
  ∃ st' sc', set_height fuel p value st = Some st' ∧ st' !! c = Some sc' ∧
             laid_outY value sc sc'.
Proof.
  intros Hwf Htree Hp Hc Hsc Hne Hfuel.
  destruct (set_height_total rank fuel p value st Hwf) as [st' H];
    [by rewrite Hp|done|].
  exists st'. destruct fuel as [|f]; [lia|].
  pose proof H as Hrun. simpl in H. rewrite Hp in H. simpl in H.
  assert (num_eqb (_height ps) value = false) as E
    by (by apply bool_decide_eq_false).
  rewrite E in H. apply bind_Some in H as (st2 & H2 & H).
  set (s2 := with_originPixelY _ _) in H2.
  assert (writes Ywrite rank (S (rank p)) st (<[p := s2]> st)) as Hw1.
  { eapply writes_one; [lia|done|apply (Ywrite_height ps value)]. }
  destruct (_adjustAlignY_at p _ _ s2 (lookup_insert_eq _ _ _) H2)
    as [vx Hst2].
  rewrite insert_insert_eq in Hst2.
  assert (writes Ywrite rank (S (rank p)) st st2) as Hw2.
  { eapply writes_trans; [exact Hw1|]. by eapply _adjustAlignY_writes. }
  assert (well_formed rank st2) as Hwf2.
  { eapply writes_well_formed;
      [apply Ywrite_kids|apply Ywrite_parent|exact Hw2|exact Hwf]. }
  destruct (well_formed_lookup _ _ _ _ Hwf Hp) as [Hkids _].
  destruct (map_Forall_lookup_1 _ _ _ _ Htree Hp) as [Hnd Hpar].
  assert (_parent sc = Some p) as Hcp.
  { pose proof (proj1 (Forall_forall _ _) Hpar c Hc) as Ec.
    simpl in Ec. rewrite Hsc in Ec. by injection Ec. }
  assert (rank c < rank p)%nat as Hrk by (by apply Hkids).
  assert (c ≠ p) as Hneq by (intros ->; lia).
  assert (st2 !! p = Some (with_y vx s2)) as Hp2
    by (rewrite Hst2; apply lookup_insert_eq).
  assert (st2 !! c = Some sc) as Hc2
    by (rewrite Hst2; by rewrite lookup_insert_ne).
  apply list_elem_of_split in Hc as (pre & post & Hcs).
  rewrite Hcs in Hnd. apply NoDup_app in Hnd as (_ & Hpre & Hnd).
  apply NoDup_cons in Hnd as [Hpost _].
  assert (c ∉ pre) as Hpre' by (intros Hin; apply (Hpre c Hin); left).
  assert (∀ c', c' ∈ pre ++ c :: post →
            is_Some (st !! c') ∧ (rank c' < rank p)%nat ∧
            ¬ descends st c' c) as Hsib.
  { intros c' Hc'. rewrite <- Hcs in Hc'.
    destruct (Hkids c' Hc'). split; [done|]. split; [done|].
    eapply (siblings_apart rank st p ps); try done.
    rewrite Hcs. apply elem_of_app. right. left. }
  unfold _reLayoutChildrenOnHeightChanged_with in H.
  rewrite Hp2 in H. simpl in H.
  assert (children ps = Some (pre ++ c :: post)) as Hch.
  { unfold kids in Hcs. destruct (children ps) as [cs|]; simpl in Hcs;
      [by rewrite Hcs|by destruct pre]. }
  rewrite Hch in H.
  set (f0 := λ child st0,
               st1 ← _resizeHeight_with (set_height f) child st0;
               _adjustAlignY child st1) in H.
  assert (forEach f0 (pre ++ c :: post) st2 = Some st') as Hfe
    by (destruct pre; exact H).
  rewrite forEach_app in Hfe. apply bind_Some in Hfe as (sta & Hpre_run & Hfe).
  simpl in Hfe. apply bind_Some in Hfe as (stb & Hmid & Hpost_run).
  assert (∀ c0 v0 st0 st1, wranked rank st0 →
            set_height f c0 v0 st0 = Some st1 →
            writes Ywrite rank (S (rank c0)) st0 st1) as Hset
    by (intros; by eapply set_height_writes).
  assert (writes Ywrite rank (rank p) st2 sta) as Hwa.
  { eapply (relayoutHeight_each_writes rank (set_height f) pre);
      [exact Hset|by apply well_formed_wranked| |exact Hpre_run].
    apply Forall_forall. intros c' Hc'. apply Hsib.
    apply elem_of_app. by left. }
  assert (well_formed rank sta) as Hwfa.
  { eapply writes_well_formed;
      [apply Ywrite_kids|apply Ywrite_parent|exact Hwa|exact Hwf2]. }
  assert (sta !! p = Some (with_y vx s2)) as Hpa
    by (rewrite (writes_frame _ _ _ _ _ p Hwa) by lia; done).
  assert (sta !! c = Some sc) as Hca.
  { rewrite <- Hc2.
    eapply (relayoutHeight_each_frame f pre st st2 sta c Hwf);
      [| |exact Hpre_run|exact Hpre'|].
    - intros rank' Hr'. eapply writes_wranked; [apply Ywrite_kids|exact Hw2|done].
    - apply Forall_forall. intros c' Hc'. apply Hsib.
      apply elem_of_app. by left.
    - intros c' Hc'. apply Hsib. apply elem_of_app. by left. }
  destruct (relayoutHeight_child f c sta sc p (with_y vx s2) Hwfa Hca Hcp Hpa)
    as (stb' & sb & Hmid' & Hsb & Hlaid); [done|lia|].
  unfold f0 in Hmid. rewrite Hmid in Hmid'. injection Hmid' as <-.
  exists sb. split; [done|]. split; [|exact Hlaid].
  rewrite <- Hsb.
  assert (writes Ywrite rank (S (rank c)) sta stb) as Hwb.
  { eapply (relayoutHeight_each_writes rank (set_height f) [c]);
      [exact Hset|by apply well_formed_wranked|by repeat constructor; lia|].
    simpl. by rewrite Hmid. }
  eapply (relayoutHeight_each_frame f post st stb st' c Hwf);
    [| |exact Hpost_run|exact Hpost|].
  - intros rank' Hr'.
    eapply writes_wranked; [apply Ywrite_kids|exact Hwb|].
    eapply writes_wranked; [apply Ywrite_kids|exact Hwa|].
    eapply writes_wranked; [apply Ywrite_kids|exact Hw2|done].
  - apply Forall_forall. intros c' Hc'. apply Hsib.
    apply elem_of_app. right. by right.
  - intros c' Hc'. apply Hsib. apply elem_of_app. right. by right.
Qed.
End HeightLayout.
(** ** Layout: reach of the size setters, re-layout, alignment *)

(** X12. On a well-formed store [set width] returns and leaves the sprite
    with the width assigned.  It changes nothing but horizontal geometry
    ([_width], [_originX], [_originPixelX], [x]) of any sprite, and nothing
    at all outside the sprite and the sprites below it; assigning the width
    the sprite already has changes nothing.  The same holds for
    [set height] and the vertical geometry. *)
Theorem X12_size_setter_reaches_only_the_subtree :
  ∀ rank fuel (st : Store) id s value,
    well_formed rank st → st !! id = Some s → (rank id < fuel)%nat →
    (∃ st' s',
       set_width fuel id value st = Some st' ∧ well_formed rank st' ∧
       st' !! id = Some s' ∧ _width s' = value ∧
       (∀ j, dropX <$> st' !! j = dropX <$> st !! j) ∧
       (∀ j, j ≠ id → ¬ descends st id j → st' !! j = st !! j) ∧
       (_width s = value → st' = st)) ∧
    (∃ st' s',
       set_height fuel id value st = Some st' ∧ well_formed rank st' ∧
       st' !! id = Some s' ∧ _height s' = value ∧
       (∀ j, dropY <$> st' !! j = dropY <$> st !! j) ∧
       (∀ j, j ≠ id → ¬ descends st id j → st' !! j = st !! j) ∧
       (_height s = value → st' = st)).
Proof.
  intros rank fuel st id s value Hwf Hs Hfuel. split.
  - by apply (set_width_reach rank).
  - by apply (set_height_reach rank).
Qed.

(** X13. Assigning a new width to a sprite of a well-formed tree lays out
    every child again, against the new width: a child with both [left] and
    [right] gets the width that is left between the pins, a child with
    [percentWidth] (and not both pins) that fraction of the new width, any
    other child keeps its width; a child aligned LEFT, RIGHT or CENTER is
    then flush left, flush right or centred in the new width, and a child
    without alignment sits at its left pin or stays where it was.  The same
    holds for the height, with [top], [bottom], [percentHeight] and
    [alignY]. *)
Theorem X13_parent_resize_lays_out_children :
  ∀ rank fuel (st : Store) p ps c sc value,
    well_formed rank st → tree_shaped st →
    st !! p = Some ps → c ∈ kids ps → st !! c = Some sc →
    (rank p < fuel)%nat →
    (_width ps ≠ value →
     ∃ st' sc', set_width fuel p value st = Some st' ∧
                st' !! c = Some sc' ∧ laid_outX value sc sc') ∧
    (_height ps ≠ value →
     ∃ st' sc', set_height fuel p value st = Some st' ∧
                st' !! c = Some sc' ∧ laid_outY value sc sc').
Proof.
  intros rank fuel st p ps c sc value Hwf Htree Hp Hc Hsc Hfuel. split.
  - intros Hne. by apply (set_width_relayout rank fuel st p ps).
  - intros Hne. by apply (set_height_relayout rank fuel st p ps).
Qed.

(** X14. [set alignX] ignores TOP, BOTTOM and the value the sprite already
    has.  Any other value is stored; a sprite without parent is not moved,
    and under a parent only [x] is rewritten: LEFT puts the left edge of
    the sprite's box at 0, RIGHT its right edge at the parent's width, and
    CENTER its middle at half the parent's width.  [set alignY] does the
    same with LEFT, RIGHT ignored and TOP, BOTTOM, CENTER against the
    parent's height. *)
Theorem X14_alignment_setters :
  ∀ id value (st : Store) s,
    st !! id = Some s →
    ((value = TOP ∨ value = BOTTOM ∨ _alignX s = Some value →
      set_alignX id value st = Some st) ∧
     (value = LEFT ∨ value = RIGHT ∨ value = CENTER →
      _alignX s ≠ Some value →
      (_parent s = None →
       set_alignX id value st
         = Some (<[id := with_alignX (Some value) s]> st)) ∧
      (∀ p ps, _parent s = Some p → st !! p = Some ps →
         ∃ v, set_alignX id value st
                = Some (<[id := with_x v (with_alignX (Some value) s)]> st) ∧
              (value = LEFT → v - _originPixelX s = 0) ∧
              (value = RIGHT → v - _originPixelX s + _width s = _width ps) ∧
              (value = CENTER →
               v - _originPixelX s + _width s * half = _width ps * half)))) ∧
    ((value = RIGHT ∨ value = LEFT ∨ _alignY s = Some value →
      set_alignY id value st = Some st) ∧
     (value = TOP ∨ value = BOTTOM ∨ value = CENTER →
      _alignY s ≠ Some value →
      (_parent s = None →
       set_alignY id value st
         = Some (<[id := with_alignY (Some value) s]> st)) ∧
      (∀ p ps, _parent s = Some p → st !! p = Some ps →
         ∃ v, set_alignY id value st
                = Some (<[id := with_y v (with_alignY (Some value) s)]> st) ∧
              (value = TOP → v - _originPixelY s = 0) ∧
              (value = BOTTOM →
               v - _originPixelY s + _height s = _height ps) ∧
              (value = CENTER →
               v - _originPixelY s + _height s * half = _height ps * half)))).
Proof.
  intros id value st s Hs. split.
  - by apply set_alignX_result.
  - by apply set_alignY_result.
Qed.

Lemma X12_size_setter_reaches_only_the_subtree_witness :
  ∃ st' s',
    set_width 4 1 (Qc_of_Z 50) family = Some st' ∧
    well_formed family_rank st' ∧
    st' !! 1%nat = Some s' ∧ _width s' = Qc_of_Z 50 ∧
    (∀ j, dropX <$> st' !! j = dropX <$> family !! j) ∧
    (∀ j, j ≠ 1%nat → ¬ descends family 1 j → st' !! j = family !! j) ∧
    (_width (with_children (Some [3%nat]) pinned_child) = Qc_of_Z 50 →
     st' = family).
Proof.
  refine (proj1 (X12_size_setter_reaches_only_the_subtree family_rank 4%nat
                   family 1%nat (with_children (Some [3%nat]) pinned_child)
                   (Qc_of_Z 50) _ _ _)).
  - apply (bool_decide_unpack (well_formed family_rank family)).
    vm_compute. reflexivity.
  - reflexivity.
  - vm_compute. lia.
Defined.

Lemma X13_parent_resize_lays_out_children_witness :
  ∃ st' sc',
    set_width 4 0 (Qc_of_Z 300) family = Some st' ∧
    st' !! 1%nat = Some sc' ∧
    laid_outX (Qc_of_Z 300) (with_children (Some [3%nat]) pinned_child) sc'.
Proof.
  refine (proj1 (X13_parent_resize_lays_out_children family_rank 4%nat
                   family 0%nat
                   (with_children (Some [1%nat; 2%nat]) sized_parent)
                   1%nat (with_children (Some [3%nat]) pinned_child)
                   (Qc_of_Z 300) _ _ _ _ _ _) _).
  - apply (bool_decide_unpack (well_formed family_rank family)).
    vm_compute. reflexivity.
  - apply (bool_decide_unpack (tree_shaped family)). vm_compute. reflexivity.
  - reflexivity.
  - apply (bool_decide_unpack
             (1%nat ∈ kids (with_children (Some [1%nat; 2%nat]) sized_parent))).
    vm_compute. reflexivity.
  - reflexivity.
  - vm_compute. lia.
  - vm_compute. discriminate.
Defined.

Lemma X14_alignment_setters_witness :
  ∃ v, set_alignX 2 CENTER family
         = Some (<[2%nat := with_x v
                              (with_alignX (Some CENTER)
                                 (with_percentHeight (Some half)
                                    (with_alignX (Some RIGHT) plain_child)))]>
                   family) ∧
       (CENTER = LEFT →
        v - _originPixelX (with_percentHeight (Some half)
                             (with_alignX (Some RIGHT) plain_child)) = 0) ∧
       (CENTER = RIGHT →
        v - _originPixelX (with_percentHeight (Some half)
                             (with_alignX (Some RIGHT) plain_child))
          + _width (with_percentHeight (Some half)
                      (with_alignX (Some RIGHT) plain_child))
        = _width (with_children (Some [1%nat; 2%nat]) sized_parent)) ∧
       (CENTER = CENTER →
        v - _originPixelX (with_percentHeight (Some half)
                             (with_alignX (Some RIGHT) plain_child))
          + _width (with_percentHeight (Some half)
                      (with_alignX (Some RIGHT) plain_child)) * half
        = _width (with_children (Some [1%nat; 2%nat]) sized_parent) * half).
Proof.
  refine (proj2 (proj2 (proj1 (X14_alignment_setters 2%nat CENTER family
                                 (with_percentHeight (Some half)
                                    (with_alignX (Some RIGHT) plain_child))
                                 _)) _ _)
            0%nat (with_children (Some [1%nat; 2%nat]) sized_parent) _ _).
  - reflexivity.
  - right. right. reflexivity.
  - discriminate.
  - reflexivity.
  - reflexivity.
Defined.
(** ** The texture setter, continued *)

(** X15. Assigning a texture object to [texture].  The object the sprite
    already shows changes nothing.  Otherwise the texture is stored, and:
    with [autoResize] off nothing else happens; with [autoResize] on and a
    texture that is not ready, one [onReady] subscription is made for the
    sprite and its size is not touched; with [autoResize] on and a ready
    texture the sprite takes the width and height of the texture through
    the size setters, and nothing is subscribed. *)
Theorem X15_texture_object_assignment :
  ∀ create rank fuel sc id s value t,
    well_formed rank (sprites sc) → sprites sc !! id = Some s →
    (rank id < fuel)%nat →
    resolve_texture create value = TexObj t →
    (texref_same (TexObj t) (_texture s) = true →
     set_texture create fuel id value sc = Some sc) ∧
    (texref_same (TexObj t) (_texture s) = false →
     (autoResize s = false →
      set_texture create fuel id value sc
        = Some (with_sprites (<[id := with_texture (TexObj t) s]> (sprites sc))
                  sc)) ∧
     (autoResize s = true → tex_ready t = false →
      set_texture create fuel id value sc
        = Some (mkScene (<[id := with_texture (TexObj t) s]> (sprites sc))
                  (emitted sc) (onReady sc ++ [(tex_id t, id)]))) ∧
     (autoResize s = true → tex_ready t = true →
      ∃ sc' s',
        set_texture create fuel id value sc = Some sc' ∧
        well_formed rank (sprites sc') ∧
        sprites sc' !! id = Some s' ∧
        _texture s' = TexObj t ∧
        _width s' = tex_width t ∧ _height s' = tex_height t ∧
        emitted sc' = emitted sc ∧ onReady sc' = onReady sc)).
Proof.
  intros create rank fuel sc id s value t Hwf Hs Hfuel Hres.
  unfold set_texture, assign_texture. rewrite Hres, Hs. simpl.
  split; [by intros ->|]. intros ->.
  split; [by intros ->|]. split; [by intros -> ->|].
  intros -> ->. simpl.
  set (s1 := with_texture (TexObj t) s).
  set (st1 := <[id := s1]> (sprites sc)).
  assert (well_formed rank st1) as Hwf1 by (by eapply insert_tree_keeping).
  assert (st1 !! id = Some s1) as Hs1 by apply lookup_insert_eq.
  destruct (set_width_reach rank fuel id (tex_width t) st1 s1 Hwf1 Hs1 Hfuel)
    as (st2 & s2 & H2 & Hwf2 & Hs2 & Hw2 & Hd2 & _).
  destruct (set_height_reach rank fuel id (tex_height t) st2 s2 Hwf2 Hs2 Hfuel)
    as (st3 & s3 & H3 & Hwf3 & Hs3 & Hh3 & Hd3 & _).
  exists (with_sprites st3 sc), s3. unfold on_sprites. simpl.
  fold st1. rewrite H2. simpl. rewrite H3. simpl.
  repeat (split; [done|]).
  specialize (Hd2 id). rewrite Hs2, Hs1 in Hd2. apply (inj Some) in Hd2.
  specialize (Hd3 id). rewrite Hs3, Hs2 in Hd3. apply (inj Some) in Hd3.
  split; [|split; [|done]].
  - rewrite (f_equal _texture Hd3 : _texture s3 = _texture s2).
    by rewrite (f_equal _texture Hd2 : _texture s2 = _texture s1).
  - by rewrite (f_equal _width Hd3 : _width s3 = _width s2).
Qed.

Lemma X15_texture_object_assignment_witness :
  (set_texture (λ _, TexNull) 1 0 (ValRef (TexObj pending_icon)) icon_scene
   = Some (mkScene (<[0%nat := with_texture (TexObj pending_icon) icon_sprite]>
                      (sprites icon_scene))
             (emitted icon_scene)
             (onReady icon_scene ++ [(tex_id pending_icon, 0%nat)]))) ∧
  (∃ sc' s',
     set_texture (λ _, TexNull) 1 0 (ValRef (TexObj banner)) icon_scene
       = Some sc' ∧
     well_formed (λ _, 0%nat) (sprites sc') ∧
     sprites sc' !! 0%nat = Some s' ∧
     _texture s' = TexObj banner ∧
     _width s' = tex_width banner ∧ _height s' = tex_height banner ∧
     emitted sc' = emitted icon_scene ∧ onReady sc' = onReady icon_scene).
Proof.
  split.
  - refine (proj1 (proj2 (proj2 (X15_texture_object_assignment (λ _, TexNull)
                                   (λ _, 0%nat) 1%nat icon_scene 0%nat
                                   icon_sprite (ValRef (TexObj pending_icon))
                                   pending_icon _ _ _ _) _)) _ _).
    + apply (bool_decide_unpack
               (well_formed (λ _, 0%nat) (sprites icon_scene))).
      vm_compute. reflexivity.
    + reflexivity.
    + lia.
    + reflexivity.
    + reflexivity.
    + reflexivity.
    + reflexivity.
  - refine (proj2 (proj2 (proj2 (X15_texture_object_assignment (λ _, TexNull)
                                   (λ _, 0%nat) 1%nat icon_scene 0%nat
                                   icon_sprite (ValRef (TexObj banner))
                                   banner _ _ _ _) _)) _ _).
    + apply (bool_decide_unpack
               (well_formed (λ _, 0%nat) (sprites icon_scene))).
      vm_compute. reflexivity.
    + reflexivity.
    + lia.
    + reflexivity.
    + reflexivity.
    + reflexivity.
    + reflexivity.
Defined.
(** ** Stage membership *)

Lemma restaged_refl g (st : Store) : restaged g st st.
Proof. intros j. by left. Qed.

Lemma with_stage_twice g s : with_stage g (with_stage g s) = with_stage g s.
Proof. done. Qed.

Lemma restaged_trans g (st1 st2 st3 : Store) :
  restaged g st1 st2 → restaged g st2 st3 → restaged g st1 st3.
Proof.
  intros H12 H23 j. destruct (H23 j) as [-> | ->]; [apply H12|].
  destruct (H12 j) as [-> | ->]; [by right|]. right.
  destruct (st1 !! j); done.
Qed.

Lemma restaged_kids g (st st' : Store) j :
  restaged g st st' → kids <$> st' !! j = kids <$> st !! j.
Proof. intros H. destruct (H j) as [-> | ->]; [done|]. by destruct (st !! j). Qed.

Lemma restaged_well_formed g rank (st st' : Store) :
  restaged g st st' → well_formed rank st → well_formed rank st'.
Proof.
  intros H Hwf. apply well_formed_intro. intros id s' Hs'.
  assert (∀ j, is_Some (st' !! j) ↔ is_Some (st !! j)) as Hdom.
  { intros j. destruct (H j) as [-> | ->]; [done|]. apply fmap_is_Some. }
  assert (∃ s, st !! id = Some s ∧ kids s' = kids s ∧ _parent s' = _parent s)
    as (s & Hs & Hk & Hp).
  { destruct (H id) as [E | E]; rewrite Hs' in E.
    - by exists s'.
    - destruct (st !! id) as [s|]; [|done]. injection E as ->. by exists s. }
  destruct (well_formed_lookup _ _ _ _ Hwf Hs) as [H1 H2]. split.
  - intros c Hc. rewrite Hk in Hc. destruct (H1 c Hc). split; [|done].
    by apply Hdom.
  - intros p Hp'. rewrite Hp in Hp'. apply Hdom. eauto.
Qed.

Lemma restaged_descends g (st st' : Store) a b :
  restaged g st st' → descends st' a b ↔ descends st a b.
Proof.
  intros H. split; apply descends_mono; intros j.
  - by apply (restaged_kids g).
  - symmetry. by apply (restaged_kids g).
Qed.

Lemma restaged_staged g (st st1 st2 : Store) j :
  restaged g st st1 → restaged g st1 st2 →
  st1 !! j = with_stage g <$> st !! j ∨ st2 !! j = with_stage g <$> st1 !! j →
  st2 !! j = with_stage g <$> st !! j.
Proof.
  intros H1 H2 [E | E].
  - destruct (H2 j) as [-> | ->]; [done|]. rewrite E. by destruct (st !! j).
  - rewrite E. destruct (H1 j) as [-> | ->]; [done|]. by destruct (st !! j).
Qed.

Lemma within_child (st : Store) id s c j :
  st !! id = Some s → c ∈ kids s → within st c j → descends st id j.
Proof.
  intros Hs Hc [-> | Hd].
  - apply tc_once. by exists s.
  - eapply tc_l; [|exact Hd]. by exists s.
Qed.

(** [set stage] on a well-formed store. *)
Lemma set_stage_spec rank g fuel :
  ∀ id sc,
    well_formed rank (sprites sc) → is_Some (sprites sc !! id) →
    (rank id < fuel)%nat →
    ∃ sc' new,
      set_stage fuel id g sc = Some sc' ∧
      emitted sc' = emitted sc ++ (id, stage_event g) :: new ∧
      onReady sc' = onReady sc ∧
      (∀ j e, (j, e) ∈ new →
              e = stage_event g ∧ descends (sprites sc) id j) ∧
      (∀ j, descends (sprites sc) id j → (j, stage_event g) ∈ new) ∧
      restaged g (sprites sc) (sprites sc') ∧
      (∀ j, within (sprites sc) id j →
            sprites sc' !! j = with_stage g <$> sprites sc !! j) ∧
      (∀ j, ¬ within (sprites sc) id j → sprites sc' !! j = sprites sc !! j).
Proof.
  induction fuel as [|fuel IH]; intros id sc Hwf [s Hs] Hfuel; [lia|].
  simpl. rewrite Hs. simpl.
  set (st := sprites sc) in *.
  set (ev := match g with
             | Some _ => ADD_TO_STAGE
             | None => REMOVED_FROM_STAGE
             end).
  assert (ev = stage_event g) as Hev by (by destruct g).
  set (st1 := <[id := with_stage g s]> st).
  set (sc1 := mkScene st1 (emitted sc ++ [(id, ev)]) (onReady sc)).
  assert (restaged g st st1) as Hre1.
  { intros j. unfold st1. destruct (decide (j = id)) as [-> | Hne].
    - right. by rewrite lookup_insert_eq, Hs.
    - left. by rewrite lookup_insert_ne. }
  destruct (well_formed_lookup _ _ _ _ Hwf Hs) as [Hkids _].
  (* the loop over the children *)
  assert (∀ cs scK,
            cs ⊆ kids s → restaged g st (sprites scK) →
            ∃ sc' new,
              forEachScene (λ child, set_stage fuel child g) cs scK = Some sc' ∧
              emitted sc' = emitted scK ++ new ∧
              onReady sc' = onReady scK ∧
              (∀ j e, (j, e) ∈ new →
                      e = stage_event g ∧ ∃ c, c ∈ cs ∧ within st c j) ∧
              (∀ c j, c ∈ cs → within st c j → (j, stage_event g) ∈ new) ∧
              restaged g (sprites scK) (sprites sc') ∧
              (∀ c j, c ∈ cs → within st c j →
                      sprites sc' !! j = with_stage g <$> st !! j) ∧
              (∀ j, (∀ c, c ∈ cs → ¬ within st c j) →
                    sprites sc' !! j = sprites scK !! j)) as Hloop.
  { induction cs as [|c cs IHcs]; intros scK Hsub HreK.
    - exists scK, []. simpl. split; [done|]. split; [by rewrite app_nil_r|].
      split; [done|]. split; [by intros j e ?%elem_of_nil|].
      split; [by intros c j ?%elem_of_nil|].
      split; [apply restaged_refl|].
      split; [by intros c j ?%elem_of_nil|]. done.
    - assert (c ∈ kids s) as Hc by (apply Hsub; left).
      destruct (Hkids c Hc) as [Hex Hrk].
      assert (well_formed rank (sprites scK)) as HwfK
        by (by eapply restaged_well_formed).
      destruct (IH c scK HwfK) as
        (sc2 & new2 & H2 & Hem2 & Hon2 & Hnew2 & Hall2 & Hre2 & Hin2 & Hout2);
        [|lia|].
      { destruct (HreK c) as [-> | ->]; [done|]. by apply fmap_is_Some. }
      assert (restaged g st (sprites sc2)) as Hre02
        by (by eapply restaged_trans).
      destruct (IHcs sc2) as
        (sc3 & new3 & H3 & Hem3 & Hon3 & Hnew3 & Hall3 & Hre3 & Hin3 & Hout3);
        [|done|].
      { intros y Hy. apply Hsub. by right. }
      exists sc3, ((c, stage_event g) :: new2 ++ new3).
      simpl. rewrite H2. simpl. split; [done|].
      split. { rewrite Hem3, Hem2, <- !app_assoc. done. }
      split; [congruence|].
      assert (∀ j, within (sprites scK) c j ↔ within st c j) as Hwithin.
      { intros j. unfold within.
        split; (intros [-> | Hd]; [by left|right]);
          by apply (restaged_descends g st (sprites scK)). }
      split.
      { intros j e [[= -> ->] | [Hj | Hj]%elem_of_app]%elem_of_cons.
        - split; [done|]. exists c. split; [left|by left].
        - destruct (Hnew2 j e Hj) as [-> Hd]. split; [done|].
          exists c. split; [left|]. apply Hwithin. by right.
        - destruct (Hnew3 j e Hj) as [-> (c' & Hc' & Hw)]. split; [done|].
          exists c'. split; [by right|done]. }
      split.
      { intros c' j [-> | Hc']%elem_of_cons Hw.
        - destruct (proj2 (Hwithin j) Hw) as [-> | Hd]; [left|].
          right. apply elem_of_app. left. by apply Hall2.
        - right. apply elem_of_app. right. by eapply Hall3. }
      split; [by eapply restaged_trans|].
      split.
      { intros c' j [-> | Hc']%elem_of_cons Hw.
        - eapply (restaged_staged g st (sprites sc2)); [done|done|]. left.
          eapply (restaged_staged g st (sprites scK)); [done|done|]. right.
          by apply Hin2, Hwithin.
        - by eapply Hin3. }
      intros j Hj. rewrite Hout3, Hout2; [done| |].
      + intros Hw. apply (Hj c); [left|]. by apply Hwithin.
      + intros c' Hc'. apply Hj. by right. }
  assert (st1 !! id = with_stage g <$> st !! id) as Hid
    by (unfold st1; by rewrite lookup_insert_eq, Hs).
  destruct (children s) as [cs|] eqn:Hcs.
  - destruct (Hloop cs sc1) as
      (sc' & new & H & Hem & Hon & Hnew & Hall & Hre & Hin & Hout);
      [unfold kids; by rewrite Hcs|done|].
    assert (kids s = cs) as Hk by (unfold kids; by rewrite Hcs).
    exists sc', new. split; [done|].
    split. { rewrite Hem. simpl. rewrite <- app_assoc, Hev. done. }
    split; [done|].
    split.
    { intros j e Hj. destruct (Hnew j e Hj) as [-> (c & Hc & Hw)].
      split; [done|]. eapply within_child; [exact Hs| |exact Hw].
      by rewrite Hk. }
    split.
    { intros j (s0 & Hs0 & [Hj | (c & Hc & Hd)])%descends_inv;
        assert (s0 = s) as -> by congruence; rewrite Hk in *.
      - apply (Hall j j Hj). by left.
      - apply (Hall c j Hc). by right. }
    split; [by eapply restaged_trans|].
    split.
    { intros j [-> | (s0 & Hs0 & [Hj | (c & Hc & Hd)])%descends_inv].
      - eapply (restaged_staged g st st1); [done|done|]. by left.
      - assert (s0 = s) as -> by congruence. rewrite Hk in *.
        apply (Hin j j Hj). by left.
      - assert (s0 = s) as -> by congruence. rewrite Hk in *.
        apply (Hin c j Hc). by right. }
    intros j Hj. rewrite Hout.
    + simpl. unfold st1. rewrite lookup_insert_ne; [done|].
      intros <-. apply Hj. by left.
    + intros c Hc Hw. apply Hj. right.
      eapply within_child; [exact Hs| |exact Hw]. by rewrite Hk.
  - assert (kids s = []) as Hk by (unfold kids; by rewrite Hcs).
    assert (∀ j, ¬ descends st id j) as Hnone.
    { intros j (s0 & Hs0 & [Hj | (c & Hc & _)])%descends_inv;
        assert (s0 = s) as -> by congruence; rewrite Hk in *;
        by eapply elem_of_nil. }
    exists sc1, []. split; [done|]. simpl.
    split; [by rewrite Hev|]. split; [done|].
    split; [by intros j e ?%elem_of_nil|].
    split; [intros j Hj; by apply Hnone in Hj|].
    split; [done|]. split.
    + intros j [-> | Hj]; [done|by apply Hnone in Hj].
    + intros j Hj. unfold st1. rewrite lookup_insert_ne; [done|].
      intros <-. apply Hj. by left.
Qed.

(** X16. [set stage] on a sprite of a well-formed store returns, and reaches
    the sprite and every sprite below it: each of them gets the stage
    assigned and is otherwise unchanged, every other sprite is untouched.
    The sprite emits first, then the sprites below it, all of them the same
    event: [ADD_TO_STAGE] for a stage and [REMOVED_FROM_STAGE] for [null],
    whether or not the sprite was on a stage before.  Nothing else emits
    and no texture subscription is made. *)
Theorem X16_stage_reaches_the_whole_subtree :
  ∀ rank fuel g id sc,
    well_formed rank (sprites sc) → is_Some (sprites sc !! id) →
    (rank id < fuel)%nat →
    ∃ sc' new,
      set_stage fuel id g sc = Some sc' ∧
      well_formed rank (sprites sc') ∧
      emitted sc' = emitted sc ++ (id, stage_event g) :: new ∧
      (∀ j e, (j, e) ∈ new ↔
              e = stage_event g ∧ descends (sprites sc) id j) ∧
      onReady sc' = onReady sc ∧
      (∀ j, within (sprites sc) id j →
            sprites sc' !! j = with_stage g <$> sprites sc !! j) ∧
      (∀ j, ¬ within (sprites sc) id j → sprites sc' !! j = sprites sc !! j).
Proof.
  intros rank fuel g id sc Hwf Hid Hfuel.
  destruct (set_stage_spec rank g fuel id sc Hwf Hid Hfuel)
    as (sc' & new & H & Hem & Hon & Hnew & Hall & Hre & Hin & Hout).
  exists sc', new. split; [done|].
  split; [by eapply restaged_well_formed|]. split; [done|].
  split; [|done]. intros j e. split; [apply Hnew|].
  intros [-> Hd]. by apply Hall.
Qed.

Lemma X16_stage_reaches_the_whole_subtree_witness :
  ∃ sc' new,
    set_stage 4 1 (Some 9%nat) (mkScene family [] []) = Some sc' ∧
    well_formed family_rank (sprites sc') ∧
    emitted sc' = [] ++ (1%nat, stage_event (Some 9%nat)) :: new ∧
    (∀ j e, (j, e) ∈ new ↔
            e = stage_event (Some 9%nat) ∧ descends family 1 j) ∧
    onReady sc' = [] ∧
    (∀ j, within family 1 j →
          sprites sc' !! j = with_stage (Some 9%nat) <$> family !! j) ∧
    (∀ j, ¬ within family 1 j → sprites sc' !! j = family !! j).
Proof.
  refine (X16_stage_reaches_the_whole_subtree family_rank 4%nat (Some 9%nat)
            1%nat (mkScene family [] []) _ _ _).
  - apply (bool_decide_unpack (well_formed family_rank family)).
    vm_compute. reflexivity.
  - vm_compute. eauto.
  - vm_compute. lia.
Defined.
(** ** Adding and removing children *)

Lemma same_links_refl (st : Store) : same_links st st.
Proof. by intros j. Qed.

Lemma same_links_trans (st1 st2 st3 : Store) :
  same_links st1 st2 → same_links st2 st3 → same_links st1 st3.
Proof. intros H12 H23 j. by rewrite H23. Qed.

Lemma same_links_lookup (st st' : Store) j s' :
  same_links st st' → st' !! j = Some s' →
  ∃ s, st !! j = Some s ∧ kids s' = kids s ∧ _parent s' = _parent s.
Proof.
  intros H Hs'. specialize (H j). rewrite Hs' in H.
  destruct (st !! j) as [s|]; [|done]. injection H as Hk Hp. by exists s.
Qed.

Lemma same_links_is_Some (st st' : Store) j :
  same_links st st' → is_Some (st' !! j) ↔ is_Some (st !! j).
Proof.
  intros H. rewrite <- !fmap_is_Some with (f := links). by rewrite (H j).
Qed.

Lemma same_links_well_formed rank (st st' : Store) :
  same_links st st' → well_formed rank st → well_formed rank st'.
Proof.
  intros H Hwf. apply well_formed_intro. intros id s' Hs'.
  destruct (same_links_lookup _ _ _ _ H Hs') as (s & Hs & Hk & Hp).
  destruct (well_formed_lookup _ _ _ _ Hwf Hs) as [H1 H2]. split.
  - intros c Hc. rewrite Hk in Hc. destruct (H1 c Hc). split; [|done].
    by apply (same_links_is_Some st).
  - intros p Hp'. rewrite Hp in Hp'. apply (same_links_is_Some st); eauto.
Qed.

Lemma same_links_tree_shaped (st st' : Store) :
  same_links st st' → tree_shaped st → tree_shaped st'.
Proof.
  intros H Htree p s' Hs'.
  destruct (same_links_lookup _ _ _ _ H Hs') as (s & Hs & Hk & Hp).
  destruct (map_Forall_lookup_1 _ _ _ _ Htree Hs) as [Hnd Hpar].
  rewrite Hk. split; [done|]. apply Forall_forall. intros c Hc.
  pose proof (proj1 (Forall_forall _ _) Hpar c Hc) as Ec. simpl in Ec.
  pose proof (H c) as Hl.
  destruct (st !! c) as [sc|]; [|done]. injection Ec as Ec.
  destruct (st' !! c) as [sc'|]; [|done]. injection Hl as _ Hl.
  simpl. by rewrite Hl, Ec.
Qed.

Lemma restaged_same_links g (st st' : Store) :
  restaged g st st' → same_links st st'.
Proof.
  intros H j. destruct (H j) as [-> | ->]; [done|]. by destruct (st !! j).
Qed.

Lemma writes_same_links Wr rank n (st st' : Store) :
  (∀ s s', Wr s s' → kids s' = kids s) →
  (∀ s s', Wr s s' → _parent s' = _parent s) →
  writes Wr rank n st st' → same_links st st'.
Proof.
  intros Hk Hp Hw j. eapply writes_proj; [|exact Hw].
  intros s s' H. unfold links. by rewrite (Hk s s' H), (Hp s s' H).
Qed.

(** Replacing a sprite by one whose links are sound keeps the store well
    formed. *)
Lemma well_formed_insert rank (st : Store) id s' :
  well_formed rank st → is_Some (st !! id) →
  (∀ c, c ∈ kids s' → is_Some (st !! c) ∧ (rank c < rank id)%nat) →
  (∀ p, _parent s' = Some p → is_Some (st !! p)) →
  well_formed rank (<[id := s']> st).
Proof.
  intros Hwf Hid Hk Hp. apply well_formed_intro. intros j sj Hj.
  assert (∀ q, is_Some (st !! q) → is_Some (<[id := s']> st !! q)) as Hdom.
  { intros q Hq. destruct (decide (q = id)) as [-> | Hne].
    - by rewrite lookup_insert_eq.
    - by rewrite lookup_insert_ne. }
  destruct (decide (j = id)) as [-> | Hne].
  - rewrite lookup_insert_eq in Hj. injection Hj as <-. split.
    + intros c Hc. destruct (Hk c Hc). split; [by apply Hdom|done].
    + intros p Hp'. apply Hdom. by apply Hp.
  - rewrite lookup_insert_ne in Hj by done.
    destruct (well_formed_lookup _ _ _ _ Hwf Hj) as [H1 H2]. split.
    + intros c Hc. destruct (H1 c Hc). split; [by apply Hdom|done].
    + intros p Hp'. apply Hdom. by apply H2.
Qed.

(** Where [addChild] puts the new child. *)
Lemma addChild_position (position : option Z) target (cs : list nat) :
  ∃ pre post,
    cs = pre ++ post ∧
    match position with
    | Some pos =>
        if bool_decide (-1 < pos ∧ pos < Z.of_nat (length cs))%Z
        then splice_in (Z.to_nat pos) target cs
        else cs ++ [target]
    | None => cs ++ [target]
    end = pre ++ target :: post ∧
    match position with
    | Some pos =>
        if bool_decide (-1 < pos ∧ pos < Z.of_nat (length cs))%Z
        then length pre = Z.to_nat pos
        else post = []
    | None => post = []
    end.
Proof.
  assert (∃ pre post, cs = pre ++ post ∧
            cs ++ [target] = pre ++ target :: post ∧ post = []) as Hpush
    by (exists cs, []; by rewrite app_nil_r).
  destruct position as [pos|]; [|exact Hpush].
  case_bool_decide as E; [|exact Hpush].
  exists (take (Z.to_nat pos) cs), (drop (Z.to_nat pos) cs).
  split; [by rewrite take_drop|]. split; [done|].
  rewrite length_take. lia.
Qed.

Lemma set_parent_attach rank (st : Store) target this t :
  well_formed rank st → st !! target = Some t → _parent t = None →
  is_Some (st !! this) →
  ∃ vx vy,
    set_parent target (Some this) st
      = Some (<[target := with_y vy (with_x vx (with_parent (Some this) t))]>
                st).
Proof.
  intros Hwf Ht Hpar Hthis. unfold set_parent. rewrite Ht. simpl.
  rewrite Hpar. rewrite bool_decide_eq_false_2 by done.
  set (t1 := with_parent (Some this) t).
  set (st1 := <[target := t1]> st).
  assert (well_formed rank st1) as Hwf1.
  { apply well_formed_insert; [done|by rewrite Ht| |].
    - apply (well_formed_lookup _ _ _ _ Hwf Ht).
    - by intros p [= <-]. }
  destruct (_adjustAlignX_total rank target st1 Hwf1) as [st2 H2];
    [by unfold st1; rewrite lookup_insert_eq|].
  destruct (_adjustAlignX_at target st1 st2 t1) as [vx E2];
    [apply lookup_insert_eq|done|].
  assert (well_formed rank st2) as Hwf2.
  { eapply (writes_well_formed Xwrite rank rank);
      [apply Xwrite_kids|apply Xwrite_parent| |exact Hwf1].
    by eapply _adjustAlignX_writes. }
  unfold st1 in E2. rewrite insert_insert_eq in E2.
  destruct (_adjustAlignY_total rank target st2 Hwf2) as [st3 H3];
    [by rewrite E2, lookup_insert_eq|].
  destruct (_adjustAlignY_at target st2 st3 (with_x vx t1)) as [vy E3];
    [by rewrite E2, lookup_insert_eq|done|].
  rewrite E2, insert_insert_eq in E3.
  exists vx, vy. rewrite H2. simpl. rewrite H3. by rewrite E3.
Qed.

(** Below a sprite that does not outrank [this], a store that differs at
    higher ranks has the same descendants. *)
Lemma descends_below rank (st st' : Store) this a b :
  well_formed rank st →
  (∀ j, (rank j < rank this)%nat → kids <$> st' !! j = kids <$> st !! j) →
  (rank a < rank this)%nat →
  descends st' a b ↔ descends st a b.
Proof.
  intros Hwf Hk Ha.
  assert (∀ j c, (rank j < rank this)%nat →
            child_of st' j c ↔ child_of st j c) as Hstep.
  { intros j c Hj. specialize (Hk j Hj). unfold child_of. split.
    - intros (s' & Hs' & Hc). rewrite Hs' in Hk.
      destruct (st !! j) as [s|]; [|done]. injection Hk as Hk.
      exists s. by rewrite <- Hk.
    - intros (s & Hs & Hc). rewrite Hs in Hk.
      destruct (st' !! j) as [s'|]; [|done]. injection Hk as Hk.
      exists s'. by rewrite Hk. }
  assert (∀ j c, child_of st j c → (rank c < rank j)%nat) as Hrk.
  { intros j c (s & Hs & Hc).
    by apply (well_formed_lookup _ _ _ _ Hwf Hs). }
  split.
  - intros H. induction H as [x y H|x y z H _ IH].
    + apply tc_once. by apply Hstep.
    + apply Hstep in H; [|done]. eapply tc_l; [exact H|].
      apply IH. specialize (Hrk _ _ H). lia.
  - intros H. induction H as [x y H|x y z H _ IH].
    + apply tc_once. by apply Hstep.
    + eapply tc_l; [by apply Hstep|].
      apply IH. specialize (Hrk _ _ H). lia.
Qed.

(** X17. [addChild] of a sprite without parent, into a sprite of a
    well-formed tree that does not have it yet.  The call returns.  The
    child is appended to the children, or inserted at [position] when that
    is an index into them; removing it again gives the old children back.
    The child gets the parent reference, and if the parent is on a stage
    the child and everything below it get that stage and emit
    [ADD_TO_STAGE], the child first; otherwise nothing is emitted.  The
    child's width and height are resolved from its pins or percentages
    against the parent.  The tree
    stays well formed and tree shaped, and nothing changes outside the
    parent, the child and the sprites below the child. *)
Theorem X17_addChild_attaches :
  ∀ rank fuel sc this target position p t,
    well_formed rank (sprites sc) → tree_shaped (sprites sc) →
    sprites sc !! this = Some p → sprites sc !! target = Some t →
    _parent t = None → target ∉ kids p →
    (rank target < rank this)%nat → (rank target < fuel)%nat →
    ∃ sc' t' pre post new,
      addChild fuel this target position sc = Returned sc' ∧
      well_formed rank (sprites sc') ∧ tree_shaped (sprites sc') ∧
      kids p = pre ++ post ∧
      match position with
      | Some pos =>
          if bool_decide (-1 < pos ∧ pos < Z.of_nat (length (kids p)))%Z
          then length pre = Z.to_nat pos
          else post = []
      | None => post = []
      end ∧
      sprites sc' !! this
        = Some (with_children (Some (pre ++ target :: post)) p) ∧
      removeArrayItem (pre ++ target :: post) target = kids p ∧
      sprites sc' !! target = Some t' ∧
      _parent t' = Some this ∧ kids t' = kids t ∧
      _stage t' = match _stage p with
                  | Some g => Some g
                  | None => _stage t
                  end ∧
      emitted sc' = emitted sc ++ new ∧
      match _stage p with
      | Some g =>
          ∃ new', new = (target, ADD_TO_STAGE) :: new' ∧
                  ∀ j e, (j, e) ∈ new' ↔
                         e = ADD_TO_STAGE ∧ descends (sprites sc) target j
      | None => new = []
      end ∧
      (∀ l r, _left t = Some l → _right t = Some r →
              _width t' = _width p - l - r) ∧
      (∀ pc, _left t = None ∨ _right t = None → _percentWidth t = Some pc →
             _width t' = _width p * pc) ∧
      (∀ tp b, _top t = Some tp → _bottom t = Some b →
               _height t' = _height p - tp - b) ∧
      (∀ pc, _top t = None ∨ _bottom t = None → _percentHeight t = Some pc →
             _height t' = _height p * pc) ∧
      (∀ j, j ≠ this → ¬ within (sprites sc) target j →
            sprites sc' !! j = sprites sc !! j).
Proof.
  intros rank fuel sc this target position p t Hwf Htree Hp Ht Hpar Hnin
    Hrk Hfuel.
  set (st := sprites sc) in *.
  assert (this ≠ target) as Hne by (intros ->; lia).
  destruct (addChild_position position target (kids p))
    as (pre & post & Hcs & Hcs' & Hpos).
  destruct (well_formed_lookup _ _ _ _ Hwf Hp) as [Hpk Hpp].
  destruct (well_formed_lookup _ _ _ _ Hwf Ht) as [Htk _].
  destruct (map_Forall_lookup_1 _ _ _ _ Htree Hp) as [Hpnd Hppar].
  destruct (map_Forall_lookup_1 _ _ _ _ Htree Ht) as [Htnd Htpar].
  set (p2 := with_children (Some (pre ++ target :: post)) p).
  set (st2 := <[this := p2]> st).
  assert (∀ c, c ∈ pre ++ target :: post ↔ c = target ∨ c ∈ kids p) as Hin'.
  { intros c. rewrite Hcs, !elem_of_app, elem_of_cons. tauto. }
  (* the parent with its new list *)
  assert (well_formed rank st2) as Hwf2.
  { apply well_formed_insert; [done|by rewrite Hp| |done].
    intros c [-> | Hc]%Hin'; [|by apply Hpk]. split; [by rewrite Ht|done]. }
  assert (st2 !! target = Some t) as Ht2
    by (unfold st2; by rewrite lookup_insert_ne).
  (* the parent reference *)
  destruct (set_parent_attach rank st2 target this t Hwf2 Ht2 Hpar)
    as (vx & vy & Hsetp); [by unfold st2; rewrite lookup_insert_eq|].
  set (t3 := with_y vy (with_x vx (with_parent (Some this) t))) in Hsetp.
  set (st3 := <[target := t3]> st2) in Hsetp.
  assert (well_formed rank st3) as Hwf3.
  { apply well_formed_insert; [done|by rewrite Ht2| |].
    - intros c Hc. destruct (Htk c Hc) as [Hex ?]. split; [|done].
      unfold st2. destruct (decide (c = this)) as [-> | ?].
      + by rewrite lookup_insert_eq.
      + by rewrite lookup_insert_ne.
    - intros q [= <-]. by unfold st2; rewrite lookup_insert_eq. }
  assert (st3 !! this = Some p2) as Hp3.
  { unfold st3, st2. rewrite lookup_insert_ne by done.
    apply lookup_insert_eq. }
  assert (st3 !! target = Some t3) as Ht3 by apply lookup_insert_eq.
  assert (∀ j, j ≠ this → j ≠ target → st3 !! j = st !! j) as Hother3.
  { intros j ? ?. unfold st3, st2. by rewrite !lookup_insert_ne. }
  assert (∀ j, (rank j < rank this)%nat →
            kids <$> st3 !! j = kids <$> st !! j) as Hkids3.
  { intros j Hj. destruct (decide (j = target)) as [-> | ?].
    - by rewrite Ht3, Ht.
    - rewrite Hother3; [done| |done]. intros ->. lia. }
  assert (∀ j, within st3 target j ↔ within st target j) as Hwithin3.
  { intros j. unfold within.
    by rewrite (descends_below rank st st3 this target j Hwf Hkids3 Hrk). }
  assert (tree_shaped st3) as Htree3.
  { assert (∀ q sq c, st !! q = Some sq → c ∈ kids sq → c ≠ target) as Hnot.
    { intros q sq c Hq Hc ->.
      destruct (map_Forall_lookup_1 _ _ _ _ Htree Hq) as [_ Hqpar].
      pose proof (proj1 (Forall_forall _ _) Hqpar target Hc) as Ec.
      simpl in Ec. rewrite Ht in Ec. simpl in Ec. congruence. }
    assert (∀ c, c ≠ target → _parent <$> st3 !! c = _parent <$> st !! c)
      as Hpar3.
    { intros c Hc. destruct (decide (c = this)) as [-> | ?].
      - by rewrite Hp3, Hp.
      - by rewrite Hother3. }
    intros q sq Hq. destruct (decide (q = target)) as [-> | Hqt].
    { rewrite Ht3 in Hq. injection Hq as <-. split; [done|].
      apply Forall_forall. intros c Hc.
      rewrite Hpar3; [|by apply (Hnot target t)].
      by apply (proj1 (Forall_forall _ _) Htpar c). }
    destruct (decide (q = this)) as [-> | Hqp].
    { rewrite Hp3 in Hq. injection Hq as <-. split.
      - change (NoDup (pre ++ target :: post)).
        rewrite Hcs in Hpnd, Hnin.
        apply NoDup_app in Hpnd as (Hpre & Hdisj & Hpost).
        apply not_elem_of_app in Hnin as [Hn1 Hn2].
        apply NoDup_app. split; [done|]. split.
        + intros c Hc [-> | Hc']%elem_of_cons; [done|]. by eapply Hdisj.
        + by apply NoDup_cons.
      - apply Forall_forall. intros c [-> | Hc]%Hin'.
        + by rewrite Ht3.
        + rewrite Hpar3; [|by apply (Hnot this p)].
          by apply (proj1 (Forall_forall _ _) Hppar c). }
    rewrite Hother3 in Hq by done.
    destruct (map_Forall_lookup_1 _ _ _ _ Htree Hq) as [Hqnd Hqpar].
    split; [done|]. apply Forall_forall. intros c Hc.
    rewrite Hpar3; [|by apply (Hnot q sq)].
    by apply (proj1 (Forall_forall _ _) Hqpar c). }
  (* the stage *)
  set (sc3 := with_sprites st3 (with_sprites st2 sc)).
  assert (∃ sc4 t4 new,
            match _stage p with
            | Some g => set_stage fuel target (Some g) sc3
            | None => Some sc3
            end = Some sc4 ∧
            well_formed rank (sprites sc4) ∧ same_links st3 (sprites sc4) ∧
            sprites sc4 !! this = Some p2 ∧
            sprites sc4 !! target = Some t4 ∧
            t4 = match _stage p with
                 | Some g => with_stage (Some g) t3
                 | None => t3
                 end ∧
            emitted sc4 = emitted sc ++ new ∧ onReady sc4 = onReady sc ∧
            match _stage p with
            | Some g =>
                ∃ new', new = (target, ADD_TO_STAGE) :: new' ∧
                        ∀ j e, (j, e) ∈ new' ↔
                               e = ADD_TO_STAGE ∧ descends st target j
            | None => new = []
            end ∧
            (∀ j, ¬ within st target j → sprites sc4 !! j = st3 !! j))
    as (sc4 & t4 & new & Hstage & Hwf4 & Hl4 & Hp4 & Ht4 & Et4 & Hem4 & Hon4
        & Hnew & Hout4).
  { destruct (_stage p) as [g|].
    - destruct (set_stage_spec rank (Some g) fuel target sc3)
        as (sc4 & new' & H & Hem & Hon & Hnew & Hall & Hre & Hin & Hout);
        [done|by exists t3|done|].
      exists sc4, (with_stage (Some g) t3), ((target, ADD_TO_STAGE) :: new').
      split; [done|]. split; [by eapply restaged_well_formed|].
      split; [by eapply restaged_same_links|]. split.
      { rewrite Hout; [done|]. intros Hw.
        destruct (proj1 (Hwithin3 this) Hw) as [-> | Hd]; [done|].
        pose proof (descends_rank rank st target this Hwf Hd). lia. }
      split.
      { rewrite Hin; [|by left]. change (sprites sc3) with st3.
        by rewrite Ht3. }
      split; [done|]. split; [done|]. split; [done|]. split.
      { exists new'. split; [done|]. intros j e. split.
        - intros Hj. destruct (Hnew j e Hj) as [-> Hd]. split; [done|].
          by apply (descends_below rank st st3 this target j Hwf Hkids3 Hrk).
        - intros [-> Hd]. apply Hall.
          by apply (descends_below rank st st3 this target j Hwf Hkids3 Hrk). }
      intros j Hj. apply Hout. intros Hw. apply Hj.
      exact (proj1 (Hwithin3 j) Hw).
    - exists sc3, t3, []. split; [done|]. split; [done|].
      split; [apply same_links_refl|]. split; [done|]. split; [done|].
      split; [done|]. split; [by rewrite app_nil_r|]. done. }
  set (st4 := sprites sc4) in *.
  assert (_parent t4 = Some this ∧ kids t4 = kids t ∧
          _left t4 = _left t ∧ _right t4 = _right t ∧
          _percentWidth t4 = _percentWidth t ∧
          _top t4 = _top t ∧ _bottom t4 = _bottom t ∧
          _percentHeight t4 = _percentHeight t ∧
          _stage t4 = match _stage p with
                      | Some g => Some g
                      | None => _stage t
                      end) as (E1 & E2 & E3 & E4 & E5 & E6 & E7 & E8 & E9)
    by (rewrite Et4; by destruct (_stage p)).
  (* the size *)
  destruct (_resizeWidth_result rank fuel target st4 t4 this p2)
    as (st5 & t5 & H5 & Ht5 & Hd5 & Hwf5 & Hw5 & Hpin5 & Hpct5 & _);
    [done..|].
  assert (st5 !! this = Some p2) as Hp5
    by (rewrite (writes_frame _ _ _ _ _ this Hw5) by lia; done).
  assert (_parent t5 = Some this) as E1'
    by (rewrite <- E1; apply (f_equal _parent Hd5)).
  destruct (_resizeHeight_result rank fuel target st5 t5 this p2)
    as (st6 & t6 & H6 & Ht6 & Hd6 & Hwf6 & Hw6 & Hpin6 & Hpct6 & _);
    [done..|].
  assert (same_links st3 st6) as Hl6.
  { eapply same_links_trans; [exact Hl4|].
    eapply same_links_trans;
      [eapply writes_same_links;
         [apply Xwrite_kids|apply Xwrite_parent|exact Hw5]|].
    eapply writes_same_links;
      [apply Ywrite_kids|apply Ywrite_parent|exact Hw6]. }
  exists (with_sprites st6 (with_sprites st5 sc4)), t6, pre, post, new.
  split.
  { unfold addChild. fold st. rewrite Ht, Hpar, Hp.
    change (default [] (children p)) with (kids p).
    rewrite bool_decide_eq_false_2 by done. rewrite Hcs'.
    fold p2. fold st2.
    unfold on_sprites at 3. simpl. rewrite Hsetp. simpl.
    fold sc3. change (sprites sc3) with st3. rewrite Hp3. simpl.
    change (_stage p2) with (_stage p). rewrite Hstage. simpl.
    unfold on_sprites. fold st4. rewrite H5. simpl. rewrite H6. done. }
  simpl. split; [done|].
  split; [by eapply same_links_tree_shaped|]. split; [done|].
  split; [done|]. split.
  { rewrite (writes_frame _ _ _ _ _ this Hw6) by lia. done. }
  split.
  { rewrite Hcs in Hnin. apply not_elem_of_app in Hnin as [Hn1 Hn2].
    rewrite removeArrayItem_first by done. by rewrite Hcs. }
  split; [done|].
  pose proof (f_equal _parent Hd6) as P6. pose proof (f_equal kids Hd6) as K6.
  pose proof (f_equal _stage Hd6) as S6. pose proof (f_equal _width Hd6) as W6.
  pose proof (f_equal kids Hd5) as K5. pose proof (f_equal _stage Hd5) as S5.
  pose proof (f_equal _top Hd5) as T5. pose proof (f_equal _bottom Hd5) as B5.
  pose proof (f_equal _percentHeight Hd5) as PH5.
  simpl in P6, S6, W6, S5, T5, B5, PH5.
  change (kids t6 = kids t5) in K6. change (kids t5 = kids t4) in K5.
  split; [congruence|]. split; [congruence|]. split; [congruence|].
  split; [by rewrite Hem4|]. split; [done|].
  split.
  { intros l r Hl Hr. rewrite W6. apply (Hpin5 l r); congruence. }
  split.
  { intros pc Hno Hpc. rewrite W6. apply (Hpct5 pc); [|congruence].
    rewrite E3, E4. done. }
  split.
  { intros tp b Htp Hb. apply (Hpin6 tp b); congruence. }
  split.
  { intros pc Hno Hpc. apply (Hpct6 pc); [|congruence].
    rewrite T5, B5, E6, E7. done. }
  intros j Hj Hnw.
  assert (j ≠ target) as Hjt by (intros ->; apply Hnw; by left).
  assert (¬ descends st4 target j) as Hnd4.
  { intros Hd. apply Hnw. right.
    apply (descends_below rank st st3 this target j Hwf Hkids3 Hrk).
    eapply descends_mono; [|exact Hd]. intros q.
    pose proof (Hl4 q) as Hq.
    apply (f_equal (fmap fst)) in Hq. rewrite <- !option_fmap_compose in Hq.
    exact Hq. }
  assert (¬ descends st5 target j) as Hnd5.
  { intros Hd. apply Hnd4. eapply descends_mono; [|exact Hd]. intros q.
    eapply writes_proj; [apply Xwrite_kids|exact Hw5]. }
  rewrite (writes_subtree Ywrite rank st5 st6 target j Hwf5);
    [|by rewrite Ht5| |done|done].
  2:{ intros rank' Hr'. by eapply _resizeHeight_writes. }
  rewrite (writes_subtree Xwrite rank st4 st5 target j Hwf4);
    [|by rewrite Ht4| |done|done].
  2:{ intros rank' Hr'. by eapply _resizeWidth_writes. }
  rewrite Hout4 by done. by apply Hother3.
Qed.

Lemma removeChild_child fuel this target sc p :
  sprites sc !! this = Some p → target ∈ kids p →
  removeChild fuel this target sc =
    sc2 ← on_sprites (set_parent target None)
            (with_sprites
               (<[this := with_children
                            (Some (removeArrayItem (kids p) target)) p]>
                  (sprites sc)) sc);
    set_stage fuel target None sc2.
Proof.
  intros Hp Hin. unfold removeChild. rewrite Hp. cbn [mbind option_bind].
  unfold kids in *. destruct (children p) as [[|c cs]|]; cbn [default] in *;
    [by apply elem_of_nil in Hin| |by apply elem_of_nil in Hin].
  by rewrite bool_decide_eq_true_2.
Qed.

(** [removeChild] of a child. *)
Lemma removeChild_spec rank fuel sc this target p t :
  sprites sc !! this = Some p →
  well_formed rank (sprites sc) → tree_shaped (sprites sc) →
  target ∈ kids p → sprites sc !! target = Some t →
  (rank target < fuel)%nat →
  ∃ sc' new,
    removeChild fuel this target sc = Some sc' ∧
    well_formed rank (sprites sc') ∧ tree_shaped (sprites sc') ∧
    sprites sc' !! this
      = Some (with_children (Some (removeArrayItem (kids p) target)) p) ∧
    (target ∉ removeArrayItem (kids p) target) ∧
    sprites sc' !! target = Some (with_stage None (with_parent None t)) ∧
    emitted sc' = emitted sc ++ (target, REMOVED_FROM_STAGE) :: new ∧
    onReady sc' = onReady sc ∧
    (∀ j e, (j, e) ∈ new ↔
            e = REMOVED_FROM_STAGE ∧ descends (sprites sc) target j) ∧
    (∀ j, descends (sprites sc) target j →
          sprites sc' !! j = with_stage None <$> sprites sc !! j) ∧
    (∀ j, j ≠ this → ¬ within (sprites sc) target j →
          sprites sc' !! j = sprites sc !! j) ∧
    (∀ j, j ≠ this → kids <$> sprites sc' !! j = kids <$> sprites sc !! j).
Proof.
  intros Hp Hwf Htree Hin Ht Hfuel.
  set (st := sprites sc) in *.
  destruct (well_formed_lookup _ _ _ _ Hwf Hp) as [Hpk Hpp].
  destruct (well_formed_lookup _ _ _ _ Hwf Ht) as [Htk _].
  destruct (map_Forall_lookup_1 _ _ _ _ Htree Hp) as [Hpnd Hppar].
  destruct (map_Forall_lookup_1 _ _ _ _ Htree Ht) as [Htnd Htpar].
  assert (rank target < rank this)%nat as Hrk by (by apply Hpk).
  assert (this ≠ target) as Hne by (intros ->; lia).
  assert (_parent t = Some this) as Hpar.
  { pose proof (proj1 (Forall_forall _ _) Hppar target Hin) as Ec.
    simpl in Ec. rewrite Ht in Ec. by injection Ec. }
  set (cs' := removeArrayItem (kids p) target).
  assert (target ∉ cs') as Hgone
    by (unfold cs'; by apply removeArrayItem_NoDup).
  set (p2 := with_children (Some cs') p).
  set (st2 := <[this := p2]> st).
  set (t3 := with_parent None t).
  set (st3 := <[target := t3]> st2).
  assert (well_formed rank st2) as Hwf2.
  { apply well_formed_insert; [done|by rewrite Hp| |done].
    intros c Hc. apply Hpk. change (c ∈ cs') in Hc.
    by eapply removeArrayItem_subseteq. }
  assert (st2 !! target = Some t) as Ht2
    by (unfold st2; by rewrite lookup_insert_ne).
  assert (well_formed rank st3) as Hwf3.
  { apply well_formed_insert; [done|by rewrite Ht2| |done].
    intros c Hc. destruct (Htk c Hc) as [Hex ?]. split; [|done].
    unfold st2. destruct (decide (c = this)) as [-> | ?].
    - by rewrite lookup_insert_eq.
    - by rewrite lookup_insert_ne. }
  assert (st3 !! this = Some p2) as Hp3.
  { unfold st3, st2. rewrite lookup_insert_ne by done.
    apply lookup_insert_eq. }
  assert (st3 !! target = Some t3) as Ht3 by apply lookup_insert_eq.
  assert (∀ j, j ≠ this → j ≠ target → st3 !! j = st !! j) as Hother3.
  { intros j ? ?. unfold st3, st2. by rewrite !lookup_insert_ne. }
  assert (∀ j, (rank j < rank this)%nat →
            kids <$> st3 !! j = kids <$> st !! j) as Hkids3.
  { intros j Hj. destruct (decide (j = target)) as [-> | ?].
    - by rewrite Ht3, Ht.
    - rewrite Hother3; [done| |done]. intros ->. lia. }
  assert (tree_shaped st3) as Htree3.
  { assert (∀ q sq c, q ≠ this → st !! q = Some sq → c ∈ kids sq →
              c ≠ target) as Hnot.
    { intros q sq c Hq Hsq Hc ->.
      destruct (map_Forall_lookup_1 _ _ _ _ Htree Hsq) as [_ Hqpar].
      pose proof (proj1 (Forall_forall _ _) Hqpar target Hc) as Ec.
      simpl in Ec. rewrite Ht in Ec. simpl in Ec. congruence. }
    assert (∀ c, c ≠ target → _parent <$> st3 !! c = _parent <$> st !! c)
      as Hpar3.
    { intros c Hc. destruct (decide (c = this)) as [-> | ?].
      - by rewrite Hp3, Hp.
      - by rewrite Hother3. }
    intros q sq Hq. destruct (decide (q = target)) as [-> | Hqt].
    { rewrite Ht3 in Hq. injection Hq as <-. split; [done|].
      apply Forall_forall. intros c Hc.
      rewrite Hpar3; [|by apply (Hnot target t)].
      by apply (proj1 (Forall_forall _ _) Htpar c). }
    destruct (decide (q = this)) as [-> | Hqp].
    { rewrite Hp3 in Hq. injection Hq as <-. split.
      - by apply removeArrayItem_NoDup_keep.
      - apply Forall_forall. intros c Hc. change (c ∈ cs') in Hc.
        rewrite Hpar3; [|by intros ->].
        apply (proj1 (Forall_forall _ _) Hppar c).
        by eapply removeArrayItem_subseteq. }
    rewrite Hother3 in Hq by done.
    destruct (map_Forall_lookup_1 _ _ _ _ Htree Hq) as [Hqnd Hqpar].
    split; [done|]. apply Forall_forall. intros c Hc.
    rewrite Hpar3; [|by apply (Hnot q sq)].
    by apply (proj1 (Forall_forall _ _) Hqpar c). }
  set (sc3 := with_sprites st3 (with_sprites st2 sc)).
  destruct (set_stage_spec rank None fuel target sc3)
    as (sc4 & new & H & Hem & Hon & Hnew & Hall & Hre & Hinn & Hout);
    [done|by exists t3|done|].
  assert (∀ j, descends st3 target j ↔ descends st target j) as Hdesc
    by (intros j; apply (descends_below rank st st3 this target j Hwf Hkids3 Hrk)).
  exists sc4, new. split.
  { rewrite (removeChild_child fuel this target sc p Hp Hin).
    fold st. fold cs'. fold p2. fold st2.
    unfold on_sprites, set_parent. cbn [sprites with_sprites].
    rewrite Ht2. cbn [mbind option_bind]. rewrite Hpar.
    rewrite bool_decide_eq_false_2 by done. cbn [mbind option_bind].
    exact H. }
  split; [by eapply restaged_well_formed|].
  split. { eapply same_links_tree_shaped; [|exact Htree3].
           by eapply restaged_same_links. }
  split.
  { rewrite Hout; [done|]. intros [-> | Hd]; [done|].
    apply Hdesc in Hd.
    pose proof (descends_rank rank st target this Hwf Hd). lia. }
  split; [done|]. split.
  { rewrite Hinn; [|by left]. change (sprites sc3) with st3. by rewrite Ht3. }
  split; [done|]. split; [done|]. split.
  { intros j e. split.
    - intros Hj. destruct (Hnew j e Hj) as [-> Hd]. split; [done|].
      by apply Hdesc.
    - intros [-> Hd]. apply Hall. by apply Hdesc. }
  split.
  { intros j Hd. rewrite Hinn; [|right; by apply Hdesc].
    change (sprites sc3) with st3.
    pose proof (descends_rank rank st target j Hwf Hd).
    rewrite Hother3; [done| |]; intros ->; lia. }
  split.
  { intros j Hj Hnw. rewrite Hout.
    - apply Hother3; [done|]. intros ->. apply Hnw. by left.
    - intros [-> | Hd]; apply Hnw; [by left|right; by apply Hdesc]. }
  intros j Hj. rewrite (restaged_kids None st3 (sprites sc4) j Hre).
  destruct (decide (j = target)) as [-> | Hjt].
  - by rewrite Ht3, Ht.
  - by rewrite Hother3.
Qed.


(** X18. [removeChild].  A sprite that is not among the children changes
    nothing.  A child of a well-formed tree is taken out of the children
    (which become the empty array, not [null], when it was the last one),
    loses its parent reference, and the child and everything below it get
    the stage [null] and emit [REMOVED_FROM_STAGE], the child first, whether
    or not they were on a stage.  The tree stays well formed and tree
    shaped, and nothing changes outside the parent, the child and the
    sprites below the child. *)
Theorem X18_removeChild_detaches :
  ∀ rank fuel sc this target p,
    sprites sc !! this = Some p →
    (target ∉ kids p → removeChild fuel this target sc = Some sc) ∧
    (∀ t,
       well_formed rank (sprites sc) → tree_shaped (sprites sc) →
       target ∈ kids p → sprites sc !! target = Some t →
       (rank target < fuel)%nat →
       ∃ sc' new,
         removeChild fuel this target sc = Some sc' ∧
         well_formed rank (sprites sc') ∧ tree_shaped (sprites sc') ∧
         sprites sc' !! this
           = Some (with_children (Some (removeArrayItem (kids p) target)) p) ∧
         (target ∉ removeArrayItem (kids p) target) ∧
         sprites sc' !! target = Some (with_stage None (with_parent None t)) ∧
         emitted sc' = emitted sc ++ (target, REMOVED_FROM_STAGE) :: new ∧
         (∀ j e, (j, e) ∈ new ↔
                 e = REMOVED_FROM_STAGE ∧ descends (sprites sc) target j) ∧
         (∀ j, descends (sprites sc) target j →
               sprites sc' !! j = with_stage None <$> sprites sc !! j) ∧
         (∀ j, j ≠ this → ¬ within (sprites sc) target j →
               sprites sc' !! j = sprites sc !! j)).
Proof.
  intros rank fuel sc this target p Hp. split.
  { intros Hnin. unfold removeChild. rewrite Hp. simpl.
    unfold kids in Hnin. destruct (children p) as [[|c cs]|]; try done.
    simpl in Hnin. by rewrite bool_decide_eq_false_2. }
  intros t Hwf Htree Hin Ht Hfuel.
  destruct (removeChild_spec rank fuel sc this target p t Hp Hwf Htree Hin Ht
              Hfuel)
    as (sc' & new & H & Hwf' & Htree' & Hp' & Hgone & Ht' & Hem & _ & Hnew
        & Hbelow & Hout & _).
  by exists sc', new.
Qed.

Lemma X17_addChild_attaches_witness :
  ∃ sc' t',
    addChild 1 0 1 None loose_scene = Returned sc' ∧
    well_formed root_rank (sprites sc') ∧ tree_shaped (sprites sc') ∧
    sprites sc' !! 1%nat = Some t' ∧ _parent t' = Some 0%nat ∧
    _stage t' = Some 9%nat ∧ _width t' = Qc_of_Z 200 - Qc_of_Z 10 - Qc_of_Z 20.
Proof.
  destruct (X17_addChild_attaches root_rank 1%nat loose_scene 0%nat 1%nat None
              (with_stage (Some 9%nat) (with_width (Qc_of_Z 200) new_Sprite))
              (with_left (Some (Qc_of_Z 10))
                 (with_right (Some (Qc_of_Z 20)) new_Sprite)))
    as (sc' & t' & pre & post & new & H & Hwf & Htree & _ & _ & _ & _ & Ht'
        & Hpar & _ & Hstage & _ & _ & Hpin & _).
  - apply (bool_decide_unpack (well_formed root_rank (sprites loose_scene))).
    vm_compute. reflexivity.
  - apply (bool_decide_unpack (tree_shaped (sprites loose_scene))).
    vm_compute. reflexivity.
  - reflexivity.
  - reflexivity.
  - reflexivity.
  - apply (bool_decide_unpack
             (1%nat ∉ kids (with_stage (Some 9%nat)
                              (with_width (Qc_of_Z 200) new_Sprite)))).
    vm_compute. reflexivity.
  - vm_compute. lia.
  - vm_compute. lia.
  - exists sc', t'. repeat (split; [done|]).
    apply (Hpin (Qc_of_Z 10) (Qc_of_Z 20)); reflexivity.
Defined.

Lemma X18_removeChild_detaches_witness :
  ∃ sc' new,
    removeChild 4 0 1 (mkScene family [] []) = Some sc' ∧
    well_formed family_rank (sprites sc') ∧ tree_shaped (sprites sc') ∧
    sprites sc' !! 0%nat
      = Some (with_children (Some [2%nat])
                (with_children (Some [1%nat; 2%nat]) sized_parent)) ∧
    emitted sc' = [] ++ (1%nat, REMOVED_FROM_STAGE) :: new.
Proof.
  destruct (proj2 (X18_removeChild_detaches family_rank 4%nat
                     (mkScene family [] []) 0%nat 1%nat
                     (with_children (Some [1%nat; 2%nat]) sized_parent)
                     eq_refl)
              (with_children (Some [3%nat]) pinned_child))
    as (sc' & new & H & Hwf & Htree & Hp & _ & _ & Hem & _).
  - apply (bool_decide_unpack (well_formed family_rank family)).
    vm_compute. reflexivity.
  - apply (bool_decide_unpack (tree_shaped family)). vm_compute. reflexivity.
  - apply (bool_decide_unpack
             (1%nat ∈ kids (with_children (Some [1%nat; 2%nat]) sized_parent))).
    vm_compute. reflexivity.
  - reflexivity.
  - vm_compute. lia.
  - exists sc', new. repeat (split; [done|]). done.
Defined.
(** ** The stage *)







(** X21. [adjustStageSize] with a scale mode other than the four of
    [ScaleMode] throws.  Otherwise each call moves the left and right edge
    of the visible rectangle inwards by [deltaWidth] and the top and bottom
    edge by [deltaHeight], on top of what earlier calls did: as the handler
    of [resize] events that report the same window, the [n]-th call leaves
    the rectangle narrowed by [n] times the deltas on each side, while
    scale and canvas style are those of the first call. *)
Theorem X21_visible_rect_accumulates :
  ∀ dw dh s,
    (Stage.stageScaleMode s ≠ Stage.SHOW_ALL →
     Stage.stageScaleMode s ≠ Stage.NO_BORDER →
     Stage.stageScaleMode s ≠ Stage.FIX_WIDTH →
     Stage.stageScaleMode s ≠ Stage.FIX_HEIGHT →
     Stage.adjustStageSize dw dh s
       = Stage.UnknownScaleMode (Stage.stageScaleMode s)) ∧
    (∀ scale w h deltaWidth deltaHeight,
       Stage.fit dw dh s = Some (scale, w, h, deltaWidth, deltaHeight) →
       ∀ n,
         Stage.resized (S n) dw dh s =
           Stage.Adjusted
             (Stage.mkState (Stage.width s) (Stage.height s)
                (Stage.stageScaleMode s)
                (Stage.mkRect
                   (Stage.rect_left (Stage.visibleRect s)
                      + Qc_of_Z (Z.of_nat (S n) * deltaWidth))
                   (Stage.rect_right (Stage.visibleRect s)
                      - Qc_of_Z (Z.of_nat (S n) * deltaWidth))
                   (Stage.rect_top (Stage.visibleRect s)
                      + Qc_of_Z (Z.of_nat (S n) * deltaHeight))
                   (Stage.rect_bottom (Stage.visibleRect s)
                      - Qc_of_Z (Z.of_nat (S n) * deltaHeight)))
                (Some scale)
                (Some (Stage.mkStyle w h ((dh - h) * half) ((dw - w) * half)
                         true)))).
Proof.
  intros dw dh s. split.
  { intros H0 H1 H2 H3. unfold Stage.adjustStageSize, Stage.fit.
    by rewrite !bool_decide_eq_false_2. }
  intros scale w h dW dH Hfit.
  assert (∀ (a : Qc) k d,
            a + Qc_of_Z (Z.of_nat k * d) + Qc_of_Z d
            = a + Qc_of_Z (Z.of_nat (S k) * d)) as Hplus.
  { intros a k d.
    replace (Z.of_nat (S k) * d)%Z with (Z.of_nat k * d + d)%Z by lia.
    rewrite Z2Qc_inj_add. ring. }
  assert (∀ (a : Qc) k d,
            a - Qc_of_Z (Z.of_nat k * d) - Qc_of_Z d
            = a - Qc_of_Z (Z.of_nat (S k) * d)) as Hminus.
  { intros a k d.
    replace (Z.of_nat (S k) * d)%Z with (Z.of_nat k * d + d)%Z by lia.
    rewrite Z2Qc_inj_add. ring. }
  induction n as [|n IH].
  - simpl. unfold Stage.adjustStageSize. rewrite Hfit.
    by rewrite !Z.mul_1_l.
  - change (Stage.resized (S (S n)) dw dh s) with
      (match Stage.resized (S n) dw dh s with
       | Stage.Adjusted s' => Stage.adjustStageSize dw dh s'
       | e => e
       end).
    rewrite IH. unfold Stage.adjustStageSize.
    change (Stage.fit dw dh (Stage.mkState ?a ?b ?c ?d ?e ?f))
      with (Stage.fit dw dh s).
    rewrite Hfit. cbn -[Z.of_nat Z.mul].
    by rewrite !Hplus, !Hminus.
Qed.



Lemma X21_visible_rect_accumulates_witness :
  Stage.resized 2 (Qc_of_Z 1280) (Qc_of_Z 720) design =
    Stage.Adjusted
      (Stage.mkState (Stage.width design) (Stage.height design)
         (Stage.stageScaleMode design)
         (Stage.mkRect
            (Stage.rect_left (Stage.visibleRect design)
               + Qc_of_Z (Z.of_nat 2 * 0))
            (Stage.rect_right (Stage.visibleRect design)
               - Qc_of_Z (Z.of_nat 2 * 0))
            (Stage.rect_top (Stage.visibleRect design)
               + Qc_of_Z (Z.of_nat 2 * 60))
            (Stage.rect_bottom (Stage.visibleRect design)
               - Qc_of_Z (Z.of_nat 2 * 60)))
         (Some (Qc_of_Z 2))
         (Some (Stage.mkStyle (Qc_of_Z 1280) (Qc_of_Z 960)
                  ((Qc_of_Z 720 - Qc_of_Z 960) * half)
                  ((Qc_of_Z 1280 - Qc_of_Z 1280) * half) true))).
Proof.
  apply (proj2 (X21_visible_rect_accumulates (Qc_of_Z 1280) (Qc_of_Z 720)
                  design)
           (Qc_of_Z 2) (Qc_of_Z 1280) (Qc_of_Z 960) 0%Z 60%Z).
  unfold Stage.fit, design. simpl.
  apply (f_equal Some). repeat f_equal; apply Qc_is_canon; reflexivity.
Defined.
(** ** Stopping by sprite *)

Lemma filter_members (P Q : nat → Prop) `{!∀ x, Decision (P x)}
    `{!∀ x, Decision (Q x)} (l : list nat) :
  (∀ x, x ∈ l → P x ↔ Q x) → filter P l = filter Q l.
Proof.
  induction l as [|h l IH]; intros Hall; [done|].
  assert (filter P l = filter Q l) as E
    by (apply IH; intros x Hx; apply Hall; by right).
  destruct (decide (P h)) as [HP | HP].
  - rewrite !filter_cons_True; [by rewrite E| |done].
    apply Hall; [left|done].
  - rewrite !filter_cons_False; [done| |done]. intros HQ. apply HP.
    apply Hall; [left|done].
Qed.

Lemma filter_all (P : nat → Prop) `{!∀ x, Decision (P x)} (l : list nat) :
  (∀ x, x ∈ l → P x) → filter P l = l.
Proof.
  induction l as [|h l IH]; intros Hall; [done|].
  rewrite filter_cons_True by (apply Hall; left).
  rewrite IH; [done|]. intros x Hx. apply Hall. by right.
Qed.

Lemma removeArrayItem_filter l (a : nat) :
  NoDup l → removeArrayItem l a = filter (λ x, x ≠ a) l.
Proof.
  induction 1 as [|h l Hh Hnd IH]; simpl; [done|].
  case_bool_decide as E.
  - subst h. rewrite filter_cons_False by (intros ?; done).
    symmetry. apply filter_all. by intros x Hx ->.
  - rewrite filter_cons_True by done. by rewrite IH.
Qed.

Lemma stop_each_spec sp :
  ∀ l w,
    NoDup l → NoDup (_actionList w) →
    Forall (λ a, is_Some (actions w !! a)) l →
    ∃ w',
      Action.stop_each l sp w = Some w' ∧
      _actionList w'
        = filter (λ a, ¬ (a ∈ l ∧ acts_on sp w a)) (_actionList w) ∧
      (∀ a, a ∈ l → acts_on sp w a →
            actions w' !! a = Some (mkAction [] true false (Some sp))) ∧
      (∀ a, ¬ (a ∈ l ∧ acts_on sp w a) → actions w' !! a = actions w !! a) ∧
      fired w' = fired w ∧ scene w' = scene w ∧
      listeners w' = listeners w ∧ _listenerList w' = _listenerList w.
Proof.
  induction l as [|a l IH]; intros w Hnd Hndl Hex.
  - exists w. simpl. split; [done|]. split.
    { symmetry. apply filter_all.
      intros x _ [Hx _]. by apply elem_of_nil in Hx. }
    split; [by intros a ?%elem_of_nil|]. done.
  - apply NoDup_cons in Hnd as [Ha Hnd].
    apply Forall_cons in Hex as [[this Hthis] Hex].
    simpl. rewrite Hthis. simpl.
    set (w1 := if bool_decide (sprite this = Some sp)
               then with_actionList (removeArrayItem (_actionList w) a)
                      (with_actions
                         (<[a := mkAction [] true false (sprite this)]>
                            (actions w)) w)
               else w).
    assert ((if bool_decide (sprite this = Some sp) then Action.stop a w
             else Some w) = Some w1) as ->.
    { unfold w1, Action.stop. rewrite Hthis. simpl.
      by destruct (bool_decide (sprite this = Some sp)). }
    simpl.
    assert (acts_on sp w a ↔ sprite this = Some sp) as Hacts.
    { unfold acts_on. rewrite Hthis. simpl. split; congruence. }
    assert (∀ x, x ≠ a → actions w1 !! x = actions w !! x) as Hother.
    { intros x Hx. unfold w1. case_bool_decide; [|done]. simpl.
      by rewrite lookup_insert_ne. }
    assert (∀ x, x ≠ a → acts_on sp w1 x ↔ acts_on sp w x) as Hacts1.
    { intros x Hx. unfold acts_on. by rewrite Hother. }
    destruct (IH w1) as (w' & H & Hlist & Hin & Hout & E1 & E2 & E3 & E4).
    { done. }
    { unfold w1. case_bool_decide; [|done]. simpl.
      by apply removeArrayItem_NoDup_keep. }
    { apply Forall_forall. intros x Hx.
      pose proof (proj1 (Forall_forall _ _) Hex x Hx) as Hsome.
      simpl in Hsome. rewrite Hother; [done|]. by intros ->. }
    exists w'. split; [done|]. split.
    { rewrite Hlist. unfold w1. case_bool_decide as E; simpl.
      - rewrite (removeArrayItem_filter _ a Hndl).
        rewrite list_filter_filter. apply list_filter_iff. intros x.
        split.
        + intros [Hx Hxa] [[-> | Hxl]%elem_of_cons Hs]; [done|].
          apply Hx. split; [done|]. by apply Hacts1.
        + intros Hx. split.
          * intros [Hxl Hs]. apply Hx. split; [by right|].
            apply Hacts1; [|done]. by intros ->.
          * intros ->. apply Hx. split; [left|by apply Hacts].
      - apply list_filter_iff. intros x. split.
        + intros Hx [[-> | Hxl]%elem_of_cons Hs]; [by apply E, Hacts|].
          apply Hx. done.
        + intros Hx [Hxl Hs]. apply Hx. split; [by right|done]. }
    split.
    { intros x [-> | Hxl]%elem_of_cons Hs.
      - rewrite Hout by (intros [? _]; done).
        unfold w1. apply Hacts in Hs. rewrite bool_decide_eq_true_2 by done.
        simpl. rewrite lookup_insert_eq. by rewrite Hs.
      - apply Hin; [done|]. apply Hacts1; [|done]. by intros ->. }
    split.
    { intros x Hx. destruct (decide (x = a)) as [-> | Hxa].
      - rewrite Hout by (intros [? _]; done).
        unfold w1. case_bool_decide as E; [|done].
        exfalso. apply Hx. split; [left|by apply Hacts].
      - rewrite Hout, Hother; [done|done|].
        intros [Hxl Hs]. apply Hx. split; [by right|by apply Hacts1]. }
    unfold w1 in *. case_bool_decide; simpl in *; done.
Qed.

(** X22. [Action.stop(sprite)] stops the actions of the active list that
    belong to the sprite, and only those: each of them is marked done and
    not running with an empty queue, and leaves the list; the other entries
    keep their order.  Actions of other sprites, and actions of the sprite
    that are not in the active list, are not touched; no callback is invoked
    and the scene and the listeners are unchanged. *)
Theorem X22_stop_by_sprite :
  ∀ sp w,
    NoDup (_actionList w) →
    Forall (λ a, is_Some (actions w !! a)) (_actionList w) →
    ∃ w',
      Action.stop_sprite sp w = Some w' ∧
      _actionList w' = filter (λ a, ¬ acts_on sp w a) (_actionList w) ∧
      (∀ a, a ∈ _actionList w → acts_on sp w a →
            actions w' !! a = Some (mkAction [] true false (Some sp))) ∧
      (∀ a, a ∉ _actionList w ∨ ¬ acts_on sp w a →
            actions w' !! a = actions w !! a) ∧
      fired w' = fired w ∧ scene w' = scene w ∧
      listeners w' = listeners w ∧ _listenerList w' = _listenerList w.
Proof.
  intros sp w Hnd Hex.
  destruct (stop_each_spec sp (_actionList w) w Hnd Hnd Hex)
    as (w' & H & Hlist & Hin & Hout & Hrest).
  exists w'. split; [done|]. split.
  { rewrite Hlist. apply filter_members. intros x Hx. split.
    - intros Hn Hs. by apply Hn.
    - intros Hn [_ Hs]. by apply Hn. }
  split; [done|]. split; [|done].
  intros a Ha. apply Hout. intros [Hl Hs]. by destruct Ha.
Qed.

Lemma X22_stop_by_sprite_witness :
  ∃ w',
    Action.stop_sprite 5 busy_world = Some w' ∧
    _actionList w'
      = filter (λ a, ¬ acts_on 5 busy_world a) (_actionList busy_world) ∧
    actions w' !! 3%nat = actions busy_world !! 3%nat.
Proof.
  destruct (X22_stop_by_sprite 5%nat busy_world)
    as (w' & H & Hlist & _ & Hout & _).
  - apply (bool_decide_unpack (NoDup (_actionList busy_world))).
    vm_compute. reflexivity.
  - apply (bool_decide_unpack
             (Forall (λ a, is_Some (actions busy_world !! a))
                (_actionList busy_world))).
    vm_compute. reflexivity.
  - exists w'. split; [done|]. split; [done|]. apply Hout. left.
    apply (bool_decide_unpack (3%nat ∉ _actionList busy_world)).
    vm_compute. reflexivity.
Defined.
(** ** Transitions under way *)

Section Interpolation.
Variables (fuel id : nat).

Lemma interpolate_values percent l :
∀ (sts dls : gmap string Qc) (st : Store) s,
  Forall (λ attr, plain_prop (name attr) = true) l →
  NoDup (map name l) → st !! id = Some s → captured l sts dls →
  ∃ sts' dls' s',
    Transition.interpolate fuel percent l (Some id) sts dls st
      = Some (sts', dls', <[id := s']> st) ∧
    (∀ attr, attr ∈ l →
       ∃ start,
         start_value sts s (name attr) = Some start ∧
         sts' !! name attr = Some start ∧
         dls' !! name attr = Some (dest attr - start) ∧
         get_prop (name attr) s'
           = Some (start + easing attr percent * (dest attr - start))) ∧
    (∀ n, plain_prop n = true → n ∉ map name l →
          get_prop n s' = get_prop n s) ∧
    (∀ n, n ∉ map name l → sts' !! n = sts !! n ∧ dls' !! n = dls !! n).
Proof.
induction l as [|attr l IH]; intros sts dls st s Hpl Hnd Hs Hcap.
- exists sts, dls, s. simpl. rewrite insert_id by done.
  split; [done|]. split; [by intros attr ?%elem_of_nil|]. done.
- apply Forall_cons in Hpl as [Hp Hpl]. simpl in Hnd.
  apply NoDup_cons in Hnd as [Hfresh Hnd].
  destruct (get_prop_plain (name attr) s Hp) as [cur Hcur].
  assert (∃ start sts1 dls1,
            match sts !! name attr with
            | Some start => Some (start, sts, dls)
            | None =>
                s0 ← st !! id;
                start ← get_prop (name attr) s0;
                Some (start, <[name attr := start]> sts,
                      <[name attr := dest attr - start]> dls)
            end = Some (start, sts1, dls1) ∧
            start_value sts s (name attr) = Some start ∧
            sts1 !! name attr = Some start ∧
            dls1 !! name attr = Some (dest attr - start) ∧
            (∀ n, n ≠ name attr →
                  sts1 !! n = sts !! n ∧ dls1 !! n = dls !! n))
    as (start & sts1 & dls1 & Hcapture & Hstart & Hs1 & Hd1 & Hrest1).
  { unfold start_value. destruct (sts !! name attr) as [start|] eqn:Hst.
    - exists start, sts, dls. split; [done|]. split; [done|].
      split; [done|]. split; [|done]. apply Hcap; [left|done].
    - rewrite Hs. simpl. rewrite Hcur. simpl.
      eexists _, _, _. split; [reflexivity|]. split; [done|].
      rewrite !lookup_insert_eq. split; [done|]. split; [done|].
      intros n Hn. by rewrite !lookup_insert_ne. }
  simpl. rewrite Hcapture. simpl. rewrite Hd1. simpl.
  destruct (set_prop_plain fuel (name attr)
              (start + easing attr percent * (dest attr - start)) id st s
              Hp Hs) as (s1 & -> & Hget1 & Hkeep1).
  simpl.
  destruct (IH sts1 dls1 (<[id := s1]> st) s1 Hpl Hnd
              (lookup_insert_eq _ _ _))
    as (sts' & dls' & s' & -> & Hall & Hkeep & Hrest).
  { intros a start' Ha Hst'.
    assert (name a ≠ name attr) as Hne.
    { intros E. apply Hfresh. rewrite <- E.
      apply list_elem_of_fmap. by exists a. }
    destruct (Hrest1 (name a) Hne) as [E1 E2]. rewrite E2.
    apply Hcap; [by right|]. by rewrite <- E1. }
  exists sts', dls', s'. rewrite insert_insert_eq. split; [done|].
  split.
  { intros a [-> | Ha]%elem_of_cons.
    - exists start. split; [done|].
      destruct (Hrest (name attr) Hfresh) as [-> ->].
      split; [done|]. split; [done|].
      by rewrite (Hkeep (name attr) Hp Hfresh).
    - assert (name a ≠ name attr) as Hne.
      { intros E. apply Hfresh. rewrite <- E.
        apply list_elem_of_fmap. by exists a. }
      destruct (Hall a Ha) as (start' & Hsv & H1 & H2 & H3).
      exists start'. split; [|done].
      unfold start_value in *.
      destruct (Hrest1 (name a) Hne) as [E1 _]. rewrite <- E1.
      destruct (sts1 !! name a); [done|].
      rewrite <- Hsv. symmetry. apply Hkeep1; [|done].
      by apply (proj1 (Forall_forall _ _) Hpl a). }
  split.
  { intros n Hn Hnot. simpl in Hnot.
    apply not_elem_of_cons in Hnot as [Hne Hnot].
    rewrite (Hkeep n Hn Hnot). by apply Hkeep1. }
  intros n Hnot. simpl in Hnot.
  apply not_elem_of_cons in Hnot as [Hne Hnot].
  destruct (Hrest n Hnot) as [-> ->]. by apply Hrest1.
Qed.
End Interpolation.

(** X23. A step of a transition over distinct plain attributes ([x], [y],
    [scaleX], [scaleY], [opacity]) that does not reach the duration: every
    attribute is set to [start + easing(elapsed / duration) * (dest - start)],
    where [start] is the value captured at an earlier step of this
    transition or, at its first step, the value the sprite has then; the
    start is captured, so later steps interpolate from the same value
    whatever the sprite holds by then.  The other plain attributes of the
    sprite are untouched, the transition is not done, and no other sprite
    changes. *)
Theorem X23_transition_interpolates_from_captured_start :
  ∀ fuel id dt t (st : Store) s,
    Forall (λ attr, plain_prop (name attr) = true) (attrs t) →
    NoDup (map name (attrs t)) →
    captured (attrs t) (starts t) (deltas t) →
    st !! id = Some s →
    tr_elapsed t + dt < tr_duration t →
    ∃ t' s',
      Transition.step fuel dt t (Some id) st = Some (t', <[id := s']> st) ∧
      tr_elapsed t' = tr_elapsed t + dt ∧ tr_done t' = tr_done t ∧
      attrs t' = attrs t ∧ tr_duration t' = tr_duration t ∧
      captured (attrs t') (starts t') (deltas t') ∧
      (∀ attr, attr ∈ attrs t →
         ∃ start,
           start_value (starts t) s (name attr) = Some start ∧
           starts t' !! name attr = Some start ∧
           get_prop (name attr) s'
             = Some (start
                     + easing attr ((tr_elapsed t + dt) / tr_duration t)
                       * (dest attr - start))) ∧
      (∀ n, plain_prop n = true → n ∉ map name (attrs t) →
            get_prop n s' = get_prop n s).
Proof.
  intros fuel id dt t st s Hpl Hnd Hcap Hs Hlt.
  unfold Transition.step, num_geb.
  rewrite bool_decide_eq_false_2 by (by apply Qclt_not_le).
  destruct (interpolate_values fuel id ((tr_elapsed t + dt) / tr_duration t)
              (attrs t) (starts t) (deltas t) st s Hpl Hnd Hs Hcap)
    as (sts' & dls' & s' & -> & Hall & Hkeep & Hrest).
  simpl. eexists _, s'. split; [reflexivity|]. simpl.
  repeat (split; [done|]). split.
  { intros attr start Ha Hst.
    destruct (Hall attr Ha) as (start' & _ & H1 & H2 & _).
    rewrite H1 in Hst. by injection Hst as <-. }
  split; [|done]. intros attr Ha.
  destruct (Hall attr Ha) as (start & Hsv & H1 & _ & H3). by exists start.
Qed.

Lemma X23_transition_interpolates_from_captured_start_witness :
  ∃ t' s',
    Transition.step 0 half slide (Some 0%nat) slider
      = Some (t', <[0%nat := s']> slider) ∧
    get_prop "x" s'
      = Some (Qc_of_Z 10 + (0 + half) / Qc_of_Z 2
                           * (Qc_of_Z 110 - Qc_of_Z 10)).
Proof.
  destruct (X23_transition_interpolates_from_captured_start 0%nat 0%nat half
              slide slider (with_x (Qc_of_Z 10) new_Sprite))
    as (t' & s' & H & _ & _ & _ & _ & _ & Hall & _).
  - repeat constructor.
  - apply (bool_decide_unpack (NoDup (map name (attrs slide)))). reflexivity.
  - intros attr start _ Hst. vm_compute in Hst. discriminate Hst.
  - reflexivity.
  - reflexivity.
  - exists t', s'. split; [exact H|].
    destruct (Hall (mkAttr "x" (Qc_of_Z 110) (linear "easeInOutQuad")))
      as (start & Hsv & _ & Hget); [left|].
    vm_compute in Hsv. injection Hsv as <-. exact Hget.
Defined.
(** ** A tick in which nothing finishes *)

Lemma _step_queue_keeps_action fuel dt a q :
  ∀ w w',
    is_Some (actions w !! a) →
    Action._step_queue fuel dt a q w = Some w' → is_Some (actions w' !! a).
Proof.
  induction q as [|d rest IH]; intros w w' Ha H; simpl in H.
  - by injection H as <-.
  - apply bind_Some in H as (this & Hthis & H).
    apply bind_Some in H as ([d' w1] & Hstep & H).
    apply bind_Some in H as (this1 & Hthis1 & H).
    destruct (done d').
    + destruct rest as [|d2 rest].
      * injection H as <-. simpl. by rewrite lookup_insert_eq.
      * destruct (immediate d').
        -- eapply IH; [|exact H]. simpl. by rewrite lookup_insert_eq.
        -- injection H as <-. simpl. by rewrite lookup_insert_eq.
    + injection H as <-. simpl. by rewrite lookup_insert_eq.
Qed.

Lemma _step_registry fuel dt a w w' :
  Action._step fuel dt a w = Some w' →
  is_Some (actions w' !! a) ∧ _actionList w' = _actionList w ∧
  listeners w' = listeners w ∧ _listenerList w' = _listenerList w ∧
  (∀ b, b ≠ a → actions w' !! b = actions w !! b).
Proof.
  unfold Action._step. intros H.
  apply bind_Some in H as (this & Hthis & H). split.
  - eapply _step_queue_keeps_action; [|exact H]. by rewrite Hthis.
  - by apply _step_queue_registry in H.
Qed.

Lemma advance_registry fuel dt l :
  ∀ w w',
    advance fuel dt l w = Some w' →
    _actionList w' = _actionList w ∧ listeners w' = listeners w ∧
    _listenerList w' = _listenerList w ∧
    (∀ b, b ∉ l → actions w' !! b = actions w !! b).
Proof.
  induction l as [|a l IH]; intros w w' H; simpl in H.
  - by injection H as <-.
  - apply bind_Some in H as (w1 & H1 & H).
    apply _step_registry in H1 as (_ & E1 & E2 & E3 & Hother).
    apply IH in H as (E1' & E2' & E3' & Hother').
    repeat (split; [congruence|]). intros b Hb.
    apply not_elem_of_cons in Hb as [Hne Hb].
    rewrite Hother' by done. by apply Hother.
Qed.

Lemma step_loop_advance fuel dt :
  ∀ rest n seen w w1,
    _actionList w = seen ++ rest → NoDup rest → (length rest ≤ n)%nat →
    advance fuel dt rest w = Some w1 →
    (∀ a, a ∈ rest → is_done w1 a = false) →
    Action.step_loop n fuel dt (length seen) w = Some w1.
Proof.
  induction rest as [|a rest IH]; intros n seen w w1 Hl Hnd Hn Hrun Hnone.
  - simpl in Hrun. injection Hrun as <-.
    assert (_actionList w !! length seen = None) as Hend.
    { rewrite Hl, app_nil_r. by apply lookup_ge_None. }
    destruct n; simpl; by rewrite Hend.
  - simpl in Hrun. apply bind_Some in Hrun as (w' & Hstep & Hrun).
    apply NoDup_cons in Hnd as [Ha Hnd].
    assert (_actionList w !! length seen = Some a) as Hat.
    { rewrite Hl. by rewrite list_lookup_middle. }
    destruct n as [|n]; [simpl in Hn; lia|].
    simpl. rewrite Hat, Hstep. simpl.
    destruct (_step_registry _ _ _ _ _ Hstep) as ([action Haction] & E1 & _).
    rewrite Haction. simpl.
    destruct (advance_registry _ _ _ _ _ Hrun) as (_ & _ & _ & Hother).
    assert (_done action = false) as ->.
    { specialize (Hnone a). unfold is_done in Hnone.
      rewrite (Hother a Ha), Haction in Hnone. apply Hnone. left. }
    replace (S (length seen)) with (length (seen ++ [a]))
      by (rewrite length_app; simpl; lia).
    apply IH; [|done|simpl in Hn; lia|done|].
    + rewrite E1, Hl, <- app_assoc. done.
    + intros b Hb. apply Hnone. by right.
Qed.

(** X24. When no action of the active list is done after it has been
    advanced, a tick advances every action of the list exactly once, in
    list order, keeps the list as it is, and then checks the listeners that
    are registered. *)
Theorem X24_tick_advances_each_action_once :
  ∀ fuel dt w w1,
    NoDup (_actionList w) →
    advance fuel dt (_actionList w) w = Some w1 →
    (∀ a, a ∈ _actionList w → is_done w1 a = false) →
    Action.step fuel dt w = forEachListener (_listenerList w) w1 ∧
    _actionList w1 = _actionList w.
Proof.
  intros fuel dt w w1 Hnd Hrun Hnone.
  destruct (advance_registry _ _ _ _ _ Hrun) as (E1 & _ & E3 & _).
  split; [|done]. unfold Action.step.
  rewrite (step_loop_advance fuel dt (_actionList w) _ [] w w1);
    [by simpl; rewrite E3|done|done|done|done|done].
Qed.

Lemma X24_tick_advances_each_action_once_witness :
  ∃ w1,
    advance 0 half (_actionList two_delays) two_delays = Some w1 ∧
    Action.step 0 half two_delays = forEachListener (_listenerList two_delays) w1 ∧
    _actionList w1 = _actionList two_delays.
Proof.
  destruct (advance 0 half (_actionList two_delays) two_delays) as [w1|] eqn:E;
    [|by vm_compute in E].
  exists w1. split; [done|].
  apply (X24_tick_advances_each_action_once 0%nat half two_delays w1).
  - apply (bool_decide_unpack (NoDup (_actionList two_delays))).
    vm_compute. reflexivity.
  - exact E.
  - vm_compute in E. injection E as <-.
    apply (proj1 (Forall_forall _ (_actionList two_delays))).
    match goal with
    | |- Forall ?P ?l => apply (bool_decide_unpack (Forall P l))
    end.
    vm_compute. reflexivity.
Defined.
(** ** Removing all children *)

Lemma reaches_inv (st : Store) a b :
  rtc (child_of st) a b → a = b ∨ descends st a b.
Proof. intros H. apply rtc_tc in H. by destruct H as [-> | H]; [left|right]. Qed.

(** In a tree two sprites above a third are above one another. *)
Lemma tree_ancestors (st : Store) a b q :
  tree_shaped st →
  rtc (child_of st) a q → rtc (child_of st) b q →
  a = b ∨ descends st a b ∨ descends st b a.
Proof.
  intros Htree Ha. revert b. revert q Ha.
  apply (rtc_ind_r (λ q, ∀ b, rtc (child_of st) b q →
                           a = b ∨ descends st a b ∨ descends st b a)).
  - intros b Hb. destruct (reaches_inv _ _ _ Hb) as [-> | Hd]; [by left|]. right. by right.
  - intros q' q Ha' Hstep IH b Hb.
    destruct (reaches_inv _ _ _ Hb) as [-> | Hd].
    + right. left. eapply tc_rtc_l; [exact Ha'|]. by apply tc_once.
    + destruct (descends_last _ _ _ Hd) as (qb & Hqb & Hlast).
      assert (qb = q') as ->.
      { destruct Hstep as (s1 & Hs1 & Hc1). destruct Hlast as (s2 & Hs2 & Hc2).
        destruct (map_Forall_lookup_1 _ _ _ _ Htree Hs1) as [_ Hp1].
        destruct (map_Forall_lookup_1 _ _ _ _ Htree Hs2) as [_ Hp2].
        pose proof (proj1 (Forall_forall _ _) Hp1 q Hc1) as E1.
        pose proof (proj1 (Forall_forall _ _) Hp2 q Hc2) as E2.
        simpl in E1, E2. congruence. }
      by apply IH.
Qed.

(** In a tree the sprites within two different children of a sprite are
    different. *)
Lemma children_disjoint rank (st : Store) p ps c c' j :
  well_formed rank st → tree_shaped st → st !! p = Some ps →
  c ∈ kids ps → c' ∈ kids ps → c ≠ c' →
  within st c j → within st c' j → False.
Proof.
  intros Hwf Htree Hp Hc Hc' Hne Hw Hw'.
  assert (rtc (child_of st) c j) as Hr
    by (destruct Hw as [-> | Hd]; [done|by apply tc_rtc]).
  assert (rtc (child_of st) c' j) as Hr'
    by (destruct Hw' as [-> | Hd]; [done|by apply tc_rtc]).
  destruct (tree_ancestors st c c' j Htree Hr Hr') as [E | [Hd | Hd]];
    [done| |].
  - by eapply (siblings_apart rank st p ps c' c).
  - by eapply (siblings_apart rank st p ps c c').
Qed.

Lemma with_scene_idem w : with_scene (scene w) w = w.
Proof. by destruct w. Qed.

(** The loop of [removeAllChildren] without recursion. *)
Lemma removeAllChildren_loop_spec rank fuel this :
  ∀ rest n w p,
    well_formed rank (sprites (scene w)) → tree_shaped (sprites (scene w)) →
    sprites (scene w) !! this = Some p → children p = Some rest →
    (length rest ≤ n)%nat → (rank this ≤ fuel)%nat →
    ∃ sc' new,
      removeAllChildren_loop (λ _ w0, Some w0) fuel this n w
        = Some (with_scene sc' w) ∧
      well_formed rank (sprites sc') ∧ tree_shaped (sprites sc') ∧
      sprites sc' !! this = Some (with_children (Some []) p) ∧
      (∀ c, c ∈ rest →
            sprites sc' !! c
              = (λ s, with_stage None (with_parent None s))
                  <$> sprites (scene w) !! c) ∧
      (∀ c j, c ∈ rest → descends (sprites (scene w)) c j →
              sprites sc' !! j = with_stage None <$> sprites (scene w) !! j) ∧
      (∀ j, j ≠ this → (∀ c, c ∈ rest → ¬ within (sprites (scene w)) c j) →
            sprites sc' !! j = sprites (scene w) !! j) ∧
      emitted sc' = emitted (scene w) ++ new ∧
      (∀ j e, (j, e) ∈ new ↔
              e = REMOVED_FROM_STAGE ∧
              ∃ c, c ∈ rest ∧ within (sprites (scene w)) c j) ∧
      onReady sc' = onReady (scene w).
Proof.
  induction rest as [|c rest IH]; intros n w p Hwf Htree Hp Hch Hn Hfuel.
  - exists (scene w), []. split.
    { destruct n; simpl; rewrite Hp; simpl; rewrite Hch;
        by rewrite with_scene_idem. }
    split; [done|]. split; [done|]. split.
    { rewrite Hp. f_equal. destruct p; simpl in *; by subst. }
    split; [by intros c ?%elem_of_nil|].
    split; [by intros c j ?%elem_of_nil|].
    split; [done|]. split; [by rewrite app_nil_r|].
    split; [|done]. intros j e. split; [by intros ?%elem_of_nil|].
    by intros (_ & c & ?%elem_of_nil & _).
  - destruct n as [|n]; [simpl in Hn; lia|].
    set (st := sprites (scene w)) in *.
    assert (kids p = c :: rest) as Hk by (unfold kids; by rewrite Hch).
    destruct (well_formed_lookup _ _ _ _ Hwf Hp) as [Hpk _].
    destruct (map_Forall_lookup_1 _ _ _ _ Htree Hp) as [Hpnd _].
    rewrite Hk in Hpnd. apply NoDup_cons in Hpnd as [Hc_fresh Hnd_rest].
    assert (c ∈ kids p) as Hc by (rewrite Hk; left).
    destruct (Hpk c Hc) as [[t Ht] Hrk].
    destruct (removeChild_spec rank fuel (scene w) this c p t Hp Hwf Htree Hc Ht)
      as (sc1 & new1 & Hrm & Hwf1 & Htree1 & Hp1 & _ & Ht1 & Hem1 & Hon1
          & Hnew1 & Hbelow1 & Hout1 & Hkids1); [lia|].
    rewrite Hk in Hp1. simpl in Hp1.
    rewrite bool_decide_eq_true_2 in Hp1 by done.
    set (p1 := with_children (Some rest) p) in *.
    set (st1 := sprites sc1) in *.
    destruct (IH n (with_scene sc1 w) p1)
      as (sc' & new' & Hloop & Hwf' & Htree' & Hp' & Hkid' & Hbelow' & Hout'
          & Hem' & Hnew' & Hon'); [done|done|done|done|simpl in Hn; lia|done|].
    change (sprites (scene (with_scene sc1 w))) with st1 in *.
    change (scene (with_scene sc1 w)) with sc1 in *.
    assert (∀ c', c' ∈ rest → c' ∈ kids p) as Hrest_kids
      by (intros c' Hc'; rewrite Hk; by right).
    assert (∀ c', c' ∈ rest → c' ≠ c) as Hrest_ne
      by (intros c' Hc' ->; done).
    assert (∀ c' j, c' ∈ rest → within st c' j → ¬ within st c j) as Hapart.
    { intros c' j Hc' Hw' Hw.
      eapply (children_disjoint rank st this p c c' j); try done.
      - by apply Hrest_kids.
      - intros ->. by apply (Hrest_ne c'). }
    assert (∀ j, (rank j < rank this)%nat →
              kids <$> st1 !! j = kids <$> st !! j) as Hkids1'.
    { intros j Hj. apply Hkids1. intros ->. lia. }
    assert (∀ c' j, c' ∈ rest → within st1 c' j ↔ within st c' j) as Hwithin.
    { intros c' j Hc'. unfold within.
      rewrite (descends_below rank st st1 this c' j Hwf Hkids1'); [done|].
      by apply Hpk, Hrest_kids. }
    assert (∀ c' j, c' ∈ rest → within st c' j → st1 !! j = st !! j) as Hsame1.
    { intros c' j Hc' Hw. apply Hout1; [|by eapply Hapart].
      assert (rank j < rank this)%nat as Hlt; [|intros ->; lia].
      destruct (Hpk c' (Hrest_kids _ Hc')) as [_ Hlt'].
      destruct Hw as [-> | Hd]; [done|].
      pose proof (descends_rank rank st c' j Hwf Hd). lia. }
    assert (∀ j, within st c j → j ≠ this) as Hnot_this.
    { intros j Hw.
      assert (rank j < rank this)%nat as Hlt; [|intros ->; lia].
      destruct Hw as [-> | Hd]; [done|].
      pose proof (descends_rank rank st c j Hwf Hd). lia. }
    assert (∀ j, within st c j → sprites sc' !! j = st1 !! j) as Hkeep.
    { intros j Hw. apply Hout'; [by apply Hnot_this|].
      intros c' Hc' Hw'%Hwithin; [|done]. by eapply Hapart. }
    exists sc', ((c, REMOVED_FROM_STAGE) :: new1 ++ new').
    split.
    { simpl. fold st. rewrite Hp. simpl. rewrite Hch. simpl.
      rewrite Hrm. simpl. exact Hloop. }
    split; [done|]. split; [done|]. split; [done|].
    split.
    { intros c' [-> | Hc']%elem_of_cons.
      - rewrite Hkeep by (by left). by rewrite Ht1, Ht.
      - rewrite (Hkid' c' Hc'). by rewrite (Hsame1 c' c' Hc') by (by left). }
    split.
    { intros c' j [-> | Hc']%elem_of_cons Hd.
      - rewrite Hkeep by (by right). by apply Hbelow1.
      - rewrite (Hbelow' c' j Hc').
        + by rewrite (Hsame1 c' j Hc') by (by right).
        + by apply (descends_below rank st st1 this c' j Hwf Hkids1');
            [apply Hpk, Hrest_kids|]. }
    split.
    { intros j Hj Hnone. rewrite Hout'; [|done|].
      - apply Hout1; [done|]. apply Hnone. left.
      - intros c' Hc' Hw%Hwithin; [|done]. apply (Hnone c'); [by right|done]. }
    split. { rewrite Hem', Hem1, <- app_assoc. done. }
    split; [|congruence].
    intros j e. rewrite elem_of_cons, elem_of_app, Hnew1, Hnew'. split.
    + intros [[= -> ->] | [[-> Hd] | [-> (c' & Hc' & Hw)]]].
      * split; [done|]. exists c. split; [left|by left].
      * split; [done|]. exists c. split; [left|by right].
      * split; [done|]. exists c'. split; [by right|]. by apply Hwithin.
    + intros [-> (c' & [-> | Hc']%elem_of_cons & Hw)].
      * destruct Hw as [-> | Hd]; [by left|]. right. by left.
      * right. right. split; [done|]. exists c'. split; [done|].
        by apply Hwithin.
Qed.

Lemma descends_children (st : Store) this p j :
  st !! this = Some p →
  descends st this j ↔ ∃ c, c ∈ kids p ∧ within st c j.
Proof.
  intros Hp. split.
  - intros (s & Hs & [Hj | (c & Hc & Hd)])%descends_inv;
      assert (s = p) as -> by congruence.
    + exists j. split; [done|by left].
    + exists c. split; [done|by right].
  - intros (c & Hc & Hw). by eapply within_child.
Qed.

(** [removeAllChildren()] without recursion. *)
Lemma removeAllChildren_spec rank fuel w this p :
  well_formed rank (sprites (scene w)) → tree_shaped (sprites (scene w)) →
  sprites (scene w) !! this = Some p → (rank this < fuel)%nat →
  kids p ≠ [] →
  ∃ sc' new,
    removeAllChildren fuel false this w = Some (with_scene sc' w) ∧
    well_formed rank (sprites sc') ∧ tree_shaped (sprites sc') ∧
    sprites sc' !! this = Some (with_children None p) ∧
    (∀ c, c ∈ kids p →
          sprites sc' !! c
            = (λ s, with_stage None (with_parent None s))
                <$> sprites (scene w) !! c) ∧
    (∀ c j, c ∈ kids p → descends (sprites (scene w)) c j →
            sprites sc' !! j = with_stage None <$> sprites (scene w) !! j) ∧
    (∀ j, j ≠ this → ¬ descends (sprites (scene w)) this j →
          sprites sc' !! j = sprites (scene w) !! j) ∧
    emitted sc' = emitted (scene w) ++ new ∧
    (∀ j e, (j, e) ∈ new ↔
            e = REMOVED_FROM_STAGE ∧ descends (sprites (scene w)) this j) ∧
    onReady sc' = onReady (scene w).
Proof.
  intros Hwf Htree Hp Hfuel Hne.
  destruct fuel as [|fuel]; [lia|].
  assert (∃ cs, children p = Some cs ∧ kids p = cs) as (cs & Hch & Hk).
  { unfold kids in *. destruct (children p) as [cs|]; [by exists cs|done]. }
  destruct (removeAllChildren_loop_spec rank fuel this cs (length cs) w p)
    as (sc1 & new & Hloop & Hwf1 & Htree1 & Hp1 & Hkid1 & Hbelow1 & Hout1
        & Hem1 & Hnew1 & Hon1); [done|done|done|done|done|lia|].
  set (st' := <[this := with_children None p]> (sprites sc1)).
  assert (same_links (sprites sc1) st') as Hlinks.
  { intros j. unfold st'. destruct (decide (j = this)) as [-> | Hj].
    - by rewrite lookup_insert_eq, Hp1.
    - by rewrite lookup_insert_ne. }
  assert (∀ j, j ≠ this → st' !! j = sprites sc1 !! j) as Hother
    by (intros j Hj; unfold st'; by rewrite lookup_insert_ne).
  assert (∀ c, c ∈ kids p → c ≠ this) as Hkid_ne.
  { intros c Hc ->.
    destruct (proj1 (well_formed_lookup _ _ _ _ Hwf Hp) this Hc). lia. }
  exists (with_sprites st' sc1), new. split.
  { assert (cs ≠ []) as Hcs by (by rewrite <- Hk).
    simpl. rewrite Hp. simpl. rewrite Hch.
    destruct cs as [|c0 cs0]; [done|].
    rewrite Hloop. simpl. rewrite Hp1. done. }
  simpl. split; [by eapply same_links_well_formed|].
  split; [by eapply same_links_tree_shaped|].
  split; [apply lookup_insert_eq|].
  rewrite Hk. split.
  { intros c Hc. rewrite Hother by (apply Hkid_ne; by rewrite Hk).
    by apply Hkid1. }
  split.
  { intros c j Hc Hd. rewrite Hother; [by eapply Hbelow1|].
    intros ->.
    pose proof (descends_rank rank _ c this Hwf Hd).
    destruct (proj1 (well_formed_lookup _ _ _ _ Hwf Hp) c); [by rewrite Hk|].
    lia. }
  split.
  { intros j Hj Hnd. rewrite Hother by done. apply Hout1; [done|].
    intros c Hc Hw. apply Hnd.
    apply (descends_children _ this p j Hp). exists c. by rewrite Hk. }
  split; [done|]. split; [|done].
  intros j e. rewrite Hnew1, (descends_children _ this p j Hp), Hk. done.
Qed.

(** X25. [removeAllChildren()] on a sprite of a well-formed tree.  Without
    children nothing happens.  Otherwise every child is removed in turn:
    [children] ends as [null], every former child has lost its parent
    reference, the former children and everything below them have the stage
    [null] and have emitted [REMOVED_FROM_STAGE], and they keep their own
    children; the tree stays well formed and tree shaped; nothing changes
    outside the sprite and the sprites below it, and actions and listeners
    are not touched. *)
Theorem X25_removeAllChildren_detaches_every_child :
  ∀ rank fuel w this p,
    well_formed rank (sprites (scene w)) → tree_shaped (sprites (scene w)) →
    sprites (scene w) !! this = Some p → (rank this < fuel)%nat →
    (kids p = [] → removeAllChildren fuel false this w = Some w) ∧
    (kids p ≠ [] →
     ∃ sc' new,
       removeAllChildren fuel false this w = Some (with_scene sc' w) ∧
       well_formed rank (sprites sc') ∧ tree_shaped (sprites sc') ∧
       sprites sc' !! this = Some (with_children None p) ∧
       (∀ c, c ∈ kids p →
             sprites sc' !! c
               = (λ s, with_stage None (with_parent None s))
                   <$> sprites (scene w) !! c) ∧
       (∀ c j, c ∈ kids p → descends (sprites (scene w)) c j →
               sprites sc' !! j
                 = with_stage None <$> sprites (scene w) !! j) ∧
       (∀ j, j ≠ this → ¬ descends (sprites (scene w)) this j →
             sprites sc' !! j = sprites (scene w) !! j) ∧
       emitted sc' = emitted (scene w) ++ new ∧
       (∀ j e, (j, e) ∈ new ↔
               e = REMOVED_FROM_STAGE ∧
               descends (sprites (scene w)) this j) ∧
       onReady sc' = onReady (scene w)).
Proof.
  intros rank fuel w this p Hwf Htree Hp Hfuel. split.
  - intros Hk. destruct fuel as [|fuel]; [lia|]. simpl. rewrite Hp. simpl.
    unfold kids in Hk. by destruct (children p) as [[|c cs]|].
  - by apply removeAllChildren_spec.
Qed.

(** [removeAllChildren()] in either case. *)
Lemma removeAllChildren_total rank fuel w this p :
  well_formed rank (sprites (scene w)) → tree_shaped (sprites (scene w)) →
  sprites (scene w) !! this = Some p → (rank this < fuel)%nat →
  ∃ sc' new p',
    removeAllChildren fuel false this w = Some (with_scene sc' w) ∧
    well_formed rank (sprites sc') ∧ tree_shaped (sprites sc') ∧
    sprites sc' !! this = Some p' ∧
    kids p' = [] ∧ _parent p' = _parent p ∧ _stage p' = _stage p ∧
    (∀ c, c ∈ kids p →
          sprites sc' !! c
            = (λ s, with_stage None (with_parent None s))
                <$> sprites (scene w) !! c) ∧
    (∀ c j, c ∈ kids p → descends (sprites (scene w)) c j →
            sprites sc' !! j = with_stage None <$> sprites (scene w) !! j) ∧
    (∀ j, j ≠ this → ¬ descends (sprites (scene w)) this j →
          sprites sc' !! j = sprites (scene w) !! j) ∧
    emitted sc' = emitted (scene w) ++ new ∧
    (∀ j e, (j, e) ∈ new ↔
            e = REMOVED_FROM_STAGE ∧ descends (sprites (scene w)) this j) ∧
    onReady sc' = onReady (scene w).
Proof.
  intros Hwf Htree Hp Hfuel.
  destruct (decide (kids p = [])) as [Hk | Hk].
  - exists (scene w), [], p. split.
    { destruct fuel as [|fuel]; [lia|]. simpl. rewrite Hp. simpl.
      rewrite with_scene_idem. unfold kids in Hk.
      by destruct (children p) as [[|c cs]|]. }
    assert (∀ j, ¬ descends (sprites (scene w)) this j) as Hnone.
    { intros j (c & Hc & _)%(descends_children _ this p j Hp).
      rewrite Hk in Hc. by apply elem_of_nil in Hc. }
    repeat (split; [done|]). rewrite Hk.
    split; [by intros c ?%elem_of_nil|].
    split; [by intros c j ?%elem_of_nil|].
    split; [done|]. split; [by rewrite app_nil_r|]. split; [|done].
    intros j e. split; [by intros ?%elem_of_nil|].
    intros [_ Hd]. by apply Hnone in Hd.
  - destruct (removeAllChildren_spec rank fuel w this p Hwf Htree Hp Hfuel Hk)
      as (sc' & new & H & Hwf' & Htree' & Hp' & Hrest).
    exists sc', new, (with_children None p). done.
Qed.

(** X26. [release()] without recursion, on a sprite of a well-formed tree
    whose parent, if it has one, lists it among its children.  The actions
    of the active list that belong to the sprite are stopped as by
    [Action.stop(sprite)]; the children are removed as by
    [removeAllChildren()]; the sprite is taken out of the children of its
    parent and loses parent reference and stage (a sprite without parent
    keeps its stage); then it is added to the release pool, once, after what
    the pool held.  The tree stays well formed and tree shaped, and nothing
    changes outside the parent, the sprite and the sprites below it. *)
Theorem X26_release_detaches_and_pools :
  ∀ rank fuel w pool this p,
    NoDup (_actionList w) →
    Forall (λ a, is_Some (actions w !! a)) (_actionList w) →
    well_formed rank (sprites (scene w)) → tree_shaped (sprites (scene w)) →
    sprites (scene w) !! this = Some p → (S (rank this) < fuel)%nat →
    (∀ q, _parent p = Some q →
          ∃ sq, sprites (scene w) !! q = Some sq ∧ this ∈ kids sq) →
    ∃ w' p',
      release fuel false this (w, pool) = Some (w', pool ++ [this]) ∧
      _actionList w' = filter (λ a, ¬ acts_on this w a) (_actionList w) ∧
      (∀ a, a ∈ _actionList w → acts_on this w a →
            actions w' !! a = Some (mkAction [] true false (Some this))) ∧
      (∀ a, a ∉ _actionList w ∨ ¬ acts_on this w a →
            actions w' !! a = actions w !! a) ∧
      fired w' = fired w ∧ listeners w' = listeners w ∧
      _listenerList w' = _listenerList w ∧
      well_formed rank (sprites (scene w')) ∧
      tree_shaped (sprites (scene w')) ∧
      sprites (scene w') !! this = Some p' ∧
      kids p' = [] ∧ _parent p' = None ∧
      _stage p' = match _parent p with
                  | Some _ => None
                  | None => _stage p
                  end ∧
      (∀ c, c ∈ kids p →
            sprites (scene w') !! c
              = (λ s, with_stage None (with_parent None s))
                  <$> sprites (scene w) !! c) ∧
      (∀ q sq, _parent p = Some q → sprites (scene w) !! q = Some sq →
               sprites (scene w') !! q
                 = Some (with_children
                           (Some (removeArrayItem (kids sq) this)) sq)) ∧
      (∀ j, j ≠ this → _parent p ≠ Some j →
            ¬ descends (sprites (scene w)) this j →
            sprites (scene w') !! j = sprites (scene w) !! j).
Proof.
  intros rank fuel w pool this p Hnd Hex Hwf Htree Hp Hfuel Hlisted.
  destruct fuel as [|fuel]; [lia|].
  destruct (stop_each_spec this (_actionList w) w Hnd Hnd Hex)
    as (w1 & Hstop & Hlist & Hin & Hout & Efired & Escene & El & Ell).
  set (st := sprites (scene w)) in *.
  assert (sprites (scene w1) = st) as Est by (by rewrite Escene).
  destruct (removeAllChildren_total rank fuel w1 this p)
    as (sc2 & new2 & p2 & Hrm & Hwf2 & Htree2 & Hp2 & Hk2 & Hpar2 & Hstage2
        & Hkid2 & Hbelow2 & Hout2 & Hem2 & Hnew2 & Hon2);
    [by rewrite Est|by rewrite Est|by rewrite Est|lia|].
  rewrite Est in Hkid2, Hbelow2, Hout2.
  set (st2 := sprites sc2) in *.
  assert (∃ sc3 p3,
            match _parent p2 with
            | Some q =>
                sc ← removeChild fuel q this sc2;
                Some (with_scene sc (with_scene sc2 w1), pool)
            | None => Some (with_scene sc2 w1, pool)
            end = Some (with_scene sc3 w1, pool) ∧
            well_formed rank (sprites sc3) ∧ tree_shaped (sprites sc3) ∧
            sprites sc3 !! this = Some p3 ∧
            kids p3 = [] ∧ _parent p3 = None ∧
            _stage p3 = match _parent p with
                        | Some _ => None
                        | None => _stage p
                        end ∧
            (∀ q sq, _parent p = Some q → st !! q = Some sq →
                     sprites sc3 !! q
                       = Some (with_children
                                 (Some (removeArrayItem (kids sq) this)) sq)) ∧
            (∀ j, j ≠ this → _parent p ≠ Some j →
                  sprites sc3 !! j = st2 !! j))
    as (sc3 & p3 & Hdetach & Hwf3 & Htree3 & Hp3 & Hk3 & Hpar3 & Hstage3
        & Hq3 & Hout3).
  { rewrite Hpar2. destruct (_parent p) as [q|] eqn:Hparent.
    - destruct (Hlisted q eq_refl) as (sq & Hsq & Hthis).
      destruct (proj1 (well_formed_lookup _ _ _ _ Hwf Hsq) this Hthis)
        as [_ Hrk].
      assert (q ≠ this) as Hqt by (intros ->; lia).
      assert (st2 !! q = Some sq) as Hsq2.
      { rewrite Hout2; [done|done|]. intros Hd.
        pose proof (descends_rank rank st this q Hwf Hd). lia. }
      destruct (removeChild_spec rank fuel sc2 q this sq p2 Hsq2 Hwf2 Htree2
                  Hthis Hp2)
        as (sc3 & new3 & Hrc & Hwf3 & Htree3 & Hq3 & _ & Hp3 & _ & _ & _ & _
            & Hout3 & _); [lia|].
      exists sc3, (with_stage None (with_parent None p2)).
      rewrite Hrc. simpl. split; [done|]. split; [done|]. split; [done|].
      split; [done|]. split; [done|]. split; [done|]. split; [done|].
      split.
      { intros q' sq' [= <-] Hsq'. rewrite Hsq in Hsq'.
        by injection Hsq' as <-. }
      intros j Hj Hjq. apply Hout3; [congruence|].
      intros [-> | Hd]; [done|].
      destruct (proj1 (descends_children st2 this p2 j Hp2) Hd)
        as (c & Hc & _).
      rewrite Hk2 in Hc. by apply elem_of_nil in Hc.
    - exists sc2, p2. split; [done|]. split; [done|]. split; [done|].
      split; [done|]. split; [done|]. split; [congruence|].
      split; [done|]. split; [by intros q sq [=]|]. done. }
  exists (with_scene sc3 w1), p3. split.
  { simpl. unfold Action.stop_sprite. rewrite Hstop. simpl.
    rewrite Est, Hp. simpl. rewrite Hrm. simpl. fold st2. rewrite Hp2. simpl.
    destruct (_parent p2) as [q|].
    - apply bind_Some in Hdetach as (sc & -> & Hsc). simpl.
      simpl in Hsc. by injection Hsc as ->.
    - simpl. simpl in Hdetach. by injection Hdetach as ->. }
  simpl. split.
  { rewrite Hlist. apply filter_members. intros x Hx. split.
    - intros Hn Hs. by apply Hn.
    - intros Hn [_ Hs]. by apply Hn. }
  split; [done|]. split.
  { intros a Ha. apply Hout. intros [Hl Hs]. by destruct Ha. }
  split; [done|]. split; [done|]. split; [done|].
  split; [done|]. split; [done|]. split; [done|].
  split; [done|]. split; [done|]. split; [done|].
  split.
  { intros c Hc. rewrite <- Hkid2 by done.
    destruct (proj1 (well_formed_lookup _ _ _ _ Hwf Hp) c Hc) as [_ Hrk].
    apply Hout3; [intros ->; lia|].
    intros Hq. destruct (Hlisted c Hq) as (sq & Hsq & Hthis).
    destruct (proj1 (well_formed_lookup _ _ _ _ Hwf Hsq) this Hthis). lia. }
  split; [done|].
  intros j Hj Hjq Hnd'. rewrite Hout3 by done. by apply Hout2.
Qed.

Lemma X25_removeAllChildren_detaches_every_child_witness :
  ∃ sc' new,
    removeAllChildren 5 false 0 family_world = Some (with_scene sc' family_world) ∧
    well_formed family_rank (sprites sc') ∧ tree_shaped (sprites sc') ∧
    sprites sc' !! 0%nat
      = Some (with_children None
                (with_children (Some [1%nat; 2%nat]) sized_parent)) ∧
    emitted sc' = emitted (scene family_world) ++ new.
Proof.
  destruct (X25_removeAllChildren_detaches_every_child family_rank
              5%nat family_world 0%nat
              (with_children (Some [1%nat; 2%nat]) sized_parent))
    as [_ Hsome].
  - apply (bool_decide_unpack (well_formed family_rank family)).
    vm_compute. reflexivity.
  - apply (bool_decide_unpack (tree_shaped family)). vm_compute. reflexivity.
  - reflexivity.
  - vm_compute. lia.
  - destruct Hsome as (sc' & new & H & Hwf & Htree & Hp & _ & _ & _ & Hem & _);
      [discriminate|].
    by exists sc', new.
Defined.

Lemma X26_release_detaches_and_pools_witness :
  ∃ w' p',
    release 6 false 1 (family_world, []) = Some (w', [] ++ [1%nat]) ∧
    _actionList w'
      = filter (λ a, ¬ acts_on 1 family_world a) (_actionList family_world) ∧
    sprites (scene w') !! 1%nat = Some p' ∧
    kids p' = [] ∧ _parent p' = None ∧
    sprites (scene w') !! 0%nat
      = Some (with_children
                (Some (removeArrayItem
                         (kids (with_children (Some [1%nat; 2%nat])
                                  sized_parent)) 1))
                (with_children (Some [1%nat; 2%nat]) sized_parent)).
Proof.
  destruct (X26_release_detaches_and_pools family_rank 6%nat family_world []
              1%nat (with_children (Some [3%nat]) pinned_child))
    as (w' & p' & H & Hlist & _ & _ & _ & _ & _ & _ & _ & Hp' & Hk & Hpar & _
        & _ & Hq & _).
  - apply (bool_decide_unpack (NoDup (_actionList family_world))).
    vm_compute. reflexivity.
  - apply (bool_decide_unpack
             (Forall (λ a, is_Some (actions family_world !! a))
                (_actionList family_world))).
    vm_compute. reflexivity.
  - apply (bool_decide_unpack (well_formed family_rank family)).
    vm_compute. reflexivity.
  - apply (bool_decide_unpack (tree_shaped family)). vm_compute. reflexivity.
  - reflexivity.
  - vm_compute. lia.
  - intros q [= <-].
    exists (with_children (Some [1%nat; 2%nat]) sized_parent).
    split; [reflexivity|].
    apply (bool_decide_unpack
             (1%nat ∈ kids (with_children (Some [1%nat; 2%nat]) sized_parent))).
    vm_compute. reflexivity.
  - exists w', p'. repeat (split; [done|]). by apply (Hq 0%nat).
Defined.
(** ** Clearing a subtree *)

Lemma descends_dec rank (st : Store) a j :
  well_formed rank st → descends st a j ∨ ¬ descends st a j.
Proof.
  intros Hwf. destruct (st !! a) as [s|] eqn:Hs.
  - destruct (contains_spec rank st j Hwf (S (rank a)) a) as (b & _ & Hb);
      [by rewrite Hs|lia|].
    destruct b; [left; by apply Hb|right]. intros Hd. by apply Hb in Hd.
  - right. intros (s & Hs' & _)%descends_inv. congruence.
Qed.

Lemma within_dec rank (st : Store) a j :
  well_formed rank st → within st a j ∨ ¬ within st a j.
Proof.
  intros Hwf. unfold within. destruct (decide (j = a)) as [-> | Hne].
  - left. by left.
  - destruct (descends_dec rank st a j Hwf) as [Hd | Hd]; [left; by right|].
    right. by intros [? | ?].
Qed.

Lemma within_trans (st : Store) a b c :
  within st a b → within st b c → within st a c.
Proof.
  intros [-> | Hab] [-> | Hbc]; [by left|by right|by right|].
  right. by eapply tc_trans.
Qed.

(** Stores that agree on the children lists within [a] have the same
    sprites below [a]. *)
Lemma descends_local (st st' : Store) a j :
  (∀ x, within st a x → kids <$> st' !! x = kids <$> st !! x) →
  descends st' a j ↔ descends st a j.
Proof.
  intros Hk.
  assert (∀ x y, within st a x → child_of st' x y ↔ child_of st x y) as Hstep.
  { intros x y Hx. specialize (Hk x Hx). unfold child_of. split.
    - intros (s' & Hs' & Hc). rewrite Hs' in Hk.
      destruct (st !! x) as [s|]; [|done]. injection Hk as Hk.
      exists s. by rewrite <- Hk.
    - intros (s & Hs & Hc). rewrite Hs in Hk.
      destruct (st' !! x) as [s'|]; [|done]. injection Hk as Hk.
      exists s'. by rewrite Hk. }
  assert (∀ x y, within st a x → child_of st x y → within st a y) as Hdown.
  { intros x y Hx Hxy. eapply within_trans; [exact Hx|]. right.
    by apply tc_once. }
  assert (∀ b, within st a b → descends st' b j ↔ descends st b j) as Hgen.
  { intros b Hb. split.
    - intros H. revert Hb.
      induction H as [x y H|x y z H _ IH]; intros Hx.
      + apply tc_once. by apply Hstep.
      + apply Hstep in H; [|done]. eapply tc_l; [exact H|]. apply IH.
        by eapply Hdown.
    - intros H. revert Hb.
      induction H as [x y H|x y z H _ IH]; intros Hx.
      + apply tc_once. by apply Hstep.
      + eapply tc_l; [by apply Hstep|]. apply IH. by eapply Hdown. }
  apply Hgen. by left.
Qed.

Lemma kids_unchilded s : kids (unchilded s) = [].
Proof.
  unfold unchilded, kids.
  destruct (children s) as [[|c cs]|] eqn:E; simpl; by rewrite ?E.
Qed.

Lemma childless (st : Store) a s j :
  st !! a = Some s → kids s = [] → ¬ descends st a j.
Proof.
  intros Hs Hk (s' & Hs' & H)%descends_inv.
  assert (s' = s) as -> by congruence. rewrite Hk in H.
  destruct H as [H | (c & H & _)]; by apply elem_of_nil in H.
Qed.

(** *** Stopping the actions of a set of sprites *)

Lemma stops_nothing (T : nat → Prop) w :
  NoDup (_actionList w) → (∀ a, ¬ T a) → stops T w w.
Proof.
  intros Hnd HT. split; [done|]. split; [done|]. split.
  { intros a. split; [|tauto]. intros Ha. split; [done|apply HT]. }
  split. { intros a _ Ha. by apply HT in Ha. }
  done.
Qed.

Lemma stops_ext (T T' : nat → Prop) w w' :
  (∀ a, T a ↔ T' a) → stops T w w' → stops T' w w'.
Proof.
  intros E (Hnd & Hsub & Hin & Hstop & Hkeep & Hrest).
  split; [done|]. split; [done|]. split.
  { intros a. rewrite Hin. by rewrite E. }
  split. { intros a Ha HT. apply Hstop; [done|]. by apply E. }
  split; [|done]. intros a Ha. apply Hkeep. by rewrite E.
Qed.

Lemma stops_trans (T1 T2 : nat → Prop) w w1 w2 :
  (∀ a, T1 a ∨ ¬ T1 a) →
  stops T1 w w1 → stops T2 w1 w2 → stops (λ a, T1 a ∨ T2 a) w w2.
Proof.
  intros Hdec (Hnd1 & Hsub1 & Hin1 & Hstop1 & Hkeep1 & Hsp1 & Hf1 & Hl1 & Hll1)
    (Hnd2 & Hsub2 & Hin2 & Hstop2 & Hkeep2 & Hsp2 & Hf2 & Hl2 & Hll2).
  split; [done|]. split; [by etrans|]. split.
  { intros a. rewrite Hin2, Hin1. tauto. }
  split.
  { intros a Ha HT. destruct (Hdec a) as [H1 | H1].
    - rewrite Hkeep2; [by apply Hstop1|]. rewrite Hin1. tauto.
    - destruct HT as [HT | HT]; [done|].
      rewrite Hstop2; [|by apply Hin1|done]. rewrite Hkeep1; [done|tauto]. }
  split.
  { intros a Ha. rewrite Hkeep2, Hkeep1; [done|tauto|]. rewrite Hin1. tauto. }
  split. { intros a. by rewrite Hsp2. }
  split; [congruence|]. split; congruence.
Qed.

Lemma stops_acts_on (T : nat → Prop) w w' j a :
  stops T w w' → acts_on j w' a ↔ acts_on j w a.
Proof.
  intros (_ & _ & _ & _ & _ & Hsp & _). unfold acts_on. by rewrite Hsp.
Qed.

Lemma stops_acts_in (T R : nat → Prop) w w' a :
  stops T w w' → acts_in R w' a ↔ acts_in R w a.
Proof.
  intros H. unfold acts_in. split; intros (j & Hj & Ha); exists j;
    (split; [done|]); by apply (stops_acts_on T w w' j a H).
Qed.

Lemma stops_listed (T : nat → Prop) w w' :
  stops T w w' →
  Forall (λ a, is_Some (actions w !! a)) (_actionList w) →
  Forall (λ a, is_Some (actions w' !! a)) (_actionList w').
Proof.
  intros (_ & _ & Hin & _ & _ & Hsp & _) Hex. apply Forall_forall.
  intros a [Ha _]%Hin.
  pose proof (proj1 (Forall_forall _ _) Hex a Ha) as [act Hact].
  simpl in Hact. specialize (Hsp a). rewrite Hact in Hsp.
  destruct (actions w' !! a); [done|done].
Qed.

Lemma acts_in_dec (R : nat → Prop) w a :
  (∀ j, R j ∨ ¬ R j) → acts_in R w a ∨ ¬ acts_in R w a.
Proof.
  intros Hdec. unfold acts_in, acts_on.
  destruct (actions w !! a) as [act|]; simpl.
  - destruct (sprite act) as [j|].
    + destruct (Hdec j) as [Hj | Hj].
      * left. by exists j.
      * right. intros (j' & Hj' & [= ->]). done.
    + right. by intros (j' & _ & [=]).
  - right. by intros (j' & _ & [=]).
Qed.

Lemma stop_sprite_stops sp w :
  NoDup (_actionList w) →
  Forall (λ a, is_Some (actions w !! a)) (_actionList w) →
  ∃ w', Action.stop_sprite sp w = Some w' ∧ scene w' = scene w ∧
        stops (acts_on sp w) w w'.
Proof.
  intros Hnd Hex.
  destruct (stop_each_spec sp (_actionList w) w Hnd Hnd Hex)
    as (w' & Hstop & Hlist & Hin & Hout & Efired & Escene & El & Ell).
  exists w'. split; [done|]. split; [done|].
  split. { rewrite Hlist. by apply NoDup_filter. }
  split. { rewrite Hlist. apply sublist_filter. }
  split.
  { intros a. rewrite Hlist, list_elem_of_filter. tauto. }
  split.
  { intros a Ha Hon. rewrite (Hin a Ha Hon). unfold acts_on in Hon.
    destruct (actions w !! a) as [act|]; [|done]. simpl in *.
    injection Hon as Hon. unfold stopped. by rewrite Hon. }
  split. { intros a Ha. apply Hout. tauto. }
  split; [|done].
  intros a. destruct (decide (a ∈ _actionList w)) as [Ha | Ha].
  - destruct (acts_on_dec sp w a) as [Hon | Hon].
    + rewrite (Hin a Ha Hon). unfold acts_on in Hon. by rewrite Hon.
    + rewrite Hout; [done|tauto].
  - rewrite Hout; [done|tauto].
Qed.

Lemma no_members {A} (l : list A) : (∀ x, x ∈ l → False) → l = [].
Proof.
  destruct l as [|x l]; [done|]. intros H. destruct (H x). left.
Qed.

(** *** The loop of [removeAllChildren(true)] *)

Section Sweep.
Variable rank : nat → nat.
Variable before : nat → World → option World.
Variable this : nat.

Hypothesis before_spec :
∀ c w pc,
  well_formed rank (sprites (scene w)) → tree_shaped (sprites (scene w)) →
  NoDup (_actionList w) →
  Forall (λ a, is_Some (actions w !! a)) (_actionList w) →
  sprites (scene w) !! c = Some pc → (rank c < rank this)%nat →
  ∃ w' new,
    before c w = Some w' ∧
    well_formed rank (sprites (scene w')) ∧
    tree_shaped (sprites (scene w')) ∧
    sprites (scene w') !! c = Some (unchilded pc) ∧
    (∀ j, descends (sprites (scene w)) c j →
          sprites (scene w') !! j = cleared <$> sprites (scene w) !! j) ∧
    (∀ j, ¬ within (sprites (scene w)) c j →
          sprites (scene w') !! j = sprites (scene w) !! j) ∧
    emitted (scene w') = emitted (scene w) ++ new ∧ NoDup new ∧
    (∀ j e, (j, e) ∈ new ↔
            e = REMOVED_FROM_STAGE ∧ descends (sprites (scene w)) c j) ∧
    onReady (scene w') = onReady (scene w) ∧
    stops (acts_in (within (sprites (scene w)) c) w) w w'.

Lemma sweep_loop fuel :
∀ rest n w p,
  well_formed rank (sprites (scene w)) → tree_shaped (sprites (scene w)) →
  NoDup (_actionList w) →
  Forall (λ a, is_Some (actions w !! a)) (_actionList w) →
  sprites (scene w) !! this = Some p → children p = Some rest →
  (length rest ≤ n)%nat → (rank this ≤ fuel)%nat →
  ∃ w' new,
    removeAllChildren_loop before fuel this n w = Some w' ∧
    well_formed rank (sprites (scene w')) ∧
    tree_shaped (sprites (scene w')) ∧
    sprites (scene w') !! this = Some (with_children (Some []) p) ∧
    (∀ c j, c ∈ rest → within (sprites (scene w)) c j →
            sprites (scene w') !! j = cleared <$> sprites (scene w) !! j) ∧
    (∀ j, j ≠ this → (∀ c, c ∈ rest → ¬ within (sprites (scene w)) c j) →
          sprites (scene w') !! j = sprites (scene w) !! j) ∧
    emitted (scene w') = emitted (scene w) ++ new ∧ NoDup new ∧
    (∀ j e, (j, e) ∈ new ↔
            e = REMOVED_FROM_STAGE ∧
            ∃ c, c ∈ rest ∧ within (sprites (scene w)) c j) ∧
    onReady (scene w') = onReady (scene w) ∧
    stops (acts_in (λ j, ∃ c, c ∈ rest ∧ within (sprites (scene w)) c j) w)
      w w'.
Proof.
induction rest as [|c rest IH];
  intros n w p Hwf Htree Hnd Hex Hp Hch Hn Hfuel.
- exists w, []. split.
  { destruct n; simpl; rewrite Hp; simpl; by rewrite Hch. }
  split; [done|]. split; [done|]. split.
  { rewrite Hp. f_equal. destruct p; simpl in *; by subst. }
  split; [by intros c j ?%elem_of_nil|].
  split; [done|]. split; [by rewrite app_nil_r|].
  split; [apply NoDup_nil_2|].
  split.
  { intros j e. split; [by intros ?%elem_of_nil|].
    by intros (_ & c & ?%elem_of_nil & _). }
  split; [done|]. apply stops_nothing; [done|].
  by intros a (j & (c & ?%elem_of_nil & _) & _).
- destruct n as [|n]; [simpl in Hn; lia|].
  set (st := sprites (scene w)) in *.
  assert (kids p = c :: rest) as Hk by (unfold kids; by rewrite Hch).
  destruct (well_formed_lookup _ _ _ _ Hwf Hp) as [Hpk _].
  destruct (map_Forall_lookup_1 _ _ _ _ Htree Hp) as [Hpnd _].
  rewrite Hk in Hpnd. apply NoDup_cons in Hpnd as [Hc_fresh Hnd_rest].
  assert (c ∈ kids p) as Hc by (rewrite Hk; left).
  destruct (Hpk c Hc) as [[t Ht] Hrk].
  assert (∀ c' j, c' ∈ kids p → within st c' j → (rank j < rank this)%nat)
    as Hlow.
  { intros c' j Hc' Hw. destruct (Hpk c' Hc') as [_ Hlt].
    destruct Hw as [-> | Hd]; [done|].
    pose proof (descends_rank rank st c' j Hwf Hd). lia. }
  destruct (before_spec c w t Hwf Htree Hnd Hex Ht Hrk)
    as (w1 & new1 & Hb & Hwf1 & Htree1 & Hc1 & Hbelow1 & Hout1 & Hem1
        & Hnd1 & Hnew1 & Hon1 & Hstops1).
  fold st in Hbelow1, Hout1, Hnew1, Hstops1.
  set (st1 := sprites (scene w1)) in *.
  assert (st1 !! this = Some p) as Hp1.
  { rewrite Hout1; [done|]. intros Hw.
    pose proof (Hlow c this Hc Hw). lia. }
  assert (∀ j, ¬ descends st1 c j) as Hbare.
  { intros j. eapply childless; [exact Hc1|apply kids_unchilded]. }
  destruct (removeChild_spec rank fuel (scene w1) this c p (unchilded t)
              Hp1 Hwf1 Htree1 Hc Hc1)
    as (sc2 & new2 & Hrm & Hwf2 & Htree2 & Hp2 & _ & Ht2 & Hem2 & Hon2
        & Hnew2 & _ & Hout2 & _); [lia|].
  fold st1 in Hnew2, Hout2.
  assert (new2 = []) as ->.
  { apply no_members. intros [j e] [_ Hd]%Hnew2. by apply Hbare in Hd. }
  rewrite Hk in Hp2. simpl in Hp2.
  rewrite bool_decide_eq_true_2 in Hp2 by done.
  set (p2 := with_children (Some rest) p) in *.
  set (st2 := sprites sc2) in *.
  pose proof Hstops1 as (Hnd_l1 & _).
  pose proof (stops_listed _ _ _ Hstops1 Hex) as Hex1.
  destruct (IH n (with_scene sc2 w1) p2)
    as (w' & new' & Hloop & Hwf' & Htree' & Hp' & Hin' & Hout' & Hem'
        & Hnd' & Hnew' & Hon' & Hstops');
    [done|done|done|done|done|done|simpl in Hn; lia|done|].
  change (sprites (scene (with_scene sc2 w1))) with st2 in *.
  change (scene (with_scene sc2 w1)) with sc2 in *.
  assert (∀ c', c' ∈ rest → c' ∈ kids p) as Hrest_kids
    by (intros c' Hc'; rewrite Hk; by right).
  assert (∀ c' j, c' ∈ rest → within st c' j → ¬ within st c j) as Hapart.
  { intros c' j Hc' Hw' Hw.
    eapply (children_disjoint rank st this p c c' j); try done.
    - by apply Hrest_kids.
    - intros ->. done. }
  assert (∀ j, within st1 c j → j = c) as Honly.
  { intros j [-> | Hd]; [done|]. by apply Hbare in Hd. }
  assert (∀ c' j, c' ∈ rest → within st c' j → st2 !! j = st !! j) as Hsame.
  { intros c' j Hc' Hw. rewrite Hout2.
    - apply Hout1. by eapply Hapart.
    - pose proof (Hlow c' j (Hrest_kids _ Hc') Hw). intros ->. lia.
    - intros ->%Honly. apply (Hapart c' c Hc' Hw). by left. }
  assert (∀ c' j, c' ∈ rest → within st2 c' j ↔ within st c' j) as Hwithin.
  { intros c' j Hc'. unfold within.
    rewrite (descends_local st st2 c' j); [done|].
    intros x Hx. by rewrite (Hsame c' x Hc' Hx). }
  assert (∀ j, within st c j → sprites (scene w') !! j = st2 !! j)
    as Hkeep.
  { intros j Hw. apply Hout'.
    - pose proof (Hlow c j Hc Hw). intros ->. lia.
    - intros c' Hc' Hw'%Hwithin; [|done]. by eapply Hapart. }
  exists w', (new1 ++ (c, REMOVED_FROM_STAGE) :: new').
  split.
  { simpl. fold st. rewrite Hp. simpl. rewrite Hch. simpl.
    rewrite Hb. simpl. rewrite Hrm. simpl. exact Hloop. }
  split; [done|]. split; [done|]. split; [done|].
  split.
  { intros c0 j [-> | Hc0]%elem_of_cons Hw.
    - rewrite (Hkeep j Hw). destruct Hw as [-> | Hd].
      + by rewrite Ht2, Ht.
      + rewrite Hout2; [by apply Hbelow1| |].
        * pose proof (Hlow c j Hc (or_intror Hd)). intros ->. lia.
        * intros ->%Honly. pose proof (descends_rank rank st c c Hwf Hd).
          lia.
    - rewrite (Hin' c0 j Hc0) by (by apply Hwithin).
      by rewrite (Hsame c0 j Hc0 Hw). }
  split.
  { intros j Hj Hnone. rewrite Hout'; [|done|].
    - rewrite Hout2; [|done|].
      + apply Hout1. apply Hnone. left.
      + intros ->%Honly. apply (Hnone c); [left|by left].
    - intros c' Hc' Hw%Hwithin; [|done]. apply (Hnone c'); [by right|done]. }
  split. { rewrite Hem', Hem2, Hem1, <- !app_assoc. done. }
  split.
  { apply NoDup_app. split; [done|]. split.
    - intros [j e] [-> Hd]%Hnew1 [[= ->] | Hin]%elem_of_cons.
      + pose proof (descends_rank rank st c c Hwf Hd). lia.
      + apply Hnew' in Hin as [_ (c' & Hc' & Hw%Hwithin)]; [|done].
        apply (Hapart c' j Hc' Hw). by right.
    - apply NoDup_cons. split; [|done].
      intros [_ (c' & Hc' & Hw%Hwithin)]%Hnew'; [|done].
      apply (Hapart c' c Hc' Hw). by left. }
  split.
  { intros j e. rewrite elem_of_app, elem_of_cons, Hnew1, Hnew'. split.
    - intros [[-> Hd] | [[= -> ->] | [-> (c' & Hc' & Hw)]]].
      + split; [done|]. exists c. split; [left|by right].
      + split; [done|]. exists c. split; [left|by left].
      + split; [done|]. exists c'. split; [by right|]. by apply Hwithin.
    - intros [-> (c' & [-> | Hc']%elem_of_cons & Hw)].
      + destruct Hw as [-> | Hd]; [right; by left|]. by left.
      + right. right. split; [done|]. exists c'. split; [done|].
        by apply Hwithin. }
  split; [congruence|].
  assert (∀ j, within st c j ∨ ¬ within st c j) as Hdec
    by (intros j; by eapply within_dec).
  eapply stops_ext;
    [|exact (stops_trans _ _ w w1 w'
               (λ a, acts_in_dec _ w a Hdec) Hstops1 Hstops')].
  intros a. simpl. split.
  + intros [(j & Hj & Ha) | (j & (c' & Hc' & Hw) & Ha)].
    * exists j. split; [|done]. exists c. split; [left|done].
    * exists j. split.
      -- exists c'. split; [by right|]. by apply Hwithin.
      -- by apply (stops_acts_on _ w w1 j a Hstops1).
  + intros (j & (c' & [-> | Hc']%elem_of_cons & Hw) & Ha).
    * left. by exists j.
    * right. exists j. split.
      -- exists c'. split; [done|]. by apply Hwithin.
      -- by apply (stops_acts_on _ w w1 j a Hstops1).
Qed.
End Sweep.

Lemma removeAllChildren_recursive fuel this w :
  removeAllChildren (S fuel) true this w
  = p ← sprites (scene w) !! this;
    match children p with
    | None | Some [] => Some w
    | Some cs =>
        w' ← removeAllChildren_loop
               (λ sprite w0,
                  w1 ← removeAllChildren fuel true sprite w0;
                  Action.stop_sprite sprite w1)
               fuel this (length cs) w;
        p' ← sprites (scene w') !! this;
        Some (with_scene
                (with_sprites
                   (<[this := with_children None p']> (sprites (scene w')))
                   (scene w')) w')
    end.
Proof. reflexivity. Qed.

Lemma acts_in_ext (R R' : nat → Prop) w a :
  (∀ j, R j ↔ R' j) → acts_in R w a ↔ acts_in R' w a.
Proof.
  intros E. unfold acts_in. split; intros (j & Hj & Ha); exists j;
    (split; [by apply E|done]).
Qed.

(** [removeAllChildren(true)]. *)
Lemma removeAllChildren_recursive_spec rank :
  ∀ fuel this w p,
    well_formed rank (sprites (scene w)) → tree_shaped (sprites (scene w)) →
    NoDup (_actionList w) →
    Forall (λ a, is_Some (actions w !! a)) (_actionList w) →
    sprites (scene w) !! this = Some p → (rank this < fuel)%nat →
    ∃ w' new,
      removeAllChildren fuel true this w = Some w' ∧
      well_formed rank (sprites (scene w')) ∧
      tree_shaped (sprites (scene w')) ∧
      sprites (scene w') !! this = Some (unchilded p) ∧
      (∀ j, descends (sprites (scene w)) this j →
            sprites (scene w') !! j = cleared <$> sprites (scene w) !! j) ∧
      (∀ j, ¬ within (sprites (scene w)) this j →
            sprites (scene w') !! j = sprites (scene w) !! j) ∧
      emitted (scene w') = emitted (scene w) ++ new ∧ NoDup new ∧
      (∀ j e, (j, e) ∈ new ↔
              e = REMOVED_FROM_STAGE ∧ descends (sprites (scene w)) this j) ∧
      onReady (scene w') = onReady (scene w) ∧
      stops (acts_in (descends (sprites (scene w)) this) w) w w'.
Proof.
  induction fuel as [|fuel IH]; intros this w p Hwf Htree Hnd Hex Hp Hfuel;
    [lia|].
  set (st := sprites (scene w)) in *.
  assert (kids p = [] →
          ∃ w' new,
            Some w = Some w' ∧
            well_formed rank (sprites (scene w')) ∧
            tree_shaped (sprites (scene w')) ∧
            sprites (scene w') !! this = Some p ∧
            (∀ j, descends st this j →
                  sprites (scene w') !! j = cleared <$> st !! j) ∧
            (∀ j, ¬ within st this j → sprites (scene w') !! j = st !! j) ∧
            emitted (scene w') = emitted (scene w) ++ new ∧ NoDup new ∧
            (∀ j e, (j, e) ∈ new ↔
                    e = REMOVED_FROM_STAGE ∧ descends st this j) ∧
            onReady (scene w') = onReady (scene w) ∧
            stops (acts_in (descends st this) w) w w') as Hidle.
  { intros Hk.
    assert (∀ j, ¬ descends st this j) as Hnone
      by (intros j; by eapply childless).
    exists w, []. split; [done|]. split; [done|]. split; [done|].
    split; [done|]. split. { intros j Hd. by apply Hnone in Hd. }
    split; [done|]. split; [by rewrite app_nil_r|].
    split; [apply NoDup_nil_2|]. split.
    { intros j e. split; [by intros ?%elem_of_nil|].
      intros [_ Hd]. by apply Hnone in Hd. }
    split; [done|]. apply stops_nothing; [done|].
    intros a (j & Hd & _). by apply Hnone in Hd. }
  rewrite removeAllChildren_recursive. fold st. rewrite Hp. simpl.
  destruct (children p) as [[|c0 cs0]|] eqn:Hch.
  - replace (unchilded p) with p by (unfold unchilded; by rewrite Hch).
    apply Hidle. unfold kids. by rewrite Hch.
  - set (cs := c0 :: cs0) in *.
    assert (kids p = cs) as Hk by (unfold kids; by rewrite Hch).
    destruct (sweep_loop rank
                (λ sprite w0,
                   w1 ← removeAllChildren fuel true sprite w0;
                   Action.stop_sprite sprite w1) this) with
      (fuel := fuel) (rest := cs) (n := length cs) (w := w) (p := p)
      as (w1 & new & Hloop & Hwf1 & Htree1 & Hp1 & Hin1 & Hout1 & Hem1
          & Hnd1 & Hnew1 & Hon1 & Hstops1);
      [|done|done|done|done|done|done|done|lia|].
    { clear dependent w. clear dependent p. clear cs.
      intros c w pc Hwf Htree Hnd Hex Hc Hrk.
      destruct (IH c w pc Hwf Htree Hnd Hex Hc)
        as (wa & new & Hrun & Hwfa & Htreea & Hca & Hbelow & Hout & Hem
            & Hndn & Hnew & Hon & Hstops); [lia|].
      pose proof Hstops as (Hnda & _).
      destruct (stop_sprite_stops c wa Hnda (stops_listed _ _ _ Hstops Hex))
        as (wb & Hstop & Escene & Hstopsb).
      exists wb, new. split. { rewrite Hrun. simpl. exact Hstop. }
      rewrite Escene. do 9 (split; [done|]).
      assert (∀ j, descends (sprites (scene w)) c j
                   ∨ ¬ descends (sprites (scene w)) c j) as Hdec
        by (intros j; by eapply descends_dec).
      eapply stops_ext;
        [|exact (stops_trans _ _ w wa wb
                   (λ a, acts_in_dec _ w a Hdec) Hstops Hstopsb)].
      intros a. simpl. rewrite (stops_acts_on _ w wa c a Hstops). split.
      - intros [(j & Hj & Ha) | Ha].
        + exists j. split; [by right|done].
        + exists c. split; [by left|done].
      - intros (j & [-> | Hj] & Ha); [by right|]. left. by exists j. }
    fold st in Hin1, Hout1, Hnew1, Hstops1.
    rewrite Hloop. simpl. rewrite Hp1. simpl.
    set (st' := <[this := with_children None (with_children (Some []) p)]>
                  (sprites (scene w1))).
    assert (same_links (sprites (scene w1)) st') as Hlinks.
    { intros j. unfold st'. destruct (decide (j = this)) as [-> | Hj].
      - by rewrite lookup_insert_eq, Hp1.
      - by rewrite lookup_insert_ne. }
    assert (∀ j, j ≠ this → st' !! j = sprites (scene w1) !! j) as Hother
      by (intros j Hj; unfold st'; by rewrite lookup_insert_ne).
    exists (with_scene (with_sprites st' (scene w1)) w1), new.
    split; [done|]. simpl.
    split; [by eapply same_links_well_formed|].
    split; [by eapply same_links_tree_shaped|].
    split.
    { unfold st'. rewrite lookup_insert_eq. f_equal. unfold unchilded.
      by rewrite Hch. }
    split.
    { intros j Hd. rewrite Hother.
      - apply (descends_children st this p j Hp) in Hd as (c & Hc & Hw).
        rewrite Hk in Hc. by apply (Hin1 c j).
      - pose proof (descends_rank rank st this j Hwf Hd). intros ->. lia. }
    split.
    { intros j Hnw. rewrite Hother by (intros ->; apply Hnw; by left).
      apply Hout1; [intros ->; apply Hnw; by left|].
      intros c Hc Hw. apply Hnw. right.
      apply (descends_children st this p j Hp). exists c. by rewrite Hk. }
    split; [done|]. split; [done|]. split.
    { intros j e. by rewrite Hnew1, (descends_children st this p j Hp), Hk. }
    split; [done|].
    eapply stops_ext; [|exact Hstops1].
    intros a. apply acts_in_ext. intros j.
    by rewrite (descends_children st this p j Hp), Hk.
  - replace (unchilded p) with p by (unfold unchilded; by rewrite Hch).
    apply Hidle. unfold kids. by rewrite Hch.
Qed.

(** X27. [removeAllChildren(true)] on a sprite of a well-formed tree, with
    the active actions all existing and listed once.  The call returns, and
    it clears the whole subtree: every sprite below the receiver ends
    without parent, without stage and, if it had children, with [children]
    set to [null] (as has the receiver); each of them emits
    [REMOVED_FROM_STAGE] exactly once; the actions of the active list that
    belong to a sprite below the receiver are stopped and leave the list,
    whose other entries keep their order, while the receiver's own actions
    and all other actions are left alone; afterwards no active action
    belongs to a sprite that was below the receiver.  The tree stays well
    formed, and nothing changes outside the receiver and the sprites below
    it. *)
Theorem X27_removeAllChildren_recursive_clears_the_subtree :
  ∀ rank fuel w this p,
    well_formed rank (sprites (scene w)) → tree_shaped (sprites (scene w)) →
    NoDup (_actionList w) →
    Forall (λ a, is_Some (actions w !! a)) (_actionList w) →
    sprites (scene w) !! this = Some p → (rank this < fuel)%nat →
    ∃ w' new,
      removeAllChildren fuel true this w = Some w' ∧
      well_formed rank (sprites (scene w')) ∧
      tree_shaped (sprites (scene w')) ∧
      sprites (scene w') !! this = Some (unchilded p) ∧
      (∀ j, descends (sprites (scene w)) this j →
            sprites (scene w') !! j = cleared <$> sprites (scene w) !! j) ∧
      (∀ j, ¬ within (sprites (scene w)) this j →
            sprites (scene w') !! j = sprites (scene w) !! j) ∧
      emitted (scene w') = emitted (scene w) ++ new ∧ NoDup new ∧
      (∀ j e, (j, e) ∈ new ↔
              e = REMOVED_FROM_STAGE ∧ descends (sprites (scene w)) this j) ∧
      onReady (scene w') = onReady (scene w) ∧
      stops (acts_in (descends (sprites (scene w)) this) w) w w' ∧
      (∀ a j, a ∈ _actionList w' → descends (sprites (scene w)) this j →
              ¬ acts_on j w' a).
Proof.
  intros rank fuel w this p Hwf Htree Hnd Hex Hp Hfuel.
  destruct (removeAllChildren_recursive_spec rank fuel this w p
              Hwf Htree Hnd Hex Hp Hfuel)
    as (w' & new & Hrun & Hwf' & Htree' & Hp' & Hbelow & Hout & Hem & Hndn
        & Hnew & Hon & Hstops).
  exists w', new. do 10 (split; [done|]). split; [done|].
  intros a j Ha Hd Hact.
  pose proof Hstops as (_ & _ & Hin & _).
  apply Hin in Ha as [_ Hno]. apply Hno. exists j. split; [done|].
  by apply (stops_acts_on _ w w' j a Hstops).
Qed.

Lemma X27_removeAllChildren_recursive_clears_the_subtree_witness :
  ∃ w' new,
    removeAllChildren 5 true 0 family_world = Some w' ∧
    sprites (scene w') !! 0%nat
      = Some (unchilded (with_children (Some [1%nat; 2%nat]) sized_parent)) ∧
    emitted (scene w') = emitted (scene family_world) ++ new ∧
    stops (acts_in (descends (sprites (scene family_world)) 0) family_world)
      family_world w'.
Proof.
  destruct (X27_removeAllChildren_recursive_clears_the_subtree family_rank
              5%nat family_world 0%nat
              (with_children (Some [1%nat; 2%nat]) sized_parent))
    as (w' & new & H & _ & _ & Hp & _ & _ & Hem & _ & _ & _ & Hstops & _).
  - apply (bool_decide_unpack (well_formed family_rank family)).
    vm_compute. reflexivity.
  - apply (bool_decide_unpack (tree_shaped family)). vm_compute. reflexivity.
  - apply (bool_decide_unpack (NoDup (_actionList family_world))).
    vm_compute. reflexivity.
  - apply (bool_decide_unpack
             (Forall (λ a, is_Some (actions family_world !! a))
                (_actionList family_world))).
    vm_compute. reflexivity.
  - reflexivity.
  - vm_compute. lia.
  - by exists w', new.
Defined.
(** ** Releasing a subtree *)

Lemma kids_emptied s : kids (emptied s) = [].
Proof.
  unfold emptied, kids. destruct (children s) as [cs|] eqn:E; simpl; [done|].
  by rewrite E.
Qed.

Lemma parent_emptied s : _parent (emptied s) = _parent s.
Proof. unfold emptied. by destruct (children s). Qed.

Lemma release_recursive fuel this wp :
  release (S fuel) true this wp
  = w1 ← Action.stop_sprite this wp.1;
    p ← sprites (scene w1) !! this;
    wp2 ← (if bool_decide (is_Some (children p)) then
             release_loop (release fuel true) this fuel (w1, wp.2)
           else
             w2 ← removeAllChildren fuel false this w1; Some (w2, wp.2));
    p2 ← sprites (scene wp2.1) !! this;
    wp3 ← match _parent p2 with
           | Some q =>
               sc ← removeChild fuel q this (scene wp2.1);
               Some (with_scene sc wp2.1, wp2.2)
           | None => Some wp2
           end;
    Some (wp3.1, wp3.2 ++ [this]).
Proof. reflexivity. Qed.

Section Release.
Variable rank : nat → nat.
Variable rel : nat → World * list nat → option (World * list nat).
Variable this : nat.
Variable m : nat.

Hypothesis rel_spec :
∀ c w pool pc,
  well_formed rank (sprites (scene w)) → tree_shaped (sprites (scene w)) →
  NoDup (_actionList w) →
  Forall (λ a, is_Some (actions w !! a)) (_actionList w) →
  sprites (scene w) !! c = Some pc → (rank c < rank this)%nat →
  (∀ j s, within (sprites (scene w)) c j → sprites (scene w) !! j = Some s →
          (length (kids s) ≤ m)%nat) →
  (∀ q, _parent pc = Some q →
        ∃ sq, sprites (scene w) !! q = Some sq ∧ c ∈ kids sq) →
  ∃ w' post new,
    rel c (w, pool) = Some (w', pool ++ post) ∧
    well_formed rank (sprites (scene w')) ∧
    tree_shaped (sprites (scene w')) ∧
    (∀ j, within (sprites (scene w)) c j →
          sprites (scene w') !! j = discarded <$> sprites (scene w) !! j) ∧
    (∀ q sq, _parent pc = Some q → sprites (scene w) !! q = Some sq →
             sprites (scene w') !! q
               = Some (with_children
                         (Some (removeArrayItem (kids sq) c)) sq)) ∧
    (∀ j, ¬ within (sprites (scene w)) c j → _parent pc ≠ Some j →
          sprites (scene w') !! j = sprites (scene w) !! j) ∧
    NoDup post ∧ (∀ j, j ∈ post ↔ within (sprites (scene w)) c j) ∧
    emitted (scene w') = emitted (scene w) ++ new ∧ NoDup new ∧
    (∀ j e, (j, e) ∈ new ↔
            e = REMOVED_FROM_STAGE ∧
            (descends (sprites (scene w)) c j
             ∨ j = c ∧ is_Some (_parent pc))) ∧
    onReady (scene w') = onReady (scene w) ∧
    stops (acts_in (within (sprites (scene w)) c) w) w w'.

Lemma release_loop_spec :
∀ rest n w pool p,
  well_formed rank (sprites (scene w)) → tree_shaped (sprites (scene w)) →
  NoDup (_actionList w) →
  Forall (λ a, is_Some (actions w !! a)) (_actionList w) →
  sprites (scene w) !! this = Some p → children p = Some rest →
  (length rest ≤ n)%nat →
  (∀ c j s, c ∈ rest → within (sprites (scene w)) c j →
            sprites (scene w) !! j = Some s → (length (kids s) ≤ m)%nat) →
  ∃ w' post new,
    release_loop rel this n (w, pool) = Some (w', pool ++ post) ∧
    well_formed rank (sprites (scene w')) ∧
    tree_shaped (sprites (scene w')) ∧
    sprites (scene w') !! this = Some (with_children (Some []) p) ∧
    (∀ c j, c ∈ rest → within (sprites (scene w)) c j →
            sprites (scene w') !! j
              = discarded <$> sprites (scene w) !! j) ∧
    (∀ j, j ≠ this → (∀ c, c ∈ rest → ¬ within (sprites (scene w)) c j) →
          sprites (scene w') !! j = sprites (scene w) !! j) ∧
    NoDup post ∧
    (∀ j, j ∈ post ↔ ∃ c, c ∈ rest ∧ within (sprites (scene w)) c j) ∧
    emitted (scene w') = emitted (scene w) ++ new ∧ NoDup new ∧
    (∀ j e, (j, e) ∈ new ↔
            e = REMOVED_FROM_STAGE ∧
            ∃ c, c ∈ rest ∧ within (sprites (scene w)) c j) ∧
    onReady (scene w') = onReady (scene w) ∧
    stops (acts_in (λ j, ∃ c, c ∈ rest ∧ within (sprites (scene w)) c j) w)
      w w'.
Proof.
induction rest as [|c rest IH];
  intros n w pool p Hwf Htree Hnd Hex Hp Hch Hn Hlen.
- exists w, [], []. split.
  { rewrite app_nil_r. destruct n; simpl; rewrite Hp; simpl; by rewrite Hch. }
  split; [done|]. split; [done|]. split.
  { rewrite Hp. f_equal. destruct p; simpl in *; by subst. }
  split; [by intros c j ?%elem_of_nil|].
  split; [done|]. split; [apply NoDup_nil_2|].
  split.
  { intros j. split; [by intros ?%elem_of_nil|].
    by intros (c & ?%elem_of_nil & _). }
  split; [by rewrite app_nil_r|]. split; [apply NoDup_nil_2|].
  split.
  { intros j e. split; [by intros ?%elem_of_nil|].
    by intros (_ & c & ?%elem_of_nil & _). }
  split; [done|]. apply stops_nothing; [done|].
  by intros a (j & (c & ?%elem_of_nil & _) & _).
- destruct n as [|n]; [simpl in Hn; lia|].
  set (st := sprites (scene w)) in *.
  assert (kids p = c :: rest) as Hk by (unfold kids; by rewrite Hch).
  destruct (well_formed_lookup _ _ _ _ Hwf Hp) as [Hpk _].
  destruct (map_Forall_lookup_1 _ _ _ _ Htree Hp) as [Hpnd Hback].
  rewrite Hk in Hpnd. apply NoDup_cons in Hpnd as [Hc_fresh Hnd_rest].
  assert (c ∈ kids p) as Hc by (rewrite Hk; left).
  destruct (Hpk c Hc) as [[t Ht] Hrk].
  assert (_parent t = Some this) as Hpar.
  { pose proof (proj1 (Forall_forall _ _) Hback c Hc) as E. simpl in E.
    fold st in E. rewrite Ht in E. by injection E. }
  assert (∀ c' j, c' ∈ kids p → within st c' j → (rank j < rank this)%nat)
    as Hlow.
  { intros c' j Hc' Hw. destruct (Hpk c' Hc') as [_ Hlt].
    destruct Hw as [-> | Hd]; [done|].
    pose proof (descends_rank rank st c' j Hwf Hd). lia. }
  destruct (rel_spec c w pool t Hwf Htree Hnd Hex Ht Hrk)
    as (w1 & post1 & new1 & Hrel & Hwf1 & Htree1 & Hin1 & Hq1 & Hout1
        & Hndp1 & Hpost1 & Hem1 & Hnd1 & Hnew1 & Hon1 & Hstops1).
  { intros j s Hw Hs. eapply (Hlen c j s); [left|done|done]. }
  { intros q Hq. assert (q = this) as -> by congruence. exists p.
    split; [exact Hp|exact Hc]. }
  fold st in Hin1, Hq1, Hout1, Hpost1, Hnew1, Hstops1.
  set (st1 := sprites (scene w1)) in *.
  pose proof (Hq1 this p Hpar Hp) as Hp1.
  rewrite Hk in Hp1. simpl in Hp1.
  rewrite bool_decide_eq_true_2 in Hp1 by done.
  set (p1 := with_children (Some rest) p) in *.
  assert (∀ c', c' ∈ rest → c' ∈ kids p) as Hrest_kids
    by (intros c' Hc'; rewrite Hk; by right).
  assert (∀ c' j, c' ∈ rest → within st c' j → ¬ within st c j) as Hapart.
  { intros c' j Hc' Hw' Hw.
    eapply (children_disjoint rank st this p c c' j); try done.
    - by apply Hrest_kids.
    - intros ->. done. }
  assert (∀ c' j, c' ∈ rest → within st c' j → st1 !! j = st !! j) as Hsame.
  { intros c' j Hc' Hw. apply Hout1; [by eapply Hapart|].
    rewrite Hpar. intros [= <-].
    pose proof (Hlow c' this (Hrest_kids _ Hc') Hw). lia. }
  assert (∀ c' j, c' ∈ rest → within st1 c' j ↔ within st c' j) as Hwithin.
  { intros c' j Hc'. unfold within.
    rewrite (descends_local st st1 c' j); [done|].
    intros x Hx. by rewrite (Hsame c' x Hc' Hx). }
  pose proof Hstops1 as (Hnd_l1 & _).
  pose proof (stops_listed _ _ _ Hstops1 Hex) as Hex1.
  destruct (IH n w1 (pool ++ post1) p1)
    as (w' & post' & new' & Hloop & Hwf' & Htree' & Hp' & Hin' & Hout'
        & Hndp' & Hpost' & Hem' & Hnd' & Hnew' & Hon' & Hstops');
    [done|done|done|done|done|done|simpl in Hn; lia| |].
  { intros c' j s Hc' Hw%Hwithin Hs; [|done].
    fold st1 in Hs. rewrite (Hsame c' j Hc' Hw) in Hs.
    eapply (Hlen c' j s); [by right|done|done]. }
  fold st1 in Hin', Hout', Hpost', Hnew', Hstops'.
  assert (∀ j, within st c j → sprites (scene w') !! j = st1 !! j)
    as Hkeep.
  { intros j Hw. apply Hout'.
    - pose proof (Hlow c j Hc Hw). intros ->. lia.
    - intros c' Hc' Hw'%Hwithin; [|done]. by eapply Hapart. }
  assert (∀ j e, (j, e) ∈ new1 ↔ e = REMOVED_FROM_STAGE ∧ within st c j)
    as Hnew1'.
  { intros j e. rewrite Hnew1. unfold within. rewrite Hpar. split.
    - intros [-> [Hd | [-> _]]]; split; try done; [by right|by left].
    - intros [-> [-> | Hd]]; (split; [done|]); [right|by left].
      split; [done|]. by eexists. }
  exists w', (post1 ++ post'), (new1 ++ new').
  split.
  { simpl. fold st. rewrite Hp. simpl. rewrite Hch. simpl.
    rewrite Hrel. simpl. rewrite Hloop. by rewrite app_assoc. }
  split; [done|]. split; [done|]. split; [done|].
  split.
  { intros c0 j [-> | Hc0]%elem_of_cons Hw.
    - rewrite (Hkeep j Hw). by apply Hin1.
    - rewrite (Hin' c0 j Hc0) by (by apply Hwithin).
      by rewrite (Hsame c0 j Hc0 Hw). }
  split.
  { intros j Hj Hnone. rewrite Hout'; [|done|].
    - apply Hout1; [apply Hnone; left|]. rewrite Hpar. congruence.
    - intros c' Hc' Hw%Hwithin; [|done]. apply (Hnone c'); [by right|done]. }
  split.
  { apply NoDup_app. split; [done|]. split; [|done].
    intros j Hj%Hpost1 (c' & Hc' & Hw%Hwithin)%Hpost'; [|done].
    by apply (Hapart c' j Hc' Hw). }
  split.
  { intros j. rewrite elem_of_app, Hpost1, Hpost'. split.
    - intros [Hw | (c' & Hc' & Hw)].
      + exists c. split; [left|done].
      + exists c'. split; [by right|]. by apply Hwithin.
    - intros (c' & [-> | Hc']%elem_of_cons & Hw); [by left|].
      right. exists c'. split; [done|]. by apply Hwithin. }
  split. { rewrite Hem', Hem1, <- !app_assoc. done. }
  split.
  { apply NoDup_app. split; [done|]. split; [|done].
    intros [j e] [_ Hw]%Hnew1' [_ (c' & Hc' & Hw'%Hwithin)]%Hnew'; [|done].
    by apply (Hapart c' j Hc' Hw'). }
  split.
  { intros j e. rewrite elem_of_app, Hnew1', Hnew'. split.
    - intros [[-> Hw] | [-> (c' & Hc' & Hw)]].
      + split; [done|]. exists c. split; [left|done].
      + split; [done|]. exists c'. split; [by right|]. by apply Hwithin.
    - intros [-> (c' & [-> | Hc']%elem_of_cons & Hw)]; [by left|].
      right. split; [done|]. exists c'. split; [done|]. by apply Hwithin. }
  split; [congruence|].
  assert (∀ j, within st c j ∨ ¬ within st c j) as Hdec
    by (intros j; by eapply within_dec).
  eapply stops_ext;
    [|exact (stops_trans _ _ w w1 w'
               (λ a, acts_in_dec _ w a Hdec) Hstops1 Hstops')].
  intros a. simpl. split.
  + intros [(j & Hj & Ha) | (j & (c' & Hc' & Hw) & Ha)].
    * exists j. split; [|done]. exists c. split; [left|done].
    * exists j. split.
      -- exists c'. split; [by right|]. by apply Hwithin.
      -- by apply (stops_acts_on _ w w1 j a Hstops1).
  + intros (j & (c' & [-> | Hc']%elem_of_cons & Hw) & Ha).
    * left. by exists j.
    * right. exists j. split.
      -- exists c'. split; [done|]. by apply Hwithin.
      -- by apply (stops_acts_on _ w w1 j a Hstops1).
Qed.
End Release.

(** [release(true)]. *)
Lemma release_recursive_spec rank m :
  ∀ fuel this w pool p,
    well_formed rank (sprites (scene w)) → tree_shaped (sprites (scene w)) →
    NoDup (_actionList w) →
    Forall (λ a, is_Some (actions w !! a)) (_actionList w) →
    sprites (scene w) !! this = Some p → (rank this + m + 1 < fuel)%nat →
    (∀ j s, within (sprites (scene w)) this j →
            sprites (scene w) !! j = Some s → (length (kids s) ≤ m)%nat) →
    (∀ q, _parent p = Some q →
          ∃ sq, sprites (scene w) !! q = Some sq ∧ this ∈ kids sq) →
    ∃ w' post new,
      release fuel true this (w, pool) = Some (w', pool ++ post) ∧
      well_formed rank (sprites (scene w')) ∧
      tree_shaped (sprites (scene w')) ∧
      (∀ j, within (sprites (scene w)) this j →
            sprites (scene w') !! j = discarded <$> sprites (scene w) !! j) ∧
      (∀ q sq, _parent p = Some q → sprites (scene w) !! q = Some sq →
               sprites (scene w') !! q
                 = Some (with_children
                           (Some (removeArrayItem (kids sq) this)) sq)) ∧
      (∀ j, ¬ within (sprites (scene w)) this j → _parent p ≠ Some j →
            sprites (scene w') !! j = sprites (scene w) !! j) ∧
      NoDup post ∧ (∀ j, j ∈ post ↔ within (sprites (scene w)) this j) ∧
      emitted (scene w') = emitted (scene w) ++ new ∧ NoDup new ∧
      (∀ j e, (j, e) ∈ new ↔
              e = REMOVED_FROM_STAGE ∧
              (descends (sprites (scene w)) this j
               ∨ j = this ∧ is_Some (_parent p))) ∧
      onReady (scene w') = onReady (scene w) ∧
      stops (acts_in (within (sprites (scene w)) this) w) w w' ∧
      last post = Some this.
Proof.
  induction fuel as [|fuel IH];
    intros this w pool p Hwf Htree Hnd Hex Hp Hfuel Hlen Hlisted; [lia|].
  rewrite release_recursive. simpl.
  destruct (stop_sprite_stops this w Hnd Hex)
    as (w1 & Hstop & Escene & Hstops0).
  rewrite Hstop. simpl. rewrite Escene.
  set (st := sprites (scene w)) in *. rewrite Hp. simpl.
  pose proof Hstops0 as (Hnd1 & _).
  pose proof (stops_listed _ _ _ Hstops0 Hex) as Hex1.
  assert (∀ j, descends st this j → (rank j < rank this)%nat) as Hlow
    by (intros j Hd; by eapply descends_rank).
  (* the children *)
  assert (∃ w2 post2 new2,
            (if bool_decide (is_Some (children p)) then
               release_loop (release fuel true) this fuel (w1, pool)
             else
               w2 ← removeAllChildren fuel false this w1; Some (w2, pool))
            = Some (w2, pool ++ post2) ∧
            well_formed rank (sprites (scene w2)) ∧
            tree_shaped (sprites (scene w2)) ∧
            sprites (scene w2) !! this = Some (emptied p) ∧
            (∀ j, descends st this j →
                  sprites (scene w2) !! j = discarded <$> st !! j) ∧
            (∀ j, ¬ within st this j → sprites (scene w2) !! j = st !! j) ∧
            NoDup post2 ∧ (∀ j, j ∈ post2 ↔ descends st this j) ∧
            emitted (scene w2) = emitted (scene w) ++ new2 ∧ NoDup new2 ∧
            (∀ j e, (j, e) ∈ new2 ↔
                    e = REMOVED_FROM_STAGE ∧ descends st this j) ∧
            onReady (scene w2) = onReady (scene w) ∧
            stops (acts_in (descends st this) w1) w1 w2)
    as (w2 & post2 & new2 & Hkids & Hwf2 & Htree2 & Hp2 & Hin2 & Hout2
        & Hndp2 & Hpost2 & Hem2 & Hndn2 & Hnew2 & Hon2 & Hstops2).
  { destruct (children p) as [cs|] eqn:Hch.
    - rewrite bool_decide_eq_true_2 by done.
      assert (kids p = cs) as Hk by (unfold kids; by rewrite Hch).
      destruct (release_loop_spec rank (release fuel true) this m) with
        (rest := cs) (n := fuel) (w := w1) (pool := pool) (p := p)
        as (w2 & post2 & new2 & Hloop & Hwf2 & Htree2 & Hp2 & Hin2 & Hout2
            & Hndp2 & Hpost2 & Hem2 & Hndn2 & Hnew2 & Hon2 & Hstops2).
      + intros c w0 pool0 pc Hwf0 Htree0 Hnd0 Hex0 Hc0 Hrk0 Hlen0 Hlisted0.
        destruct (IH c w0 pool0 pc)
          as (w' & post & new & ? & ? & ? & ? & ? & ? & ? & ? & ? & ? & ?
              & ? & ? & _); try done; [lia|].
        by exists w', post, new.
      + by rewrite Escene.
      + by rewrite Escene.
      + done.
      + done.
      + by rewrite Escene.
      + done.
      + rewrite <- Hk. pose proof (Hlen this p (or_introl eq_refl) Hp). lia.
      + rewrite Escene. fold st. intros c j s Hc Hw Hs.
        apply (Hlen j s); [|done]. right.
        eapply within_child; [exact Hp|by rewrite Hk|done].
      + rewrite Escene in Hin2, Hout2, Hpost2, Hem2, Hnew2, Hon2, Hstops2.
        fold st in Hin2, Hout2, Hpost2, Hnew2, Hstops2.
        exists w2, post2, new2. split; [done|]. split; [done|].
        split; [done|]. split.
        { rewrite Hp2. unfold emptied. by rewrite Hch. }
        split.
        { intros j (c & Hc & Hw)%(descends_children st this p j Hp).
          rewrite Hk in Hc. by apply (Hin2 c j). }
        split.
        { intros j Hnw. apply Hout2; [intros ->; apply Hnw; by left|].
          intros c Hc Hw. apply Hnw. right.
          apply (descends_children st this p j Hp). exists c.
          by rewrite Hk. }
        split; [done|]. split.
        { intros j. by rewrite Hpost2, (descends_children st this p j Hp), Hk. }
        split; [done|]. split; [done|]. split.
        { intros j e.
          by rewrite Hnew2, (descends_children st this p j Hp), Hk. }
        split; [done|].
        eapply stops_ext; [|exact Hstops2].
        intros a. apply acts_in_ext. intros j.
        by rewrite (descends_children st this p j Hp), Hk.
    - rewrite bool_decide_eq_false_2 by (by intros [? ?]).
      assert (∀ j, ¬ descends st this j) as Hnone.
      { intros j. eapply childless; [exact Hp|]. unfold kids. by rewrite Hch. }
      exists w1, [], []. split.
      { destruct fuel as [|fuel']; [lia|]. simpl. rewrite Escene. fold st.
        rewrite Hp. simpl. rewrite Hch. simpl. by rewrite app_nil_r. }
      rewrite Escene. fold st. split; [done|]. split; [done|]. split.
      { rewrite Hp. unfold emptied. by rewrite Hch. }
      split. { intros j Hd. by apply Hnone in Hd. }
      split; [done|]. split; [apply NoDup_nil_2|]. split.
      { intros j. split; [by intros ?%elem_of_nil|].
        intros Hd. by apply Hnone in Hd. }
      split; [by rewrite app_nil_r|]. split; [apply NoDup_nil_2|]. split.
      { intros j e. split; [by intros ?%elem_of_nil|].
        intros [_ Hd]. by apply Hnone in Hd. }
      split; [done|]. apply stops_nothing; [done|].
      intros a (j & Hd & _). by apply Hnone in Hd. }
  rewrite Hkids. simpl. rewrite Hp2. simpl. rewrite parent_emptied.
  assert (∀ j, ¬ descends (sprites (scene w2)) this j) as Hbare.
  { intros j. eapply childless; [exact Hp2|apply kids_emptied]. }
  assert (stops (acts_in (within st this) w) w w2) as Hstops.
  { assert (∀ a, acts_on this w a ∨ ¬ acts_on this w a) as Hdec
      by (intros a; destruct (acts_on_dec this w a); tauto).
    eapply stops_ext; [|exact (stops_trans _ _ w w1 w2 Hdec Hstops0 Hstops2)].
    intros a. simpl. split.
    - intros [Ha | (j & Hj & Ha)].
      + exists this. split; [by left|done].
      + exists j. split; [by right|].
        by apply (stops_acts_on _ w w1 j a Hstops0).
    - intros (j & [-> | Hj] & Ha); [by left|]. right. exists j.
      split; [done|]. by apply (stops_acts_on _ w w1 j a Hstops0). }
  assert (this ∉ post2) as Hfresh.
  { intros Hd%Hpost2. pose proof (Hlow this Hd). lia. }
  assert (NoDup (post2 ++ [this])) as Hndp.
  { apply NoDup_app. split; [done|]. split; [|apply NoDup_singleton].
    intros j Hj ->%list_elem_of_singleton. done. }
  assert (∀ j, j ∈ post2 ++ [this] ↔ within st this j) as Hpost.
  { intros j. rewrite elem_of_app, Hpost2, list_elem_of_singleton.
    unfold within. tauto. }
  destruct (_parent p) as [q|] eqn:Hpar.
  - destruct (Hlisted q eq_refl) as (sq & Hsq & Hthis).
    destruct (proj1 (well_formed_lookup _ _ _ _ Hwf Hsq) this Hthis)
      as [_ Hrk].
    assert (¬ within st this q) as Hq_out.
    { intros [-> | Hd]; [lia|]. pose proof (Hlow q Hd). lia. }
    assert (sprites (scene w2) !! q = Some sq) as Hsq2
      by (by rewrite Hout2).
    destruct (removeChild_spec rank fuel (scene w2) q this sq (emptied p)
                Hsq2 Hwf2 Htree2 Hthis Hp2)
      as (sc3 & new3 & Hrc & Hwf3 & Htree3 & Hq3 & _ & Hp3 & Hem3 & Hon3
          & Hnew3 & _ & Hout3 & _); [lia|].
    assert (new3 = []) as ->.
    { apply no_members. intros [j e] [_ Hd]%Hnew3. by apply Hbare in Hd. }
    rewrite Hrc. simpl.
    assert (∀ j, j ≠ q → j ≠ this →
              sprites sc3 !! j = sprites (scene w2) !! j) as Hrest.
    { intros j Hjq Hjt. apply Hout3; [done|].
      intros [-> | Hd]; [done|]. by apply Hbare in Hd. }
    exists (with_scene sc3 w2), (post2 ++ [this]),
      (new2 ++ [(this, REMOVED_FROM_STAGE)]).
    split; [by rewrite app_assoc|]. simpl.
    split; [done|]. split; [done|]. split.
    { intros j [-> | Hd].
      - rewrite Hp3, Hp. simpl. unfold discarded. by rewrite Hpar.
      - rewrite Hrest.
        + by apply Hin2.
        + pose proof (Hlow j Hd). intros ->. lia.
        + pose proof (Hlow j Hd). intros ->. lia. }
    split.
    { intros q' sq' [= <-] Hsq'. rewrite Hsq in Hsq'.
      by injection Hsq' as <-. }
    split.
    { intros j Hnw Hjq. rewrite Hrest.
      - by apply Hout2.
      - congruence.
      - intros ->. apply Hnw. by left. }
    split; [done|]. split; [done|].
    split. { by rewrite Hem3, Hem2, <- app_assoc. }
    split.
    { apply NoDup_app. split; [done|]. split; [|apply NoDup_singleton].
      intros [j e] [_ Hd]%Hnew2 [= -> ->]%list_elem_of_singleton.
      pose proof (Hlow this Hd). lia. }
    split.
    { intros j e. rewrite elem_of_app, Hnew2, list_elem_of_singleton. split.
      - intros [[-> Hd] | [= -> ->]]; (split; [done|]); [by left|].
        right. split; [done|]. by eexists.
      - intros [-> [Hd | [-> _]]]; [by left|by right]. }
    split; [congruence|]. split; [exact Hstops|apply last_snoc].
  - exists w2, (post2 ++ [this]), new2.
    split; [by rewrite app_assoc|].
    split; [done|]. split; [done|]. split.
    { intros j [-> | Hd].
      - rewrite Hp2, Hp. simpl. unfold discarded. by rewrite Hpar.
      - by apply Hin2. }
    split; [by intros q sq [=]|].
    split. { intros j Hnw _. by apply Hout2. }
    split; [done|]. split; [done|]. split; [done|]. split; [done|]. split.
    { intros j e. rewrite Hnew2. split.
      - intros [-> Hd]. split; [done|]. by left.
      - intros [-> [Hd | [_ [? [=]]]]]. done. }
    split; [done|]. split; [exact Hstops|apply last_snoc].
Qed.

(** X28. [release(true)] on a sprite of a well-formed tree whose parent, if
    it has one, lists it among its children, with the active actions all
    existing and listed once.  The call returns and releases the whole
    subtree: the sprite and every sprite below it are added to the release
    pool exactly once, after what the pool held, the sprite itself last;
    each of them that had a parent ends without parent and without stage,
    and each of them that had a children array ends with an empty one (not
    [null]); every sprite below the receiver, and the receiver if it had a
    parent, emits [REMOVED_FROM_STAGE] exactly once; the receiver is taken
    out of the children of its parent; the actions of the active list that
    belong to the sprite or to a sprite below it are stopped and leave the
    list, whose other entries keep their order.  The tree stays well
    formed, and nothing changes outside the parent, the receiver and the
    sprites below it.  [m] bounds the number of children of a sprite. *)
Theorem X28_release_recursive_releases_the_subtree :
  ∀ rank m fuel this w pool p,
    well_formed rank (sprites (scene w)) → tree_shaped (sprites (scene w)) →
    NoDup (_actionList w) →
    Forall (λ a, is_Some (actions w !! a)) (_actionList w) →
    sprites (scene w) !! this = Some p → (rank this + m + 1 < fuel)%nat →
    (∀ j s, within (sprites (scene w)) this j →
            sprites (scene w) !! j = Some s → (length (kids s) ≤ m)%nat) →
    (∀ q, _parent p = Some q →
          ∃ sq, sprites (scene w) !! q = Some sq ∧ this ∈ kids sq) →
    ∃ w' post new,
      release fuel true this (w, pool) = Some (w', pool ++ post) ∧
      well_formed rank (sprites (scene w')) ∧
      tree_shaped (sprites (scene w')) ∧
      (∀ j, within (sprites (scene w)) this j →
            sprites (scene w') !! j = discarded <$> sprites (scene w) !! j) ∧
      (∀ q sq, _parent p = Some q → sprites (scene w) !! q = Some sq →
               sprites (scene w') !! q
                 = Some (with_children
                           (Some (removeArrayItem (kids sq) this)) sq)) ∧
      (∀ j, ¬ within (sprites (scene w)) this j → _parent p ≠ Some j →
            sprites (scene w') !! j = sprites (scene w) !! j) ∧
      NoDup post ∧ (∀ j, j ∈ post ↔ within (sprites (scene w)) this j) ∧
      emitted (scene w') = emitted (scene w) ++ new ∧ NoDup new ∧
      (∀ j e, (j, e) ∈ new ↔
              e = REMOVED_FROM_STAGE ∧
              (descends (sprites (scene w)) this j
               ∨ j = this ∧ is_Some (_parent p))) ∧
      onReady (scene w') = onReady (scene w) ∧
      stops (acts_in (within (sprites (scene w)) this) w) w w' ∧
      last post = Some this.
Proof.
  intros rank m fuel this w pool p. apply release_recursive_spec.
Qed.

Lemma X28_release_recursive_releases_the_subtree_witness :
  ∃ w' post,
    release 6 true 1 (family_world, []) = Some (w', [] ++ post) ∧
    NoDup post ∧ last post = Some 1%nat ∧
    sprites (scene w') !! 0%nat
      = Some (with_children
                (Some (removeArrayItem
                         (kids (with_children (Some [1%nat; 2%nat])
                                  sized_parent)) 1))
                (with_children (Some [1%nat; 2%nat]) sized_parent)) ∧
    stops (acts_in (within (sprites (scene family_world)) 1) family_world)
      family_world w'.
Proof.
  destruct (X28_release_recursive_releases_the_subtree family_rank 2%nat
              6%nat 1%nat family_world []
              (with_children (Some [3%nat]) pinned_child))
    as (w' & post & new & H & _ & _ & _ & Hq & _ & Hnd & _ & _ & _ & _ & _
        & Hstops & Hlast).
  - apply (bool_decide_unpack (well_formed family_rank family)).
    vm_compute. reflexivity.
  - apply (bool_decide_unpack (tree_shaped family)). vm_compute. reflexivity.
  - apply (bool_decide_unpack (NoDup (_actionList family_world))).
    vm_compute. reflexivity.
  - apply (bool_decide_unpack
             (Forall (λ a, is_Some (actions family_world !! a))
                (_actionList family_world))).
    vm_compute. reflexivity.
  - reflexivity.
  - vm_compute. lia.
  - intros j s _ Hs.
    refine (map_Forall_lookup_1 (λ _ s, (length (kids s) ≤ 2)%nat)
              family j s _ Hs).
    apply (bool_decide_unpack
             (map_Forall (λ _ s, (length (kids s) ≤ 2)%nat) family)).
    vm_compute. reflexivity.
  - intros q [= <-].
    exists (with_children (Some [1%nat; 2%nat]) sized_parent).
    split; [reflexivity|].
    apply (bool_decide_unpack
             (1%nat ∈ kids (with_children (Some [1%nat; 2%nat]) sized_parent))).
    vm_compute. reflexivity.
  - exists w', post. repeat (split; [done|]). split; [by apply (Hq 0%nat)|done].
Defined.
(** ** The stage in the modes with one fixed dimension *)



